(** * Memory-subsystem microbenchmarks: a shallow embedding

    The development follows the two benchmark programs of the repository,
    [memtest_allsizes.c] (memcpy timing swept over buffer sizes, with CSV
    export and summary statistics) and [dram_row_policy.c] (row-buffer
    policy classification), and its singly linked list, [linkedlist.c].

    - unsigned 64-bit quantities ([uint64_t], [size_t]) are integers of [Z]
      with the wrap-around modulo [2^64] written out;
    - [long double] is the x87 extended format (64-bit significand) and
      [double] is binary64, both through the parameterised operations of
      [SpecFloat];
    - the files written by the sweep live in a finite map from file names
      to contents;
    - everything the environment decides (allocation and [fopen] results,
      time-stamp counter readings) is an explicit argument;
    - the nodes of the linked list live in a finite map from addresses to
      nodes, and a load or a store through an address that holds no node
      is a fault. *)

From Stdlib Require Import ZArith QArith Qpower Lia Lqa List Ascii String Bool.
From Stdlib Require Import DecimalString DecimalN.
From Stdlib Require Import Floats.SpecFloat.
From Stdlib Require Import Sorting.Permutation Sorting.Sorted.
From stdpp Require Import base option list gmap strings sorting.

Open Scope Z_scope.

(** ** Machine integers *)

Module U64.

Definition modulus : Z := 2 ^ 64.

(** Reduction of a mathematical integer to its [uint64_t] / [size_t]
    representative. *)
Definition wrap (z : Z) : Z := z mod modulus.

Definition in_range (z : Z) : Prop := 0 <= z < modulus.

Definition add (a b : Z) : Z := wrap (a + b).
Definition sub (a b : Z) : Z := wrap (a - b).

End U64.

(** ** CacheController: [flush_buffer] *)

Module Flush.

(** What the two inline-assembly statements do to the memory system, as
    an event trace: [clflush (%0)] on an address, and [mfence]. *)
Inductive event : Type :=
| Clflush (addr : Z)
| Mfence.

(** [const size_t line = 64;] *)
Definition line : Z := 64.

(** [clflush_line] applied to [p + off]. *)
Definition clflush_line (p : Z) : event := Clflush p.

(** The loop [for (size_t off = 0; off < size; off += line)] from the
    state in which [off] holds the given value; [off += line] wraps as
    [size_t] does, and so does the pointer addition.  [fuel] bounds the
    number of loop tests; [None] means the bound was reached. *)
Fixpoint flush_loop (fuel : nat) (p size off : Z) (tr : list event)
  : option (list event) :=
  match fuel with
  | O => None
  | S fuel' =>
      if off <? size
      then flush_loop fuel' p size (U64.add off line)
             (tr ++ [clflush_line (U64.add p off)])
      else Some tr
  end.

(** [flush_buffer buf size]: the loop, then the fence. *)
Definition flush_buffer (fuel : nat) (buf size : Z) : option (list event) :=
  match flush_loop fuel buf size 0 [] with
  | Some tr => Some (tr ++ [Mfence])
  | None => None
  end.

(** Number of loop iterations for a region of [size] bytes. *)
Definition n_lines (size : Z) : Z := (size + line - 1) / line.

(** The addresses [buf], [buf + 64], ... handed to [clflush]. *)
Definition stride_addrs (buf : Z) (n : nat) : list Z :=
  map (fun k => buf + line * Z.of_nat k) (seq 0 n).

(** The cache line with index [j] covers the bytes [64 j .. 64 j + 63];
    it meets the region [buf, buf + size) when they share a byte. *)
Definition line_meets (j buf size : Z) : Prop :=
  exists a, buf <= a < buf + size /\ line * j <= a < line * j + line.

(** The line invalidated by [clflush] on address [a]. *)
Definition line_of (a : Z) : Z := a / line.

Definition flushed (tr : list event) (j : Z) : Prop :=
  exists a, In (Clflush a) tr /\ line_of a = j.

End Flush.

(** ** Floating-point formats *)

(** [long double] on the x86 targets the programs are written for
    (they use [clflush], [cpuid] and [rdtsc]): the 80-bit extended format,
    64 bits of significand, exponents up to 16384. *)
Module LongDouble.

Definition prec : Z := 64.
Definition emax : Z := 16384.

Definition zero : spec_float := S754_zero false.

(** Conversion of an integer, [(long double)n]; also what the usual
    arithmetic conversions do to an integer operand. *)
Definition of_Z (n : Z) : spec_float := binary_normalize prec emax n 0 false.

(** The integer [z], [0 <= z < 2^64], as a [long double]: its binary
    digits moved to the top of the 64-bit significand. *)
Definition repr (z : Z) : spec_float :=
  match z with
  | Zpos p => S754_finite false (Z.to_pos (z * 2 ^ (64 - Zdigits2 z))) (Zdigits2 z - 64)
  | _ => zero
  end.

(** A constant [m * 2^e] given exactly, e.g. [1.5L] is [lit 3 (-1)]. *)
Definition lit (m e : Z) : spec_float := binary_normalize prec emax m e false.

Definition add : spec_float -> spec_float -> spec_float := SFadd prec emax.
Definition sub : spec_float -> spec_float -> spec_float := SFsub prec emax.
Definition mul : spec_float -> spec_float -> spec_float := SFmul prec emax.
Definition div : spec_float -> spec_float -> spec_float := SFdiv prec emax.

(** A decimal constant such as [1.1L], [dec 11 10]: the [long double]
    nearest to the fraction. *)
Definition dec (num den : Z) : spec_float := div (of_Z num) (of_Z den).

(** [sqrtl], the square root in [long double], for comparison. *)
Definition sqrtl : spec_float -> spec_float := SFsqrt prec emax.

End LongDouble.

(** [double]: binary64. *)
Module Double.

Definition prec : Z := 53.
Definition emax : Z := 1024.

(** The conversion [(double)x] of a [long double], rounding to nearest
    even. *)
Definition of_long_double (x : spec_float) : spec_float :=
  match x with
  | S754_finite s m e => binary_round prec emax s m e
  | _ => x
  end.

(** The (exact) conversion of a [double] back to [long double]. *)
Definition to_long_double (x : spec_float) : spec_float :=
  match x with
  | S754_finite s m e => binary_round LongDouble.prec LongDouble.emax s m e
  | _ => x
  end.

(** A decimal literal [m * 2^e] given exactly, e.g. [1.5] is
    [lit 3 (-1)]. *)
Definition lit (m e : Z) : spec_float := binary_normalize prec emax m e false.

(** [sqrt] of [math.h], on [double]. *)
Definition sqrt : spec_float -> spec_float := SFsqrt prec emax.

(** The comparison [a > b]; false when either side is a NaN. *)
Definition gtb (a b : spec_float) : bool := SFltb b a.

End Double.

(** The rational number denoted by a finite float; zero for the other
    cases, which the statements below always exclude. *)
Definition SF2Q (x : spec_float) : Q :=
  match x with
  | S754_finite s m e => inject_Z (cond_Zopp s (Zpos m)) * (2 ^ e)
  | _ => 0
  end%Q.

Definition is_finite_SF (x : spec_float) : bool :=
  match x with
  | S754_finite _ _ _ | S754_zero _ => true
  | _ => false
  end.

(** The integer nearest the fraction [N / D], the even one of the two
    nearest when the fraction lies half way between them: the rounding
    of both formats. *)
Definition round_half_even (N D : Z) : Z :=
  let q := N / D in
  let r := N mod D in
  if 2 * r <? D then q
  else if 2 * r =? D then (if Z.even q then q else q + 1)
  else q + 1.

(** What a shift record holds of the fraction [N / D]: its integer part,
    whether the rest reaches one half, and whether anything lies beside
    zero and one half. *)
Definition located (r : shr_record) (N D : Z) : Prop :=
  shr_m r = N / D /\
  shr_r r = (D <=? 2 * (N mod D)) /\
  shr_s r = negb (N mod D =? 0) && negb (2 * (N mod D) =? D).

(** A [long double] with a full 64-bit mantissa, its exponent at least
    [lo], or a zero: what the statistics hold in range. *)
Definition full_or_zero (lo : Z) (x : spec_float) : Prop :=
  match x with
  | S754_zero _ => True
  | S754_finite _ m e => 2 ^ 63 <= Zpos m < 2 ^ 64 /\ lo <= e
  | _ => False
  end.

(** A float that is a number and carries no minus sign. *)
Definition unsigned_SF (x : spec_float) : Prop :=
  match x with
  | S754_zero s | S754_finite s _ _ => s = false
  | _ => False
  end.

(** The reference for the accumulation of [stats]: the squares of the
    distances of the samples to [c], summed in the rationals, without
    any rounding. *)
Definition squares_about (c : Q) (l : list Z) : Q :=
  fold_right (fun v acc => (inject_Z v - c) * (inject_Z v - c) + acc)%Q 0%Q l.

(** ** PolicyClassifier: the conclusion of [dram_row_policy.c] *)

Module Policy.

Inductive policy : Type := OpenRow | ClosedRow.

(** [#define TEST_ITERATIONS 100000] *)
Definition TEST_ITERATIONS : Z := 100000.

(** The decision boundary, the literal [1.5]. *)
Definition threshold : spec_float := Double.lit 3 (-1).

(** [double speedup_ratio = (double)(mean_first / mean_second);] *)
Definition speedup_ratio (mean_first mean_second : spec_float) : spec_float :=
  Double.of_long_double (LongDouble.div mean_first mean_second).

(** The branch [if (speedup_ratio > 1.5)]: the first arm prints the
    open-row conclusion, the second the closed-row one. *)
Definition classify (mean_first mean_second : spec_float) : policy :=
  if Double.gtb (speedup_ratio mean_first mean_second) threshold
  then OpenRow
  else ClosedRow.

(** The accumulation loop [sum_first += first_access[i]] over one
    array, starting from [long double sum = 0]. *)
Definition sum_access (access : list Z) : spec_float :=
  fold_left (fun sum v => LongDouble.add sum (LongDouble.of_Z v))
    access LongDouble.zero.

(** [mean = sum / TEST_ITERATIONS] *)
Definition mean_access (access : list Z) : spec_float :=
  LongDouble.div (sum_access access) (LongDouble.of_Z TEST_ITERATIONS).

(** The three calls of the classifier listed with its contract. *)
Definition sample_calls : list (spec_float * spec_float) :=
  [ (LongDouble.lit 3 0, LongDouble.lit 1 0);
    (LongDouble.dec 11 10, LongDouble.lit 1 0);
    (LongDouble.lit 3 (-1), LongDouble.lit 1 0) ].

(** The conclusion reached from the two same-row series. *)
Definition conclusion (first_access second_access : list Z) : policy :=
  classify (mean_access first_access) (mean_access second_access).

End Policy.

(** ** StatisticsAggregator: the statistics block of [memtest_allsizes.c] *)

Module Stats.

(** [int cmp_uint64(const void *a, const void *b)] on the two values
    read through the pointers. *)
Definition cmp_uint64 (va vb : Z) : Z :=
  if va <? vb then -1
  else if va >? vb then 1
  else 0.

(** [qsort] belongs to the C library: it leaves the array in ascending
    order of the comparison function.  It is embedded as an insertion
    sort driven by the comparator; [sorted_unique] below shows that any
    other routine with that contract returns the same array here. *)
Fixpoint insert_by (cmp : Z -> Z -> Z) (x : Z) (l : list Z) : list Z :=
  match l with
  | [] => [x]
  | y :: l' => if cmp x y <=? 0 then x :: y :: l' else y :: insert_by cmp x l'
  end.

Definition qsort (cmp : Z -> Z -> Z) (base : list Z) : list Z :=
  fold_right (insert_by cmp) [] base.

(** Array read [a[i]] with a [size_t] index; [None] is an access outside
    the array. *)
Definition read (a : list Z) (i : Z) : option Z :=
  if i <? 0 then None else a !! Z.to_nat i.

Record summary : Type := {
  mean : spec_float;
  stddev : spec_float;
  minv : Z;
  maxv : Z;
  median : Z
}.

(** [for (i = 0; i < REPEAT; i++) sum += (long double)results[i];] *)
Definition sum_loop (results : list Z) : spec_float :=
  fold_left (fun sum r => LongDouble.add sum (LongDouble.of_Z r))
    results LongDouble.zero.

(** The loop accumulating [d * d] for [d = (long double)results[i] - mean]. *)
Definition ssum_loop (mean : spec_float) (results : list Z) : spec_float :=
  fold_left
    (fun ssum r =>
       let d := LongDouble.sub (LongDouble.of_Z r) mean in
       LongDouble.add ssum (LongDouble.mul d d))
    results LongDouble.zero.

(** [sqrt(ssum / (long double)REPEAT)] assigned to a [long double]: the
    program calls [sqrt], whose parameter and result are [double], so the
    quotient is converted to [double] and the root converted back. *)
Definition stddev_of (ssum : spec_float) (REPEAT : Z) : spec_float :=
  Double.to_long_double
    (Double.sqrt
       (Double.of_long_double (LongDouble.div ssum (LongDouble.of_Z REPEAT)))).

(** The block from [qsort] to the assignment of [median].  [results] is
    the array of [REPEAT] samples, [length results = REPEAT]: the program
    allocates it with [REPEAT] elements and copies, sorts and sums
    [REPEAT] elements of it, so the block is the code's only on lists of
    that length: the statements about its values take
    [length results = REPEAT] as a hypothesis, or have it by
    construction.  The two accumulation loops visit the array in trial
    order. *)
Definition stats (REPEAT : Z) (results : list Z) : option summary :=
  let sorted := qsort cmp_uint64 results in
  let sum := sum_loop results in
  let mean := LongDouble.div sum (LongDouble.of_Z REPEAT) in
  let ssum := ssum_loop mean results in
  let stddev := stddev_of ssum REPEAT in
  minv ← read sorted 0;
  maxv ← read sorted (U64.sub REPEAT 1);
  median ← (if REPEAT mod 2 =? 0
            then read sorted (REPEAT / 2)
            else read sorted (REPEAT / 2));
  Some {| mean := mean; stddev := stddev;
          minv := minv; maxv := maxv; median := median |}.

(** The same block over an arbitrary sorting routine, to compare
    implementations of [qsort]. *)
Definition stats_with (sort : list Z -> list Z) (REPEAT : Z) (results : list Z)
  : option summary :=
  let sorted := sort results in
  let mean := LongDouble.div (sum_loop results) (LongDouble.of_Z REPEAT) in
  minv ← read sorted 0;
  maxv ← read sorted (U64.sub REPEAT 1);
  median ← (if REPEAT mod 2 =? 0
            then read sorted (REPEAT / 2)
            else read sorted (REPEAT / 2));
  Some {| mean := mean; stddev := stddev_of (ssum_loop mean results) REPEAT;
          minv := minv; maxv := maxv; median := median |}.

(** The sum of the samples as an integer. *)
Definition total (l : list Z) : Z := fold_right Z.add 0 l.

(** A series of 2000 samples (the trial count of the 2 MiB size) with
    mean 700002 and variance 2: five hundred times the cycle counts
    700000, 700004, 700002, 700002. *)
Definition variance_two : list Z :=
  concat (repeat [700000; 700004; 700002; 700002] 500%nat).

(** The contract of a sorting routine on [uint64_t] keys. *)
Definition sorts (sort : list Z -> list Z) : Prop :=
  forall l, Sorted Z.le (sort l) /\ Permutation (sort l) l.

End Stats.

(** ** ResultSink: formatted output and the per-size CSV file *)

Module Csv.

(** The conversions [%zu] and [%PRIu64] of [printf]: the decimal digits
    of an unsigned value, no padding. *)
Definition fmt_u (n : Z) : string :=
  NilEmpty.string_of_uint (N.to_uint (Z.to_N n)).

(** The conversion [%d]. *)
Definition fmt_d (n : Z) : string :=
  if n <? 0 then String "-" (fmt_u (- n)) else fmt_u n.

Definition newline : ascii := "010"%char.
Definition comma : ascii := ","%char.

(** The header written by [fprintf(f, "rep,cycles\n")]. *)
Definition header : string := "rep,cycles" +:+ String newline EmptyString.

(** One data row, [fprintf(f, "%zu,%" PRIu64 "\n", i, results[i])]. *)
Definition row (i v : Z) : string :=
  fmt_u i +:+ String comma (fmt_u v +:+ String newline EmptyString).

(** The loop [for (i = 0; i < REPEAT; i++) fprintf(...)], entered with
    the index at [i] and the remaining samples ahead. *)
Fixpoint rows_from (i : Z) (results : list Z) : string :=
  match results with
  | [] => EmptyString
  | v :: rest => row i v +:+ rows_from (i + 1) rest
  end.

(** [snprintf(fname, sizeof(fname), "memcpy_2pow%d_%zub.csv", x, size)]
    with [char fname[256]]: at most 255 characters are kept. *)
Definition fname (x size : Z) : string :=
  substring 0 255 ("memcpy_2pow" +:+ fmt_d x +:+ "_" +:+ fmt_u size +:+ "b.csv").

(** The files of the working directory, by name. *)
Abbreviation fs := (gmap string string).

(** [fopen(name, "w")] when it succeeds: the file exists afterwards and
    is empty, whatever it held before. *)
Definition fopen_w (name : string) (files : fs) : fs := <[name := EmptyString]> files.

(** [fprintf] to the stream opened on [name]: the text goes to the end
    of the file. *)
Definition fprintf (name : string) (text : string) (files : fs) : fs :=
  match files !! name with
  | Some old => <[name := old +:+ text]> files
  | None => files
  end.

(** The export block between a successful [fopen] and [fclose]. *)
Definition write_csv (name : string) (results : list Z) (files : fs) : fs :=
  fprintf name (rows_from 0 results) (fprintf name header (fopen_w name files)).

(** *** Reading a file back

    The programs never read the CSV; this reader follows the format
    description (header line, then one [index,value] line per trial) and
    serves to state the round trip. *)

(** Lines of a text, each ended by a newline; [cur] is the line being
    read. *)
Fixpoint lines_from (cur : string) (text : string) : list string :=
  match text with
  | EmptyString => match cur with EmptyString => [] | _ => [cur] end
  | String c rest =>
      if Ascii.eqb c newline
      then cur :: lines_from EmptyString rest
      else lines_from (cur +:+ String c EmptyString) rest
  end.

Definition lines (text : string) : list string := lines_from EmptyString text.

(** Split at the first comma. *)
Fixpoint split_comma (s : string) : option (string * string) :=
  match s with
  | EmptyString => None
  | String c rest =>
      if Ascii.eqb c comma then Some (EmptyString, rest)
      else match split_comma rest with
           | Some (a, b) => Some (String c a, b)
           | None => None
           end
  end.

Definition parse_u (s : string) : option Z :=
  match NilEmpty.uint_of_string s with
  | Some d => Some (Z.of_N (N.of_uint d))
  | None => None
  end.

Definition parse_row (l : string) : option (Z * Z) :=
  match split_comma l with
  | Some (a, b) =>
      match parse_u a, parse_u b with
      | Some i, Some v => Some (i, v)
      | _, _ => None
      end
  | None => None
  end.

Fixpoint parse_rows (ls : list string) : option (list (Z * Z)) :=
  match ls with
  | [] => Some []
  | l :: rest =>
      match parse_row l, parse_rows rest with
      | Some r, Some rs => Some (r :: rs)
      | _, _ => None
      end
  end.

(** The first line and the parsed data rows of a CSV text. *)
Definition read_csv (text : string) : option (string * list (Z * Z)) :=
  match lines text with
  | [] => None
  | h :: ls =>
      match parse_rows ls with
      | Some rs => Some (h, rs)
      | None => None
      end
  end.

(** The data rows a series of samples is expected to produce: the trial
    index from [i] on, paired with the sample. *)
Fixpoint indexed (i : Z) (results : list Z) : list (Z * Z) :=
  match results with
  | [] => []
  | v :: rest => (i, v) :: indexed (i + 1) rest
  end.

(** Every character of the text satisfies the test. *)
Fixpoint all_chars (P : ascii -> bool) (s : string) : bool :=
  match s with
  | EmptyString => true
  | String c rest => P c && all_chars P rest
  end.

Definition is_digit (c : ascii) : bool :=
  let n := Z.of_N (N_of_ascii c) in (48 <=? n) && (n <=? 57).

End Csv.

(** ** The size sweep: [main] of [memtest_allsizes.c] *)

Module Sweep.

(** *** The command-line selector *)

(** [atoi] belongs to the C library.  It is embedded as glibc defines it,
    [(int) strtol(nptr, NULL, 10)]: leading white space, an optional sign,
    then decimal digits up to the first other character; the value is
    clamped to [long] and truncated to [int]. *)
Definition is_space (c : ascii) : bool :=
  match N_of_ascii c with
  | 32%N | 9%N | 10%N | 11%N | 12%N | 13%N => true
  | _ => false
  end.

Definition digit_of (c : ascii) : option Z :=
  let n := Z.of_N (N_of_ascii c) in
  if (48 <=? n) && (n <=? 57) then Some (n - 48) else None.

Fixpoint digits_val (acc : Z) (s : string) : Z :=
  match s with
  | EmptyString => acc
  | String c rest =>
      match digit_of c with
      | Some d => digits_val (10 * acc + d) rest
      | None => acc
      end
  end.

Fixpoint skip_spaces (s : string) : string :=
  match s with
  | EmptyString => s
  | String c rest => if is_space c then skip_spaces rest else s
  end.

Definition clamp_long (z : Z) : Z := Z.max (- 2 ^ 63) (Z.min (2 ^ 63 - 1) z).

Definition strtol (s : string) : Z :=
  match skip_spaces s with
  | String "-" rest => clamp_long (- digits_val 0 rest)
  | String "+" rest => clamp_long (digits_val 0 rest)
  | s' => clamp_long (digits_val 0 s')
  end.

Definition to_int (z : Z) : Z := (z + 2 ^ 31) mod 2 ^ 32 - 2 ^ 31.

Definition atoi (s : string) : Z := to_int (strtol s).

(** [int exponents[] = {6, 7, ..., 16, 20, 21};] *)
Definition exponents : list Z := [6; 7; 8; 9; 10; 11; 12; 13; 14; 15; 16; 20; 21].

(** [int n_sizes = sizeof(exponents) / sizeof(exponents[0]);] *)
Definition n_sizes : Z := Z.of_nat (length exponents).

(** The search loop, entered at index [i] with the entries [es] ahead:
    the first index holding [x], or the initial [found = -1]. *)
Fixpoint find_from (i : Z) (es : list Z) (x : Z) : Z :=
  match es with
  | [] => -1
  | e :: rest => if e =? x then i else find_from (i + 1) rest x
  end.

(** The block that sets [start_idx] and [end_idx] from the arguments. *)
Definition select (argv : list string) : Z * Z :=
  let argc := Z.of_nat (length argv) in
  let start_idx := 0 in
  let end_idx := n_sizes - 1 in
  if 2 <=? argc then
    let x := atoi (nth 1 argv EmptyString) in
    if negb (x =? 0) then
      let found := find_from 0 exponents x in
      if 0 <=? found then (found, found) else (start_idx, end_idx)
    else (start_idx, end_idx)
  else (start_idx, end_idx).

(** *** Per-size configuration *)

(** [size_t size = (size_t)1 << x;] *)
Definition size_of_exponent (x : Z) : Z := U64.wrap (Z.shiftl 1 x).

(** The adaptive choice of [REPEAT]. *)
Definition REPEAT_for (size : Z) : Z :=
  if size <=? 4096 then 200000
  else if size <=? 65536 then 50000
  else if size <=? 262144 then 20000
  else if size <=? 1048576 then 8000
  else 2000.

(** *** The world the program acts on *)

(** Lines sent to standard output, by the [printf] that produces them
    and its arguments. *)
Inductive out_line : Type :=
| MlockallOk
| Testing (x size REPEAT : Z)
| WroteCsv (name : string)
| SizeStats (size : Z) (s : Stats.summary).

(** Diagnostics sent to the error stream. *)
Inductive err_line : Type :=
| MlockallWarning
| MemalignBufFailed
| MemalignBufcopyFailed
| MallocResultsFail
| OpenFailed (name : string)
| MallocSortedFail.

Record world : Type := {
  files : gmap string string;
  stdout : list out_line;
  stderr : list err_line
}.

Definition print (l : out_line) (w : world) : world :=
  {| files := files w; stdout := stdout w ++ [l]; stderr := stderr w |}.

Definition eprint (l : err_line) (w : world) : world :=
  {| files := files w; stdout := stdout w; stderr := stderr w ++ [l] |}.

Definition with_files (f : gmap string string -> gmap string string) (w : world)
  : world :=
  {| files := f (files w); stdout := stdout w; stderr := stderr w |}.

(** What the environment decides: whether each library call succeeds
    (per size index [si]) and what the time-stamp counter reads around the
    timed copy of trial [rep]. *)
Record oracle : Type := {
  mlockall_ok : bool;
  memalign_buf_ok : Z -> bool;
  memalign_bufcopy_ok : Z -> bool;
  malloc_results_ok : Z -> bool;
  fopen_ok : Z -> bool;
  malloc_sorted_ok : Z -> bool;
  rdtsc_start : Z -> Z -> Z;
  rdtsc_end : Z -> Z -> Z
}.

(** How a piece of the program ends: it falls through to the next
    statement, the process exits, or an array is read out of bounds. *)
Inductive result : Type :=
| Continue (w : world)
| Exit (status : Z) (w : world)
| Undefined.

(** The measurement loop: [results[rep] = t1 - t0] for
    [rep = 0 .. REPEAT - 1].  The buffers and the cache flushes around the
    copy determine the readings, which come from the oracle. *)
Definition measure (o : oracle) (si REPEAT : Z) : list Z :=
  map (fun rep => U64.sub (rdtsc_end o si rep) (rdtsc_start o si rep))
    (seqZ 0 REPEAT).

(** One iteration of the loop over [si]. *)
Definition run_size (o : oracle) (si : Z) (w : world) : result :=
  let x := nth (Z.to_nat si) exponents 0 in
  let size := size_of_exponent x in
  let REPEAT := REPEAT_for size in
  let w := print (Testing x size REPEAT) w in
  if negb (memalign_buf_ok o si) then Exit 1 (eprint MemalignBufFailed w)
  else if negb (memalign_bufcopy_ok o si)
  then Exit 1 (eprint MemalignBufcopyFailed w)
  else if negb (malloc_results_ok o si) then Exit 1 (eprint MallocResultsFail w)
  else
    let results := measure o si REPEAT in
    let name := Csv.fname x size in
    if negb (fopen_ok o si) then Exit 1 (eprint (OpenFailed name) w)
    else
      let w := with_files (Csv.write_csv name results) w in
      let w := print (WroteCsv name) w in
      if negb (malloc_sorted_ok o si) then Exit 1 (eprint MallocSortedFail w)
      else
        match Stats.stats REPEAT results with
        | Some s => Continue (print (SizeStats size s) w)
        | None => Undefined
        end.

(** The loop [for (si = start_idx; si <= end_idx; ++si)] over the
    indices still to visit, then [return 0]. *)
Fixpoint sweep (o : oracle) (sis : list Z) (w : world) : result :=
  match sis with
  | [] => Exit 0 w
  | si :: rest =>
      match run_size o si w with
      | Continue w' => sweep o rest w'
      | r => r
      end
  end.

(** [int main(int argc, char **argv)] *)
Definition main (argv : list string) (o : oracle) (w : world) : result :=
  let '(start_idx, end_idx) := select argv in
  let w := if mlockall_ok o then print MlockallOk w
           else eprint MlockallWarning w in
  sweep o (seqZ start_idx (end_idx - start_idx + 1)) w.

(** The sizes a run announced with its [Testing] line, in order. *)
Definition measured (w : world) : list Z :=
  omap (fun l => match l with Testing _ size _ => Some size | _ => None end)
    (stdout w).

(** The CSV files a run reported as written, in order. *)
Definition written (w : world) : list string :=
  omap (fun l => match l with WroteCsv name => Some name | _ => None end)
    (stdout w).

Definition initial : world := {| files := ∅; stdout := []; stderr := [] |}.

(** Every library call of the iteration for size index [si] succeeds. *)
Definition all_ok (o : oracle) (si : Z) : Prop :=
  memalign_buf_ok o si = true /\ memalign_bufcopy_ok o si = true /\
  malloc_results_ok o si = true /\ fopen_ok o si = true /\
  malloc_sorted_ok o si = true.

(** An environment for examples: the counter advances by [300 + rep]
    cycles over trial [rep], and every call succeeds except the [fopen]
    of the sizes listed in [closed]. *)
Definition example_oracle (closed : list Z) : oracle := {|
  mlockall_ok := true;
  memalign_buf_ok := fun _ => true;
  memalign_bufcopy_ok := fun _ => true;
  malloc_results_ok := fun _ => true;
  fopen_ok := fun si => negb (bool_decide (si ∈ closed));
  malloc_sorted_ok := fun _ => true;
  rdtsc_start := fun _ rep => 1000 * rep;
  rdtsc_end := fun _ rep => 1000 * rep + 300 + rep
|}.

End Sweep.

(** ** TimestampSource: [rdtsc_start] and [rdtsc_end] *)

Module Tsc.

(** The two halves the counter instructions leave in [edx] and [eax],
    held in the [unsigned] variables [hi] and [lo]. *)
Definition word32 (z : Z) : Prop := 0 <= z < 2 ^ 32.

(** [return ((uint64_t)hi << 32) | lo;], the last statement of both
    functions. *)
Definition combine (hi lo : Z) : Z := Z.lor (U64.wrap (Z.shiftl hi 32)) lo.

(** [results[rep] = (t1 - t0);] and [first_access[i] = end1 - start1;]. *)
Definition elapsed (t0 t1 : Z) : Z := U64.sub t1 t0.

End Tsc.

(** ** The sweep, size by size *)

Module Run.

(** [exponents[si]], the size and the file name of the iteration for
    index [si]. *)
Definition exponent_at (si : Z) : Z := nth (Z.to_nat si) Sweep.exponents 0.
Definition size_at (si : Z) : Z := Sweep.size_of_exponent (exponent_at si).
Definition REPEAT_at (si : Z) : Z := Sweep.REPEAT_for (size_at si).
Definition name_at (si : Z) : string := Csv.fname (exponent_at si) (size_at si).

(** The text the export block leaves in the file of index [si]. *)
Definition csv_at (o : Sweep.oracle) (si : Z) : string :=
  Csv.header +:+ Csv.rows_from 0 (Sweep.measure o si (REPEAT_at si)).

(** The size indices [main] visits for the given arguments. *)
Definition range (argv : list string) : list Z :=
  seqZ (fst (Sweep.select argv))
    (snd (Sweep.select argv) - fst (Sweep.select argv) + 1).

(** The first library call of iteration [si] that fails, by the
    diagnostic its branch prints, in the order the calls are made. *)
Definition failure (o : Sweep.oracle) (si : Z) : option Sweep.err_line :=
  if negb (Sweep.memalign_buf_ok o si) then Some Sweep.MemalignBufFailed
  else if negb (Sweep.memalign_bufcopy_ok o si) then Some Sweep.MemalignBufcopyFailed
  else if negb (Sweep.malloc_results_ok o si) then Some Sweep.MallocResultsFail
  else if negb (Sweep.fopen_ok o si) then Some (Sweep.OpenFailed (name_at si))
  else if negb (Sweep.malloc_sorted_ok o si) then Some Sweep.MallocSortedFail
  else None.

(** The same environment with another outcome of [mlockall]. *)
Definition with_mlockall (b : bool) (o : Sweep.oracle) : Sweep.oracle :=
  {| Sweep.mlockall_ok := b;
     Sweep.memalign_buf_ok := Sweep.memalign_buf_ok o;
     Sweep.memalign_bufcopy_ok := Sweep.memalign_bufcopy_ok o;
     Sweep.malloc_results_ok := Sweep.malloc_results_ok o;
     Sweep.fopen_ok := Sweep.fopen_ok o;
     Sweep.malloc_sorted_ok := Sweep.malloc_sorted_ok o;
     Sweep.rdtsc_start := Sweep.rdtsc_start o;
     Sweep.rdtsc_end := Sweep.rdtsc_end o |}.


(** An example environment whose counter passes 2^64 between the two
    readings of every trial. *)
Definition wrapped_counter : Sweep.oracle :=
  {| Sweep.mlockall_ok := true;
     Sweep.memalign_buf_ok := fun _ => true;
     Sweep.memalign_bufcopy_ok := fun _ => true;
     Sweep.malloc_results_ok := fun _ => true;
     Sweep.fopen_ok := fun _ => true;
     Sweep.malloc_sorted_ok := fun _ => true;
     Sweep.rdtsc_start := fun _ rep => 2 ^ 64 - 100;
     Sweep.rdtsc_end := fun _ rep => 200 + rep |}.

(** The world [w] followed by the effects [d] of a run started from the
    empty world: its lines come after those of [w], its files replace or
    join those of [w]. *)
Definition after (w d : Sweep.world) : Sweep.world :=
  {| Sweep.files := Sweep.files d ∪ Sweep.files w;
     Sweep.stdout := Sweep.stdout w ++ Sweep.stdout d;
     Sweep.stderr := Sweep.stderr w ++ Sweep.stderr d |}.

Definition lift (f : Sweep.world -> Sweep.world) (r : Sweep.result) : Sweep.result :=
  match r with
  | Sweep.Continue w => Sweep.Continue (f w)
  | Sweep.Exit status w => Sweep.Exit status (f w)
  | Sweep.Undefined => Sweep.Undefined
  end.

(** The files left by the exports of the sizes [sis], in order. *)
Definition exported (o : Sweep.oracle) (sis : list Z) (files : Csv.fs) : Csv.fs :=
  fold_left (fun fs si => <[name_at si := csv_at o si]> fs) sis files.

(** Whether the diagnostic is the one of the sorted copy, the only fatal
    error that comes after the export. *)
Definition after_export (d : Sweep.err_line) : bool :=
  match d with Sweep.MallocSortedFail => true | _ => false end.

End Run.

(** ** The row-policy experiment: [main] of [dram_row_policy.c] *)

Module RowPolicy.

(** [#define ROW_SIZE (8 * 1024)] *)
Definition ROW_SIZE : Z := 8 * 1024.

(** Lines sent to standard output, one constructor per [printf]. *)
Inductive out_line : Type :=
| Banner (row_size : Z)
| Performing (iterations : Z)
| ResultsHeader
| FirstAccess (mean : spec_float)
| SecondAccess (mean : spec_float)
| DifferentRow (mean : spec_float)
| Speedup (ratio : spec_float)
| ConclusionHeader
| OpenRowPolicy
| OpenRowDetail (speedup_ratio : spec_float)
| ClosedRowPolicy
| ClosedRowDetail (speedup_ratio : spec_float).

Inductive err_line : Type :=
| AllocationFailed
| MlockallWarning.

Record world : Type := {
  stdout : list out_line;
  stderr : list err_line
}.

Definition print (l : out_line) (w : world) : world :=
  {| stdout := stdout w ++ [l]; stderr := stderr w |}.

Definition prints (ls : list out_line) (w : world) : world :=
  {| stdout := stdout w ++ ls; stderr := stderr w |}.

Definition eprint (l : err_line) (w : world) : world :=
  {| stdout := stdout w; stderr := stderr w ++ [l] |}.

(** What the environment decides: the outcome of the two allocations and
    of [mlockall], and the six counter readings of iteration [i]. *)
Record oracle : Type := {
  memalign_row1_ok : bool;
  memalign_row2_ok : bool;
  mlockall_ok : bool;
  start1 : Z -> Z; end1 : Z -> Z;
  start2 : Z -> Z; end2 : Z -> Z;
  start3 : Z -> Z; end3 : Z -> Z
}.

(** The three arrays the measurement loop fills. *)
Definition first_access (o : oracle) : list Z :=
  map (fun i => Tsc.elapsed (start1 o i) (end1 o i)) (seqZ 0 Policy.TEST_ITERATIONS).
Definition second_access (o : oracle) : list Z :=
  map (fun i => Tsc.elapsed (start2 o i) (end2 o i)) (seqZ 0 Policy.TEST_ITERATIONS).
Definition different_row_access (o : oracle) : list Z :=
  map (fun i => Tsc.elapsed (start3 o i) (end3 o i)) (seqZ 0 Policy.TEST_ITERATIONS).

(** The lines of the conclusion, by the branch taken. *)
Definition conclusion_lines (speedup_ratio : spec_float) : list out_line :=
  if Double.gtb speedup_ratio Policy.threshold
  then [OpenRowPolicy; OpenRowDetail speedup_ratio]
  else [ClosedRowPolicy; ClosedRowDetail speedup_ratio].

(** [int main()]: the value returned and the output. *)
Definition main (o : oracle) (w : world) : Z * world :=
  let w := print (Banner ROW_SIZE) w in
  if negb (memalign_row1_ok o) || negb (memalign_row2_ok o)
  then (1, eprint AllocationFailed w)
  else
    let w := if negb (mlockall_ok o) then eprint MlockallWarning w else w in
    let w := print (Performing Policy.TEST_ITERATIONS) w in
    let mean_first := Policy.mean_access (first_access o) in
    let mean_second := Policy.mean_access (second_access o) in
    let mean_diff := Policy.mean_access (different_row_access o) in
    let w := prints [ResultsHeader; FirstAccess mean_first; SecondAccess mean_second;
                     DifferentRow mean_diff;
                     Speedup (LongDouble.div mean_first mean_second)] w in
    let speedup_ratio := Policy.speedup_ratio mean_first mean_second in
    let w := print ConclusionHeader w in
    (0, prints (conclusion_lines speedup_ratio) w).

(** The policy a run announced, if it announced one. *)
Definition announced (w : world) : list Policy.policy :=
  omap (fun l => match l with
                 | OpenRowPolicy => Some Policy.OpenRow
                 | ClosedRowPolicy => Some Policy.ClosedRow
                 | _ => None
                 end) (stdout w).

Definition initial : world := {| stdout := []; stderr := [] |}.

(** An example environment: every call succeeds; a first access of 300
    cycles, a second of [second] cycles, another row in 310. *)
Definition example_oracle (second : Z) : oracle :=
  {| memalign_row1_ok := true; memalign_row2_ok := true; mlockall_ok := true;
     start1 := fun i => 5000 * i; end1 := fun i => 5000 * i + 300;
     start2 := fun i => 5000 * i + 400; end2 := fun i => 5000 * i + 400 + second;
     start3 := fun i => 5000 * i + 2000; end3 := fun i => 5000 * i + 2310 |}.

End RowPolicy.

(** ** The singly linked list of [linkedlist.c] *)

Module LinkedList.

Definition NULL : Z := 0.

(** [typedef struct Node { int data; struct Node *next; } node;] with
    addresses as integers. *)
Record node : Type := { data : Z; next : Z }.

(** What a run of a function comes to: a result, a fault (a load or a
    store through [NULL] or through an address that holds no node, a
    [free] of what is not allocated), or a loop still running when the
    steps granted are used up. *)
Inductive outcome (A : Type) : Type :=
| Done (a : A)
| Fault
| OutOfFuel.
Arguments Done {A} a.
Arguments Fault {A}.
Arguments OutOfFuel {A}.

#[export] Instance outcome_bind : MBind outcome := fun A B f x =>
  match x with
  | Done a => f a
  | Fault => Fault
  | OutOfFuel => OutOfFuel
  end.

(** What is printed, one constructor per format. *)
Inductive event : Type :=
| ElementFound
| ElementNotFound
| NotPresent (d : Z)
| TheListIs
| Item (d : Z)
| Newline.

(** The memory: the nodes by address, the addresses of the other blocks
    that are allocated, and the output so far. *)
Record state : Type := {
  nodes : gmap Z node;
  blocks : gset Z;
  out : list event
}.

(** The allocator: the address [malloc] returns given the addresses in
    use ([NULL] when it fails), and the indeterminate content of a fresh
    block. *)
Record env : Type := {
  malloc : gset Z -> Z;
  junk : Z -> node
}.

Definition allocated (st : state) : gset Z := dom (nodes st) ∪ blocks st.

Definition with_nodes (h : gmap Z node) (st : state) : state :=
  {| nodes := h; blocks := blocks st; out := out st |}.

Definition emit (ev : event) (st : state) : state :=
  {| nodes := nodes st; blocks := blocks st; out := out st ++ [ev] |}.

(** [(node * )malloc(sizeof(node))] *)
Definition malloc_node (e : env) (st : state) : Z * state :=
  let a := malloc e (allocated st) in
  (a, if a =? NULL then st else with_nodes (<[a := junk e a]> (nodes st)) st).

(** [malloc(5 * sizeof(int))] *)
Definition malloc_block (e : env) (st : state) : Z * state :=
  let a := malloc e (allocated st) in
  (a, if a =? NULL then st
      else {| nodes := nodes st; blocks := {[a]} ∪ blocks st; out := out st |}).

(** [free] of a node and of another block; [free(NULL)] does nothing. *)
Definition free_node (p : Z) (st : state) : outcome state :=
  if p =? NULL then Done st
  else match nodes st !! p with
       | Some _ => Done (with_nodes (delete p (nodes st)) st)
       | None => Fault
       end.

Definition free_block (p : Z) (st : state) : outcome state :=
  if p =? NULL then Done st
  else if decide (p ∈ blocks st)
       then Done {| nodes := nodes st; blocks := blocks st ∖ {[p]}; out := out st |}
       else Fault.

(** [*p], [p->data = d] and [p->next = q]. *)
Definition load (st : state) (p : Z) : outcome node :=
  match nodes st !! p with
  | Some n => Done n
  | None => Fault
  end.

Definition store_data (st : state) (p : Z) (d : Z) : outcome state :=
  n ← load st p;
  Done (with_nodes (<[p := {| data := d; next := next n |}]> (nodes st)) st).

Definition store_next (st : state) (p : Z) (q : Z) : outcome state :=
  n ← load st p;
  Done (with_nodes (<[p := {| data := data n; next := q |}]> (nodes st)) st).

(** [while (pointer->next != NULL) pointer = pointer->next;] *)
Fixpoint walk_to_last (fuel : nat) (st : state) (pointer : Z) : outcome Z :=
  match fuel with
  | O => OutOfFuel
  | S fuel' =>
      n ← load st pointer;
      if next n =? NULL then Done pointer
      else walk_to_last fuel' st (next n)
  end.

(** [void insert(node *pointer, int data)] *)
Definition insert (fuel : nat) (e : env) (st : state) (pointer : Z) (d : Z)
  : outcome state :=
  pointer ← walk_to_last fuel st pointer;
  let '(a, st) := malloc_node e st in
  st ← store_next st pointer a;
  n ← load st pointer;
  let pointer := next n in
  st ← store_data st pointer d;
  store_next st pointer NULL.

(** The loop of [find], entered with [pointer]. *)
Fixpoint find_loop (fuel : nat) (st : state) (pointer : Z) (key : Z) : outcome Z :=
  match fuel with
  | O => OutOfFuel
  | S fuel' =>
      if pointer =? NULL then Done 0
      else
        n ← load st pointer;
        if data n =? key then Done 1
        else find_loop fuel' st (next n) key
  end.

(** [int find(node *pointer, int key)] *)
Definition find (fuel : nat) (st : state) (pointer : Z) (key : Z) : outcome Z :=
  n ← load st pointer;
  find_loop fuel st (next n) key.

(** [while (pointer->next != NULL && (pointer->next)->data != data)
    pointer = pointer->next;], giving the pointer the loop leaves with. *)
Fixpoint delete_loop (fuel : nat) (st : state) (pointer : Z) (d : Z) : outcome Z :=
  match fuel with
  | O => OutOfFuel
  | S fuel' =>
      n ← load st pointer;
      if next n =? NULL then Done pointer
      else
        n' ← load st (next n);
        if data n' =? d then Done pointer
        else delete_loop fuel' st (next n) d
  end.

(** [void delete(node *pointer, int data)] *)
Definition delete (fuel : nat) (st : state) (pointer : Z) (d : Z) : outcome state :=
  pointer ← delete_loop fuel st pointer d;
  n ← load st pointer;
  if next n =? NULL then Done (emit (NotPresent d) st)
  else
    let temp := next n in
    t ← load st temp;
    st ← store_next st pointer (next t);
    free_node temp st.

(** [void print(node *pointer)] *)
Fixpoint print (fuel : nat) (st : state) (pointer : Z) : outcome state :=
  match fuel with
  | O => OutOfFuel
  | S fuel' =>
      if pointer =? NULL then Done st
      else
        n ← load st pointer;
        print fuel' (emit (Item (data n)) st) (next n)
  end.

(** [if(status) printf("Element Found\n"); else printf("Element Not
    Found\n");] *)
Definition report (status : Z) (st : state) : state :=
  emit (if status =? 0 then ElementNotFound else ElementFound) st.

Definition empty : state := {| nodes := ∅; blocks := ∅; out := [] |}.

(** [int main()]: the value returned, with the memory and the output at
    that point, besides the address of the sentinel. *)
Definition main (fuel : nat) (e : env) : outcome (Z * Z * state) :=
  let '(start, st) := malloc_node e empty in
  st ← store_next st start NULL;
  st ← insert fuel e st start 2;
  st ← delete fuel st start 2;
  status ← find fuel st start 2;
  let st := report status st in
  st ← insert fuel e st start 5;
  st ← insert fuel e st start 10;
  let '(ptr1, st) := malloc_block e st in
  st ← insert fuel e st start 22;
  let '(ptr2, st) := malloc_block e st in
  st ← insert fuel e st start 7;
  st ← insert fuel e st start 9;
  st ← insert fuel e st start 2;
  let '(ptr3, st) := malloc_block e st in
  st ← insert fuel e st start 11;
  st ← insert fuel e st start 11;
  st ← insert fuel e st start 77;
  let '(ptr4, st) := malloc_block e st in
  st ← insert fuel e st start 62;
  st ← insert fuel e st start 29;
  st ← free_block ptr1 st;
  st ← free_block ptr2 st;
  st ← free_block ptr3 st;
  st ← free_block ptr4 st;
  status ← find fuel st start 5;
  let st := report status st in
  let st := emit TheListIs st in
  n ← load st start;
  st ← print fuel st (next n);
  let st := emit Newline st in
  st ← delete fuel st start 5;
  Done (0, start, st).

(** *** What the memory represents *)

(** The nodes at the addresses [addrs], linked in this order from [p] to
    [NULL], hold the values [vals]. *)
Fixpoint chain (h : gmap Z node) (p : Z) (addrs vals : list Z) : Prop :=
  match addrs, vals with
  | [], [] => p = NULL
  | a :: addrs', v :: vals' =>
      p = a /\ a <> NULL /\
      exists q, h !! a = Some {| data := v; next := q |} /\ chain h q addrs' vals'
  | _, _ => False
  end.

(** The list headed by the sentinel at [start] holds [vals], in the
    nodes at [addrs]; no node is met twice and nothing lives at
    [NULL]. *)
Definition is_list (st : state) (start : Z) (addrs vals : list Z) : Prop :=
  (exists g, chain (nodes st) start (start :: addrs) (g :: vals)) /\
  NoDup (start :: addrs) /\
  nodes st !! NULL = None.

(** The list headed by [start] holds [vals], in some nodes. *)
Definition holds (st : state) (start : Z) (vals : list Z) : Prop :=
  exists addrs, is_list st start addrs vals.

(** An allocator that never fails and never hands out an address in
    use. *)
Definition sound (e : env) : Prop :=
  forall used, malloc e used <> NULL /\ malloc e used ∉ used.

(** An example allocator: the address after the greatest one in use,
    from 4096 on; fresh blocks hold a node of junk. *)
Definition bump : env :=
  {| malloc := fun used => 16 + set_fold Z.max 4080 used;
     junk := fun a => {| data := 12345; next := a |} |}.

(** An example memory: the sentinel at 100, then 7, 9 and 7 again. *)
Definition example_list : state :=
  {| nodes := <[100 := {| data := 0; next := 200 |}]>
              (<[200 := {| data := 7; next := 300 |}]>
               (<[300 := {| data := 9; next := 400 |}]>
                (<[400 := {| data := 7; next := NULL |}]> ∅)));
     blocks := ∅;
     out := [] |}.

(** An allocator that has nothing left. *)
Definition exhausted : env :=
  {| malloc := fun _ => NULL; junk := fun a => {| data := 0; next := 0 |} |}.

End LinkedList.

(** * Properties *)

(** ** Machine integers *)

Lemma wrap_range z : U64.in_range (U64.wrap z).
Proof. unfold U64.in_range, U64.wrap, U64.modulus. apply Z.mod_pos_bound. lia. Qed.

Lemma wrap_small z : U64.in_range z -> U64.wrap z = z.
Proof. unfold U64.in_range, U64.wrap. intros H. now apply Z.mod_small. Qed.

Lemma add_small a b : 0 <= a -> 0 <= b -> a + b < U64.modulus -> U64.add a b = a + b.
Proof. intros. apply wrap_small. unfold U64.in_range. lia. Qed.

Lemma sub_range a b : U64.in_range (U64.sub a b).
Proof. apply wrap_range. Qed.

(** ** CacheController *)

Lemma flush_loop_S fuel p size off tr :
  Flush.flush_loop (S fuel) p size off tr
  = if off <? size
    then Flush.flush_loop fuel p size (U64.add off Flush.line)
           (tr ++ [Flush.clflush_line (U64.add p off)])
    else Some tr.
Proof. reflexivity. Qed.

Section FlushLoop.

Variables buf size : Z.
Hypothesis buf_nonnull : 0 < buf.
Hypothesis buf_aligned : buf mod Flush.line = 0.
Hypothesis size_pos : 0 < size.
Hypothesis region_fits : buf + size <= U64.modulus.

Lemma n_lines_bounds :
  Flush.line * (Flush.n_lines size - 1) < size <= Flush.line * Flush.n_lines size.
Proof using All.
  unfold Flush.n_lines, Flush.line.
  pose proof (Z.div_mod (size + 64 - 1) 64 ltac:(lia)).
  pose proof (Z.mod_pos_bound (size + 64 - 1) 64 ltac:(lia)).
  lia.
Qed.

Lemma buf_ge_line : Flush.line <= buf.
Proof using All.
  unfold Flush.line in *.
  pose proof (Z.div_mod buf 64 ltac:(lia)). lia.
Qed.

(** The loop entered with [off = 64 i] and [k] lines still ahead leaves
    after [k] more flushes, at consecutive strides. *)
Lemma flush_loop_from (k i : nat) (tr : list Flush.event) :
  Z.of_nat (i + k) = (Flush.n_lines size) ->
  Flush.flush_loop (S k) buf size (Flush.line * Z.of_nat i) tr
  = Some (tr ++ map Flush.Clflush
                  (map (fun j => buf + Flush.line * Z.of_nat j) (seq i k))).
Proof using All.
  pose proof n_lines_bounds as HN. pose proof buf_ge_line as Hb.
  revert i tr. induction k as [|k IH]; intros i tr Hik.
  - rewrite flush_loop_S. cbn [seq map].
    destruct (Z.ltb_spec (Flush.line * Z.of_nat i) size) as [Hlt|_].
    + unfold Flush.line in *. lia.
    + now rewrite app_nil_r.
  - rewrite flush_loop_S.
    destruct (Z.ltb_spec (Flush.line * Z.of_nat i) size) as [_|Hge].
    2:{ unfold Flush.line in *. lia. }
    rewrite !add_small by (unfold Flush.line, U64.modulus in *; lia).
    replace (Flush.line * Z.of_nat i + Flush.line)
      with (Flush.line * Z.of_nat (S i)) by lia.
    rewrite IH by lia.
    cbn [seq map Flush.clflush_line]. now rewrite <- app_assoc.
Qed.

Lemma flush_buffer_trace :
  Flush.flush_buffer (S (Z.to_nat (Flush.n_lines size))) buf size
  = Some (map Flush.Clflush (Flush.stride_addrs buf (Z.to_nat (Flush.n_lines size)))
          ++ [Flush.Mfence]).
Proof using All.
  pose proof n_lines_bounds as HN.
  unfold Flush.flush_buffer.
  pose proof (flush_loop_from (Z.to_nat (Flush.n_lines size)) 0 []) as H.
  change (Flush.line * Z.of_nat 0) with 0 in H.
  rewrite H by (unfold Flush.line in *; lia).
  reflexivity.
Qed.

Lemma flushed_stride (j : Z) :
  Flush.flushed (map Flush.Clflush (Flush.stride_addrs buf (Z.to_nat (Flush.n_lines size)))) j
  <-> buf / Flush.line <= j < buf / Flush.line + (Flush.n_lines size).
Proof using All.
  pose proof n_lines_bounds as HN.
  assert (Hbuf : buf = Flush.line * (buf / Flush.line)).
  { pose proof (Z.div_mod buf Flush.line ltac:(unfold Flush.line; lia)). lia. }
  unfold Flush.flushed, Flush.stride_addrs, Flush.line_of. split.
  - intros (a & Hin & Ha).
    apply in_map_iff in Hin as (a' & [= ->] & Hin).
    apply in_map_iff in Hin as (k & <- & Hk). apply in_seq in Hk.
    rewrite Z.mul_comm, Z.div_add in Ha by (unfold Flush.line; lia).
    unfold Flush.line in *. lia.
  - intros Hj. exists (buf + Flush.line * (j - buf / Flush.line)). split.
    + apply in_map, in_map_iff. exists (Z.to_nat (j - buf / Flush.line)). split.
      * f_equal. f_equal. lia.
      * apply in_seq. unfold Flush.line in *. lia.
    + rewrite Z.mul_comm, Z.div_add by (unfold Flush.line; lia). lia.
Qed.

Lemma line_meets_iff (j : Z) :
  Flush.line_meets j buf size <-> buf / Flush.line <= j < buf / Flush.line + (Flush.n_lines size).
Proof using All.
  pose proof n_lines_bounds as HN.
  assert (Hbuf : buf = Flush.line * (buf / Flush.line)).
  { pose proof (Z.div_mod buf Flush.line ltac:(unfold Flush.line; lia)). lia. }
  unfold Flush.line_meets, Flush.line in *. split.
  - intros (a & Ha & Hj). nia.
  - intros Hj. exists (64 * j). nia.
Qed.

End FlushLoop.

(** The bound on the region matters: with a size above [2^64 - 64] the
    offset wraps to 0 before it reaches [size], and the loop never
    leaves. *)
Lemma flush_loop_wraps (fuel : nat) (p off : Z) (tr : list Flush.event) :
  0 <= off < U64.modulus -> off mod Flush.line = 0 ->
  Flush.flush_loop fuel p (U64.modulus - 1) off tr = None.
Proof.
  revert off tr. induction fuel as [|fuel IH]; intros off tr Hoff Hal; [reflexivity|].
  rewrite flush_loop_S.
  assert (Hm : off = Flush.line * (off / Flush.line)).
  { pose proof (Z.div_mod off Flush.line ltac:(unfold Flush.line; lia)). lia. }
  unfold Flush.line, U64.modulus in *.
  destruct (Z.ltb_spec off (2 ^ 64 - 1)) as [_|Hge]; [|lia].
  apply IH.
  - apply Z.mod_pos_bound. lia.
  - unfold U64.add, U64.wrap, U64.modulus, Flush.line.
    rewrite Z.mod_mod_divide by (exists (2 ^ 58); reflexivity).
    rewrite Hm, Z.add_comm, Z.mul_comm, Z.mod_add; [reflexivity|lia].
Qed.

(** C5.  For a buffer at a non-null base address aligned to 64 bytes and
    a size > 0, the region lying inside the address space, [flush_buffer]
    returns; it issues one cache-line flush per 64-byte stride from the
    base, the flushed lines are exactly the lines that intersect
    [buf, buf + size) (so the last, partial line is flushed as well), and
    the fence is the last event, after every flush. *)
Theorem flush_buffer_covers_region (buf size : Z) :
  0 < buf -> buf mod Flush.line = 0 -> 0 < size -> buf + size <= U64.modulus ->
  exists fuel tr,
    Flush.flush_buffer fuel buf size = Some (tr ++ [Flush.Mfence]) /\
    tr = map Flush.Clflush
           (Flush.stride_addrs buf (Z.to_nat (Flush.n_lines size))) /\
    (forall j, Flush.line_meets j buf size <-> Flush.flushed tr j) /\
    Flush.flushed tr ((buf + size - 1) / Flush.line).
Proof.
  intros Hnn Hal Hsz Hfit.
  exists (S (Z.to_nat (Flush.n_lines size))),
    (map Flush.Clflush (Flush.stride_addrs buf (Z.to_nat (Flush.n_lines size)))).
  assert (Hiff : forall j, Flush.line_meets j buf size <->
     Flush.flushed (map Flush.Clflush
        (Flush.stride_addrs buf (Z.to_nat (Flush.n_lines size)))) j).
  { intros j. rewrite line_meets_iff, flushed_stride by assumption. reflexivity. }
  split; [now apply flush_buffer_trace|]. split; [reflexivity|]. split; [exact Hiff|].
  apply Hiff. exists (buf + size - 1). split; [lia|].
  unfold Flush.line.
  pose proof (Z.div_mod (buf + size - 1) 64 ltac:(lia)).
  pose proof (Z.mod_pos_bound (buf + size - 1) 64 ltac:(lia)). lia.
Qed.

Lemma flush_buffer_covers_region_witness :
  exists fuel tr,
    Flush.flush_buffer fuel 4096 100 = Some (tr ++ [Flush.Mfence]) /\
    tr = map Flush.Clflush (Flush.stride_addrs 4096 (Z.to_nat (Flush.n_lines 100))) /\
    (forall j, Flush.line_meets j 4096 100 <-> Flush.flushed tr j) /\
    Flush.flushed tr ((4096 + 100 - 1) / Flush.line).
Proof.
  apply (flush_buffer_covers_region 4096 100); unfold U64.modulus; try lia.
  reflexivity.
Defined.

(** ** Sorting *)

Lemma cmp_uint64_le_iff va vb : Stats.cmp_uint64 va vb <= 0 <-> va <= vb.
Proof.
  unfold Stats.cmp_uint64.
  destruct (Z.ltb_spec va vb); [lia|].
  destruct (Z.gtb_spec va vb); lia.
Qed.

Lemma insert_by_perm x l :
  Permutation (Stats.insert_by Stats.cmp_uint64 x l) (x :: l).
Proof.
  induction l as [|y l IH]; cbn [Stats.insert_by]; [reflexivity|].
  destruct (_ <=? 0); [reflexivity|].
  rewrite IH. apply perm_swap.
Qed.

Lemma insert_by_hdrel a x l :
  a <= x -> HdRel Z.le a l -> HdRel Z.le a (Stats.insert_by Stats.cmp_uint64 x l).
Proof.
  intros Hax Hl. destruct l as [|y l]; cbn [Stats.insert_by].
  - now constructor.
  - destruct (_ <=? 0); constructor; [assumption|].
    now inversion Hl.
Qed.

Lemma insert_by_sorted x l :
  Sorted Z.le l -> Sorted Z.le (Stats.insert_by Stats.cmp_uint64 x l).
Proof.
  induction 1 as [|y l Hs IH Hhd]; cbn [Stats.insert_by].
  - repeat constructor.
  - destruct (Z.leb_spec (Stats.cmp_uint64 x y) 0) as [Hle|Hgt].
    + apply -> cmp_uint64_le_iff in Hle.
      apply Sorted_cons; [apply Sorted_cons; assumption|apply HdRel_cons; exact Hle].
    + assert (y <= x) by (pose proof (cmp_uint64_le_iff x y); lia).
      constructor; [assumption|]. now apply insert_by_hdrel.
Qed.

Lemma qsort_sorts : Stats.sorts (Stats.qsort Stats.cmp_uint64).
Proof.
  intros l. unfold Stats.qsort. induction l as [|x l [IHs IHp]]; cbn [fold_right].
  - split; constructor.
  - split; [now apply insert_by_sorted|].
    rewrite insert_by_perm. now constructor.
Qed.

Lemma sorted_head_le a l x : Sorted Z.le (a :: l) -> In x l -> a <= x.
Proof.
  intros Hs Hin. apply Sorted_StronglySorted in Hs; [|intros ? ? ?; lia].
  inversion Hs as [|? ? _ Hall]; subst.
  rewrite List.Forall_forall in Hall. now apply Hall.
Qed.

(** An ascending array is determined by its contents, so every sorting
    routine returns the array [qsort] returns. *)
Lemma sorted_unique (l1 l2 : list Z) :
  Sorted Z.le l1 -> Sorted Z.le l2 -> Permutation l1 l2 -> l1 = l2.
Proof.
  revert l2. induction l1 as [|a l1 IH]; intros l2 H1 H2 Hp.
  - apply Permutation_nil in Hp. now subst.
  - destruct l2 as [|b l2].
    { apply Permutation_sym, Permutation_nil in Hp. discriminate. }
    assert (a = b) as ->.
    { assert (Ha : In a (b :: l2)) by (eapply Permutation_in; [exact Hp|now left]).
      assert (Hb : In b (a :: l1))
        by (eapply Permutation_in; [symmetry; exact Hp|now left]).
      destruct Ha as [->|Ha]; [reflexivity|].
      destruct Hb as [->|Hb]; [reflexivity|].
      pose proof (sorted_head_le _ _ _ H1 Hb). pose proof (sorted_head_le _ _ _ H2 Ha).
      lia. }
    f_equal. apply IH.
    + now inversion H1.
    + now inversion H2.
    + now apply Permutation_cons_inv in Hp.
Qed.

Lemma sorts_agree sort (l : list Z) :
  Stats.sorts sort -> sort l = Stats.qsort Stats.cmp_uint64 l.
Proof.
  intros Hs. destruct (Hs l) as [S1 P1]. destruct (qsort_sorts l) as [S2 P2].
  apply sorted_unique; try assumption. now rewrite P1, P2.
Qed.

Lemma sorted_lookup_le (l : list Z) (i j : nat) a b :
  Sorted Z.le l -> (i <= j)%nat -> l !! i = Some a -> l !! j = Some b -> a <= b.
Proof.
  intros Hs. revert i j. induction Hs as [|x l Hs IH Hhd]; intros i j Hij Hi Hj.
  - discriminate.
  - destruct i as [|i], j as [|j]; cbn in Hi, Hj.
    + assert (a = b) by congruence. lia.
    + injection Hi as <-.
      apply (sorted_head_le x l b); [now constructor|].
      apply list_elem_of_In. eapply list_elem_of_lookup_2; eassumption.
    + lia.
    + apply (IH i j); [lia|assumption..].
Qed.

Lemma qsort_length (l : list Z) :
  length (Stats.qsort Stats.cmp_uint64 l) = length l.
Proof. apply Permutation_length, qsort_sorts. Qed.

Lemma read_lookup (a : list Z) (i : Z) :
  0 <= i -> Stats.read a i = a !! Z.to_nat i.
Proof. intros H. unfold Stats.read. destruct (Z.ltb_spec i 0); [lia|reflexivity]. Qed.

Lemma read_in_range (a : list Z) (i : Z) :
  0 <= i < Z.of_nat (length a) -> exists v, Stats.read a i = Some v.
Proof.
  intros H. rewrite read_lookup by lia.
  apply lookup_lt_is_Some_2. lia.
Qed.

(** The statistics block returns a summary for every non-empty series,
    and its three order statistics are the reads at [0], [REPEAT - 1] and
    [REPEAT / 2] of the sorted array. *)
Lemma stats_defined (REPEAT : Z) (results : list Z) :
  0 < REPEAT -> REPEAT < U64.modulus -> Z.of_nat (length results) = REPEAT ->
  exists s,
    Stats.stats REPEAT results = Some s /\
    let sorted := Stats.qsort Stats.cmp_uint64 results in
    sorted !! 0%nat = Some (Stats.minv s) /\
    sorted !! Z.to_nat (REPEAT - 1) = Some (Stats.maxv s) /\
    sorted !! Z.to_nat (REPEAT / 2) = Some (Stats.median s) /\
    Stats.mean s = LongDouble.div (Stats.sum_loop results) (LongDouble.of_Z REPEAT) /\
    Stats.stddev s = Stats.stddev_of (Stats.ssum_loop (Stats.mean s) results) REPEAT.
Proof.
  intros Hpos Hlt Hlen. unfold Stats.stats.
  set (sorted := Stats.qsort Stats.cmp_uint64 results).
  assert (Hsl : Z.of_nat (length sorted) = REPEAT)
    by (unfold sorted; now rewrite qsort_length).
  assert (Hsub : U64.sub REPEAT 1 = REPEAT - 1).
  { apply wrap_small. unfold U64.in_range. lia. }
  assert (Hhalf : 0 <= REPEAT / 2 < REPEAT).
  { split; [apply Z.div_pos; lia|apply Z.div_lt_upper_bound; lia]. }
  destruct (read_in_range sorted 0) as [mn Hmn]; [lia|].
  destruct (read_in_range sorted (REPEAT - 1)) as [mx Hmx]; [lia|].
  destruct (read_in_range sorted (REPEAT / 2)) as [md Hmd]; [lia|].
  rewrite Hsub, Hmn, Hmx. cbn [mbind option_bind].
  assert (Hmed : (if REPEAT mod 2 =? 0 then Stats.read sorted (REPEAT / 2)
                  else Stats.read sorted (REPEAT / 2)) = Some md)
    by (destruct (_ =? 0); exact Hmd).
  rewrite Hmed. cbn [mbind option_bind].
  eexists. split; [reflexivity|]. cbn.
  rewrite read_lookup in Hmn, Hmx, Hmd by lia.
  repeat split; assumption.
Qed.

(** ** Order statistics *)

(** C2.  For every non-empty series the reported median is the element
    at zero-based index [REPEAT / 2] of the ascending-sorted series, taken
    as it stands (no averaging): [REPEAT / 2] samples lie before it; for an
    odd count as many lie after it (the middle element), for an even count
    one fewer. *)
Theorem median_is_sorted_at_half (REPEAT : Z) (results : list Z) :
  0 < REPEAT -> REPEAT < U64.modulus -> Z.of_nat (length results) = REPEAT ->
  exists s sorted before after,
    Stats.stats REPEAT results = Some s /\
    Sorted Z.le sorted /\ Permutation sorted results /\
    sorted !! Z.to_nat (REPEAT / 2) = Some (Stats.median s) /\
    sorted = before ++ Stats.median s :: after /\
    Z.of_nat (length before) = REPEAT / 2 /\
    (Z.odd REPEAT = true -> length after = length before) /\
    (Z.even REPEAT = true -> S (length after) = length before).
Proof.
  intros Hpos Hlt Hlen.
  destruct (stats_defined REPEAT results Hpos Hlt Hlen)
    as (s & Hs & _ & _ & Hmed & _).
  set (sorted := Stats.qsort Stats.cmp_uint64 results) in *.
  set (k := Z.to_nat (REPEAT / 2)) in *.
  assert (Hsl : length sorted = length results) by apply qsort_length.
  assert (Hk : (k < length sorted)%nat) by (eapply lookup_lt_Some; eassumption).
  assert (Hhalf : Z.of_nat k = REPEAT / 2).
  { unfold k. apply Z2Nat.id, Z.div_pos; lia. }
  exists s, sorted, (take k sorted), (drop (S k) sorted).
  split; [exact Hs|]. split; [apply qsort_sorts|]. split; [apply qsort_sorts|].
  split; [exact Hmed|]. split; [symmetry; now apply take_drop_middle|].
  rewrite length_take, length_drop.
  split; [lia|]. split; intros Hpar.
  - rewrite Z.odd_spec in Hpar. destruct Hpar as [m Hm].
    assert (REPEAT / 2 = m) by (symmetry; apply (Z.div_unique _ 2 m 1); lia). lia.
  - rewrite Z.even_spec in Hpar. destruct Hpar as [m Hm].
    assert (REPEAT / 2 = m) by (symmetry; apply (Z.div_unique _ 2 m 0); lia). lia.
Qed.

Lemma median_is_sorted_at_half_witness :
  exists s sorted before after,
    Stats.stats 4 [5; 3; 9; 1] = Some s /\
    Sorted Z.le sorted /\ Permutation sorted [5; 3; 9; 1] /\
    sorted !! Z.to_nat (4 / 2) = Some (Stats.median s) /\
    sorted = before ++ Stats.median s :: after /\
    Z.of_nat (length before) = 4 / 2 /\
    (Z.odd 4 = true -> length after = length before) /\
    (Z.even 4 = true -> S (length after) = length before).
Proof.
  apply (median_is_sorted_at_half 4 [5; 3; 9; 1]); unfold U64.modulus; try lia.
  reflexivity.
Defined.

(** On four samples the median is the third smallest, not the mean of
    the second and third. *)
Example median_of_four :
  Stats.median <$> Stats.stats 4 [5; 3; 9; 1] = Some 5.
Proof. reflexivity. Qed.

Example median_of_five :
  Stats.median <$> Stats.stats 5 [5; 3; 9; 1; 7] = Some 5.
Proof. reflexivity. Qed.

(** The order statistics are ordered. *)
Lemma min_median_max (REPEAT : Z) (results : list Z) (s : Stats.summary) :
  0 < REPEAT -> REPEAT < U64.modulus -> Z.of_nat (length results) = REPEAT ->
  Stats.stats REPEAT results = Some s ->
  Stats.minv s <= Stats.median s <= Stats.maxv s.
Proof.
  intros Hpos Hlt Hlen Hs.
  destruct (stats_defined REPEAT results Hpos Hlt Hlen)
    as (s' & Hs' & Hmin & Hmax & Hmed & _).
  assert (s' = s) as -> by congruence.
  pose proof (proj1 (qsort_sorts results)) as Hsorted.
  assert (Hhalf : 0 <= REPEAT / 2 < REPEAT).
  { split; [apply Z.div_pos; lia|apply Z.div_lt_upper_bound; lia]. }
  split.
  - eapply sorted_lookup_le; [exact Hsorted| |exact Hmin|exact Hmed]. lia.
  - eapply sorted_lookup_le; [exact Hsorted| |exact Hmed|exact Hmax]. lia.
Qed.

(** The extremes bound every sample. *)
Lemma min_max_bound (REPEAT : Z) (results : list Z) (s : Stats.summary) :
  0 < REPEAT -> REPEAT < U64.modulus -> Z.of_nat (length results) = REPEAT ->
  Stats.stats REPEAT results = Some s ->
  forall x, In x results -> Stats.minv s <= x <= Stats.maxv s.
Proof.
  intros Hpos Hlt Hlen Hs x Hx.
  destruct (stats_defined REPEAT results Hpos Hlt Hlen)
    as (s' & Hs' & Hmin & Hmax & _).
  assert (s' = s) as -> by congruence.
  destruct (qsort_sorts results) as [Hsorted Hperm].
  assert (Hin : x ∈ Stats.qsort Stats.cmp_uint64 results).
  { apply list_elem_of_In. eapply Permutation_in; [symmetry; exact Hperm|exact Hx]. }
  apply list_elem_of_lookup in Hin as [i Hi].
  assert (Hil : (i < length (Stats.qsort Stats.cmp_uint64 results))%nat)
    by (eapply lookup_lt_Some; eassumption).
  rewrite qsort_length in Hil.
  split.
  - eapply sorted_lookup_le; [exact Hsorted| |exact Hmin|exact Hi]. lia.
  - eapply sorted_lookup_le; [exact Hsorted| |exact Hi|exact Hmax]. lia.
Qed.

(** ** Determinism of the summary *)

Lemma stats_with_qsort REPEAT results :
  Stats.stats_with (Stats.qsort Stats.cmp_uint64) REPEAT results
  = Stats.stats REPEAT results.
Proof. reflexivity. Qed.

Lemma merge_sort_sorts : Stats.sorts (merge_sort Z.le).
Proof.
  intros l. split.
  - apply Sorted_merge_sort. intros x y. lia.
  - apply merge_sort_Permutation.
Qed.

(** C4.  The summary is a function of the sample values alone: two
    summarisations of the same sequence of samples give the same summary,
    every field equal, and this whichever conforming sorting routine
    stands behind [qsort]. *)
Theorem summary_deterministic
    (sort : list Z -> list Z) (REPEAT : Z) (results1 results2 : list Z) :
  Stats.sorts sort -> results1 = results2 ->
  Stats.stats_with sort REPEAT results1 = Stats.stats REPEAT results2.
Proof.
  intros Hsort <-. rewrite <- stats_with_qsort. unfold Stats.stats_with.
  now rewrite (sorts_agree sort results1 Hsort).
Qed.

Lemma summary_deterministic_witness :
  Stats.stats_with (merge_sort Z.le) 3 [30; 10; 20] = Stats.stats 3 [30; 10; 20].
Proof.
  apply (summary_deterministic (merge_sort Z.le) 3 [30; 10; 20] [30; 10; 20]).
  - exact merge_sort_sorts.
  - reflexivity.
Defined.

(** ** CSV export *)

Lemma sapp_nil_l (s : string) : EmptyString +:+ s = s.
Proof. reflexivity. Qed.

Lemma sapp_cons c (a b : string) : String c a +:+ b = String c (a +:+ b).
Proof. reflexivity. Qed.

Lemma sapp_nil_r (s : string) : s +:+ EmptyString = s.
Proof. induction s as [|c s IH]; [reflexivity|]. now rewrite sapp_cons, IH. Qed.

Lemma sapp_assoc (a b c : string) : (a +:+ b) +:+ c = a +:+ (b +:+ c).
Proof. induction a as [|x a IH]; [reflexivity|]. now rewrite !sapp_cons, IH. Qed.

Lemma string_of_uint_digits d : Csv.all_chars Csv.is_digit (NilEmpty.string_of_uint d) = true.
Proof. induction d; cbn; auto. Qed.

Lemma fmt_u_digits n : Csv.all_chars Csv.is_digit (Csv.fmt_u n) = true.
Proof. apply string_of_uint_digits. Qed.

Lemma parse_fmt_u n : 0 <= n -> Csv.parse_u (Csv.fmt_u n) = Some n.
Proof.
  intros Hn. unfold Csv.parse_u, Csv.fmt_u.
  rewrite NilEmpty.usu, DecimalN.Unsigned.of_to. f_equal. lia.
Qed.

Lemma lines_from_line (a cur rest : string) :
  Csv.all_chars Csv.is_digit a = true \/
  Csv.all_chars (fun c => negb (Ascii.eqb c Csv.newline)) a = true ->
  Csv.lines_from cur (a +:+ String Csv.newline rest)
  = (cur +:+ a) :: Csv.lines_from EmptyString rest.
Proof.
  intros Ha.
  assert (Hn : Csv.all_chars (fun c => negb (Ascii.eqb c Csv.newline)) a = true).
  { destruct Ha as [Ha|Ha]; [|exact Ha].
    clear -Ha. induction a as [|c a IH]; [reflexivity|].
    cbn in Ha |- *. apply andb_prop in Ha as [Hc Ha]. rewrite IH by exact Ha.
    rewrite andb_true_r. unfold Csv.is_digit in Hc.
    destruct (Ascii.eqb_spec c Csv.newline) as [->|]; [discriminate Hc|reflexivity]. }
  clear Ha. revert cur. induction a as [|c a IH]; intros cur.
  - rewrite sapp_nil_l, sapp_nil_r. cbn [Csv.lines_from].
    now rewrite Ascii.eqb_refl.
  - cbn in Hn. apply andb_prop in Hn as [Hc Hn].
    rewrite sapp_cons. cbn [Csv.lines_from].
    apply negb_true_iff in Hc. rewrite Hc, IH by exact Hn.
    now rewrite sapp_assoc.
Qed.

Lemma split_comma_digits (a b : string) :
  Csv.all_chars Csv.is_digit a = true ->
  Csv.split_comma (a +:+ String Csv.comma b) = Some (a, b).
Proof.
  induction a as [|c a IH]; intros Ha.
  - rewrite sapp_nil_l. cbn [Csv.split_comma]. now rewrite Ascii.eqb_refl.
  - cbn in Ha. apply andb_prop in Ha as [Hc Ha].
    rewrite sapp_cons. cbn [Csv.split_comma]. rewrite IH by exact Ha.
    destruct (Ascii.eqb_spec c Csv.comma) as [->|]; [discriminate Hc|reflexivity].
Qed.

Lemma all_chars_app P (a b : string) :
  Csv.all_chars P (a +:+ b) = Csv.all_chars P a && Csv.all_chars P b.
Proof.
  induction a as [|c a IH]; [reflexivity|].
  rewrite sapp_cons. cbn. now rewrite IH, andb_assoc.
Qed.

Lemma indexed_length i results : length (Csv.indexed i results) = length results.
Proof. revert i. induction results; intros i; cbn; auto. Qed.

Lemma indexed_snd i results : map snd (Csv.indexed i results) = results.
Proof. revert i. induction results as [|v l IH]; intros i; cbn; [|rewrite IH]; auto. Qed.

Lemma indexed_fst i results :
  map fst (Csv.indexed i results) = seqZ i (Z.of_nat (length results)).
Proof.
  revert i. induction results as [|v l IH]; intros i; [reflexivity|].
  cbn [Csv.indexed map fst length]. rewrite IH.
  rewrite Nat2Z.inj_succ, (seqZ_cons i) by lia. f_equal. now rewrite Z.pred_succ.
Qed.

Lemma row_line (i v : Z) (rest : string) :
  Csv.lines_from EmptyString (Csv.row i v +:+ rest)
  = (Csv.fmt_u i +:+ String Csv.comma (Csv.fmt_u v)) :: Csv.lines_from EmptyString rest.
Proof.
  unfold Csv.row.
  replace ((Csv.fmt_u i +:+ String Csv.comma (Csv.fmt_u v +:+ String Csv.newline EmptyString))
           +:+ rest)
    with ((Csv.fmt_u i +:+ String Csv.comma (Csv.fmt_u v)) +:+ String Csv.newline rest).
  2:{ rewrite !sapp_assoc, !sapp_cons, !sapp_assoc, sapp_cons. reflexivity. }
  rewrite lines_from_line; [reflexivity|]. right.
  rewrite all_chars_app. cbn [Csv.all_chars].
  assert (Hd : forall s, Csv.all_chars Csv.is_digit s = true ->
             Csv.all_chars (fun c => negb (Ascii.eqb c Csv.newline)) s = true).
  { clear. induction s as [|c s IH]; [reflexivity|]. cbn. intros H.
    apply andb_prop in H as [Hc H]. rewrite IH by exact H. rewrite andb_true_r.
    destruct (Ascii.eqb_spec c Csv.newline) as [->|]; [discriminate Hc|reflexivity]. }
  rewrite !Hd by apply fmt_u_digits. reflexivity.
Qed.

Lemma parse_row_fmt (i v : Z) :
  0 <= i -> 0 <= v ->
  Csv.parse_row (Csv.fmt_u i +:+ String Csv.comma (Csv.fmt_u v)) = Some (i, v).
Proof.
  intros Hi Hv. unfold Csv.parse_row.
  rewrite split_comma_digits by apply fmt_u_digits.
  now rewrite !parse_fmt_u by assumption.
Qed.

Lemma parse_rows_from (i : Z) (results : list Z) :
  0 <= i -> Forall (fun v => 0 <= v) results ->
  Csv.parse_rows (Csv.lines_from EmptyString (Csv.rows_from i results))
  = Some (Csv.indexed i results).
Proof.
  intros Hi Hall. revert i Hi.
  induction Hall as [|v l Hv Hall IH]; intros i Hi; [reflexivity|].
  cbn [Csv.rows_from Csv.indexed]. rewrite row_line.
  cbn [Csv.parse_rows]. rewrite parse_row_fmt by assumption.
  now rewrite IH by lia.
Qed.

Lemma read_csv_export (results : list Z) :
  Forall (fun v => 0 <= v) results ->
  Csv.read_csv (Csv.header +:+ Csv.rows_from 0 results)
  = Some ("rep,cycles", Csv.indexed 0 results).
Proof.
  intros Hall. unfold Csv.read_csv, Csv.lines.
  change (Csv.header +:+ Csv.rows_from 0 results)
    with ("rep,cycles" +:+ String Csv.newline (Csv.rows_from 0 results)).
  rewrite lines_from_line by (right; reflexivity).
  rewrite sapp_nil_l, parse_rows_from by (assumption || lia).
  reflexivity.
Qed.

Lemma write_csv_content (name : string) (results : list Z) (files : Csv.fs) :
  Csv.write_csv name results files
  = <[name := Csv.header +:+ Csv.rows_from 0 results]> files.
Proof.
  unfold Csv.write_csv, Csv.fprintf, Csv.fopen_w.
  rewrite lookup_insert_eq, insert_insert_eq, sapp_nil_l.
  now rewrite lookup_insert_eq, insert_insert_eq.
Qed.

(** C8.  The exported file holds the header line [rep,cycles] first and
    then one row per sample, the [i]-th row carrying the index [i] and the
    [i]-th sample in trial order; reading it back returns the series; and
    an export to the same name replaces the earlier file entirely. *)
Theorem csv_round_trip (name : string) (results earlier : list Z) (files : Csv.fs) :
  Forall (fun v => 0 <= v) results ->
  let files' := Csv.write_csv name results files in
  exists text rows,
    files' !! name = Some text /\
    text = Csv.header +:+ Csv.rows_from 0 results /\
    Csv.read_csv text = Some ("rep,cycles", rows) /\
    length rows = length results /\
    map fst rows = seqZ 0 (Z.of_nat (length results)) /\
    map snd rows = results /\
    Csv.write_csv name results (Csv.write_csv name earlier files) = files'.
Proof.
  intros Hall files'. subst files'.
  exists (Csv.header +:+ Csv.rows_from 0 results), (Csv.indexed 0 results).
  rewrite !write_csv_content, lookup_insert_eq, insert_insert_eq.
  rewrite read_csv_export by assumption.
  rewrite indexed_length, indexed_fst, indexed_snd. repeat split.
Qed.

Lemma csv_round_trip_witness :
  let files' := Csv.write_csv "t.csv" [300; 0; 18446744073709551615] ∅ in
  exists text rows,
    files' !! "t.csv" = Some text /\
    text = Csv.header +:+ Csv.rows_from 0 [300; 0; 18446744073709551615] /\
    Csv.read_csv text = Some ("rep,cycles", rows) /\
    length rows = length [300; 0; 18446744073709551615] /\
    map fst rows = seqZ 0 (Z.of_nat (length [300; 0; 18446744073709551615])) /\
    map snd rows = [300; 0; 18446744073709551615] /\
    Csv.write_csv "t.csv" [300; 0; 18446744073709551615]
      (Csv.write_csv "t.csv" [7; 8; 9; 10] ∅) = files'.
Proof.
  apply (csv_round_trip "t.csv" [300; 0; 18446744073709551615] [7; 8; 9; 10] ∅).
  repeat constructor; lia.
Defined.

(** The text of a small export. *)
Example csv_text_example :
  Csv.header +:+ Csv.rows_from 0 [300; 0; 42]
  = "rep,cycles" +:+ String Csv.newline
      ("0,300" +:+ String Csv.newline
         ("1,0" +:+ String Csv.newline ("2,42" +:+ String Csv.newline EmptyString))).
Proof. reflexivity. Qed.

(** ** The size sweep *)

Lemma find_from_absent i es x : ~ In x es -> Sweep.find_from i es x = -1.
Proof.
  revert i. induction es as [|e es IH]; intros i Hn; [reflexivity|].
  cbn [Sweep.find_from]. destruct (Z.eqb_spec e x) as [->|Hne].
  - exfalso. apply Hn. now left.
  - apply IH. intros Hin. apply Hn. now right.
Qed.

Lemma find_from_present i es x :
  In x es ->
  exists k : nat, Sweep.find_from i es x = i + Z.of_nat k /\
                  (k < length es)%nat /\ nth k es 0 = x.
Proof.
  revert i. induction es as [|e es IH]; intros i Hin; [destruct Hin|].
  cbn [Sweep.find_from]. destruct (Z.eqb_spec e x) as [->|Hne].
  - exists 0%nat. cbn. repeat split; lia.
  - destruct Hin as [Heq|Hin]; [contradiction|].
    destruct (IH (i + 1) Hin) as (k & Hk & Hlt & Hnth).
    exists (S k). cbn. repeat split; [lia|lia|assumption].
Qed.

Lemma select_default (argv : list string) :
  (length argv < 2)%nat -> Sweep.select argv = (0, Sweep.n_sizes - 1).
Proof.
  intros H. unfold Sweep.select.
  destruct (Z.leb_spec 2 (Z.of_nat (length argv))); [lia|reflexivity].
Qed.

Lemma select_unrecognised (argv : list string) :
  ~ In (Sweep.atoi (nth 1 argv EmptyString)) Sweep.exponents ->
  Sweep.select argv = (0, Sweep.n_sizes - 1).
Proof.
  intros H. unfold Sweep.select.
  destruct (2 <=? _); [|reflexivity].
  destruct (negb _); [|reflexivity].
  now rewrite find_from_absent by exact H.
Qed.

Lemma select_member (argv : list string) :
  (2 <= length argv)%nat ->
  In (Sweep.atoi (nth 1 argv EmptyString)) Sweep.exponents ->
  exists k : nat,
    Sweep.select argv = (Z.of_nat k, Z.of_nat k) /\
    (k < length Sweep.exponents)%nat /\
    nth k Sweep.exponents 0 = Sweep.atoi (nth 1 argv EmptyString).
Proof.
  intros Hargc Hin. unfold Sweep.select.
  destruct (Z.leb_spec 2 (Z.of_nat (length argv))); [|lia].
  set (x := Sweep.atoi (nth 1 argv EmptyString)) in *.
  destruct (Z.eqb_spec x 0) as [Hx|_].
  { exfalso. rewrite Hx in Hin. cbn in Hin. intuition discriminate. }
  cbn [negb].
  destruct (find_from_present 0 Sweep.exponents x Hin) as (k & Hk & Hlt & Hnth).
  rewrite Hk. destruct (Z.leb_spec 0 (0 + Z.of_nat k)); [|lia].
  exists k. rewrite Z.add_0_l. auto.
Qed.

Lemma size_of_exponent_pow2 x : 0 <= x < 64 -> Sweep.size_of_exponent x = 2 ^ x.
Proof.
  intros Hx. unfold Sweep.size_of_exponent.
  rewrite Z.shiftl_1_l. apply wrap_small. unfold U64.in_range, U64.modulus.
  split; [apply Z.pow_nonneg; lia|apply Z.pow_lt_mono_r; lia].
Qed.

Lemma exponents_range x : In x Sweep.exponents -> 0 <= x < 64.
Proof. cbn. intuition lia. Qed.

Lemma REPEAT_for_range size : 0 < Sweep.REPEAT_for size < U64.modulus.
Proof.
  unfold Sweep.REPEAT_for, U64.modulus.
  repeat match goal with |- context [if ?b then _ else _] => destruct b end; lia.
Qed.

Lemma measure_length o si REPEAT :
  0 <= REPEAT -> Z.of_nat (length (Sweep.measure o si REPEAT)) = REPEAT.
Proof. intros H. unfold Sweep.measure. rewrite length_map, length_seqZ. lia. Qed.


(** An iteration whose library calls all succeed. *)
Lemma run_size_ok (o : Sweep.oracle) (si : Z) (w : Sweep.world) :
  Sweep.all_ok o si ->
  let x := nth (Z.to_nat si) Sweep.exponents 0 in
  let size := Sweep.size_of_exponent x in
  let REPEAT := Sweep.REPEAT_for size in
  let results := Sweep.measure o si REPEAT in
  let name := Csv.fname x size in
  exists s,
    Stats.stats REPEAT results = Some s /\
    Sweep.run_size o si w
    = Sweep.Continue
        {| Sweep.files := <[name := Csv.header +:+ Csv.rows_from 0 results]> (Sweep.files w);
           Sweep.stdout := Sweep.stdout w ++
             [Sweep.Testing x size REPEAT; Sweep.WroteCsv name; Sweep.SizeStats size s];
           Sweep.stderr := Sweep.stderr w |}.
Proof.
  intros (H1 & H2 & H3 & H4 & H5) x size REPEAT results name.
  pose proof (REPEAT_for_range size) as HR.
  destruct (stats_defined REPEAT results) as (s & Hs & _);
    [lia|lia|apply measure_length; lia|].
  exists s. split; [exact Hs|].
  unfold Sweep.run_size. rewrite H1, H2, H3, H4, H5. cbn [negb].
  fold x. fold size. fold REPEAT. fold results. rewrite Hs.
  unfold Sweep.print, Sweep.with_files. cbn [Sweep.files Sweep.stdout Sweep.stderr].
  fold name. rewrite write_csv_content, <- !app_assoc. reflexivity.
Qed.

(** An iteration whose [fopen] fails, the allocations before it having
    succeeded. *)
Lemma run_size_open_failure (o : Sweep.oracle) (si : Z) (w : Sweep.world) :
  Sweep.memalign_buf_ok o si = true -> Sweep.memalign_bufcopy_ok o si = true ->
  Sweep.malloc_results_ok o si = true -> Sweep.fopen_ok o si = false ->
  let x := nth (Z.to_nat si) Sweep.exponents 0 in
  let size := Sweep.size_of_exponent x in
  Sweep.run_size o si w
  = Sweep.Exit 1
      (Sweep.eprint (Sweep.OpenFailed (Csv.fname x size))
         (Sweep.print (Sweep.Testing x size (Sweep.REPEAT_for size)) w)).
Proof.
  intros H1 H2 H3 H4 x size. unfold Sweep.run_size.
  rewrite H1, H2, H3, H4. reflexivity.
Qed.

Lemma measured_app w l :
  Sweep.measured {| Sweep.files := Sweep.files w;
                    Sweep.stdout := Sweep.stdout w ++ l;
                    Sweep.stderr := Sweep.stderr w |}
  = Sweep.measured w ++
    omap (fun l => match l with Sweep.Testing _ size _ => Some size | _ => None end) l.
Proof. unfold Sweep.measured. cbn. apply omap_app. Qed.

(** A sweep over size indices whose library calls all succeed returns 0
    having measured exactly those sizes, in order, and written one file
    for each. *)
Lemma sweep_ok (o : Sweep.oracle) (sis : list Z) (w : Sweep.world) :
  (forall si, In si sis -> Sweep.all_ok o si) ->
  exists w',
    Sweep.sweep o sis w = Sweep.Exit 0 w' /\
    Sweep.measured w' = Sweep.measured w ++
      map (fun si => Sweep.size_of_exponent (nth (Z.to_nat si) Sweep.exponents 0)) sis /\
    Sweep.written w' = Sweep.written w ++
      map (fun si => let x := nth (Z.to_nat si) Sweep.exponents 0 in
                     Csv.fname x (Sweep.size_of_exponent x)) sis /\
    dom (Sweep.files w') = dom (Sweep.files w) ∪
      list_to_set (map (fun si => let x := nth (Z.to_nat si) Sweep.exponents 0 in
                                  Csv.fname x (Sweep.size_of_exponent x)) sis) /\
    Sweep.stderr w' = Sweep.stderr w.
Proof.
  revert w. induction sis as [|si sis IH]; intros w Hok.
  - exists w. cbn. rewrite !app_nil_r. repeat split.
    now rewrite (right_id_L ∅ (∪)).
  - destruct (run_size_ok o si w) as (s & _ & Hrun); [apply Hok; now left|].
    cbn [Sweep.sweep]. rewrite Hrun.
    edestruct IH as (w' & Hsw & Hm & Hwr & Hdom & Herr);
      [intros; apply Hok; now right|].
    exists w'. split; [exact Hsw|].
    rewrite Hm, Hwr, Hdom, Herr. unfold Sweep.measured, Sweep.written.
    cbn [Sweep.stdout Sweep.files Sweep.stderr map list_to_set].
    rewrite !omap_app. cbn [omap]. rewrite <- !app_assoc. cbn [app].
    repeat split. rewrite dom_insert_L.
    rewrite (comm_L (∪) {[_]} (dom (Sweep.files w))).
    now rewrite (assoc_L (∪)).
Qed.

Lemma all_sizes :
  map (fun si => Sweep.size_of_exponent (nth (Z.to_nat si) Sweep.exponents 0))
    (seqZ 0 Sweep.n_sizes)
  = map (fun x => 2 ^ x) Sweep.exponents.
Proof. reflexivity. Qed.

Lemma all_names :
  map (fun si => let x := nth (Z.to_nat si) Sweep.exponents 0 in
                 Csv.fname x (Sweep.size_of_exponent x))
    (seqZ 0 Sweep.n_sizes)
  = map (fun x => Csv.fname x (2 ^ x)) Sweep.exponents.
Proof. reflexivity. Qed.

Lemma main_unfold (argv : list string) (o : Sweep.oracle) (w : Sweep.world) :
  Sweep.main argv o w
  = Sweep.sweep o
      (seqZ (fst (Sweep.select argv))
         (snd (Sweep.select argv) - fst (Sweep.select argv) + 1))
      (if Sweep.mlockall_ok o then Sweep.print Sweep.MlockallOk w
       else Sweep.eprint Sweep.MlockallWarning w).
Proof. unfold Sweep.main. now destruct (Sweep.select argv). Qed.

Lemma mlock_step_measured (o : Sweep.oracle) (w : Sweep.world) :
  let w1 := if Sweep.mlockall_ok o then Sweep.print Sweep.MlockallOk w
            else Sweep.eprint Sweep.MlockallWarning w in
  Sweep.measured w1 = Sweep.measured w /\ Sweep.written w1 = Sweep.written w /\
  Sweep.files w1 = Sweep.files w.
Proof.
  destruct (Sweep.mlockall_ok o); cbn; unfold Sweep.measured, Sweep.written; cbn;
    rewrite ?omap_app, ?app_nil_r; auto.
Qed.

(** The run by the value [x] that [atoi] returns for the argument: for
    a member of the exponent set the single size [2^x] is measured and
    the single CSV file named for it written; for anything else all
    thirteen sizes are measured; in both cases the process returns 0 and
    prints no diagnostic of its own. *)
Lemma selector_one_or_all (argv : list string) (o : Sweep.oracle) :
  (2 <= length argv)%nat -> (forall si, Sweep.all_ok o si) ->
  let x := Sweep.atoi (nth 1 argv EmptyString) in
  exists w,
    Sweep.main argv o Sweep.initial = Sweep.Exit 0 w /\
    (Sweep.mlockall_ok o = true -> Sweep.stderr w = []) /\
    (In x Sweep.exponents ->
       Sweep.measured w = [2 ^ x] /\
       Sweep.written w = [Csv.fname x (2 ^ x)] /\
       dom (Sweep.files w) = {[Csv.fname x (2 ^ x)]}) /\
    (~ In x Sweep.exponents ->
       Sweep.measured w = map (fun e => 2 ^ e) Sweep.exponents /\
       length (Sweep.measured w) = 13%nat /\
       Sweep.written w = map (fun e => Csv.fname e (2 ^ e)) Sweep.exponents).
Proof.
  intros Hargc Hok x. rewrite main_unfold.
  destruct (mlock_step_measured o Sweep.initial) as (Hm1 & Hw1 & Hf1).
  assert (He1 : Sweep.mlockall_ok o = true ->
                Sweep.stderr (if Sweep.mlockall_ok o
                              then Sweep.print Sweep.MlockallOk Sweep.initial
                              else Sweep.eprint Sweep.MlockallWarning Sweep.initial) = [])
    by (intros ->; reflexivity).
  set (w1 := if Sweep.mlockall_ok o then _ else _) in *.
  destruct (in_dec Z.eq_dec x Sweep.exponents) as [Hin|Hnin].
  - destruct (select_member argv Hargc Hin) as (k & Hsel & Hk & Hnth).
    rewrite Hsel. cbn [fst snd].
    replace (Z.of_nat k - Z.of_nat k + 1) with 1 by lia.
    change (seqZ (Z.of_nat k) 1) with [Z.of_nat k].
    destruct (sweep_ok o [Z.of_nat k] w1) as (w & Hsw & Hm & Hwr & Hdom & Herr);
      [intros; apply Hok|].
    exists w. split; [exact Hsw|]. split; [now rewrite Herr|].
    split; [|contradiction].
    intros _. cbn [map] in Hm, Hwr, Hdom.
    rewrite Nat2Z.id, Hnth in Hm, Hwr, Hdom. fold x in Hm, Hwr, Hdom.
    rewrite size_of_exponent_pow2 in Hm, Hwr, Hdom by now apply exponents_range.
    rewrite Hm, Hwr, Hdom, Hm1, Hw1, Hf1. cbn. repeat split.
    now rewrite dom_empty_L, (left_id_L ∅ (∪)), (right_id_L ∅ (∪)).
  - rewrite (select_unrecognised argv Hnin). cbn [fst snd].
    replace (Sweep.n_sizes - 1 - 0 + 1) with Sweep.n_sizes by lia.
    destruct (sweep_ok o (seqZ 0 Sweep.n_sizes) w1) as (w & Hsw & Hm & Hwr & _ & Herr);
      [intros; apply Hok|].
    exists w. split; [exact Hsw|]. split; [now rewrite Herr|].
    split; [contradiction|].
    intros _. rewrite Hm, Hwr, Hm1, Hw1, all_sizes, all_names. repeat split.
Qed.

Lemma selector_one_or_all_witness :
  let argv := ["./memtest_allsizes"; "12"] in
  let o := Sweep.example_oracle [] in
  let x := Sweep.atoi (nth 1 argv EmptyString) in
  exists w,
    Sweep.main argv o Sweep.initial = Sweep.Exit 0 w /\
    (Sweep.mlockall_ok o = true -> Sweep.stderr w = []) /\
    (In x Sweep.exponents ->
       Sweep.measured w = [2 ^ x] /\
       Sweep.written w = [Csv.fname x (2 ^ x)] /\
       dom (Sweep.files w) = {[Csv.fname x (2 ^ x)]}) /\
    (~ In x Sweep.exponents ->
       Sweep.measured w = map (fun e => 2 ^ e) Sweep.exponents /\
       length (Sweep.measured w) = 13%nat /\
       Sweep.written w = map (fun e => Csv.fname e (2 ^ e)) Sweep.exponents).
Proof.
  apply (selector_one_or_all ["./memtest_allsizes"; "12"] (Sweep.example_oracle [])).
  - simpl. lia.
  - intros si. repeat split.
Defined.

(** Selecting exponent 12 measures the 4096-byte configuration alone and
    leaves one file, named for size 4096. *)
Lemma selector_twelve (o : Sweep.oracle) :
  (forall si, Sweep.all_ok o si) ->
  exists w,
    Sweep.main ["./memtest_allsizes"; "12"] o Sweep.initial = Sweep.Exit 0 w /\
    Sweep.measured w = [4096] /\
    dom (Sweep.files w) = {["memcpy_2pow12_4096b.csv"]}.
Proof.
  intros Hok.
  destruct (sweep_ok o [6] (if Sweep.mlockall_ok o
                            then Sweep.print Sweep.MlockallOk Sweep.initial
                            else Sweep.eprint Sweep.MlockallWarning Sweep.initial))
    as (w & Hsw & Hm & _ & Hdom & _); [intros; apply Hok|].
  exists w. rewrite main_unfold. split; [exact Hsw|].
  destruct (mlock_step_measured o Sweep.initial) as (Hm1 & _ & Hf1).
  rewrite Hm, Hdom, Hm1, Hf1. split; [reflexivity|].
  cbn [map list_to_set].
  change (Csv.fname _ _) with "memcpy_2pow12_4096b.csv". cbn.
  now rewrite dom_empty_L, (left_id_L ∅ (∪)), (right_id_L ∅ (∪)).
Qed.

(** Without an argument the full set runs. *)
Lemma no_selector_runs_all (o : Sweep.oracle) :
  (forall si, Sweep.all_ok o si) ->
  exists w,
    Sweep.main ["./memtest_allsizes"] o Sweep.initial = Sweep.Exit 0 w /\
    Sweep.measured w = map (fun e => 2 ^ e) Sweep.exponents.
Proof.
  intros Hok. rewrite main_unfold, select_default by (cbn; lia). cbn [fst snd].
  destruct (sweep_ok o (seqZ 0 Sweep.n_sizes)
              (if Sweep.mlockall_ok o
               then Sweep.print Sweep.MlockallOk Sweep.initial
               else Sweep.eprint Sweep.MlockallWarning Sweep.initial))
    as (w & Hsw & Hm & _); [intros; apply Hok|].
  exists w. split; [exact Hsw|].
  destruct (mlock_step_measured o Sweep.initial) as (Hm1 & _).
  now rewrite Hm, Hm1, all_sizes.
Qed.

Lemma sweep_cons o si rest w :
  Sweep.sweep o (si :: rest) w
  = match Sweep.run_size o si w with
    | Sweep.Continue w' => Sweep.sweep o rest w'
    | r => r
    end.
Proof. reflexivity. Qed.

Lemma full_range : seqZ 0 (Sweep.n_sizes - 1 - 0 + 1) = 0 :: seqZ 1 12.
Proof. reflexivity. Qed.

(** C7 (as amended).  When the CSV destination of one size cannot be
    opened, the allocations of that size having succeeded, the process
    prints the diagnostic naming the file and exits with status 1,
    whatever sizes remain in the sweep: nothing is written for that size
    and no later size is measured. *)
Theorem export_failure_exits
    (o : Sweep.oracle) (si : Z) (rest : list Z) (w : Sweep.world) :
  Sweep.memalign_buf_ok o si = true -> Sweep.memalign_bufcopy_ok o si = true ->
  Sweep.malloc_results_ok o si = true -> Sweep.fopen_ok o si = false ->
  let x := nth (Z.to_nat si) Sweep.exponents 0 in
  let size := Sweep.size_of_exponent x in
  exists w',
    Sweep.sweep o (si :: rest) w = Sweep.Exit 1 w' /\
    Sweep.files w' = Sweep.files w /\
    Sweep.stderr w' = Sweep.stderr w ++ [Sweep.OpenFailed (Csv.fname x size)] /\
    Sweep.measured w' = Sweep.measured w ++ [size].
Proof.
  intros H1 H2 H3 H4 x size. rewrite sweep_cons.
  rewrite run_size_open_failure by assumption.
  eexists. split; [reflexivity|]. fold x. fold size.
  unfold Sweep.measured, Sweep.eprint, Sweep.print.
  cbn [Sweep.files Sweep.stdout Sweep.stderr].
  rewrite omap_app. repeat split.
Qed.

Lemma export_failure_exits_witness :
  let o := Sweep.example_oracle [0] in
  let x := nth (Z.to_nat 0) Sweep.exponents 0 in
  let size := Sweep.size_of_exponent x in
  exists w',
    Sweep.sweep o (0 :: [1; 2]) Sweep.initial = Sweep.Exit 1 w' /\
    Sweep.files w' = Sweep.files Sweep.initial /\
    Sweep.stderr w' = Sweep.stderr Sweep.initial ++ [Sweep.OpenFailed (Csv.fname x size)] /\
    Sweep.measured w' = Sweep.measured Sweep.initial ++ [size].
Proof.
  apply (export_failure_exits (Sweep.example_oracle [0]) 0 [1; 2] Sweep.initial);
    reflexivity.
Defined.

(** C7, the claim as stated, fails: in the full sweep with the first
    destination unwritable and every other call succeeding, the process
    exits with status 1 after the 64-byte size; the next configured size,
    128 bytes, is never measured. *)
Lemma export_failure_stops_sweep :
  exists w,
    Sweep.main ["./memtest_allsizes"] (Sweep.example_oracle [0]) Sweep.initial
    = Sweep.Exit 1 w /\
    Sweep.measured w = [64] /\
    ~ In 128 (Sweep.measured w) /\
    Sweep.stderr w = [Sweep.OpenFailed "memcpy_2pow6_64b.csv"] /\
    Sweep.files w = ∅.
Proof.
  rewrite main_unfold, select_default by (cbn; lia).
  unfold fst, snd. rewrite full_range, sweep_cons.
  rewrite run_size_open_failure by reflexivity.
  eexists. split; [reflexivity|].
  split; [reflexivity|]. split; [|split; reflexivity].
  intros [H|[]]. discriminate H.
Qed.



(** The counts of the thirteen configured sizes. *)
Example configured_trial_counts :
  map (fun x => Sweep.REPEAT_for (Sweep.size_of_exponent x)) Sweep.exponents
  = [200000; 200000; 200000; 200000; 200000; 200000; 200000;
     50000; 50000; 50000; 50000; 8000; 2000].
Proof. reflexivity. Qed.

(** ** Floating-point rounding *)

Lemma digits2_size p : digits2_pos p = Pos.size p.
Proof. induction p; cbn; congruence. Qed.

Lemma digits_bounds p :
  2 ^ (Zpos (digits2_pos p) - 1) <= Zpos p < 2 ^ Zpos (digits2_pos p).
Proof.
  rewrite digits2_size. split.
  - pose proof (Pos.size_le p) as H.
    apply Pos2Z.pos_le_pos in H. rewrite Pos2Z.inj_pow in H.
    replace (Zpos (Pos.size p)) with (Z.succ (Zpos (Pos.size p) - 1)) in H by lia.
    rewrite Z.pow_succ_r in H by lia. rewrite (Pos2Z.inj_xO p) in H. lia.
  - pose proof (Pos.size_gt p) as H.
    apply Pos2Z.pos_lt_pos in H. now rewrite Pos2Z.inj_pow in H.
Qed.

Lemma digits_unique p d :
  2 ^ (d - 1) <= Zpos p < 2 ^ d -> Zpos (digits2_pos p) = d.
Proof.
  intros [Hlo Hhi]. destruct (digits_bounds p) as [Dlo Dhi].
  set (D := Zpos (digits2_pos p)) in *.
  assert (0 < d).
  { destruct (Z.lt_ge_cases 0 d) as [|Hd]; [assumption|].
    destruct (Z.eq_dec d 0) as [->|]; [cbn in Hhi; lia|].
    rewrite Z.pow_neg_r in Hhi by lia. lia. }
  assert (D - 1 < d) by (apply (Z.pow_lt_mono_r_iff 2); lia).
  assert (d - 1 < D) by (apply (Z.pow_lt_mono_r_iff 2); lia).
  lia.
Qed.

Lemma iter_xO m d : Zpos (Pos.iter xO m d) = Zpos m * 2 ^ Zpos d.
Proof.
  induction d as [|d IH] using Pos.peano_ind.
  - cbn. lia.
  - rewrite Pos.iter_succ, (Pos2Z.inj_xO (Pos.iter xO m d)), IH.
    rewrite Pos2Z.inj_succ, Z.pow_succ_r by lia. lia.
Qed.

Lemma digits_shift p k :
  0 <= k -> Zdigits2 (Zpos p * 2 ^ k) = Zpos (digits2_pos p) + k.
Proof.
  intros Hk. destruct (digits_bounds p) as [Dlo Dhi].
  assert (Hpos : 0 < 2 ^ k) by (apply Z.pow_pos_nonneg; lia).
  destruct (Zpos p * 2 ^ k) as [|q|q] eqn:Hq; try lia.
  cbn [Zdigits2]. apply digits_unique. rewrite <- Hq.
  replace (Zpos (digits2_pos p) + k - 1) with (Zpos (digits2_pos p) - 1 + k) by lia.
  rewrite !Z.pow_add_r by lia. split; nia.
Qed.

Lemma pow2_xO k : 2 ^ Zpos k~0 = 2 ^ Zpos k * 2 ^ Zpos k.
Proof. rewrite <- Z.pow_add_r by lia. f_equal. lia. Qed.

Lemma pow2_xI k : 2 ^ Zpos k~1 = 2 ^ Zpos k * 2 ^ Zpos k * 2.
Proof.
  rewrite <- Z.pow_add_r by lia.
  replace (Zpos k~1) with (Z.succ (Zpos k + Zpos k)) by lia.
  rewrite Z.pow_succ_r by lia. lia.
Qed.

Lemma shr_1_even (c : Z) :
  0 <= c ->
  shr_1 {| shr_m := c * 2; shr_r := false; shr_s := false |}
  = {| shr_m := c; shr_r := false; shr_s := false |}.
Proof.
  intros Hc. destruct c as [|c|c]; [reflexivity| |lia].
  replace (Zpos c * 2) with (Zpos c~0) by lia. reflexivity.
Qed.

(** Shifting out [k] zero bits is exact. *)
Lemma iter_shr_exact (k : positive) (c : Z) :
  0 <= c ->
  SpecFloat.iter_pos shr_1 k
    {| shr_m := c * 2 ^ Zpos k; shr_r := false; shr_s := false |}
  = {| shr_m := c; shr_r := false; shr_s := false |}.
Proof.
  revert c. induction k as [k IH|k IH|]; intros c Hc; cbn [SpecFloat.iter_pos].
  - assert (0 < 2 ^ Zpos k) by (apply Z.pow_pos_nonneg; lia).
    rewrite pow2_xI, !Z.mul_assoc, shr_1_even by nia.
    rewrite IH by nia. now apply IH.
  - assert (0 < 2 ^ Zpos k) by (apply Z.pow_pos_nonneg; lia).
    rewrite pow2_xO, !Z.mul_assoc, IH by nia. now apply IH.
  - rewrite Z.pow_1_r. now apply shr_1_even.
Qed.

Lemma shl_align_le (m : positive) (e e' : Z) :
  e' <= e -> shl_align m e e' = (Z.to_pos (Zpos m * 2 ^ (e - e')), e').
Proof.
  intros Hle. unfold shl_align.
  destruct (e' - e) as [|d|d] eqn:Hd; try lia.
  - replace e' with e by lia. rewrite Z.sub_diag, Z.mul_1_r. reflexivity.
  - replace (e - e') with (Zpos d) by lia. now rewrite <- iter_xO, Pos2Z.id.
Qed.

Lemma shl_align_ge (m : positive) (e e' : Z) :
  e <= e' -> shl_align m e e' = (m, e).
Proof.
  intros Hle. unfold shl_align. destruct (e' - e) as [|d|d] eqn:Hd; try lia; reflexivity.
Qed.

Section Rounding.

Variables prec emax : Z.

(** A mantissa and exponent already in the format's canonical form pass
    through rounding unchanged. *)
Lemma binary_round_aux_canonical (s : bool) (m : positive) (e : Z) :
  fexp prec emax (Zpos (digits2_pos m) + e) = e -> e <= emax - prec ->
  binary_round_aux prec emax s (Zpos m) e loc_Exact = S754_finite s m e.
Proof.
  intros Hcan Hle. unfold binary_round_aux, shr_fexp.
  cbn [Zdigits2 shr_record_of_loc]. rewrite Hcan, Z.sub_diag.
  cbn [shr shr_m loc_of_shr_record round_nearest_even Zdigits2 shr_record_of_loc].
  rewrite Hcan, Z.sub_diag. cbn [shr shr_m].
  now rewrite (proj2 (Z.leb_le _ _) Hle).
Qed.

(** Rounding a mantissa whose low [k] bits are zero, [k] being the
    number of bits the format drops, is exact. *)
Lemma binary_round_aux_shift (s : bool) (m c : positive) (e k : Z) :
  0 < k -> Zpos m = Zpos c * 2 ^ k ->
  fexp prec emax (Zpos (digits2_pos m) + e) = e + k -> e + k <= emax - prec ->
  binary_round_aux prec emax s (Zpos m) e loc_Exact = S754_finite s c (e + k).
Proof.
  intros Hk Hm Hexp Hle.
  assert (Hdig : Zpos (digits2_pos m) = Zpos (digits2_pos c) + k).
  { change (Zpos (digits2_pos m)) with (Zdigits2 (Zpos m)).
    rewrite Hm. apply digits_shift. lia. }
  unfold binary_round_aux, shr_fexp.
  cbn [Zdigits2 shr_record_of_loc]. rewrite Hexp.
  replace (e + k - e) with k by lia.
  destruct k as [|k|k]; try lia. cbn [shr].
  rewrite Hm, iter_shr_exact by lia.
  cbn [shr_m loc_of_shr_record round_nearest_even Zdigits2 shr_record_of_loc].
  replace (Zpos (digits2_pos c) + (e + Zpos k)) with (Zpos (digits2_pos m) + e) by lia.
  rewrite Hexp, Z.sub_diag. cbn [shr shr_m].
  now rewrite (proj2 (Z.leb_le _ _) Hle).
Qed.

(** [binary_round] on a value the format represents: the mantissa is
    aligned to the canonical exponent, to the left ... *)
Lemma binary_round_shl (s : bool) (m : positive) (e : Z) :
  let E := fexp prec emax (Zpos (digits2_pos m) + e) in
  E <= e -> E <= emax - prec ->
  binary_round prec emax s m e = S754_finite s (Z.to_pos (Zpos m * 2 ^ (e - E))) E.
Proof.
  intros E HE Hle. unfold binary_round. fold E.
  rewrite shl_align_le by exact HE.
  assert (Hpos : 0 < Zpos m * 2 ^ (e - E)).
  { apply Z.mul_pos_pos; [lia|apply Z.pow_pos_nonneg; lia]. }
  rewrite Z2Pos.id by exact Hpos.
  rewrite <- (Z2Pos.id _ Hpos) at 1.
  apply binary_round_aux_canonical; [|exact Hle].
  change (Zpos (digits2_pos (Z.to_pos (Zpos m * 2 ^ (e - E)))))
    with (Zdigits2 (Zpos (Z.to_pos (Zpos m * 2 ^ (e - E))))).
  rewrite Z2Pos.id, digits_shift by lia.
  replace (Zpos (digits2_pos m) + (e - E) + E) with (Zpos (digits2_pos m) + e) by lia.
  reflexivity.
Qed.

(** ... or to the right, when the bits dropped are zero. *)
Lemma binary_round_shr (s : bool) (m c : positive) (e : Z) :
  let E := fexp prec emax (Zpos (digits2_pos m) + e) in
  e < E -> Zpos m = Zpos c * 2 ^ (E - e) -> E <= emax - prec ->
  binary_round prec emax s m e = S754_finite s c E.
Proof.
  intros E HE Hm Hle. unfold binary_round. fold E.
  rewrite shl_align_ge by lia.
  rewrite (binary_round_aux_shift s m c e (E - e)); [|lia|exact Hm|fold E; lia|lia].
  f_equal. lia.
Qed.

End Rounding.

(** ** Integers in [long double] *)

Lemma fexp_long_double x :
  -16381 <= x -> fexp LongDouble.prec LongDouble.emax x = x - 64.
Proof. unfold fexp, emin, LongDouble.prec, LongDouble.emax. lia. Qed.

Lemma digits_le_64 p : Zpos p < 2 ^ 64 -> 1 <= Zpos (digits2_pos p) <= 64.
Proof.
  intros H. destruct (digits_bounds p) as [Hlo _]. split; [lia|].
  assert (Zpos (digits2_pos p) - 1 < 64); [|lia].
  apply (Z.pow_lt_mono_r_iff 2); lia.
Qed.

(** The conversion of a [uint64_t] to [long double] is exact. *)
Lemma of_Z_repr (z : Z) : 0 <= z < 2 ^ 64 -> LongDouble.of_Z z = LongDouble.repr z.
Proof.
  intros Hz. destruct z as [|p|p]; [reflexivity| |lia].
  pose proof (digits_le_64 p ltac:(lia)) as Hd.
  unfold LongDouble.of_Z, binary_normalize, LongDouble.repr.
  rewrite binary_round_shl; rewrite Z.add_0_r, fexp_long_double by lia;
    [|lia|unfold LongDouble.emax, LongDouble.prec; lia].
  cbn [Zdigits2].
  now replace (0 - (Zpos (digits2_pos p) - 64)) with (64 - Zpos (digits2_pos p)) by lia.
Qed.

Lemma repr_value (z : Z) :
  0 < z < 2 ^ 64 ->
  exists m e, LongDouble.repr z = S754_finite false m e /\
              e = Zdigits2 z - 64 /\ -63 <= e <= 0 /\
              Zpos m = z * 2 ^ (- e) /\ Zpos (digits2_pos m) = 64.
Proof.
  intros Hz. destruct z as [|p|p]; try lia.
  pose proof (digits_le_64 p ltac:(lia)) as Hd.
  unfold LongDouble.repr. cbn [Zdigits2]. do 2 eexists. split; [reflexivity|].
  split; [reflexivity|]. split; [lia|].
  assert (Hpos : 0 < Zpos p * 2 ^ (64 - Zpos (digits2_pos p))).
  { apply Z.mul_pos_pos; [lia|apply Z.pow_pos_nonneg; lia]. }
  rewrite Z2Pos.id by exact Hpos. split; [f_equal; f_equal; lia|].
  change (Zpos (digits2_pos ?q)) with (Zdigits2 (Zpos q)).
  rewrite Z2Pos.id, digits_shift by lia. lia.
Qed.

(** Adding two integers in [long double] is exact as long as the sum
    stays below [2^64]. *)
Lemma add_repr (a b : Z) :
  0 <= a -> 0 <= b -> a + b < 2 ^ 64 ->
  LongDouble.add (LongDouble.repr a) (LongDouble.repr b) = LongDouble.repr (a + b).
Proof.
  intros Ha Hb Hab.
  destruct (Z.eq_dec a 0) as [->|Ha0].
  { destruct b as [|q|q]; try lia; reflexivity. }
  destruct (Z.eq_dec b 0) as [->|Hb0].
  { rewrite Z.add_0_r. destruct a as [|q|q]; try lia; reflexivity. }
  destruct (repr_value a ltac:(lia)) as (ma & ea & -> & Hea & Hra & Hma & Hda).
  destruct (repr_value b ltac:(lia)) as (mb & eb & -> & Heb & Hrb & Hmb & Hdb).
  unfold LongDouble.add, SFadd. cbn [cond_Zopp].
  set (ez := Z.min ea eb).
  rewrite !shl_align_le by lia. cbn [fst].
  assert (Pa : 0 < Zpos ma * 2 ^ (ea - ez))
    by (apply Z.mul_pos_pos; [lia|apply Z.pow_pos_nonneg; lia]).
  assert (Pb : 0 < Zpos mb * 2 ^ (eb - ez))
    by (apply Z.mul_pos_pos; [lia|apply Z.pow_pos_nonneg; lia]).
  rewrite !Z2Pos.id by assumption.
  assert (HM : Zpos ma * 2 ^ (ea - ez) + Zpos mb * 2 ^ (eb - ez) = (a + b) * 2 ^ (- ez)).
  { rewrite Hma, Hmb, <- !Z.mul_assoc, <- !Z.pow_add_r by lia.
    replace (- ea + (ea - ez)) with (- ez) by lia.
    replace (- eb + (eb - ez)) with (- ez) by lia. lia. }
  rewrite HM.
  destruct (a + b) as [|s|s] eqn:Hs; try lia.
  pose proof (digits_le_64 s ltac:(lia)) as Hds.
  assert (Pm : 0 < Zpos s * 2 ^ (- ez))
    by (apply Z.mul_pos_pos; [lia|apply Z.pow_pos_nonneg; lia]).
  destruct (Zpos s * 2 ^ (- ez)) as [|M|M] eqn:HMs; try lia.
  unfold binary_normalize.
  assert (HdM : Zpos (digits2_pos M) = Zpos (digits2_pos s) - ez).
  { change (Zpos (digits2_pos M)) with (Zdigits2 (Zpos M)).
    rewrite <- HMs, digits_shift by lia. lia. }
  unfold LongDouble.repr. cbn [Zdigits2].
  destruct (Z_le_gt_dec (Zpos (digits2_pos s) - 64) ez) as [Hsh|Hsh].
  - rewrite binary_round_shl; rewrite HdM, fexp_long_double by lia;
      [|lia|unfold LongDouble.emax, LongDouble.prec; lia].
    do 2 f_equal; [|lia]. rewrite <- HMs, <- Z.mul_assoc, <- Z.pow_add_r by lia.
    do 2 f_equal. lia.
  - assert (Pc : 0 < Zpos s * 2 ^ (64 - Zpos (digits2_pos s)))
      by (apply Z.mul_pos_pos; [lia|apply Z.pow_pos_nonneg; lia]).
    rewrite (binary_round_shr _ _ _ _ (Z.to_pos (Zpos s * 2 ^ (64 - Zpos (digits2_pos s)))));
      rewrite HdM, fexp_long_double by lia.
    + f_equal. lia.
    + lia.
    + rewrite Z2Pos.id, <- HMs, <- Z.mul_assoc, <- Z.pow_add_r by lia.
      do 2 f_equal. lia.
    + unfold LongDouble.emax, LongDouble.prec. lia.
Qed.

Lemma loc_of_record_of_loc m l :
  loc_of_shr_record (shr_record_of_loc m l) = l.
Proof. destruct l as [|[]]; reflexivity. Qed.

Lemma round_nearest_even_range m l :
  m <= round_nearest_even m l <= m + 1 /\
  (l = loc_Exact -> round_nearest_even m l = m).
Proof.
  split.
  - destruct l as [|[]]; cbn; try lia. destruct (Z.even m); lia.
  - now intros ->.
Qed.

(** One shift of a positive mantissa: the quotient by two, and a
    location that is exact only if nothing was lost. *)
Lemma div2_xI q : Zpos q~1 / 2 = Zpos q.
Proof. symmetry. apply (Z.div_unique _ 2 _ 1); lia. Qed.

Lemma div2_xO q : Zpos q~0 / 2 = Zpos q.
Proof. symmetry. apply (Z.div_unique _ 2 _ 0); lia. Qed.

Lemma mod2_xI q : Zpos q~1 mod 2 = 1.
Proof. symmetry. apply (Z.mod_unique _ 2 (Zpos q) 1); lia. Qed.

Lemma mod2_xO q : Zpos q~0 mod 2 = 0.
Proof. symmetry. apply (Z.mod_unique _ 2 (Zpos q) 0); lia. Qed.

Lemma shr_1_pos (q : positive) (l : location) :
  let r := shr_1 (shr_record_of_loc (Zpos q) l) in
  shr_m r = Zpos q / 2 /\
  (loc_of_shr_record r = loc_Exact <-> l = loc_Exact /\ Zpos q mod 2 = 0).
Proof.
  destruct q as [q|q|]; destruct l as [|[]];
    cbn [shr_record_of_loc shr_1 shr_m loc_of_shr_record orb];
    rewrite ?div2_xI, ?div2_xO, ?mod2_xO, ?mod2_xI;
    (split; [reflexivity|]); split; try discriminate; auto;
    intros [? ?]; discriminate.
Qed.

Section Nearby.

Variables prec emax : Z.
Hypothesis prec_pos : 0 < prec.

Lemma fexp_normal x : emin prec emax <= x - prec -> fexp prec emax x = x - prec.
Proof. unfold fexp. lia. Qed.

(** Rounding a quotient that carries at most one bit more than the
    format: the result is one of the two neighbours of the truncated
    mantissa, the upper one only when something was lost. *)
Lemma binary_round_aux_nearby (s : bool) (q : positive) (e k : Z) (l : location) :
  k = 0 \/ k = 1 ->
  Zpos (digits2_pos q) = prec + k ->
  emin prec emax <= e + k -> e + k + 1 <= emax - prec ->
  exists (m2 : Z) (m3 : positive) (e3 : Z),
    binary_round_aux prec emax s (Zpos q) e l = S754_finite s m3 e3 /\
    Zpos q / 2 ^ k <= m2 <= Zpos q / 2 ^ k + 1 /\
    (m2 = Zpos q / 2 ^ k + 1 -> l <> loc_Exact \/ Zpos q mod 2 ^ k <> 0) /\
    ((e3 = e + k /\ Zpos m3 = m2) \/
     (e3 = e + k + 1 /\ 2 * Zpos m3 = m2 /\ m2 = 2 ^ prec)).
Proof using prec_pos.
  intros Hk Hdig Hmin Hmax.
  destruct (digits_bounds q) as [Qlo Qhi]. rewrite Hdig in Qlo, Qhi.
  (* first alignment *)
  assert (H1 : exists r1,
             shr_fexp prec emax (Zpos q) e l = (r1, e + k) /\
             shr_m r1 = Zpos q / 2 ^ k /\
             (loc_of_shr_record r1 = loc_Exact <->
              l = loc_Exact /\ Zpos q mod 2 ^ k = 0)).
  { unfold shr_fexp. cbn [Zdigits2]. rewrite Hdig, fexp_normal by lia.
    replace (prec + k + e - prec - e) with k by lia.
    destruct Hk as [->| ->].
    - eexists. split; [cbn [shr]; rewrite Z.add_0_r; reflexivity|].
      rewrite loc_of_record_of_loc, Z.pow_0_r, Z.div_1_r, Z.mod_1_r.
      split; [now destruct l as [|[]]|tauto].
    - eexists. split; [reflexivity|]. cbn [SpecFloat.iter_pos].
      rewrite Z.pow_1_r. apply shr_1_pos. }
  destruct H1 as (r1 & Hr1 & Hm1 & Hl1).
  remember (Zpos q / 2 ^ k) as m1 eqn:Em1.
  assert (Hm1r : 2 ^ (prec - 1) <= m1 < 2 ^ prec).
  { subst m1. destruct Hk as [->| ->].
    - rewrite Z.pow_0_r, Z.div_1_r. now rewrite Z.add_0_r in Qlo, Qhi.
    - rewrite Z.pow_1_r.
      replace (prec + 1 - 1) with (Z.succ (prec - 1)) in Qlo by lia.
      replace (prec + 1) with (Z.succ prec) in Qhi by lia.
      rewrite Z.pow_succ_r in Qlo, Qhi by lia.
      split; [apply Z.div_le_lower_bound; lia|apply Z.div_lt_upper_bound; lia]. }
  destruct (round_nearest_even_range m1 (loc_of_shr_record r1)) as [Hm2 Hex].
  remember (round_nearest_even m1 (loc_of_shr_record r1)) as m2 eqn:Em2.
  assert (Hpp : 0 < 2 ^ (prec - 1)) by (apply Z.pow_pos_nonneg; lia).
  assert (Hpow : 2 ^ prec = 2 ^ (prec - 1) * 2).
  { replace prec with (Z.succ (prec - 1)) at 1 by lia. rewrite Z.pow_succ_r by lia. lia. }
  assert (Hup : m2 = m1 + 1 -> l <> loc_Exact \/ Zpos q mod 2 ^ k <> 0).
  { intros Hup.
    assert (Hd : l = loc_Exact \/ l <> loc_Exact)
      by (destruct l; [now left|right; discriminate]).
    destruct Hd as [Hl|Hl]; [|now left].
    right. intros Hz. rewrite Hex in Hup by (apply Hl1; auto). lia. }
  unfold binary_round_aux. rewrite Hr1, Hm1, <- Em2.
  destruct m2 as [|p2|p2]; try lia.
  destruct (Z.eq_dec (Zpos p2) (2 ^ prec)) as [Hcarry|Hnc].
  - (* the rounding carried into the next binade *)
    exists (Zpos p2), (Z.to_pos (2 ^ (prec - 1))), (e + k + 1).
    assert (Hd2 : Zpos (digits2_pos p2) = prec + 1).
    { apply digits_unique. rewrite Hcarry.
      replace (prec + 1 - 1) with prec by lia.
      split; [lia|apply Z.pow_lt_mono_r; lia]. }
    unfold shr_fexp. cbn [Zdigits2]. rewrite Hd2, fexp_normal by lia.
    replace (prec + 1 + (e + k) - prec - (e + k)) with 1 by lia.
    cbn [shr SpecFloat.iter_pos shr_record_of_loc].
    rewrite Hcarry, Hpow, shr_1_even by lia. cbn [shr_m].
    destruct (2 ^ (prec - 1)) as [|pp|pp] eqn:Epp; try lia.
    rewrite (proj2 (Z.leb_le _ _)) by lia.
    split; [now rewrite Pos2Z.id|].
    split; [lia|]. split; [intros Hx; apply Hup; lia|].
    right. split; [lia|]. rewrite Pos2Z.id. split; lia.
  - exists (Zpos p2), p2, (e + k).
    assert (Hd2 : Zpos (digits2_pos p2) = prec).
    { apply digits_unique. lia. }
    unfold shr_fexp. cbn [Zdigits2]. rewrite Hd2, fexp_normal by lia.
    replace (prec + (e + k) - prec - (e + k)) with 0 by lia.
    cbn [shr shr_record_of_loc shr_m].
    rewrite (proj2 (Z.leb_le _ _)) by lia.
    split; [reflexivity|]. split; [lia|]. split; [exact Hup|]. left. split; reflexivity.
Qed.

End Nearby.

Lemma new_location_exact n r : new_location n r = loc_Exact <-> r = 0.
Proof.
  unfold new_location, new_location_even, new_location_odd.
  destruct (Z.even n); destruct (Z.eqb_spec r 0); split; intros H;
    try reflexivity; try assumption; try discriminate; contradiction.
Qed.

(** Truncating a quotient twice: first by [Y], then by [P]. *)
Lemma quotient_bracket (W Y P q r m1 rm : Z) :
  0 < Y -> 0 < P -> W = Y * q + r -> 0 <= r < Y ->
  q = P * m1 + rm -> 0 <= rm < P ->
  m1 * (Y * P) <= W < (m1 + 1) * (Y * P) /\
  (r <> 0 \/ rm <> 0 -> m1 * (Y * P) < W).
Proof.
  intros HY HP HW Hr Hq Hrm.
  assert (E : W = m1 * (Y * P) + (Y * rm + r)) by (subst W q; ring).
  assert (0 <= Y * rm) by nia.
  assert (Y * rm <= Y * (P - 1)) by nia.
  assert (rm <> 0 -> Y <= Y * rm) by nia.
  split; [nia|]. intros [?|?]; nia.
Qed.

Lemma scaled_lt (a b c : Z) : 0 < c -> a * c < b * c -> a < b.
Proof. intros. nia. Qed.

Lemma scaled_le (a b c : Z) : 0 < c -> a * c <= b * c -> a <= b.
Proof. intros. nia. Qed.

(** The quotient of two integers in [long double]: a finite number
    within one unit in the last place of the exact quotient, and between
    any two integers that bracket it. *)
Lemma div_repr (S n : Z) :
  0 < S < 2 ^ 64 -> 0 < n < 2 ^ 64 ->
  exists (m : positive) (e : Z),
    LongDouble.div (LongDouble.repr S) (LongDouble.repr n) = S754_finite false m e /\
    -128 <= e <= 0 /\
    (forall lo, n * lo <= S -> lo * 2 ^ (- e) <= Zpos m) /\
    (forall hi, S <= n * hi -> Zpos m <= hi * 2 ^ (- e)) /\
    n * (Zpos m - 1) < S * 2 ^ (- e) < n * (Zpos m + 1).
Proof.
  intros HS Hn.
  destruct (repr_value S HS) as (mx & ex & -> & Hex & Hrx & Hmx & Hdx).
  destruct (repr_value n Hn) as (my & ey & -> & Hey & Hry & Hmy & Hdy).
  unfold LongDouble.div, SFdiv, SFdiv_core_binary. cbn [Zdigits2 xorb].
  rewrite Hdx, Hdy.
  replace (64 + ex - (64 + ey)) with (ex - ey) by lia.
  rewrite fexp_long_double by lia.
  replace (Z.min (ex - ey - 64) (ex - ey)) with (ex - ey - 64) by lia.
  replace (ex - ey - (ex - ey - 64)) with 64 by lia.
  rewrite Z.shiftl_mul_pow2 by lia.
  set (W := Zpos mx * 2 ^ 64).
  assert (Hxr : 2 ^ 63 <= Zpos mx < 2 ^ 64).
  { pose proof (digits_bounds mx) as H. now rewrite Hdx in H. }
  assert (Hyr : 2 ^ 63 <= Zpos my < 2 ^ 64).
  { pose proof (digits_bounds my) as H. now rewrite Hdy in H. }
  pose proof (Z.div_mod W (Zpos my) ltac:(lia)) as Hdm.
  pose proof (Z.mod_pos_bound W (Zpos my) ltac:(lia)) as Hrb.
  destruct (Z.div_eucl W (Zpos my)) as [q r] eqn:Hqr.
  assert (q = W / Zpos my) as Hq by (unfold Z.div; now rewrite Hqr).
  assert (r = W mod Zpos my) as Hr by (unfold Z.modulo; now rewrite Hqr).
  subst q r. clear Hqr. set (q := W / Zpos my) in *. set (r := W mod Zpos my) in *.
  assert (Hqlo : 2 ^ 63 <= q).
  { apply Z.div_le_lower_bound; [lia|]. unfold W.
    transitivity (2 ^ 64 * 2 ^ 63); [apply Z.mul_le_mono_nonneg_r; lia|].
    rewrite Z.mul_comm. apply Z.mul_le_mono_nonneg_r; lia. }
  assert (Hqhi : q < 2 ^ 65).
  { apply Z.div_lt_upper_bound; [lia|]. unfold W.
    apply Z.lt_le_trans with (2 ^ 64 * 2 ^ 64); [apply Z.mul_lt_mono_pos_r; lia|].
    change (2 ^ 64 * 2 ^ 64) with (2 ^ 63 * 2 ^ 65).
    apply Z.mul_le_mono_nonneg_r; lia. }
  destruct q as [|q|q]; try lia.
  (* one or no extra bit *)
  assert (Hk : exists k, (k = 0 \/ k = 1) /\ Zpos (digits2_pos q) = 64 + k).
  { destruct (Z_lt_le_dec (Zpos q) (2 ^ 64)).
    - exists 0. split; [now left|]. apply digits_unique. lia.
    - exists 1. split; [now right|]. apply digits_unique. lia. }
  destruct Hk as (k & Hk & Hdq).
  destruct (binary_round_aux_nearby LongDouble.prec LongDouble.emax
              ltac:(unfold LongDouble.prec; lia) false q (ex - ey - 64) k
              (new_location (Zpos my) r) Hk Hdq)
    as (m2 & m3 & e3 & Hres & Hm2 & Hup & Hfin);
    [unfold emin, LongDouble.prec, LongDouble.emax; lia
    |unfold LongDouble.prec, LongDouble.emax; lia|].
  rewrite new_location_exact in Hup.
  exists m3, e3. split; [exact Hres|].
  (* the scale of the two integers *)
  set (P := 2 ^ k) in *.
  assert (HP : P = 1 \/ P = 2) by (unfold P; destruct Hk as [->| ->]; auto).
  assert (HPpos : 0 < P) by lia.
  pose proof (Z.div_mod (Zpos q) P ltac:(lia)) as Hdm1.
  pose proof (Z.mod_pos_bound (Zpos q) P ltac:(lia)) as Hrb1.
  set (m1 := Zpos q / P) in *.
  set (e1 := ex - ey - 64 + k) in *.
  assert (He1 : -128 <= e1 <= 0) by (unfold e1; lia).
  remember (2 ^ (- e1)) as T eqn:ET.
  assert (HT : 0 < T) by (rewrite ET; apply Z.pow_pos_nonneg; lia).
  set (G := 2 ^ (64 - ex)).
  assert (HG : 0 < G) by (apply Z.pow_pos_nonneg; lia).
  assert (HW : W = S * G).
  { unfold W, G. rewrite Hmx, <- Z.mul_assoc, <- Z.pow_add_r by lia.
    do 2 f_equal. lia. }
  assert (HnG : Zpos my * P * T = n * G).
  { rewrite ET. unfold P, G, e1. rewrite Hmy, <- !Z.mul_assoc, <- !Z.pow_add_r by lia.
    do 2 f_equal. lia. }
  set (Y := Zpos my) in *.
  assert (HY : 0 < Y) by (unfold Y; lia).
  assert (HYP : 0 < Y * P) by (apply Z.mul_pos_pos; assumption).
  (* the truncated mantissa brackets the quotient *)
  destruct (quotient_bracket W Y P (Zpos q) r m1 (Zpos q mod P))
    as [[Hlow Hhigh] Hstrict0]; try assumption.
  assert (Hstrict : m2 = m1 + 1 -> m1 * (Y * P) < W).
  { intros H. apply Hstrict0. destruct (Hup H); auto. }
  assert (Hscale : forall z, z * T * (Y * P) = z * n * G).
  { intros z. replace (z * T * (Y * P)) with (z * (Y * P * T)) by ring.
    rewrite HnG. ring. }
  assert (Hlo2 : forall lo, n * lo <= S -> lo * T <= m2).
  { intros lo Hlo. assert (lo * T < m1 + 1); [|lia].
    apply (scaled_lt _ _ (Y * P) HYP).
    eapply Z.le_lt_trans; [|exact Hhigh]. rewrite HW, Hscale.
    apply Z.mul_le_mono_nonneg_r; lia. }
  assert (Hhi2 : forall hi, S <= n * hi -> m2 <= hi * T).
  { intros hi Hhi.
    assert (Hc : W <= hi * T * (Y * P)).
    { rewrite HW, Hscale. apply Z.mul_le_mono_nonneg_r; lia. }
    destruct (Z.eq_dec m2 (m1 + 1)) as [Heq|Hne].
    - assert (m1 < hi * T); [|lia].
      apply (scaled_lt _ _ (Y * P) HYP).
      eapply Z.lt_le_trans; [apply Hstrict, Heq|exact Hc].
    - assert (m2 = m1) as -> by lia.
      apply (scaled_le _ _ (Y * P) HYP).
      eapply Z.le_trans; [exact Hlow|exact Hc]. }
  assert (Hfaith : n * (m2 - 1) < S * T /\ S * T < n * (m2 + 1)).
  { assert (Hc : S * T * (Y * P) = n * W) by (rewrite Hscale, HW; ring).
    assert (Hn0 : 0 < n) by lia.
    split; apply (scaled_lt _ _ (Y * P) HYP); rewrite Hc.
    - replace (n * (m2 - 1) * (Y * P)) with (n * ((m2 - 1) * (Y * P))) by ring.
      apply Z.mul_lt_mono_pos_l; [exact Hn0|].
      destruct (Z.eq_dec m2 (m1 + 1)) as [Heq|Hne].
      + replace (m2 - 1) with m1 by lia. now apply Hstrict.
      + assert (m2 = m1) as -> by lia.
        eapply Z.lt_le_trans; [|exact Hlow].
        apply Z.mul_lt_mono_pos_r; [exact HYP|lia].
    - replace (n * (m2 + 1) * (Y * P)) with (n * ((m2 + 1) * (Y * P))) by ring.
      apply Z.mul_lt_mono_pos_l; [exact Hn0|].
      eapply Z.lt_le_trans; [exact Hhigh|].
      apply Z.mul_le_mono_nonneg_r; lia. }
  clearbody G. clear Hdm Hdm1 Hrb Hrb1 HW HnG Hscale Hlow Hhigh Hstrict Hstrict0.
  fold e1 in Hfin. destruct Hfin as [[-> <-]|(-> & Hhalf & Hcarry)].
  - rewrite <- ET. split; [lia|]. split; [exact Hlo2|]. split; [exact Hhi2|]. lia.
  - (* carry: the mantissa was halved and the exponent raised *)
    assert (Hc2 : m2 <= S * T).
    { apply Hhi2. rewrite <- (Z.mul_1_l S) at 1.
      apply Z.mul_le_mono_nonneg_r; lia. }
    assert (He1' : e1 <= -1).
    { destruct (Z.eq_dec e1 0) as [E0|]; [|lia].
      rewrite E0 in ET. cbn in ET. subst T.
      unfold LongDouble.prec in Hcarry. lia. }
    assert (HT2 : T = 2 * 2 ^ (- (e1 + 1))).
    { rewrite ET. replace (- e1) with (Z.succ (- (e1 + 1))) by lia.
      now rewrite Z.pow_succ_r by lia. }
    remember (2 ^ (- (e1 + 1))) as T' eqn:ET'.
    split; [lia|]. split; [|split].
    + intros lo Hlo. specialize (Hlo2 lo Hlo). rewrite HT2 in Hlo2. lia.
    + intros hi Hhi. specialize (Hhi2 hi Hhi). rewrite HT2 in Hhi2. lia.
    + rewrite HT2 in Hfaith. rewrite <- Hhalf in Hfaith. lia.
Qed.

(** ** The value of a float as a rational *)

Lemma Qpow2_nonpos (e : Z) : e <= 0 -> (2 ^ e == / inject_Z (2 ^ (- e)))%Q.
Proof.
  intros He. replace e with (- (- e)) at 1 by lia.
  rewrite Qpower_opp. apply Qinv_comp.
  symmetry. apply (Zpower_Qpower 2). lia.
Qed.

Lemma SF2Q_bounds (m : positive) (e lo hi : Z) :
  e <= 0 -> lo * 2 ^ (- e) <= Zpos m <= hi * 2 ^ (- e) ->
  (inject_Z lo <= SF2Q (S754_finite false m e) <= inject_Z hi)%Q.
Proof.
  intros He [Hlo Hhi]. unfold SF2Q. cbn [cond_Zopp].
  assert (HD : 0 < 2 ^ (- e)) by (apply Z.pow_pos_nonneg; lia).
  assert (HDq : (0 < inject_Z (2 ^ (- e)))%Q).
  { change 0%Q with (inject_Z 0). now rewrite <- Zlt_Qlt. }
  rewrite (Qpow2_nonpos e He). split.
  - apply Qle_shift_div_l; [exact HDq|].
    rewrite <- inject_Z_mult, <- Zle_Qle. exact Hlo.
  - apply Qle_shift_div_r; [exact HDq|].
    rewrite <- inject_Z_mult, <- Zle_Qle. exact Hhi.
Qed.

(** ** The sum and the mean of the samples *)

Lemma total_cons x l : Stats.total (x :: l) = x + Stats.total l.
Proof. reflexivity. Qed.

Lemma total_nonneg l : Forall U64.in_range l -> 0 <= Stats.total l.
Proof.
  induction 1 as [|x l Hx _ IH]; [cbn; lia|].
  rewrite total_cons. unfold U64.in_range in Hx. lia.
Qed.

Lemma sum_from_repr (l : list Z) (acc : Z) :
  Forall U64.in_range l -> 0 <= acc -> acc + Stats.total l < 2 ^ 64 ->
  fold_left (fun sum r => LongDouble.add sum (LongDouble.of_Z r)) l (LongDouble.repr acc)
  = LongDouble.repr (acc + Stats.total l).
Proof.
  intros Hl. revert acc. induction Hl as [|x l Hx Hl IH]; intros acc Hacc Hsum.
  - cbn. now rewrite Z.add_0_r.
  - pose proof (total_nonneg l Hl). unfold U64.in_range, U64.modulus in Hx.
    rewrite total_cons in Hsum. rewrite total_cons. cbn [fold_left].
    rewrite of_Z_repr, add_repr by lia.
    rewrite IH by lia. f_equal. lia.
Qed.

(** The accumulation loop computes the sum of the samples exactly while
    that sum is below [2^64]. *)
Lemma sum_loop_repr (results : list Z) :
  Forall U64.in_range results -> Stats.total results < 2 ^ 64 ->
  Stats.sum_loop results = LongDouble.repr (Stats.total results).
Proof.
  intros Hl Hs. unfold Stats.sum_loop.
  change LongDouble.zero with (LongDouble.repr 0). now rewrite sum_from_repr by (lia || assumption).
Qed.

Lemma total_bounds (l : list Z) (lo hi : Z) :
  (forall x, In x l -> lo <= x <= hi) ->
  Z.of_nat (length l) * lo <= Stats.total l <= Z.of_nat (length l) * hi.
Proof.
  induction l as [|x l IH]; intros H; [cbn; lia|].
  rewrite total_cons. cbn [length]. rewrite Nat2Z.inj_succ.
  pose proof (H x ltac:(now left)).
  assert (forall y, In y l -> lo <= y <= hi) as Hl by (intros; apply H; now right).
  specialize (IH Hl). lia.
Qed.

(** The mean of a series whose sum stays below [2^64]: finite and
    between the extremes. *)
Lemma mean_bounds (REPEAT : Z) (results : list Z) (s : Stats.summary) :
  0 < REPEAT -> REPEAT < U64.modulus -> Z.of_nat (length results) = REPEAT ->
  Forall U64.in_range results -> Stats.total results < 2 ^ 64 ->
  Stats.stats REPEAT results = Some s ->
  is_finite_SF (Stats.mean s) = true /\
  (inject_Z (Stats.minv s) <= SF2Q (Stats.mean s) <= inject_Z (Stats.maxv s))%Q.
Proof.
  intros Hpos HR Hlen Hrange Htot Hs.
  pose proof (min_max_bound REPEAT results s Hpos HR Hlen Hs) as Hmm.
  pose proof (total_bounds results _ _ Hmm) as Hb. rewrite Hlen in Hb.
  pose proof (total_nonneg results Hrange) as H0.
  destruct (stats_defined REPEAT results Hpos HR Hlen) as (s' & Hs' & _ & _ & _ & Hmean & _).
  assert (s' = s) as -> by congruence.
  rewrite Hmean, sum_loop_repr, of_Z_repr by (assumption || (unfold U64.modulus in HR; lia)).
  destruct (Z.eq_dec (Stats.total results) 0) as [Hz|Hnz].
  - rewrite Hz in *. destruct REPEAT as [|p|p]; try lia.
    split; [reflexivity|]. cbn.
    change 0%Q with (inject_Z 0). rewrite <- !Zle_Qle. nia.
  - destruct (div_repr (Stats.total results) REPEAT) as (m & e & -> & He & Hlo & Hhi & _);
      [lia|unfold U64.modulus in HR; lia|].
    split; [reflexivity|]. apply SF2Q_bounds; [lia|].
    split; [apply Hlo|apply Hhi]; lia.
Qed.

(** The quotient of the exact sum by the count is rounded once: the mean
    lies within one unit in the last place of the arithmetic mean. *)
Lemma mean_faithful (REPEAT : Z) (results : list Z) (s : Stats.summary) :
  0 < REPEAT -> REPEAT < U64.modulus -> Z.of_nat (length results) = REPEAT ->
  Forall U64.in_range results -> 0 < Stats.total results < 2 ^ 64 ->
  Stats.stats REPEAT results = Some s ->
  exists (m : positive) (e : Z),
    Stats.mean s = S754_finite false m e /\ e <= 0 /\
    REPEAT * (Zpos m - 1) < Stats.total results * 2 ^ (- e) < REPEAT * (Zpos m + 1).
Proof.
  intros Hpos HR Hlen Hrange Htot Hs.
  destruct (stats_defined REPEAT results Hpos HR Hlen) as (s' & Hs' & _ & _ & _ & Hmean & _).
  assert (s' = s) as -> by congruence.
  rewrite Hmean, sum_loop_repr, of_Z_repr by (assumption || (unfold U64.modulus in HR; lia)).
  destruct (div_repr (Stats.total results) REPEAT) as (m & e & -> & He & _ & _ & Hf);
    [lia|unfold U64.modulus in HR; lia|].
  exists m, e. split; [reflexivity|]. split; [lia|exact Hf].
Qed.

(** C3 (as amended).  For every series of at least one sample whose sum
    is below [2^64], the summary exists, its minimum and maximum are the
    two ends of the ascending-sorted series, and both the median and the
    mean (the sum divided by the count in [long double]) lie between
    them. *)
Theorem summary_ordered (REPEAT : Z) (results : list Z) :
  0 < REPEAT -> REPEAT < U64.modulus -> Z.of_nat (length results) = REPEAT ->
  Forall U64.in_range results -> Stats.total results < 2 ^ 64 ->
  exists s,
    Stats.stats REPEAT results = Some s /\
    Stats.qsort Stats.cmp_uint64 results !! 0%nat = Some (Stats.minv s) /\
    Stats.qsort Stats.cmp_uint64 results !! Z.to_nat (REPEAT - 1) = Some (Stats.maxv s) /\
    Stats.minv s <= Stats.median s <= Stats.maxv s /\
    is_finite_SF (Stats.mean s) = true /\
    (inject_Z (Stats.minv s) <= SF2Q (Stats.mean s) <= inject_Z (Stats.maxv s))%Q.
Proof.
  intros Hpos HR Hlen Hrange Htot.
  destruct (stats_defined REPEAT results Hpos HR Hlen) as (s & Hs & Hmin & Hmax & _).
  exists s. split; [exact Hs|]. split; [exact Hmin|]. split; [exact Hmax|].
  split; [now apply (min_median_max REPEAT results)|].
  now apply (mean_bounds REPEAT results).
Qed.

Lemma summary_ordered_witness :
  exists s,
    Stats.stats 4 [310; 295; 1204; 301] = Some s /\
    Stats.qsort Stats.cmp_uint64 [310; 295; 1204; 301] !! 0%nat = Some (Stats.minv s) /\
    Stats.qsort Stats.cmp_uint64 [310; 295; 1204; 301] !! Z.to_nat (4 - 1)
      = Some (Stats.maxv s) /\
    Stats.minv s <= Stats.median s <= Stats.maxv s /\
    is_finite_SF (Stats.mean s) = true /\
    (inject_Z (Stats.minv s) <= SF2Q (Stats.mean s) <= inject_Z (Stats.maxv s))%Q.
Proof.
  apply (summary_ordered 4 [310; 295; 1204; 301]).
  - lia.
  - reflexivity.
  - reflexivity.
  - repeat constructor; unfold U64.modulus; lia.
  - reflexivity.
Defined.

(** C3, the claim as stated, fails: 2000 samples (the trial count of the
    2 MiB size), each [2^60 + 1] cycles.  Once the partial sum needs more
    than 64 bits the additions round, and the mean comes out as
    [2^60 + 1/8], below the minimum. *)
Lemma mean_below_minimum :
  exists s,
    Stats.stats 2000 (repeat (2 ^ 60 + 1) 2000) = Some s /\
    Stats.minv s = 2 ^ 60 + 1 /\
    (SF2Q (Stats.mean s) == inject_Z (2 ^ 60) + (1 # 8))%Q /\
    ~ (inject_Z (Stats.minv s) <= SF2Q (Stats.mean s))%Q.
Proof.
  eexists. split; [vm_compute; reflexivity|].
  split; [reflexivity|]. split; [reflexivity|].
  apply Qlt_not_le. reflexivity.
Qed.

(** The same on five samples of [2^64 - 1]. *)
Example five_samples_mean_low :
  exists s,
    Stats.stats 5 (repeat (2 ^ 64 - 1) 5) = Some s /\
    Stats.mean s = LongDouble.of_Z (2 ^ 64 - 2) /\ Stats.minv s = 2 ^ 64 - 1.
Proof. eexists. split; [vm_compute; reflexivity|]. split; reflexivity. Qed.

(** ** Validity of rounded results *)

Lemma shr_1_m (r : shr_record) :
  0 <= shr_m r -> shr_m (shr_1 r) = shr_m r / 2.
Proof.
  destruct r as [m r s]. cbn [shr_m]. intros Hm.
  destruct m as [|[q|q|]|q]; cbn [shr_1 shr_m]; try lia;
    rewrite ?div2_xI, ?div2_xO; reflexivity.
Qed.

Lemma iter_shr_m (k : positive) (r : shr_record) :
  0 <= shr_m r -> shr_m (SpecFloat.iter_pos shr_1 k r) = shr_m r / 2 ^ Zpos k.
Proof.
  assert (Hnn : forall r, 0 <= shr_m r -> 0 <= shr_m (shr_1 r)).
  { intros r0 H. rewrite shr_1_m by exact H. apply Z.div_pos; lia. }
  revert r. induction k as [k IH|k IH|]; intros r Hr; cbn [SpecFloat.iter_pos].
  - assert (0 < 2 ^ Zpos k) by (apply Z.pow_pos_nonneg; lia).
    rewrite IH, IH, shr_1_m by (rewrite ?IH; auto; apply Z.div_pos; auto; lia).
    rewrite pow2_xI, !Z.div_div by lia. f_equal. lia.
  - assert (0 < 2 ^ Zpos k) by (apply Z.pow_pos_nonneg; lia).
    rewrite IH, IH by (rewrite ?IH; auto; apply Z.div_pos; auto; lia).
    rewrite pow2_xO, !Z.div_div by lia. reflexivity.
  - rewrite Z.pow_1_r. now apply shr_1_m.
Qed.

Lemma digits_div_pow2 (m : positive) (k : Z) :
  0 <= k -> Zdigits2 (Zpos m / 2 ^ k) = Z.max 0 (Zpos (digits2_pos m) - k).
Proof.
  intros Hk. destruct (digits_bounds m) as [Hlo Hhi].
  set (d := Zpos (digits2_pos m)) in *.
  assert (Hpk : 0 < 2 ^ k) by (apply Z.pow_pos_nonneg; lia).
  destruct (Z_lt_le_dec k d) as [Hlt|Hge].
  - replace (Z.max 0 (d - k)) with (d - k) by lia.
    assert (Hq : 2 ^ (d - k - 1) <= Zpos m / 2 ^ k < 2 ^ (d - k)).
    { split.
      - apply Z.div_le_lower_bound; [lia|].
        rewrite <- Z.pow_add_r by lia. now replace (k + (d - k - 1)) with (d - 1) by lia.
      - apply Z.div_lt_upper_bound; [lia|].
        rewrite <- Z.pow_add_r by lia. now replace (k + (d - k)) with d by lia. }
    assert (0 < 2 ^ (d - k - 1)) by (apply Z.pow_pos_nonneg; lia).
    destruct (Zpos m / 2 ^ k) as [|q|q]; try lia.
    cbn [Zdigits2]. now apply digits_unique.
  - replace (Z.max 0 (d - k)) with 0 by lia.
    rewrite Z.div_small; [reflexivity|].
    split; [lia|]. apply Z.lt_le_trans with (2 ^ d); [lia|].
    apply Z.pow_le_mono_r; lia.
Qed.

Section Validity.

Variables prec emax : Z.
Hypothesis prec_pos : 0 < prec.

Lemma shr_fexp_spec (m e : Z) (l : location) :
  0 <= m ->
  let E := Z.max e (fexp prec emax (Zdigits2 m + e)) in
  exists r, shr_fexp prec emax m e l = (r, E) /\ shr_m r = m / 2 ^ (E - e).
Proof using Type.
  intros Hm E. unfold shr_fexp.
  destruct (fexp prec emax (Zdigits2 m + e) - e) as [|p|p] eqn:Hd; cbn [shr].
  - exists (shr_record_of_loc m l). replace E with e by lia.
    rewrite Z.sub_diag, Z.div_1_r. split; [reflexivity|now destruct l as [|[]]].
  - eexists. replace E with (e + Zpos p) by lia. split; [reflexivity|].
    rewrite iter_shr_m by (destruct l as [|[]]; exact Hm).
    replace (e + Zpos p - e) with (Zpos p) by lia.
    f_equal. now destruct l as [|[]].
  - exists (shr_record_of_loc m l). replace E with e by lia.
    rewrite Z.sub_diag, Z.div_1_r. split; [reflexivity|now destruct l as [|[]]].
Qed.

(** Whatever is rounded comes out as a zero, an infinity, or a finite
    number in the format's canonical form. *)
Lemma binary_round_aux_valid (s : bool) (m : positive) (e : Z) (l : location) :
  e <= fexp prec emax (Zpos (digits2_pos m) + e) ->
  valid_binary prec emax (binary_round_aux prec emax s (Zpos m) e l) = true.
Proof using prec_pos.
  intros Hpre. set (d := Zpos (digits2_pos m)) in *.
  set (E := fexp prec emax (d + e)) in *.
  assert (HEmin : emin prec emax <= E) by (unfold E, fexp; lia).
  assert (HEd : d + e - prec <= E) by (unfold E, fexp; lia).
  assert (HEcase : E = d + e - prec \/ E = emin prec emax) by (unfold E, fexp; lia).
  destruct (shr_fexp_spec (Zpos m) e l ltac:(lia)) as (r1 & Hr1 & Hm1).
  cbn [Zdigits2] in Hr1, Hm1. fold d in Hr1, Hm1. fold E in Hr1, Hm1.
  replace (Z.max e E) with E in Hr1, Hm1 by lia.
  pose proof (digits_div_pow2 m (E - e) ltac:(lia)) as Hd1. fold d in Hd1.
  rewrite <- Hm1 in Hd1.
  assert (Hm1nn : 0 <= shr_m r1).
  { rewrite Hm1. apply Z.div_pos; [lia|apply Z.pow_pos_nonneg; lia]. }
  destruct (round_nearest_even_range (shr_m r1) (loc_of_shr_record r1)) as [Hm2 _].
  unfold binary_round_aux. rewrite Hr1.
  remember (round_nearest_even (shr_m r1) (loc_of_shr_record r1)) as m2 eqn:Em2.
  destruct (shr_fexp_spec m2 E loc_Exact ltac:(lia)) as (r2 & Hr2 & Hm3).
  rewrite Hr2.
  remember (Z.max E (fexp prec emax (Zdigits2 m2 + E))) as E2 eqn:EE2.
  (* the digits of the rounded mantissa *)
  assert (HFle : forall x, x <= prec -> fexp prec emax (x + E) <= E) by (intros; unfold fexp; lia).
  assert (Hcan : m2 = 0 \/
            (0 < m2 /\ fexp prec emax (Zdigits2 m2 + E) = E) \/
            (m2 = 2 ^ prec /\ E = d + e - prec)).
  { destruct (Z.eq_dec m2 0) as [|Hnz]; [now left|right].
    assert (Hp2 : 0 < m2) by lia.
    set (d1 := Z.max 0 (d - (E - e))) in *.
    assert (Hd1r : 0 <= d1 <= prec) by lia.
    assert (Hb1 : shr_m r1 < 2 ^ d1).
    { destruct (shr_m r1) as [|q|q] eqn:Eq;
        [apply Z.pow_pos_nonneg; lia| |lia].
      cbn [Zdigits2] in Hd1. rewrite <- Hd1. apply digits_bounds. }
    assert (Hb0 : 0 < d1 -> 2 ^ (d1 - 1) <= shr_m r1).
    { intros Hpos. destruct (shr_m r1) as [|q|q] eqn:Eq; [cbn in Hd1; lia| |lia].
      cbn [Zdigits2] in Hd1. rewrite <- Hd1. apply digits_bounds. }
    destruct (Z.eq_dec m2 (2 ^ d1)) as [Hc|Hnc].
    - (* the mantissa reached the next power of two *)
      destruct (Z.eq_dec d1 prec) as [Hdp|Hdp].
      + right. split; [now rewrite Hc, Hdp|lia].
      + left. split; [exact Hp2|].
        assert (Hd2 : Zdigits2 m2 = d1 + 1).
        { destruct m2 as [|q|q]; try lia. cbn [Zdigits2]. apply digits_unique.
          rewrite Hc. replace (d1 + 1 - 1) with d1 by lia.
          split; [lia|apply Z.pow_lt_mono_r; lia]. }
        assert (E = emin prec emax) by lia.
        rewrite Hd2. unfold fexp. lia.
    - left. split; [exact Hp2|].
      assert (Hd1pos : 0 < d1).
      { destruct (Z.eq_dec d1 0) as [Hz|]; [|lia].
        rewrite Hz in Hb1, Hnc. cbn in Hb1, Hnc. lia. }
      assert (Hd2 : Zdigits2 m2 = d1).
      { specialize (Hb0 Hd1pos).
        destruct m2 as [|q|q]; try lia. cbn [Zdigits2]. apply digits_unique. lia. }
      rewrite Hd2. replace (d1 + E) with (d + e) by lia. reflexivity. }
  assert (Hp1 : 0 < 2 ^ (prec - 1)) by (apply Z.pow_pos_nonneg; lia).
  assert (Hpow : 2 ^ prec = 2 ^ (prec - 1) * 2).
  { replace prec with (Z.succ (prec - 1)) at 1 by lia. rewrite Z.pow_succ_r by lia. lia. }
  destruct Hcan as [Hz|[[Hp2 Hc]|[Hc HE]]].
  - rewrite Hz in EE2, Hm3. cbn [Zdigits2] in EE2.
    assert (E2 = E) as HE2 by (specialize (HFle 0); lia).
    rewrite HE2, Z.sub_diag, Z.div_1_r in Hm3. now rewrite Hm3.
  - assert (E2 = E) as HE2 by lia.
    rewrite HE2, Z.sub_diag, Z.div_1_r in Hm3. rewrite Hm3, HE2.
    destruct m2 as [|p2|p2]; try lia.
    destruct (Z.leb_spec E (emax - prec)) as [Hle|Hgt]; [|reflexivity].
    cbn [valid_binary]. unfold bounded, canonical_mantissa.
    cbn [Zdigits2] in Hc. rewrite Hc, Z.eqb_refl.
    now apply Z.leb_le.
  - assert (Hd2 : Zdigits2 m2 = prec + 1).
    { rewrite Hc. destruct (2 ^ prec) as [|q|q] eqn:Eq; try lia.
      cbn [Zdigits2]. apply digits_unique.
      replace (prec + 1 - 1) with prec by lia. rewrite <- Eq.
      split; [lia|apply Z.pow_lt_mono_r; lia]. }
    assert (E2 = E + 1) as HE2 by (rewrite EE2, Hd2; unfold fexp; lia).
    rewrite HE2 in Hm3 |- *. replace (E + 1 - E) with 1 in Hm3 by lia.
    rewrite Z.pow_1_r, Hc, Hpow, Z.div_mul in Hm3 by lia. rewrite Hm3.
    destruct (2 ^ (prec - 1)) as [|p3|p3] eqn:Ep3; try lia.
    destruct (Z.leb_spec (E + 1) (emax - prec)) as [Hle|Hgt]; [|reflexivity].
    cbn [valid_binary]. unfold bounded, canonical_mantissa.
    assert (Hd3 : Zpos (digits2_pos p3) = prec).
    { apply digits_unique. rewrite <- Ep3. split; [lia|apply Z.pow_lt_mono_r; lia]. }
    rewrite Hd3. replace (fexp prec emax (prec + (E + 1))) with (E + 1)
      by (unfold fexp; lia).
    rewrite Z.eqb_refl. now apply Z.leb_le.
Qed.

Lemma binary_round_valid (s : bool) (m : positive) (e : Z) :
  valid_binary prec emax (binary_round prec emax s m e) = true.
Proof using prec_pos.
  unfold binary_round. set (E := fexp prec emax (Zpos (digits2_pos m) + e)).
  destruct (Z_le_gt_dec E e) as [Hle|Hgt].
  - rewrite shl_align_le by exact Hle.
    assert (Hpos : 0 < Zpos m * 2 ^ (e - E))
      by (apply Z.mul_pos_pos; [lia|apply Z.pow_pos_nonneg; lia]).
    apply binary_round_aux_valid.
    change (Zpos (digits2_pos (Z.to_pos (Zpos m * 2 ^ (e - E)))))
      with (Zdigits2 (Zpos (Z.to_pos (Zpos m * 2 ^ (e - E))))).
    rewrite Z2Pos.id, digits_shift by lia.
    replace (Zpos (digits2_pos m) + (e - E) + E) with (Zpos (digits2_pos m) + e) by lia.
    fold E. lia.
  - rewrite shl_align_ge by lia. apply binary_round_aux_valid. fold E. lia.
Qed.

End Validity.

Lemma SF2Q_nonpos_exp (m : positive) (e : Z) :
  e <= 0 -> (SF2Q (S754_finite false m e) == Zpos m # Z.to_pos (2 ^ (- e)))%Q.
Proof.
  intros He. unfold SF2Q. cbn [cond_Zopp].
  rewrite (Qpow2_nonpos e He), Qmake_Qdiv.
  rewrite Z2Pos.id by (apply Z.pow_pos_nonneg; lia). reflexivity.
Qed.

Lemma SF2Q_nonneg_exp (m : positive) (e : Z) :
  0 <= e -> (SF2Q (S754_finite false m e) == inject_Z (Zpos m * 2 ^ e))%Q.
Proof.
  intros He. unfold SF2Q. cbn [cond_Zopp].
  rewrite inject_Z_mult. apply Qmult_comp; [reflexivity|].
  symmetry. now apply (Zpower_Qpower 2).
Qed.

Lemma threshold_repr : Policy.threshold = S754_finite false 6755399441055744 (-52).
Proof. reflexivity. Qed.

Lemma bounded_double (m : positive) (e : Z) :
  bounded Double.prec Double.emax m e = true ->
  Zpos (digits2_pos m) <= 53 /\ (-1074 < e -> Zpos (digits2_pos m) = 53).
Proof.
  unfold bounded, canonical_mantissa, fexp, emin, Double.prec, Double.emax.
  intros H. apply andb_prop in H as [H _]. apply Z.eqb_eq in H. lia.
Qed.

(** On a [double] in canonical form, [> 1.5] is the order of the
    rationals; an infinity compares by its sign, a NaN never does. *)
Lemma gtb_threshold (r : spec_float) :
  valid_binary Double.prec Double.emax r = true ->
  (Double.gtb r Policy.threshold = true <->
   r = S754_infinity false \/
   exists m e, r = S754_finite false m e /\ (3 # 2 < SF2Q r)%Q).
Proof.
  intros Hv. rewrite threshold_repr. unfold Double.gtb, SFltb.
  destruct r as [s|s| |s m e]; cbn [SFcompare].
  - split; [discriminate|]. intros [H|(m & e & H & _)]; discriminate H.
  - destruct s; (split; [try discriminate; auto|]);
      intros [H|(m & e & H & _)]; try discriminate H; reflexivity.
  - split; [discriminate|]. intros [H|(m & e & H & _)]; discriminate H.
  - destruct s.
    { split; [discriminate|]. intros [H|(m' & e' & H & _)]; discriminate H. }
    cbn [valid_binary] in Hv. destruct (bounded_double m e Hv) as [Hd53 Hdn].
    destruct (digits_bounds m) as [Hlo Hhi].
    assert (Hiff : forall P : Prop, (P <-> (3 # 2 < SF2Q (S754_finite false m e))%Q) ->
               (P <-> S754_finite false m e = S754_infinity false \/
                      exists m' e', S754_finite false m e = S754_finite false m' e' /\
                                    (3 # 2 < SF2Q (S754_finite false m e))%Q)).
    { intros P HP. rewrite HP. split.
      - intros H. right. now exists m, e.
      - intros [H|(m' & e' & _ & H)]; [discriminate H|exact H]. }
    apply Hiff. clear Hiff.
    destruct (Z.compare_spec (-52) e) as [He|He|He].
    + (* same exponent: the mantissas decide *)
      subst e. rewrite SF2Q_nonpos_exp by lia. unfold Qlt. cbn [Qnum Qden].
      change (Zpos (Z.to_pos (2 ^ (- -52)))) with 4503599627370496.
      rewrite Pos.compare_cont_spec. cbn [Pos.switch_Eq].
      rewrite Pos2Z.inj_compare.
      destruct (Z.compare_spec 6755399441055744 (Zpos m)) as [Hm|Hm|Hm];
        (split; [try discriminate|]); intros H; try reflexivity; lia.
    + (* larger exponent: at least 2 *)
      specialize (Hdn ltac:(lia)). rewrite Hdn in Hlo.
      split; [intros _|reflexivity].
      destruct (Z_le_gt_dec e 0) as [Hneg|Hpos].
      * rewrite SF2Q_nonpos_exp by lia. unfold Qlt. cbn [Qnum Qden].
        rewrite Z2Pos.id by (apply Z.pow_pos_nonneg; lia).
        assert (2 ^ (- e) <= 2 ^ 51) by (apply Z.pow_le_mono_r; lia).
        change (2 ^ (53 - 1)) with (2 * 2 ^ 51) in Hlo. lia.
      * rewrite SF2Q_nonneg_exp by lia. unfold Qlt. cbn [Qnum Qden inject_Z].
        assert (0 < 2 ^ e) by (apply Z.pow_pos_nonneg; lia).
        change (2 ^ (53 - 1)) with 4503599627370496 in Hlo. nia.
    + (* smaller exponent: below 1 *)
      split; [discriminate|]. intros H. exfalso.
      rewrite SF2Q_nonpos_exp in H by lia. unfold Qlt in H. cbn [Qnum Qden] in H.
      rewrite Z2Pos.id in H by (apply Z.pow_pos_nonneg; lia).
      assert (2 ^ 53 <= 2 ^ (- e)) by (apply Z.pow_le_mono_r; lia).
      assert (Zpos m < 2 ^ 53).
      { apply Z.lt_le_trans with (2 ^ Zpos (digits2_pos m)); [lia|].
        apply Z.pow_le_mono_r; lia. }
      lia.
Qed.

Lemma speedup_ratio_valid (mean_first mean_second : spec_float) :
  valid_binary Double.prec Double.emax
    (Policy.speedup_ratio mean_first mean_second) = true.
Proof.
  unfold Policy.speedup_ratio, Double.of_long_double.
  destruct (LongDouble.div mean_first mean_second); try reflexivity.
  apply binary_round_valid. unfold Double.prec. lia.
Qed.

(** ** PolicyClassifier *)

(** A long-double quotient just above the boundary is rounded onto it by
    the conversion to [double], and classified as not above. *)
Example classify_rounds_to_double :
  let ratio := LongDouble.lit (3 * 2 ^ 62 + 1) (-63) in
  SFltb (LongDouble.lit 3 (-1)) (LongDouble.div ratio (LongDouble.lit 1 0)) = true /\
  Policy.speedup_ratio ratio (LongDouble.lit 1 0) = Policy.threshold /\
  Policy.classify ratio (LongDouble.lit 1 0) = Policy.ClosedRow.
Proof. vm_compute. repeat split. Qed.

(** The branch itself: OpenRow exactly when the [double] that holds the
    ratio is greater than 1.5, the boundary belonging to ClosedRow; and
    the three calls listed with the classifier. *)
Lemma classify_threshold :
  (forall mean_first mean_second,
     let ratio := Policy.speedup_ratio mean_first mean_second in
     (Policy.classify mean_first mean_second = Policy.OpenRow <->
      Double.gtb ratio Policy.threshold = true) /\
     (Policy.classify mean_first mean_second = Policy.ClosedRow <->
      Double.gtb ratio Policy.threshold = false) /\
     (Double.gtb ratio Policy.threshold = true <->
      ratio = S754_infinity false \/
      exists m e, ratio = S754_finite false m e /\ (3 # 2 < SF2Q ratio)%Q)) /\
  SF2Q Policy.threshold == 3 # 2 /\
  map (fun c => Policy.classify (fst c) (snd c)) Policy.sample_calls
  = [Policy.OpenRow; Policy.ClosedRow; Policy.ClosedRow] /\
  Forall2 Qeq
    (map (fun c => SF2Q (Policy.speedup_ratio (fst c) (snd c))) Policy.sample_calls)
    [3 # 1; 4953959590107546 # 4503599627370496; 3 # 2].
Proof.
  split; [|split; [|split]].
  - intros mf ms ratio. split; [|split].
    + unfold Policy.classify. fold ratio.
      destruct (Double.gtb ratio Policy.threshold); split;
        intros H; try reflexivity; discriminate H.
    + unfold Policy.classify. fold ratio.
      destruct (Double.gtb ratio Policy.threshold); split;
        intros H; try reflexivity; discriminate H.
    + apply gtb_threshold, speedup_ratio_valid.
  - reflexivity.
  - vm_compute. reflexivity.
  - repeat constructor; reflexivity.
Qed.

(** ** Precision of the standard deviation *)

(** Within the operating range (at most 200000 trials of at most 10^9
    cycles) the sum of the samples is at most [2 * 10^14] and the
    accumulation loop holds it exactly. *)
Lemma sum_exact_in_range (results : list Z) :
  Z.of_nat (length results) <= 200000 ->
  Forall (fun v => 0 <= v <= 1000000000) results ->
  Stats.total results <= 200000000000000 /\
  Stats.sum_loop results = LongDouble.repr (Stats.total results) /\
  SF2Q (LongDouble.repr (Stats.total results)) == inject_Z (Stats.total results).
Proof.
  intros Hlen Hall.
  assert (Hb : Z.of_nat (length results) * 0 <= Stats.total results
               <= Z.of_nat (length results) * 1000000000).
  { apply total_bounds. intros x Hx. rewrite List.Forall_forall in Hall. now apply Hall. }
  assert (Ht : 0 <= Stats.total results <= 200000000000000) by lia.
  assert (H64 : 200000000000000 < 2 ^ 64) by reflexivity.
  split; [lia|]. split.
  - apply sum_loop_repr; [|lia].
    eapply Forall_impl; [exact Hall|]. unfold U64.in_range, U64.modulus.
    cbn beta. intros x Hx. split; [lia|].
    apply Z.le_lt_trans with 200000000000000; [lia|exact H64].
  - destruct (Z.eq_dec (Stats.total results) 0) as [->|Hnz]; [reflexivity|].
    destruct (repr_value (Stats.total results) ltac:(lia)) as (m & e & -> & _ & He & Hm & _).
    destruct (SF2Q_bounds m e (Stats.total results) (Stats.total results));
      [lia|lia|]. now apply Qle_antisym.
Qed.

(** The statistics of [variance_two]: 2000 samples of about 700000
    cycles, mean 700002 and variance 2, both held exactly.  The program
    takes the square root with [sqrt], on [double], so the reported
    deviation is the [double] nearest the root of 2; the [long double]
    nearest that root lies 892 units in the last place below it. *)
Example stddev_rounded_through_double :
  exists s,
    Stats.stats 2000 Stats.variance_two = Some s /\
    Stats.mean s = LongDouble.of_Z 700002 /\
    LongDouble.div (Stats.ssum_loop (Stats.mean s) Stats.variance_two)
      (LongDouble.of_Z 2000) = LongDouble.lit 2 0 /\
    Stats.stddev s = Double.to_long_double (Double.sqrt (Double.lit 2 0)) /\
    let root := SF2Q (LongDouble.sqrtl (LongDouble.lit 2 0)) in
    let ulp := 1 # 2 ^ 63 in
    (root * root < 2 /\ 2 < (root + ulp) * (root + ulp) /\
     SF2Q (Stats.stddev s) == root + 892 * ulp)%Q.
Proof.
  eexists. split; [vm_compute; reflexivity|].
  split; [vm_compute; reflexivity|].
  split; [vm_compute; reflexivity|].
  split; [vm_compute; reflexivity|].
  vm_compute. repeat split.
Qed.

(** * Further properties of the code *)

(** ** TimestampSource *)

Lemma shiftl_32_small hi : Tsc.word32 hi -> U64.wrap (Z.shiftl hi 32) = hi * 2 ^ 32.
Proof.
  unfold Tsc.word32. intros H. rewrite Z.shiftl_mul_pow2 by lia.
  apply wrap_small. unfold U64.in_range, U64.modulus. lia.
Qed.

Lemma lor_disjoint_halves hi lo :
  0 <= hi -> 0 <= lo < 2 ^ 32 -> Z.lor (hi * 2 ^ 32) lo = hi * 2 ^ 32 + lo.
Proof.
  intros Hhi Hlo.
  rewrite <- Z.shiftl_mul_pow2 by lia.
  rewrite <- Z.lxor_lor.
  - symmetry. apply Z.add_nocarry_lxor.
    apply Z.bits_inj'. intros n Hn. rewrite Z.land_spec, Z.bits_0.
    destruct (Z.lt_ge_cases n 32) as [Hlt|Hge].
    + rewrite Z.shiftl_spec_low by lia. reflexivity.
    + rewrite (Z.bits_above_log2 lo n); [apply andb_false_r|lia|].
      destruct (Z.eq_dec lo 0) as [->|Hne]; [cbn; lia|].
      apply Z.log2_lt_pow2; [lia|].
      apply Z.lt_le_trans with (2 ^ 32); [lia|].
      apply Z.pow_le_mono_r; lia.
  - apply Z.bits_inj'. intros n Hn. rewrite Z.land_spec, Z.bits_0.
    destruct (Z.lt_ge_cases n 32) as [Hlt|Hge].
    + rewrite Z.shiftl_spec_low by lia. reflexivity.
    + rewrite (Z.bits_above_log2 lo n); [apply andb_false_r|lia|].
      destruct (Z.eq_dec lo 0) as [->|Hne]; [cbn; lia|].
      apply Z.log2_lt_pow2; [lia|].
      apply Z.lt_le_trans with (2 ^ 32); [lia|].
      apply Z.pow_le_mono_r; lia.
Qed.

(** X1.  The value both counter readers return is [hi * 2^32 + lo]: it
    fits 64 bits, its two halves are the two registers again, and values
    compare as the pairs (high, low) do. *)
Theorem combine_halves (hi lo hi' lo' : Z) :
  Tsc.word32 hi -> Tsc.word32 lo -> Tsc.word32 hi' -> Tsc.word32 lo' ->
  Tsc.combine hi lo = hi * 2 ^ 32 + lo /\
  U64.in_range (Tsc.combine hi lo) /\
  Z.shiftr (Tsc.combine hi lo) 32 = hi /\
  Z.land (Tsc.combine hi lo) (Z.ones 32) = lo /\
  (Tsc.combine hi lo < Tsc.combine hi' lo' <-> hi < hi' \/ (hi = hi' /\ lo < lo')).
Proof.
  intros Hhi Hlo Hhi' Hlo'.
  assert (Hv : forall h l, Tsc.word32 h -> Tsc.word32 l ->
                 Tsc.combine h l = h * 2 ^ 32 + l).
  { intros h l Hh Hl. unfold Tsc.combine. rewrite shiftl_32_small by exact Hh.
    unfold Tsc.word32 in *. apply lor_disjoint_halves; lia. }
  rewrite (Hv hi lo), (Hv hi' lo') by assumption.
  unfold Tsc.word32, U64.in_range, U64.modulus in *.
  split; [reflexivity|]. split; [lia|]. split; [|split].
  - rewrite Z.shiftr_div_pow2 by lia.
    rewrite Z.div_add_l by lia. rewrite Z.div_small by lia. lia.
  - rewrite Z.land_ones by lia.
    rewrite Z.add_comm, Z.mod_add by lia. apply Z.mod_small. lia.
  - lia.
Qed.

Lemma combine_halves_witness :
  Tsc.combine 3 7 = 3 * 2 ^ 32 + 7 /\
  U64.in_range (Tsc.combine 3 7) /\
  Z.shiftr (Tsc.combine 3 7) 32 = 3 /\
  Z.land (Tsc.combine 3 7) (Z.ones 32) = 7 /\
  (Tsc.combine 3 7 < Tsc.combine 4 0 <-> 3 < 4 \/ (3 = 4 /\ 7 < 0)).
Proof. apply (combine_halves 3 7 4 0); unfold Tsc.word32; lia. Defined.

(** X2.  A sample is the true number of cycles between its two readings,
    also when the 64-bit counter wrapped between them, as long as fewer
    than 2^64 cycles went by. *)
Theorem samples_survive_counter_wrap (o : Sweep.oracle) (si REPEAT : Z)
    (T0 T1 : Z -> Z) :
  (forall rep, 0 <= rep < REPEAT ->
     Sweep.rdtsc_start o si rep = U64.wrap (T0 rep) /\
     Sweep.rdtsc_end o si rep = U64.wrap (T1 rep) /\
     0 <= T1 rep - T0 rep < U64.modulus) ->
  Sweep.measure o si REPEAT = map (fun rep => T1 rep - T0 rep) (seqZ 0 REPEAT) /\
  (forall rep t, 0 <= rep < REPEAT ->
     Sweep.measure o si REPEAT !! Z.to_nat rep = Some t ->
     U64.add (Sweep.rdtsc_start o si rep) t = Sweep.rdtsc_end o si rep).
Proof.
  intros H.
  assert (Hm : Sweep.measure o si REPEAT
               = map (fun rep => T1 rep - T0 rep) (seqZ 0 REPEAT)).
  { unfold Sweep.measure. apply map_ext_in. intros rep Hin.
    apply list_elem_of_In, elem_of_seqZ in Hin.
    destruct (H rep ltac:(lia)) as (-> & -> & Hd).
    unfold U64.sub, U64.wrap. rewrite <- Zminus_mod. now apply Z.mod_small. }
  split; [exact Hm|].
  intros rep t Hrep Ht. rewrite Hm in Ht.
  change (map ?f ?l) with (f <$> l) in Ht.
  rewrite list_lookup_fmap in Ht.
  rewrite lookup_seqZ_lt in Ht by (rewrite Z2Nat.id; lia).
  cbn in Ht. injection Ht as <-. rewrite Z2Nat.id, !Z.add_0_l by lia.
  destruct (H rep ltac:(lia)) as (-> & -> & Hd).
  unfold U64.add, U64.wrap. rewrite Zplus_mod_idemp_l. f_equal. lia.
Qed.

Lemma samples_survive_counter_wrap_witness :
  Sweep.measure Run.wrapped_counter 0 3
  = map (fun rep => (2 ^ 64 + 200 + rep) - (2 ^ 64 - 100)) (seqZ 0 3) /\
  (forall rep t, 0 <= rep < 3 ->
     Sweep.measure Run.wrapped_counter 0 3 !! Z.to_nat rep = Some t ->
     U64.add (Sweep.rdtsc_start Run.wrapped_counter 0 rep) t
     = Sweep.rdtsc_end Run.wrapped_counter 0 rep).
Proof.
  apply (samples_survive_counter_wrap Run.wrapped_counter 0 3
           (fun _ => 2 ^ 64 - 100) (fun rep => 2 ^ 64 + 200 + rep)).
  intros rep Hrep. cbn [Run.wrapped_counter Sweep.rdtsc_start Sweep.rdtsc_end].
  unfold U64.wrap, U64.modulus.
  split; [symmetry; apply Z.mod_small; lia|].
  split; [|lia].
  replace (2 ^ 64 + 200 + rep) with (200 + rep + 1 * 2 ^ 64) by lia.
  rewrite Z.mod_add by lia. symmetry. apply Z.mod_small. lia.
Defined.

(** ** The comparator *)

(** X3.  [cmp_uint64] answers -1, 0 or 1 by the order of the two values,
    for every pair of 64-bit values: swapping the arguments negates the
    answer and the induced order is transitive, which is what [qsort]
    requires of a comparator. *)
Theorem cmp_uint64_order (a b c : Z) :
  (Stats.cmp_uint64 a b = -1 <-> a < b) /\
  (Stats.cmp_uint64 a b = 0 <-> a = b) /\
  (Stats.cmp_uint64 a b = 1 <-> b < a) /\
  Stats.cmp_uint64 b a = - Stats.cmp_uint64 a b /\
  (Stats.cmp_uint64 a b <= 0 -> Stats.cmp_uint64 b c <= 0 ->
   Stats.cmp_uint64 a c <= 0).
Proof.
  unfold Stats.cmp_uint64.
  repeat match goal with
         | |- context [?x <? ?y] => destruct (Z.ltb_spec x y)
         | |- context [?x >? ?y] => destruct (Z.gtb_spec x y)
         end; lia.
Qed.

(** ** CacheController, without the alignment *)

Section FlushAny.

Variables buf size : Z.
Hypothesis buf_nonneg : 0 <= buf.
Hypothesis size_nonneg : 0 <= size.
Hypothesis size_no_wrap : size <= U64.modulus - Flush.line.
Hypothesis region_fits : buf + size <= U64.modulus.

Lemma n_lines_any :
  0 <= Flush.n_lines size /\
  Flush.line * (Flush.n_lines size - 1) < size <= Flush.line * Flush.n_lines size.
Proof using size_nonneg.
  unfold Flush.n_lines, Flush.line.
  pose proof (Z.div_mod (size + 64 - 1) 64 ltac:(lia)).
  pose proof (Z.mod_pos_bound (size + 64 - 1) 64 ltac:(lia)).
  lia.
Qed.

Lemma flush_loop_any (k i : nat) (tr : list Flush.event) :
  Z.of_nat (i + k) = Flush.n_lines size ->
  Flush.flush_loop (S k) buf size (Flush.line * Z.of_nat i) tr
  = Some (tr ++ map Flush.Clflush
                  (map (fun j => buf + Flush.line * Z.of_nat j) (seq i k))).
Proof using All.
  pose proof n_lines_any as HN.
  revert i tr. induction k as [|k IH]; intros i tr Hik.
  - rewrite flush_loop_S. cbn [seq map].
    destruct (Z.ltb_spec (Flush.line * Z.of_nat i) size) as [Hlt|_].
    + unfold Flush.line in *. lia.
    + now rewrite app_nil_r.
  - rewrite flush_loop_S.
    destruct (Z.ltb_spec (Flush.line * Z.of_nat i) size) as [_|Hge].
    2:{ unfold Flush.line in *. lia. }
    rewrite !add_small by (unfold Flush.line, U64.modulus in *; lia).
    replace (Flush.line * Z.of_nat i + Flush.line)
      with (Flush.line * Z.of_nat (S i)) by lia.
    rewrite IH by lia.
    cbn [seq map Flush.clflush_line]. now rewrite <- app_assoc.
Qed.

Lemma flush_buffer_any :
  Flush.flush_buffer (S (Z.to_nat (Flush.n_lines size))) buf size
  = Some (map Flush.Clflush (Flush.stride_addrs buf (Z.to_nat (Flush.n_lines size)))
          ++ [Flush.Mfence]).
Proof using All.
  pose proof n_lines_any as HN.
  unfold Flush.flush_buffer.
  pose proof (flush_loop_any (Z.to_nat (Flush.n_lines size)) 0 []) as H.
  change (Flush.line * Z.of_nat 0) with 0 in H.
  rewrite H by lia.
  reflexivity.
Qed.

Lemma flushed_any (j : Z) :
  Flush.flushed (map Flush.Clflush (Flush.stride_addrs buf (Z.to_nat (Flush.n_lines size)))) j
  <-> buf / Flush.line <= j < buf / Flush.line + Flush.n_lines size.
Proof using size_nonneg.
  pose proof n_lines_any as HN.
  pose proof (Z.div_mod buf Flush.line ltac:(unfold Flush.line; lia)) as Hbuf.
  pose proof (Z.mod_pos_bound buf Flush.line ltac:(unfold Flush.line; lia)) as Hr.
  unfold Flush.flushed, Flush.stride_addrs, Flush.line_of. split.
  - intros (a & Hin & Ha).
    apply in_map_iff in Hin as (a' & [= ->] & Hin).
    apply in_map_iff in Hin as (k & <- & Hk). apply in_seq in Hk.
    rewrite Z.mul_comm, Z.div_add in Ha by (unfold Flush.line; lia).
    lia.
  - intros Hj. exists (buf + Flush.line * (j - buf / Flush.line)). split.
    + apply in_map, in_map_iff. exists (Z.to_nat (j - buf / Flush.line)). split.
      * f_equal. f_equal. lia.
      * apply in_seq. lia.
    + rewrite Z.mul_comm, Z.div_add by (unfold Flush.line; lia). lia.
Qed.

End FlushAny.

(** X4.  On a buffer that need not be aligned the routine still ends,
    having flushed the [ceil(size/64)] lines from the one of the first
    byte on; the line of the last byte is among them exactly when the
    buffer's offset in its line and that of [size - 1] sum below 64.  So
    for a size that is a multiple of 64 the last line is reached if and
    only if the buffer is 64-byte aligned. *)
Theorem flush_buffer_unaligned (buf size : Z) :
  0 <= buf -> 0 < size -> size <= U64.modulus - Flush.line ->
  buf + size <= U64.modulus ->
  exists tr,
    Flush.flush_buffer (S (Z.to_nat (Flush.n_lines size))) buf size
    = Some (tr ++ [Flush.Mfence]) /\
    Z.of_nat (length tr) = Flush.n_lines size /\
    (forall j, Flush.flushed tr j
               <-> buf / Flush.line <= j < buf / Flush.line + Flush.n_lines size) /\
    (Flush.flushed tr ((buf + size - 1) / Flush.line)
     <-> buf mod Flush.line + (size - 1) mod Flush.line < Flush.line) /\
    (size mod Flush.line = 0 ->
     (Flush.flushed tr ((buf + size - 1) / Flush.line) <-> buf mod Flush.line = 0)).
Proof.
  intros Hbuf Hsize Hwrap Hfit.
  pose proof (n_lines_any size ltac:(lia)) as HN.
  exists (map Flush.Clflush (Flush.stride_addrs buf (Z.to_nat (Flush.n_lines size)))).
  split; [apply flush_buffer_any; lia|].
  split.
  { unfold Flush.stride_addrs. rewrite !length_map, length_seq. lia. }
  assert (Hlast : Flush.flushed
            (map Flush.Clflush (Flush.stride_addrs buf (Z.to_nat (Flush.n_lines size))))
            ((buf + size - 1) / Flush.line)
          <-> buf mod Flush.line + (size - 1) mod Flush.line < Flush.line).
  { rewrite flushed_any by lia.
    unfold Flush.n_lines, Flush.line in *.
    pose proof (Z.div_mod buf 64 ltac:(lia)) as Hb.
    pose proof (Z.mod_pos_bound buf 64 ltac:(lia)) as Hbr.
    pose proof (Z.div_mod (size - 1) 64 ltac:(lia)) as Hs.
    pose proof (Z.mod_pos_bound (size - 1) 64 ltac:(lia)) as Hsr.
    replace (size + 64 - 1) with ((size - 1) + 1 * 64) by lia.
    rewrite Z.div_add by lia.
    remember (buf / 64) as q. remember (buf mod 64) as r.
    remember ((size - 1) / 64) as qs. remember ((size - 1) mod 64) as rs.
    replace (buf + size - 1) with ((r + rs) + (q + qs) * 64) by lia.
    rewrite Z.div_add by lia.
    destruct (Z.lt_ge_cases (r + rs) 64) as [Hlt|Hge].
    - rewrite (Z.div_small (r + rs)) by lia. lia.
    - assert ((r + rs) / 64 = 1) as ->.
      { symmetry. apply (Z.div_unique (r + rs) 64 1 (r + rs - 64)); lia. }
      lia. }
  split; [intros j; apply flushed_any; lia|].
  split; [exact Hlast|].
  intros Hmul. rewrite Hlast.
  unfold Flush.line in *.
  pose proof (Z.mod_pos_bound buf 64 ltac:(lia)) as Hbr.
  assert ((size - 1) mod 64 = 63) as ->.
  { pose proof (Z.div_mod size 64 ltac:(lia)) as Hs.
    symmetry. apply (Z.mod_unique (size - 1) 64 (size / 64 - 1) 63); lia. }
  lia.
Qed.

Lemma flush_buffer_unaligned_witness :
  exists tr,
    Flush.flush_buffer (S (Z.to_nat (Flush.n_lines 128))) 4112 128
    = Some (tr ++ [Flush.Mfence]) /\
    Z.of_nat (length tr) = Flush.n_lines 128 /\
    (forall j, Flush.flushed tr j
               <-> 4112 / Flush.line <= j < 4112 / Flush.line + Flush.n_lines 128) /\
    (Flush.flushed tr ((4112 + 128 - 1) / Flush.line)
     <-> 4112 mod Flush.line + (128 - 1) mod Flush.line < Flush.line) /\
    (128 mod Flush.line = 0 ->
     (Flush.flushed tr ((4112 + 128 - 1) / Flush.line) <-> 4112 mod Flush.line = 0)).
Proof.
  apply (flush_buffer_unaligned 4112 128); unfold U64.modulus, Flush.line; lia.
Defined.

(** X5.  For an aligned buffer whose size is a multiple of 64 (zero
    included) the routine issues exactly [size / 64] flushes, each of a
    line that lies wholly inside the buffer, then the fence; with size 0
    it issues the fence alone. *)
Theorem flush_buffer_exact (buf size : Z) :
  0 <= buf -> buf mod Flush.line = 0 ->
  0 <= size -> size mod Flush.line = 0 ->
  size <= U64.modulus - Flush.line -> buf + size <= U64.modulus ->
  exists tr,
    Flush.flush_buffer (S (Z.to_nat (size / Flush.line))) buf size
    = Some (tr ++ [Flush.Mfence]) /\
    Z.of_nat (length tr) = size / Flush.line /\
    (size = 0 -> tr = []) /\
    (forall e, In e tr ->
       exists a, e = Flush.Clflush a /\ a mod Flush.line = 0 /\
                 buf <= a /\ a + Flush.line <= buf + size).
Proof.
  intros Hbuf Hal Hsize Hmul Hwrap Hfit.
  pose proof (n_lines_any size ltac:(lia)) as HN.
  assert (Hn : Flush.n_lines size = size / Flush.line).
  { unfold Flush.n_lines, Flush.line in *.
    pose proof (Z.div_mod size 64 ltac:(lia)) as Hs.
    symmetry. apply (Z.div_unique (size + 64 - 1) 64 (size / 64) 63); lia. }
  exists (map Flush.Clflush (Flush.stride_addrs buf (Z.to_nat (size / Flush.line)))).
  split; [rewrite <- Hn; apply flush_buffer_any; lia|].
  split.
  { unfold Flush.stride_addrs. rewrite !length_map, length_seq. lia. }
  split.
  { intros ->. reflexivity. }
  intros e Hin.
  apply in_map_iff in Hin as (a & <- & Hin).
  unfold Flush.stride_addrs in Hin.
  apply in_map_iff in Hin as (k & <- & Hk). apply in_seq in Hk.
  exists (buf + Flush.line * Z.of_nat k). split; [reflexivity|].
  unfold Flush.line in *.
  pose proof (Z.div_mod size 64 ltac:(lia)) as Hs.
  split; [|lia].
  rewrite Z.mul_comm, Z.mod_add by lia. exact Hal.
Qed.

Lemma flush_buffer_exact_witness :
  exists tr,
    Flush.flush_buffer (S (Z.to_nat (128 / Flush.line))) 4096 128
    = Some (tr ++ [Flush.Mfence]) /\
    Z.of_nat (length tr) = 128 / Flush.line /\
    (128 = 0 -> tr = []) /\
    (forall e, In e tr ->
       exists a, e = Flush.Clflush a /\ a mod Flush.line = 0 /\
                 4096 <= a /\ a + Flush.line <= 4096 + 128).
Proof.
  apply (flush_buffer_exact 4096 128); unfold U64.modulus, Flush.line; try lia; reflexivity.
Defined.

(** X6.  A size above 2^64 - 64 makes the loop endless: the offset, a
    multiple of 64, wraps to 0 before it can reach the size, so no amount
    of steps lets the routine return. *)
Theorem flush_buffer_never_returns (fuel : nat) (buf size : Z) :
  U64.modulus - Flush.line < size ->
  Flush.flush_buffer fuel buf size = None.
Proof.
  intros Hsize. unfold Flush.flush_buffer.
  assert (H : forall fuel off tr, 0 <= off < U64.modulus -> off mod Flush.line = 0 ->
                Flush.flush_loop fuel buf size off tr = None).
  { clear fuel. induction fuel as [|fuel IH]; intros off tr Hoff Hmod; [reflexivity|].
    rewrite flush_loop_S.
    unfold Flush.line, U64.modulus in *.
    pose proof (Z.div_mod off 64 ltac:(lia)) as Hd.
    destruct (Z.ltb_spec off size) as [_|Hge]; [|lia].
    apply IH.
    - apply wrap_range.
    - unfold U64.add, U64.wrap, U64.modulus, Flush.line.
      change (2 ^ 64) with (64 * 2 ^ 58).
      rewrite Z.rem_mul_r by lia.
      rewrite Z.mul_comm, Z.mod_add by lia.
      rewrite Z.mod_mod by lia.
      rewrite <- Zplus_mod_idemp_l, Hmod. reflexivity. }
  rewrite H; [reflexivity|unfold U64.modulus; lia|reflexivity].
Qed.

Lemma flush_buffer_never_returns_witness :
  Flush.flush_buffer 1000 4096 (2 ^ 64 - 1) = None.
Proof.
  apply (flush_buffer_never_returns 1000 4096 (2 ^ 64 - 1)).
  unfold U64.modulus, Flush.line. lia.
Defined.

(** ** Order statistics, again *)

Lemma stats_reads (REPEAT : Z) (results : list Z) :
  0 <= REPEAT < U64.modulus ->
  Z.of_nat (length results) = REPEAT ->
  is_Some (Stats.stats REPEAT results) <-> 1 <= REPEAT.
Proof.
  intros HR Hlen. unfold Stats.stats.
  set (sorted := Stats.qsort Stats.cmp_uint64 results).
  assert (Hl : length sorted = length results) by apply qsort_length.
  assert (Hif : (if REPEAT mod 2 =? 0 then Stats.read sorted (REPEAT / 2)
                 else Stats.read sorted (REPEAT / 2)) = Stats.read sorted (REPEAT / 2))
    by (destruct (REPEAT mod 2 =? 0); reflexivity).
  rewrite Hif.
  unfold U64.modulus in *.
  split.
  - intros [s Hs].
    destruct (Stats.read sorted 0) as [mn|] eqn:E0; [|discriminate Hs].
    rewrite read_lookup in E0 by lia.
    apply lookup_lt_Some in E0. rewrite Hl in E0. lia.
  - intros Hrange.
    destruct (read_in_range sorted 0 ltac:(lia)) as (mn & ->).
    assert (Hsub : U64.sub REPEAT 1 = REPEAT - 1).
    { apply wrap_small. unfold U64.in_range, U64.modulus. lia. }
    rewrite Hsub.
    destruct (read_in_range sorted (REPEAT - 1) ltac:(lia)) as (mx & ->).
    assert (0 <= REPEAT / 2 < REPEAT).
    { split; [apply Z.div_pos; lia|apply Z.div_lt; lia]. }
    destruct (read_in_range sorted (REPEAT / 2) ltac:(lia)) as (md & ->).
    cbn. eauto.
Qed.

(** X7.  [sorted] is an array of [REPEAT] elements, of which the
    statistics block reads [sorted[0]], [sorted[REPEAT - 1]] and
    [sorted[REPEAT / 2]]: the three reads stay inside the array exactly
    when [REPEAT >= 1].  With [REPEAT = 0] the array is empty: the first
    read, [sorted[0]], is already outside it, and the index [REPEAT - 1]
    wraps to 2^64 - 1. *)
Theorem stats_in_bounds_iff (REPEAT : Z) (results : list Z) :
  0 <= REPEAT < U64.modulus ->
  Z.of_nat (length results) = REPEAT ->
  (is_Some (Stats.stats REPEAT results) <-> 1 <= REPEAT) /\
  (REPEAT = 0 ->
   Stats.read (Stats.qsort Stats.cmp_uint64 results) 0 = None /\
   U64.sub REPEAT 1 = U64.modulus - 1 /\
   Stats.stats REPEAT results = None).
Proof.
  intros HR Hlen. split; [now apply stats_reads|].
  intros ->. destruct results as [|x results]; [|discriminate Hlen].
  repeat split.
Qed.

Lemma stats_in_bounds_iff_witness :
  (is_Some (Stats.stats 0 []) <-> 1 <= 0) /\
  (0 = 0 ->
   Stats.read (Stats.qsort Stats.cmp_uint64 []) 0 = None /\
   U64.sub 0 1 = U64.modulus - 1 /\
   Stats.stats 0 [] = None).
Proof.
  apply (stats_in_bounds_iff 0 []); [unfold U64.modulus; lia|reflexivity].
Defined.

Lemma lookup_In (l : list Z) (i : nat) (x : Z) : l !! i = Some x -> In x l.
Proof. intros H. apply list_elem_of_In. eapply list_elem_of_lookup_2, H. Qed.

(** X8.  The minimum, the median and the maximum reported are samples of
    the series; no sample lies below the minimum or above the maximum;
    and minimum and maximum coincide only when all samples are equal. *)
Theorem extremes_are_samples (REPEAT : Z) (results : list Z) (s : Stats.summary) :
  0 < REPEAT -> REPEAT < U64.modulus ->
  Z.of_nat (length results) = REPEAT ->
  Stats.stats REPEAT results = Some s ->
  In (Stats.minv s) results /\ In (Stats.median s) results /\
  In (Stats.maxv s) results /\
  (forall x, In x results -> Stats.minv s <= x <= Stats.maxv s) /\
  (Stats.minv s = Stats.maxv s <-> forall x, In x results -> x = Stats.minv s).
Proof.
  intros Hpos Hmod Hlen Hs.
  destruct (stats_defined REPEAT results Hpos Hmod Hlen)
    as (s' & Hs' & Hmin & Hmax & Hmed & _).
  rewrite Hs in Hs'. injection Hs' as <-.
  destruct (qsort_sorts results) as [_ Hperm].
  assert (Hin : forall i x, Stats.qsort Stats.cmp_uint64 results !! i = Some x ->
                            In x results).
  { intros i x Hx. apply lookup_In in Hx.
    eapply Permutation_in; [exact Hperm|exact Hx]. }
  pose proof (min_max_bound REPEAT results s Hpos Hmod Hlen Hs) as Hb.
  split; [eapply Hin, Hmin|]. split; [eapply Hin, Hmed|].
  split; [eapply Hin, Hmax|]. split; [exact Hb|].
  split.
  - intros Heq x Hx. specialize (Hb x Hx). lia.
  - intros Hall. symmetry. apply Hall. eapply Hin, Hmax.
Qed.

Lemma extremes_are_samples_witness :
  exists s, Stats.stats 4 [9; 2; 7; 4] = Some s /\
    In (Stats.minv s) [9; 2; 7; 4] /\ In (Stats.median s) [9; 2; 7; 4] /\
    In (Stats.maxv s) [9; 2; 7; 4] /\
    (forall x, In x [9; 2; 7; 4] -> Stats.minv s <= x <= Stats.maxv s) /\
    (Stats.minv s = Stats.maxv s <-> forall x, In x [9; 2; 7; 4] -> x = Stats.minv s).
Proof.
  destruct (Stats.stats 4 [9; 2; 7; 4]) as [s|] eqn:E; [|vm_compute in E; discriminate E].
  exists s. split; [reflexivity|].
  apply (extremes_are_samples 4 [9; 2; 7; 4] s);
    [lia|unfold U64.modulus; lia|reflexivity|exact E].
Defined.

Lemma total_perm (l l' : list Z) : l ≡ₚ l' -> Stats.total l = Stats.total l'.
Proof.
  induction 1 as [|x l l' _ IH|x y l|l l' l'' _ IH1 _ IH2].
  - reflexivity.
  - rewrite !total_cons. lia.
  - rewrite !total_cons. lia.
  - lia.
Qed.

Lemma qsort_perm_eq (l l' : list Z) :
  l ≡ₚ l' -> Stats.qsort Stats.cmp_uint64 l = Stats.qsort Stats.cmp_uint64 l'.
Proof.
  intros Hp.
  destruct (qsort_sorts l) as [Hs Hpl]. destruct (qsort_sorts l') as [Hs' Hpl'].
  apply sorted_unique; [exact Hs|exact Hs'|].
  rewrite Hpl, Hpl'. exact Hp.
Qed.

(** X9.  The order in which the [REPEAT] trials were recorded does not
    matter to the minimum, the median and the maximum: the same [REPEAT]
    samples in another order give the same three values; and while the
    sum of the samples stays below 2^64 they give the same mean as
    well. *)
Theorem summary_order_independent (REPEAT : Z) (results results' : list Z)
    (s : Stats.summary) :
  Z.of_nat (length results) = REPEAT ->
  results ≡ₚ results' ->
  Stats.stats REPEAT results = Some s ->
  exists s', Stats.stats REPEAT results' = Some s' /\
    Stats.minv s' = Stats.minv s /\ Stats.median s' = Stats.median s /\
    Stats.maxv s' = Stats.maxv s /\
    (Forall U64.in_range results -> Stats.total results < 2 ^ 64 ->
     Stats.mean s' = Stats.mean s).
Proof.
  intros _ Hp Hs. unfold Stats.stats in *.
  rewrite <- (qsort_perm_eq results results' Hp).
  set (sorted := Stats.qsort Stats.cmp_uint64 results) in *.
  destruct (Stats.read sorted 0) as [mn|]; [|discriminate Hs].
  cbn [mbind option_bind] in Hs |- *.
  destruct (Stats.read sorted (U64.sub REPEAT 1)) as [mx|]; [|discriminate Hs].
  cbn [mbind option_bind] in Hs |- *.
  destruct (if REPEAT mod 2 =? 0 then Stats.read sorted (REPEAT / 2)
            else Stats.read sorted (REPEAT / 2)) as [md|]; [|discriminate Hs].
  cbn [mbind option_bind] in Hs |- *.
  injection Hs as <-.
  eexists. split; [reflexivity|]. cbn [Stats.minv Stats.median Stats.maxv Stats.mean].
  split; [reflexivity|]. split; [reflexivity|]. split; [reflexivity|].
  intros Hr Ht.
  assert (Hr' : Forall U64.in_range results').
  { rewrite Forall_forall in *. intros x Hx. apply Hr.
    apply list_elem_of_In. apply list_elem_of_In in Hx.
    eapply Permutation_in; [symmetry; exact Hp|exact Hx]. }
  rewrite (sum_loop_repr results Hr Ht).
  rewrite (sum_loop_repr results' Hr') by (rewrite <- (total_perm _ _ Hp); exact Ht).
  now rewrite (total_perm _ _ Hp).
Qed.

Lemma summary_order_independent_witness :
  exists s s', Stats.stats 4 [9; 2; 7; 4] = Some s /\
    Stats.stats 4 [4; 9; 7; 2] = Some s' /\
    Stats.minv s' = Stats.minv s /\ Stats.median s' = Stats.median s /\
    Stats.maxv s' = Stats.maxv s /\
    (Forall U64.in_range [9; 2; 7; 4] -> Stats.total [9; 2; 7; 4] < 2 ^ 64 ->
     Stats.mean s' = Stats.mean s).
Proof.
  destruct (Stats.stats 4 [9; 2; 7; 4]) as [s|] eqn:E; [|vm_compute in E; discriminate E].
  exists s.
  destruct (summary_order_independent 4 [9; 2; 7; 4] [4; 9; 7; 2] s) as (s' & H).
  - reflexivity.
  - apply (Permutation_trans (l' := [4; 9; 2; 7])).
    + change [4; 9; 2; 7] with ([4] ++ [9; 2; 7]).
      change [9; 2; 7; 4] with ([9; 2; 7] ++ [4]). apply Permutation_app_comm.
    + do 2 constructor. apply perm_swap.
  - exact E.
  - exists s'. split; [reflexivity|]. exact H.
Defined.

(** ** The quotient of two integers, as a canonical long double *)

Lemma div_repr_valid (S n : Z) :
  0 < S < 2 ^ 64 -> 0 < n < 2 ^ 64 ->
  valid_binary LongDouble.prec LongDouble.emax
    (LongDouble.div (LongDouble.repr S) (LongDouble.repr n)) = true.
Proof.
  intros HS Hn.
  destruct (repr_value S HS) as (mx & ex & -> & Hex & Hrx & Hmx & Hdx).
  destruct (repr_value n Hn) as (my & ey & -> & Hey & Hry & Hmy & Hdy).
  unfold LongDouble.div, SFdiv, SFdiv_core_binary. cbn [Zdigits2 xorb].
  rewrite Hdx, Hdy.
  replace (64 + ex - (64 + ey)) with (ex - ey) by lia.
  rewrite fexp_long_double by lia.
  replace (Z.min (ex - ey - 64) (ex - ey)) with (ex - ey - 64) by lia.
  replace (ex - ey - (ex - ey - 64)) with 64 by lia.
  rewrite Z.shiftl_mul_pow2 by lia.
  set (W := Zpos mx * 2 ^ 64).
  assert (Hxr : 2 ^ 63 <= Zpos mx < 2 ^ 64).
  { pose proof (digits_bounds mx) as H. now rewrite Hdx in H. }
  assert (Hyr : 2 ^ 63 <= Zpos my < 2 ^ 64).
  { pose proof (digits_bounds my) as H. now rewrite Hdy in H. }
  destruct (Z.div_eucl W (Zpos my)) as [q r] eqn:Hqr.
  assert (q = W / Zpos my) as Hq by (unfold Z.div; now rewrite Hqr).
  assert (Hqlo : 2 ^ 63 <= q).
  { rewrite Hq. apply Z.div_le_lower_bound; [lia|]. unfold W.
    transitivity (2 ^ 64 * 2 ^ 63); [apply Z.mul_le_mono_nonneg_r; lia|].
    rewrite Z.mul_comm. apply Z.mul_le_mono_nonneg_r; lia. }
  assert (Hqhi : q < 2 ^ 65).
  { rewrite Hq. apply Z.div_lt_upper_bound; [lia|]. unfold W.
    apply Z.lt_le_trans with (2 ^ 64 * 2 ^ 64); [apply Z.mul_lt_mono_pos_r; lia|].
    change (2 ^ 64 * 2 ^ 64) with (2 ^ 63 * 2 ^ 65).
    apply Z.mul_le_mono_nonneg_r; lia. }
  clear Hq. destruct q as [|q|q]; try lia.
  apply binary_round_aux_valid; [unfold LongDouble.prec; lia|].
  pose proof (digits_bounds q) as Hdq.
  assert (64 <= Zpos (digits2_pos q)).
  { destruct (Z_lt_le_dec (Zpos (digits2_pos q)) 64) as [Hlt|]; [|lia].
    exfalso. assert (2 ^ Zpos (digits2_pos q) <= 2 ^ 63)
      by (apply Z.pow_le_mono_r; lia). lia. }
  rewrite fexp_long_double by lia. lia.
Qed.

Lemma canonical_digits (m : positive) (e : Z) :
  valid_binary LongDouble.prec LongDouble.emax (S754_finite false m e) = true ->
  -16445 < e -> Zpos (digits2_pos m) = 64.
Proof.
  cbn [valid_binary]. unfold bounded, canonical_mantissa.
  intros H He. apply andb_prop in H as [H _]. apply Z.eqb_eq in H.
  unfold fexp, emin, LongDouble.prec, LongDouble.emax in H. lia.
Qed.

(** The quotient of two 64-bit integers has a full 64-bit mantissa. *)
Lemma div_repr_canonical (S n : Z) (m : positive) (e : Z) :
  0 < S < 2 ^ 64 -> 0 < n < 2 ^ 64 ->
  LongDouble.div (LongDouble.repr S) (LongDouble.repr n) = S754_finite false m e ->
  -128 <= e ->
  Zpos (digits2_pos m) = 64.
Proof.
  intros HS Hn Heq He. pose proof (div_repr_valid S n HS Hn) as Hv.
  rewrite Heq in Hv. apply (canonical_digits m e Hv). lia.
Qed.

(** An exact quotient is the integer itself. *)
Lemma div_repr_exact (v n : Z) :
  0 < v -> 0 < n -> n * v < 2 ^ 64 ->
  LongDouble.div (LongDouble.repr (n * v)) (LongDouble.repr n) = LongDouble.repr v.
Proof.
  intros Hv Hn Hnv.
  assert (Hn64 : n < 2 ^ 64) by nia.
  assert (Hv64 : v < 2 ^ 64) by nia.
  destruct (div_repr (n * v) n ltac:(nia) ltac:(lia))
    as (m & e & Heq & He & Hlo & Hhi & _).
  pose proof (div_repr_canonical (n * v) n m e ltac:(nia) ltac:(lia) Heq ltac:(lia)) as Hd.
  specialize (Hlo v ltac:(lia)). specialize (Hhi v ltac:(lia)).
  assert (Hm : Zpos m = v * 2 ^ (- e)) by lia.
  rewrite Heq.
  destruct v as [|v|v]; try lia.
  assert (Hdv : Zpos (digits2_pos m) = Zpos (digits2_pos v) + - e).
  { rewrite <- digits_shift by lia. rewrite <- Hm. reflexivity. }
  unfold LongDouble.repr. cbn [Zdigits2].
  assert (e = Zpos (digits2_pos v) - 64) as He' by lia.
  rewrite <- He'. replace (64 - Zpos (digits2_pos v)) with (- e) by lia.
  rewrite <- Hm. reflexivity.
Qed.

Lemma total_repeat (v : Z) (n : nat) : Stats.total (repeat v n) = Z.of_nat n * v.
Proof.
  induction n as [|n IH]; [reflexivity|].
  cbn [repeat]. rewrite total_cons, IH. lia.
Qed.

Lemma sub_self_zero (v : Z) :
  0 <= v < 2 ^ 64 ->
  LongDouble.sub (LongDouble.repr v) (LongDouble.repr v) = LongDouble.zero.
Proof.
  intros Hv. destruct (Z.eq_dec v 0) as [->|Hne]; [reflexivity|].
  destruct (repr_value v ltac:(lia)) as (m & e & -> & _).
  unfold LongDouble.sub, SFsub. cbn [negb].
  rewrite !shl_align_ge by lia. cbn [fst snd cond_Zopp].
  rewrite Z.min_id, Z.sub_diag. reflexivity.
Qed.

Lemma ssum_loop_constant (v : Z) (n : nat) :
  0 <= v < 2 ^ 64 ->
  Stats.ssum_loop (LongDouble.repr v) (repeat v n) = LongDouble.zero.
Proof.
  intros Hv. unfold Stats.ssum_loop.
  induction n as [|n IH]; [reflexivity|].
  cbn [repeat fold_left]. rewrite of_Z_repr, sub_self_zero by lia.
  exact IH.
Qed.

Lemma qsort_repeat (v : Z) (n : nat) :
  Stats.qsort Stats.cmp_uint64 (repeat v n) = repeat v n.
Proof.
  apply sorted_unique.
  - apply qsort_sorts.
  - induction n as [|n IH]; [constructor|]. cbn [repeat]. constructor; [exact IH|].
    destruct n; constructor. lia.
  - apply qsort_sorts.
Qed.

(** X10.  A series of identical samples [v] (with [REPEAT * v] below
    2^64) is summarised exactly: minimum, median and maximum are [v],
    the mean is [v] as a long double and the standard deviation is 0. *)
Theorem constant_series_summary (REPEAT v : Z) :
  0 < REPEAT -> 0 <= v -> REPEAT * v < 2 ^ 64 -> REPEAT < 2 ^ 64 ->
  Stats.stats REPEAT (repeat v (Z.to_nat REPEAT))
  = Some {| Stats.mean := LongDouble.of_Z v;
            Stats.stddev := S754_zero false;
            Stats.minv := v; Stats.maxv := v; Stats.median := v |}.
Proof.
  intros HR Hv Hprod HR64.
  assert (Hv64 : v < 2 ^ 64) by nia.
  set (n := Z.to_nat REPEAT).
  assert (Hlen : Z.of_nat (length (repeat v n)) = REPEAT)
    by (rewrite repeat_length; unfold n; lia).
  destruct (stats_defined REPEAT (repeat v n) HR HR64 Hlen)
    as (s & Hs & Hmin & Hmax & Hmed & Hmean & Hsd).
  rewrite Hs. f_equal.
  rewrite qsort_repeat in Hmin, Hmax, Hmed.
  assert (Hlk : forall i x, repeat v n !! i = Some x -> x = v).
  { intros i x Hx. apply lookup_In in Hx. now apply repeat_spec in Hx. }
  apply Hlk in Hmin, Hmax, Hmed.
  assert (Hr : Forall U64.in_range (repeat v n)).
  { apply Forall_forall. intros x Hx. apply list_elem_of_In, repeat_spec in Hx.
    subst x. unfold U64.in_range, U64.modulus. lia. }
  assert (Ht : Stats.total (repeat v n) = REPEAT * v)
    by (rewrite total_repeat; unfold n; rewrite Z2Nat.id by lia; reflexivity).
  assert (Hm : Stats.mean s = LongDouble.repr v).
  { rewrite Hmean, sum_loop_repr, of_Z_repr, Ht by (try exact Hr; lia).
    destruct (Z.eq_dec v 0) as [->|Hne].
    - rewrite Z.mul_0_r.
      destruct (repr_value REPEAT ltac:(lia)) as (mr & er & -> & _). reflexivity.
    - apply div_repr_exact; lia. }
  assert (Hd : Stats.stddev s = S754_zero false).
  { rewrite Hsd, Hm, ssum_loop_constant by lia.
    unfold Stats.stddev_of. rewrite of_Z_repr by lia.
    destruct (repr_value REPEAT ltac:(lia)) as (mr & er & -> & _). reflexivity. }
  destruct s as [mean stddev minv maxv median]. cbn in *.
  rewrite of_Z_repr by lia. congruence.
Qed.

Lemma constant_series_summary_witness :
  Stats.stats 2000 (repeat 700000 (Z.to_nat 2000))
  = Some {| Stats.mean := LongDouble.of_Z 700000;
            Stats.stddev := S754_zero false;
            Stats.minv := 700000; Stats.maxv := 700000; Stats.median := 700000 |}.
Proof. apply (constant_series_summary 2000 700000); lia. Defined.

(** ** The row-policy experiment *)

Lemma mean_access_repr (access : list Z) :
  Forall U64.in_range access -> Stats.total access < 2 ^ 64 ->
  Policy.mean_access access
  = LongDouble.div (LongDouble.repr (Stats.total access))
      (LongDouble.repr Policy.TEST_ITERATIONS).
Proof.
  intros Hr Ht. unfold Policy.mean_access.
  change (Policy.sum_access access) with (Stats.sum_loop access).
  rewrite sum_loop_repr by assumption.
  rewrite of_Z_repr by (unfold Policy.TEST_ITERATIONS; lia). reflexivity.
Qed.

(** The mean of a series with a positive sum is a positive long double
    with a full mantissa. *)
Lemma mean_access_positive (access : list Z) :
  Forall U64.in_range access -> 0 < Stats.total access < 2 ^ 64 ->
  exists m e, Policy.mean_access access = S754_finite false m e /\
              -128 <= e <= 0 /\ Zpos (digits2_pos m) = 64.
Proof.
  intros Hr Ht. rewrite mean_access_repr by (try assumption; lia).
  destruct (div_repr (Stats.total access) Policy.TEST_ITERATIONS Ht
              ltac:(unfold Policy.TEST_ITERATIONS; lia))
    as (m & e & Heq & He & _).
  exists m, e. split; [exact Heq|]. split; [exact He|].
  eapply div_repr_canonical; [exact Ht| |exact Heq|lia].
  unfold Policy.TEST_ITERATIONS; lia.
Qed.

Lemma mean_access_zero (access : list Z) :
  Forall U64.in_range access -> Stats.total access = 0 ->
  Policy.mean_access access = S754_zero false.
Proof.
  intros Hr Ht. rewrite mean_access_repr by (try assumption; lia).
  rewrite Ht. vm_compute. reflexivity.
Qed.

(** A long double with a full mantissa divided by itself is 1. *)
Lemma div_self (m : positive) (e : Z) :
  Zpos (digits2_pos m) = 64 ->
  LongDouble.div (S754_finite false m e) (S754_finite false m e)
  = S754_finite false (2 ^ 63) (-63).
Proof.
  intros Hd.
  unfold LongDouble.div, SFdiv, SFdiv_core_binary. cbn [Zdigits2 xorb].
  rewrite Hd.
  replace (64 + e - (64 + e)) with 0 by lia.
  rewrite Z.sub_diag.
  change (Z.min (fexp LongDouble.prec LongDouble.emax 0) 0) with (-64).
  change (0 - -64) with 64.
  rewrite Z.shiftl_mul_pow2 by lia.
  pose proof (Z.div_mod (Zpos m * 2 ^ 64) (Zpos m) ltac:(lia)) as Hdm.
  destruct (Z.div_eucl (Zpos m * 2 ^ 64) (Zpos m)) as [q r] eqn:Hqr.
  assert (q = (Zpos m * 2 ^ 64) / Zpos m) as Hq by (unfold Z.div; now rewrite Hqr).
  assert (r = (Zpos m * 2 ^ 64) mod Zpos m) as Hr by (unfold Z.modulo; now rewrite Hqr).
  rewrite Z.mul_comm, Z.div_mul in Hq by lia.
  rewrite Z.mul_comm, Z.mod_mul in Hr by lia.
  subst q r.
  assert (new_location (Zpos m) 0 = loc_Exact) as -> by now apply new_location_exact.
  change (2 ^ 64) with (Zpos (2 ^ 64)).
  apply (binary_round_aux_shift LongDouble.prec LongDouble.emax false (2 ^ 64) (2 ^ 63)
           (-64) 1); [lia|reflexivity|reflexivity|unfold LongDouble.emax, LongDouble.prec; lia].
Qed.

(** X12.  Two same-row series with the same positive sum give a speedup
    of exactly 1, and the experiment concludes CLOSED-ROW. *)
Theorem equal_series_closed_row (first_access second_access : list Z) :
  Forall U64.in_range first_access -> Forall U64.in_range second_access ->
  Stats.total first_access = Stats.total second_access ->
  0 < Stats.total first_access < 2 ^ 64 ->
  Policy.speedup_ratio (Policy.mean_access first_access)
    (Policy.mean_access second_access) = Double.lit 1 0 /\
  Policy.conclusion first_access second_access = Policy.ClosedRow.
Proof.
  intros Hr1 Hr2 Heq Ht.
  assert (Hm : Policy.mean_access second_access = Policy.mean_access first_access).
  { rewrite !mean_access_repr by (try assumption; lia). now rewrite Heq. }
  unfold Policy.conclusion, Policy.classify. rewrite Hm.
  destruct (mean_access_positive first_access Hr1 Ht) as (m & e & -> & He & Hd).
  unfold Policy.speedup_ratio. rewrite div_self by exact Hd.
  split; vm_compute; reflexivity.
Qed.

Lemma equal_series_closed_row_witness :
  Policy.speedup_ratio (Policy.mean_access [300; 310; 290])
    (Policy.mean_access [290; 300; 310]) = Double.lit 1 0 /\
  Policy.conclusion [300; 310; 290] [290; 300; 310] = Policy.ClosedRow.
Proof.
  apply (equal_series_closed_row [300; 310; 290] [290; 300; 310]).
  - repeat constructor; unfold U64.modulus; lia.
  - repeat constructor; unfold U64.modulus; lia.
  - reflexivity.
  - cbn. lia.
Defined.

(** X13.  When every second access is timed at 0 cycles the ratio
    divides by zero: with a positive first mean the speedup is +infinity
    and the conclusion OPEN-ROW; with a first mean of 0 as well the
    speedup is a NaN, the comparison with 1.5 is false and the
    conclusion CLOSED-ROW. *)
Theorem zero_second_access (first_access second_access : list Z) :
  Forall U64.in_range first_access -> Forall U64.in_range second_access ->
  Stats.total second_access = 0 ->
  (0 < Stats.total first_access < 2 ^ 64 ->
   Policy.speedup_ratio (Policy.mean_access first_access)
     (Policy.mean_access second_access) = S754_infinity false /\
   Policy.conclusion first_access second_access = Policy.OpenRow) /\
  (Stats.total first_access = 0 ->
   Policy.speedup_ratio (Policy.mean_access first_access)
     (Policy.mean_access second_access) = S754_nan /\
   Policy.conclusion first_access second_access = Policy.ClosedRow).
Proof.
  intros Hr1 Hr2 H0.
  unfold Policy.conclusion, Policy.classify.
  rewrite (mean_access_zero second_access Hr2 H0).
  split.
  - intros Ht.
    destruct (mean_access_positive first_access Hr1 Ht) as (m & e & -> & _).
    split; reflexivity.
  - intros Ht. rewrite (mean_access_zero first_access Hr1 Ht).
    split; reflexivity.
Qed.

Lemma zero_second_access_witness :
  (0 < Stats.total [300; 310] < 2 ^ 64 ->
   Policy.speedup_ratio (Policy.mean_access [300; 310])
     (Policy.mean_access [0; 0]) = S754_infinity false /\
   Policy.conclusion [300; 310] [0; 0] = Policy.OpenRow) /\
  (Stats.total [300; 310] = 0 ->
   Policy.speedup_ratio (Policy.mean_access [300; 310])
     (Policy.mean_access [0; 0]) = S754_nan /\
   Policy.conclusion [300; 310] [0; 0] = Policy.ClosedRow).
Proof.
  apply (zero_second_access [300; 310] [0; 0]).
  - repeat constructor; unfold U64.modulus; lia.
  - repeat constructor; unfold U64.modulus; lia.
  - reflexivity.
Defined.

(** ** The accuracy of the mean *)

Lemma Qpow2_frac (e : Z) : e <= 0 -> (2 ^ e == 1 # Z.to_pos (2 ^ (- e)))%Q.
Proof.
  intros He. rewrite (Qpow2_nonpos e He), Qmake_Qdiv.
  rewrite Z2Pos.id by (apply Z.pow_pos_nonneg; lia).
  unfold Qdiv. now rewrite Qmult_1_l.
Qed.

(** X11.  While the sum of the samples stays below 2^64 the mean
    reported is a positive long double with a full 64-bit mantissa that
    lies within one unit in the last place of the exact average: with
    the mean equal to [m * 2^e], the quotient [total / REPEAT] is
    strictly between [(m - 1) * 2^e] and [(m + 1) * 2^e]. *)
Theorem mean_within_one_ulp (REPEAT : Z) (results : list Z) (s : Stats.summary) :
  0 < REPEAT -> REPEAT < U64.modulus -> Z.of_nat (length results) = REPEAT ->
  Forall U64.in_range results -> 0 < Stats.total results < 2 ^ 64 ->
  Stats.stats REPEAT results = Some s ->
  exists (m : positive) (e : Z),
    Stats.mean s = S754_finite false m e /\
    Zpos (digits2_pos m) = 64 /\ -128 <= e <= 0 /\
    (SF2Q (Stats.mean s) - 2 ^ e < Stats.total results # Z.to_pos REPEAT)%Q /\
    (Stats.total results # Z.to_pos REPEAT < SF2Q (Stats.mean s) + 2 ^ e)%Q.
Proof.
  intros Hpos HR Hlen Hrange Htot Hs.
  destruct (stats_defined REPEAT results Hpos HR Hlen) as (s' & Hs' & _ & _ & _ & Hmean & _).
  assert (s' = s) as -> by congruence.
  unfold U64.modulus in HR.
  rewrite Hmean, sum_loop_repr, of_Z_repr by (assumption || lia).
  destruct (div_repr (Stats.total results) REPEAT) as (m & e & Heq & He & _ & _ & Hf);
    [lia|lia|].
  assert (Hd : Zpos (digits2_pos m) = 64)
    by (apply (div_repr_canonical (Stats.total results) REPEAT m e); (assumption || lia)).
  exists m, e. split; [exact Heq|]. split; [exact Hd|]. split; [exact He|].
  rewrite Heq, (SF2Q_nonpos_exp m e), (Qpow2_frac e) by lia.
  remember (2 ^ (- e)) as T eqn:ET.
  assert (HT : 0 < T) by (rewrite ET; apply Z.pow_pos_nonneg; lia).
  remember (Stats.total results) as S eqn:ES.
  unfold Qlt, Qminus, Qplus, Qopp. cbn [Qnum Qden].
  rewrite !Pos2Z.inj_mul, !Z2Pos.id by lia.
  destruct Hf as [Hlo Hhi].
  assert (H1 : REPEAT * (Zpos m - 1) * T < S * T * T)
    by (apply Z.mul_lt_mono_pos_r; assumption).
  assert (H2 : S * T * T < REPEAT * (Zpos m + 1) * T)
    by (apply Z.mul_lt_mono_pos_r; assumption).
  split; lia.
Qed.

Lemma mean_within_one_ulp_witness :
  exists s (m : positive) (e : Z),
    Stats.stats 3 [300; 301; 301] = Some s /\
    Stats.mean s = S754_finite false m e /\
    Zpos (digits2_pos m) = 64 /\ -128 <= e <= 0 /\
    Qlt (SF2Q (Stats.mean s) - 2 ^ e)%Q (Qmake (Stats.total [300; 301; 301]) (Z.to_pos 3)) /\
    Qlt (Qmake (Stats.total [300; 301; 301]) (Z.to_pos 3)) (SF2Q (Stats.mean s) + 2 ^ e)%Q.
Proof.
  destruct (Stats.stats 3 [300; 301; 301]) as [s|] eqn:E; [|vm_compute in E; discriminate E].
  destruct (mean_within_one_ulp 3 [300; 301; 301] s) as (m & e & H);
    [lia|unfold U64.modulus; lia|reflexivity
    |repeat constructor; unfold U64.modulus; lia|cbn; lia|exact E|].
  exists s, m, e. split; [reflexivity|exact H].
Defined.

(** ** [main] of the row-policy experiment *)

Lemma announced_prints (ls : list RowPolicy.out_line) (w : RowPolicy.world) :
  RowPolicy.announced (RowPolicy.prints ls w)
  = RowPolicy.announced w ++ RowPolicy.announced {| RowPolicy.stdout := ls;
                                                    RowPolicy.stderr := [] |}.
Proof. unfold RowPolicy.announced, RowPolicy.prints. cbn. apply omap_app. Qed.

Lemma access_range (f g : Z -> Z) (n : Z) :
  Forall U64.in_range (map (fun i => Tsc.elapsed (f i) (g i)) (seqZ 0 n)) /\
  (0 <= n -> Z.of_nat (length (map (fun i => Tsc.elapsed (f i) (g i)) (seqZ 0 n))) = n).
Proof.
  split.
  - apply Forall_forall. intros x Hx. apply list_elem_of_In, in_map_iff in Hx as (i & <- & _).
    apply sub_range.
  - intros Hn. rewrite length_map, length_seqZ. lia.
Qed.

(** X14.  [main] of the experiment returns 1 exactly when one of the
    two row buffers cannot be allocated, and then prints the banner and
    the error and measures nothing.  Otherwise it returns 0 and
    announces one policy, the one the classifier derives from the means
    of the first and the second same-row accesses; the third series and
    a failing [mlockall], which only adds its warning, have no part in
    it. *)
Theorem row_policy_main_outcome (o : RowPolicy.oracle) :
  (fst (RowPolicy.main o RowPolicy.initial) = 1
   <-> RowPolicy.memalign_row1_ok o = false \/ RowPolicy.memalign_row2_ok o = false) /\
  (fst (RowPolicy.main o RowPolicy.initial) = 1 ->
   snd (RowPolicy.main o RowPolicy.initial)
   = {| RowPolicy.stdout := [RowPolicy.Banner RowPolicy.ROW_SIZE];
        RowPolicy.stderr := [RowPolicy.AllocationFailed] |}) /\
  (fst (RowPolicy.main o RowPolicy.initial) <> 1 ->
   fst (RowPolicy.main o RowPolicy.initial) = 0 /\
   RowPolicy.announced (snd (RowPolicy.main o RowPolicy.initial))
   = [Policy.conclusion (RowPolicy.first_access o) (RowPolicy.second_access o)] /\
   RowPolicy.stderr (snd (RowPolicy.main o RowPolicy.initial))
   = (if RowPolicy.mlockall_ok o then [] else [RowPolicy.MlockallWarning]) /\
   Z.of_nat (length (RowPolicy.first_access o)) = Policy.TEST_ITERATIONS /\
   Z.of_nat (length (RowPolicy.second_access o)) = Policy.TEST_ITERATIONS /\
   Forall U64.in_range (RowPolicy.first_access o) /\
   Forall U64.in_range (RowPolicy.second_access o)).
Proof.
  unfold RowPolicy.main.
  destruct (RowPolicy.memalign_row1_ok o), (RowPolicy.memalign_row2_ok o);
    cbn [negb orb fst snd].
  2-4: (split; [split; [auto|reflexivity]|]; split; [reflexivity|]; intros H; now contradict H).
  split; [split; [discriminate|intros [H|H]; discriminate H]|].
  split; [discriminate|]. intros _. split; [reflexivity|].
  split; [|split].
  - rewrite announced_prints.
    unfold Policy.conclusion, Policy.classify, RowPolicy.conclusion_lines.
    generalize (Policy.speedup_ratio (Policy.mean_access (RowPolicy.first_access o))
                  (Policy.mean_access (RowPolicy.second_access o))).
    generalize (LongDouble.div (Policy.mean_access (RowPolicy.first_access o))
                  (Policy.mean_access (RowPolicy.second_access o))).
    generalize (Policy.mean_access (RowPolicy.first_access o)).
    generalize (Policy.mean_access (RowPolicy.second_access o)).
    generalize (Policy.mean_access (RowPolicy.different_row_access o)).
    intros m3 m2 m1 q r.
    destruct (RowPolicy.mlockall_ok o), (Double.gtb r Policy.threshold); reflexivity.
  - destruct (RowPolicy.mlockall_ok o); reflexivity.
  - unfold RowPolicy.first_access, RowPolicy.second_access.
    split; [apply access_range; unfold Policy.TEST_ITERATIONS; lia|].
    split; [apply access_range; unfold Policy.TEST_ITERATIONS; lia|].
    split; apply access_range.
Qed.

(** ** The sweep as a whole *)

Lemma select_range (argv : list string) :
  0 <= fst (Sweep.select argv) <= snd (Sweep.select argv) /\
  snd (Sweep.select argv) < Sweep.n_sizes /\
  (fst (Sweep.select argv) = snd (Sweep.select argv) \/
   (fst (Sweep.select argv) = 0 /\ snd (Sweep.select argv) = Sweep.n_sizes - 1)).
Proof.
  assert (Hn : Sweep.n_sizes = 13) by reflexivity.
  unfold Sweep.select.
  destruct (2 <=? Z.of_nat (length argv)); [|cbn [fst snd]; lia].
  destruct (negb (Sweep.atoi (nth 1 argv EmptyString) =? 0)); [|cbn [fst snd]; lia].
  destruct (in_dec Z.eq_dec (Sweep.atoi (nth 1 argv EmptyString)) Sweep.exponents)
    as [Hin|Hout].
  - destruct (find_from_present 0 _ _ Hin) as (k & -> & Hk & _).
    change (length Sweep.exponents) with 13%nat in Hk.
    destruct (Z.leb_spec 0 (0 + Z.of_nat k)); cbn [fst snd]; lia.
  - rewrite find_from_absent by exact Hout. cbn [fst snd Z.leb Z.compare]. lia.
Qed.

Lemma range_elem (argv : list string) (si : Z) :
  In si (Run.range argv) -> 0 <= si < Sweep.n_sizes.
Proof.
  unfold Run.range. intros H. apply list_elem_of_In, elem_of_seqZ in H.
  pose proof (select_range argv). lia.
Qed.

Lemma main_range (argv : list string) (o : Sweep.oracle) (w : Sweep.world) :
  Sweep.main argv o w
  = Sweep.sweep o (Run.range argv)
      (if Sweep.mlockall_ok o then Sweep.print Sweep.MlockallOk w
       else Sweep.eprint Sweep.MlockallWarning w).
Proof. apply main_unfold. Qed.

(** *** One size *)

Lemma failure_none (o : Sweep.oracle) (si : Z) :
  Run.failure o si = None <-> Sweep.all_ok o si.
Proof.
  unfold Run.failure, Sweep.all_ok.
  destruct (Sweep.memalign_buf_ok o si), (Sweep.memalign_bufcopy_ok o si),
    (Sweep.malloc_results_ok o si), (Sweep.fopen_ok o si),
    (Sweep.malloc_sorted_ok o si); cbn; split; intros H;
    try discriminate H; try reflexivity; try (repeat split; reflexivity);
    destruct H as (H1 & H2 & H3 & H4 & H5); discriminate.
Qed.

Lemma run_size_succeeds (o : Sweep.oracle) (si : Z) (w : Sweep.world) :
  Sweep.all_ok o si ->
  exists s,
    Sweep.run_size o si w
    = Sweep.Continue
        {| Sweep.files := <[Run.name_at si := Run.csv_at o si]> (Sweep.files w);
           Sweep.stdout := Sweep.stdout w ++
             [Sweep.Testing (Run.exponent_at si) (Run.size_at si) (Run.REPEAT_at si);
              Sweep.WroteCsv (Run.name_at si); Sweep.SizeStats (Run.size_at si) s];
           Sweep.stderr := Sweep.stderr w |}.
Proof.
  intros Hok. destruct (run_size_ok o si w Hok) as (s & _ & H).
  exists s. exact H.
Qed.

Lemma omap_snoc {A B} (f : A -> option B) (l : list A) (x : A) :
  omap f (l ++ [x]) = omap f l ++ match f x with Some y => [y] | None => [] end.
Proof. rewrite omap_app. cbn. now destruct (f x). Qed.

Lemma run_size_fails (o : Sweep.oracle) (si : Z) (w : Sweep.world) (d : Sweep.err_line) :
  Run.failure o si = Some d ->
  exists w',
    Sweep.run_size o si w = Sweep.Exit 1 w' /\
    Sweep.stderr w' = Sweep.stderr w ++ [d] /\
    Sweep.measured w' = Sweep.measured w ++ [Run.size_at si] /\
    Sweep.written w'
    = Sweep.written w ++ (if Run.after_export d then [Run.name_at si] else []) /\
    Sweep.files w'
    = (if Run.after_export d then <[Run.name_at si := Run.csv_at o si]> (Sweep.files w)
       else Sweep.files w).
Proof.
  unfold Run.failure, Sweep.run_size.
  fold (Run.exponent_at si). fold (Run.size_at si). fold (Run.REPEAT_at si).
  fold (Run.name_at si).
  unfold Sweep.measured, Sweep.written.
  destruct (Sweep.memalign_buf_ok o si); cbn [negb].
  2:{ intros [= <-]. eexists. split; [reflexivity|].
      cbn [Sweep.eprint Sweep.print Sweep.stderr Sweep.stdout Sweep.files Run.after_export].
      rewrite !omap_snoc, !app_nil_r. auto. }
  destruct (Sweep.memalign_bufcopy_ok o si); cbn [negb].
  2:{ intros [= <-]. eexists. split; [reflexivity|].
      cbn [Sweep.eprint Sweep.print Sweep.stderr Sweep.stdout Sweep.files Run.after_export].
      rewrite !omap_snoc, !app_nil_r. auto. }
  destruct (Sweep.malloc_results_ok o si); cbn [negb].
  2:{ intros [= <-]. eexists. split; [reflexivity|].
      cbn [Sweep.eprint Sweep.print Sweep.stderr Sweep.stdout Sweep.files Run.after_export].
      rewrite !omap_snoc, !app_nil_r. auto. }
  destruct (Sweep.fopen_ok o si); cbn [negb].
  2:{ intros [= <-]. eexists. split; [reflexivity|].
      cbn [Sweep.eprint Sweep.print Sweep.stderr Sweep.stdout Sweep.files Run.after_export].
      rewrite !omap_snoc, !app_nil_r. auto. }
  destruct (Sweep.malloc_sorted_ok o si); cbn [negb]; [discriminate|].
  intros [= <-]. eexists. split; [reflexivity|].
  cbn [Sweep.eprint Sweep.print Sweep.with_files Sweep.stderr Sweep.stdout Sweep.files
       Run.after_export].
  rewrite !omap_snoc, !app_nil_r, write_csv_content. auto.
Qed.

(** *** A prefix of successful sizes *)

Lemma exported_snoc o sis si files :
  Run.exported o (sis ++ [si]) files
  = <[Run.name_at si := Run.csv_at o si]> (Run.exported o sis files).
Proof. unfold Run.exported. now rewrite fold_left_app. Qed.

Lemma sweep_prefix (o : Sweep.oracle) (pre : list Z) (w : Sweep.world) :
  (forall si, In si pre -> Sweep.all_ok o si) ->
  exists w1,
    (forall rest, Sweep.sweep o (pre ++ rest) w = Sweep.sweep o rest w1) /\
    Sweep.measured w1 = Sweep.measured w ++ map Run.size_at pre /\
    Sweep.written w1 = Sweep.written w ++ map Run.name_at pre /\
    Sweep.stderr w1 = Sweep.stderr w /\
    Sweep.files w1 = Run.exported o pre (Sweep.files w).
Proof.
  revert w. induction pre as [|si pre IH]; intros w Hok.
  - exists w. cbn. rewrite !app_nil_r. auto.
  - destruct (run_size_succeeds o si w) as (s & Hrun); [apply Hok; now left|].
    edestruct IH as (w1 & Hsw & Hm & Hwr & Herr & Hf);
      [intros; apply Hok; now right|].
    exists w1. split.
    { intros rest. cbn [app Sweep.sweep]. rewrite Hrun. apply Hsw. }
    rewrite Hm, Hwr, Herr, Hf. unfold Sweep.measured, Sweep.written.
    cbn [Sweep.stdout Sweep.files Sweep.stderr map Run.exported fold_left].
    rewrite !omap_app. cbn [omap]. rewrite <- !app_assoc. cbn [app]. auto.
Qed.

(** *** The file names *)

Lemma name_at_inj (i j : Z) :
  0 <= i < Sweep.n_sizes -> 0 <= j < Sweep.n_sizes ->
  Run.name_at i = Run.name_at j -> i = j.
Proof.
  intros Hi Hj E.
  assert (H : bool_decide (NoDup (Run.name_at <$> seqZ 0 13)) = true)
    by (vm_compute; reflexivity).
  apply bool_decide_eq_true in H.
  change Sweep.n_sizes with 13 in *.
  assert (Hl : forall k, 0 <= k < 13 ->
            (Run.name_at <$> seqZ 0 13) !! Z.to_nat k = Some (Run.name_at k)).
  { intros k Hk. rewrite list_lookup_fmap, lookup_seqZ_lt by lia.
    cbn. f_equal. f_equal. lia. }
  pose proof (Hl i Hi) as Hli. pose proof (Hl j Hj) as Hlj.
  rewrite E in Hli.
  pose proof (NoDup_lookup _ _ _ _ H Hli Hlj). lia.
Qed.

Lemma exported_lookup_other o sis files name :
  ~ In name (map Run.name_at sis) ->
  Run.exported o sis files !! name = files !! name.
Proof.
  induction sis as [|si sis IH] using rev_ind; intros Hn; [reflexivity|].
  rewrite exported_snoc. rewrite map_app, in_app_iff in Hn. cbn in Hn.
  rewrite lookup_insert_ne by (intros E; apply Hn; right; now left).
  apply IH. tauto.
Qed.

Lemma exported_lookup o sis files si :
  (forall x, In x sis -> 0 <= x < Sweep.n_sizes) ->
  In si sis ->
  Run.exported o sis files !! Run.name_at si = Some (Run.csv_at o si).
Proof.
  induction sis as [|x sis IH] using rev_ind; intros Hr Hin; [destruct Hin|].
  rewrite exported_snoc.
  destruct (Z.eq_dec x si) as [->|Hne]; [apply lookup_insert_eq|].
  rewrite lookup_insert_ne.
  - apply IH; [intros y Hy; apply Hr, in_app_iff; now left|].
    apply in_app_iff in Hin as [Hin|[Hin|[]]]; [exact Hin|contradiction].
  - intros E. apply Hne. apply name_at_inj; [| |exact E].
    + apply Hr, in_app_iff. right. now left.
    + apply Hr, Hin.
Qed.

(** *** The first failing size *)

Lemma sweep_first_failure (o : Sweep.oracle) (pre : list Z) (si : Z) (post : list Z)
    (w : Sweep.world) (d : Sweep.err_line) :
  (forall x, In x pre -> Sweep.all_ok o x) ->
  Run.failure o si = Some d ->
  exists w',
    Sweep.sweep o (pre ++ si :: post) w = Sweep.Exit 1 w' /\
    Sweep.stderr w' = Sweep.stderr w ++ [d] /\
    Sweep.measured w' = Sweep.measured w ++ map Run.size_at (pre ++ [si]) /\
    Sweep.written w'
    = Sweep.written w ++ map Run.name_at pre
      ++ (if Run.after_export d then [Run.name_at si] else []) /\
    Sweep.files w'
    = Run.exported o (if Run.after_export d then pre ++ [si] else pre) (Sweep.files w).
Proof.
  intros Hpre Hd.
  destruct (sweep_prefix o pre w Hpre) as (w1 & Hsw & Hm & Hwr & Herr & Hf).
  destruct (run_size_fails o si w1 d Hd) as (w' & Hrun & Herr' & Hm' & Hwr' & Hf').
  exists w'. rewrite Hsw. cbn [Sweep.sweep]. rewrite Hrun.
  split; [reflexivity|].
  rewrite Herr', Hm', Hwr', Hf', Herr, Hm, Hwr, Hf, map_app, <- !app_assoc.
  repeat split.
  destruct (Run.after_export d); [now rewrite exported_snoc|reflexivity].
Qed.

Lemma sweep_cases (o : Sweep.oracle) (sis : list Z) :
  (forall si, In si sis -> Sweep.all_ok o si) \/
  (exists pre si post d, sis = pre ++ si :: post /\
     (forall x, In x pre -> Sweep.all_ok o x) /\ Run.failure o si = Some d).
Proof.
  induction sis as [|si sis IH]; [left; intros ? []|].
  destruct (Run.failure o si) as [d|] eqn:Hf.
  - right. exists [], si, sis, d. split; [reflexivity|]. split; [intros ? []|exact Hf].
  - apply failure_none in Hf. destruct IH as [Hall|(pre & x & post & d & -> & Hpre & Hd)].
    + left. intros y [<-|Hy]; auto.
    + right. exists (si :: pre), x, post, d. split; [reflexivity|].
      split; [intros y [<-|Hy]; auto|exact Hd].
Qed.





(** *** What a run leaves of what was there before *)

Lemma world_eq (f f' : Csv.fs) (so so' : list Sweep.out_line) (se se' : list Sweep.err_line) :
  f = f' -> so = so' -> se = se' ->
  {| Sweep.files := f; Sweep.stdout := so; Sweep.stderr := se |}
  = {| Sweep.files := f'; Sweep.stdout := so'; Sweep.stderr := se' |}.
Proof. now intros -> -> ->. Qed.

Ltac world_parts :=
  apply world_eq;
  cbn [Run.after Sweep.eprint Sweep.print Sweep.with_files Sweep.initial
       Sweep.files Sweep.stdout Sweep.stderr app];
  rewrite <- ?app_assoc; cbn [app];
  rewrite ?(left_id_L ∅ (∪)), ?app_nil_r; try reflexivity.

Lemma run_size_after (o : Sweep.oracle) (si : Z) (w : Sweep.world) :
  Sweep.run_size o si w = Run.lift (Run.after w) (Sweep.run_size o si Sweep.initial).
Proof.
  unfold Sweep.run_size.
  fold (Run.exponent_at si). fold (Run.size_at si). fold (Run.REPEAT_at si).
  fold (Run.name_at si).
  destruct (Sweep.memalign_buf_ok o si); cbn [negb].
  2:{ cbn [Run.lift]. f_equal. world_parts. }
  destruct (Sweep.memalign_bufcopy_ok o si); cbn [negb].
  2:{ cbn [Run.lift]. f_equal. world_parts. }
  destruct (Sweep.malloc_results_ok o si); cbn [negb].
  2:{ cbn [Run.lift]. f_equal. world_parts. }
  destruct (Sweep.fopen_ok o si); cbn [negb].
  2:{ cbn [Run.lift]. f_equal. world_parts. }
  assert (Hfiles : Csv.write_csv (Run.name_at si) (Sweep.measure o si (Run.REPEAT_at si))
                     (Sweep.files w)
                   = Csv.write_csv (Run.name_at si) (Sweep.measure o si (Run.REPEAT_at si)) ∅
                     ∪ Sweep.files w).
  { rewrite !write_csv_content, <- insert_union_l. now rewrite (left_id_L ∅ (∪)). }
  destruct (Sweep.malloc_sorted_ok o si); cbn [negb].
  2:{ cbn [Run.lift]. f_equal. world_parts. exact Hfiles. }
  destruct (Stats.stats (Run.REPEAT_at si) (Sweep.measure o si (Run.REPEAT_at si)));
    [|reflexivity].
  cbn [Run.lift]. f_equal. world_parts. exact Hfiles.
Qed.

Lemma after_assoc (w d1 d2 : Sweep.world) :
  Run.after (Run.after w d1) d2 = Run.after w (Run.after d1 d2).
Proof.
  unfold Run.after. apply world_eq; cbn [Sweep.files Sweep.stdout Sweep.stderr].
  - now rewrite (assoc_L (∪)).
  - now rewrite app_assoc.
  - now rewrite app_assoc.
Qed.

Lemma after_initial (w : Sweep.world) : Run.after w Sweep.initial = w.
Proof.
  destruct w as [f so se]. unfold Run.after.
  apply world_eq; cbn [Sweep.files Sweep.stdout Sweep.stderr Sweep.initial].
  - now rewrite (left_id_L ∅ (∪)).
  - apply app_nil_r.
  - apply app_nil_r.
Qed.

Lemma sweep_after (o : Sweep.oracle) (sis : list Z) (w d : Sweep.world) :
  Sweep.sweep o sis (Run.after w d) = Run.lift (Run.after w) (Sweep.sweep o sis d).
Proof.
  revert d. induction sis as [|si sis IH]; intros d; [reflexivity|].
  cbn [Sweep.sweep].
  rewrite (run_size_after o si (Run.after w d)), (run_size_after o si d).
  destruct (Sweep.run_size o si Sweep.initial) as [d1|status d1|]; cbn [Run.lift].
  - rewrite after_assoc. apply IH.
  - now rewrite after_assoc.
  - reflexivity.
Qed.

Lemma main_after (argv : list string) (o : Sweep.oracle) (w : Sweep.world) :
  Sweep.main argv o w = Run.lift (Run.after w) (Sweep.main argv o Sweep.initial).
Proof.
  rewrite !main_range.
  rewrite <- sweep_after. f_equal.
  destruct (Sweep.mlockall_ok o); destruct w as [f so se]; world_parts.
Qed.

Lemma sweep_exits (o : Sweep.oracle) (sis : list Z) (w : Sweep.world) :
  exists status w', Sweep.sweep o sis w = Sweep.Exit status w'.
Proof.
  destruct (sweep_cases o sis) as [Hall|(pre & si & post & d & -> & Hpre & Hd)].
  - destruct (sweep_ok o sis w Hall) as (w' & Hsw & _). eauto.
  - destruct (sweep_first_failure o pre si post w d Hpre Hd) as (w' & Hsw & _). eauto.
Qed.

(** X17.  A run does not depend on what the output streams and the
    directory held before it: started in any world it ends with the
    status of a run started in the empty one, its lines appended to the
    streams; a file it wrote holds what it would hold then, and every
    other file is as it was. *)
Theorem main_appends_only (argv : list string) (o : Sweep.oracle) (w : Sweep.world) :
  exists status d w',
    Sweep.main argv o Sweep.initial = Sweep.Exit status d /\
    Sweep.main argv o w = Sweep.Exit status w' /\
    Sweep.stdout w' = Sweep.stdout w ++ Sweep.stdout d /\
    Sweep.stderr w' = Sweep.stderr w ++ Sweep.stderr d /\
    (forall name,
       Sweep.files w' !! name
       = match Sweep.files d !! name with
         | Some text => Some text
         | None => Sweep.files w !! name
         end).
Proof.
  assert (Hex : exists status d, Sweep.main argv o Sweep.initial = Sweep.Exit status d)
    by (rewrite main_range; apply sweep_exits).
  destruct Hex as (status & d & Hd).
  exists status, d, (Run.after w d).
  split; [exact Hd|]. split; [rewrite main_after, Hd; reflexivity|].
  split; [reflexivity|]. split; [reflexivity|].
  intros name. cbn [Run.after Sweep.files].
  rewrite lookup_union. destruct (Sweep.files d !! name), (Sweep.files w !! name); reflexivity.
Qed.

(** *** [mlockall] *)

Lemma sweep_with_mlockall (b : bool) (o : Sweep.oracle) (sis : list Z) (w : Sweep.world) :
  Sweep.sweep (Run.with_mlockall b o) sis w = Sweep.sweep o sis w.
Proof.
  revert w. induction sis as [|si sis IH]; intros w; [reflexivity|].
  cbn [Sweep.sweep].
  change (Sweep.run_size (Run.with_mlockall b o) si w) with (Sweep.run_size o si w).
  destruct (Sweep.run_size o si w); [apply IH|reflexivity|reflexivity].
Qed.

(** X18.  A failing [mlockall] is not fatal and changes nothing of the
    measurement: the run in which it fails and the run in which it
    succeeds end with the same status and the same files, and print the
    same lines, but for the confirmation that opens the output of the
    one and the warning that opens the error stream of the other. *)
Theorem mlockall_failure_not_fatal (argv : list string) (o : Sweep.oracle) :
  exists status locked unlocked,
    Sweep.main argv (Run.with_mlockall true o) Sweep.initial = Sweep.Exit status locked /\
    Sweep.main argv (Run.with_mlockall false o) Sweep.initial = Sweep.Exit status unlocked /\
    Sweep.files unlocked = Sweep.files locked /\
    Sweep.stdout locked = Sweep.MlockallOk :: Sweep.stdout unlocked /\
    Sweep.stderr unlocked = Sweep.MlockallWarning :: Sweep.stderr locked /\
    Sweep.measured unlocked = Sweep.measured locked /\
    Sweep.written unlocked = Sweep.written locked.
Proof.
  destruct (sweep_exits o (Run.range argv) Sweep.initial) as (status & d & Hd).
  exists status,
    (Run.after (Sweep.print Sweep.MlockallOk Sweep.initial) d),
    (Run.after (Sweep.eprint Sweep.MlockallWarning Sweep.initial) d).
  split; [|split].
  - rewrite main_range, sweep_with_mlockall.
    cbn [Run.with_mlockall Sweep.mlockall_ok].
    rewrite <- (after_initial (Sweep.print _ _)) at 1.
    now rewrite sweep_after, Hd.
  - rewrite main_range, sweep_with_mlockall.
    cbn [Run.with_mlockall Sweep.mlockall_ok].
    rewrite <- (after_initial (Sweep.eprint _ _)) at 1.
    now rewrite sweep_after, Hd.
  - unfold Sweep.measured, Sweep.written.
    cbn [Run.after Sweep.print Sweep.eprint Sweep.initial Sweep.files Sweep.stdout
         Sweep.stderr app omap].
    repeat split.
Qed.

(** *** A run without failure *)

(** X19.  In a run where every call succeeds the sizes visited have
    pairwise different file names, so no export overwrites another: at
    the end each size's file holds the header and the rows of that
    size's own trials, and no other file exists. *)
Theorem each_size_keeps_its_file (argv : list string) (o : Sweep.oracle) :
  (forall si, In si (Run.range argv) -> Sweep.all_ok o si) ->
  exists w',
    Sweep.main argv o Sweep.initial = Sweep.Exit 0 w' /\
    NoDup (map Run.name_at (Run.range argv)) /\
    (forall si, In si (Run.range argv) ->
       Sweep.files w' !! Run.name_at si = Some (Run.csv_at o si)) /\
    (forall name, ~ In name (map Run.name_at (Run.range argv)) ->
       Sweep.files w' !! name = None).
Proof.
  intros Hall.
  set (w0 := if Sweep.mlockall_ok o then Sweep.print Sweep.MlockallOk Sweep.initial
             else Sweep.eprint Sweep.MlockallWarning Sweep.initial).
  assert (Hw0f : Sweep.files w0 = ∅) by (unfold w0; now destruct (Sweep.mlockall_ok o)).
  destruct (sweep_prefix o (Run.range argv) w0 Hall) as (w1 & Hsw & _ & _ & _ & Hf).
  exists w1. split.
  { rewrite main_range. fold w0. specialize (Hsw []). rewrite app_nil_r in Hsw.
    rewrite Hsw. reflexivity. }
  rewrite Hf, Hw0f.
  split; [|split].
  - apply NoDup_fmap_2_strong; [|apply NoDup_seqZ].
    intros i j Hi Hj. apply name_at_inj; apply range_elem with argv;
      now apply list_elem_of_In.
  - intros si Hsi. apply exported_lookup; [apply range_elem|exact Hsi].
  - intros name Hn. rewrite exported_lookup_other by exact Hn. apply lookup_empty.
Qed.

Lemma each_size_keeps_its_file_witness :
  exists w',
    Sweep.main ["./memtest_allsizes"] (Sweep.example_oracle []) Sweep.initial
    = Sweep.Exit 0 w' /\
    NoDup (map Run.name_at (Run.range ["./memtest_allsizes"])) /\
    (forall si, In si (Run.range ["./memtest_allsizes"]) ->
       Sweep.files w' !! Run.name_at si
       = Some (Run.csv_at (Sweep.example_oracle []) si)) /\
    (forall name, ~ In name (map Run.name_at (Run.range ["./memtest_allsizes"])) ->
       Sweep.files w' !! name = None).
Proof.
  apply (each_size_keeps_its_file ["./memtest_allsizes"] (Sweep.example_oracle [])).
  intros si _. repeat split; reflexivity.
Defined.

(** ** Rounding away any number of extra bits *)

Section Near.

Variables prec emax : Z.
Hypothesis prec_pos : 0 < prec.

(** The first alignment of a mantissa with [k] bits too many: the
    quotient by [2^k], exactly located when nothing is lost. *)
Lemma shr_fexp_near (q : positive) (e k : Z) (l : location) :
  0 <= k -> Zpos (digits2_pos q) = prec + k -> emin prec emax <= e + k ->
  exists r1,
    shr_fexp prec emax (Zpos q) e l = (r1, e + k) /\
    shr_m r1 = Zpos q / 2 ^ k /\
    (l = loc_Exact -> Zpos q mod 2 ^ k = 0 -> loc_of_shr_record r1 = loc_Exact).
Proof using prec_pos.
  intros Hk Hdig Hmin.
  unfold shr_fexp. cbn [Zdigits2]. rewrite Hdig, fexp_normal by lia.
  replace (prec + k + e - prec - e) with k by lia.
  destruct k as [|p|p]; [| |lia].
  - eexists. split; [cbn [shr]; rewrite Z.add_0_r; reflexivity|].
    rewrite loc_of_record_of_loc, Z.pow_0_r, Z.div_1_r.
    split; [now destruct l as [|[]]|]. now intros ->.
  - eexists. split; [reflexivity|]. split.
    + rewrite iter_shr_m by (destruct l as [|[]]; cbn; lia).
      f_equal. now destruct l as [|[]].
    + intros -> Hmod. cbn [shr_record_of_loc].
      assert (Hq : Zpos q = Zpos q / 2 ^ Zpos p * 2 ^ Zpos p).
      { pose proof (Z.div_mod (Zpos q) (2 ^ Zpos p)
                      ltac:(apply Z.pow_nonzero; lia)) as H. lia. }
      rewrite Hq, iter_shr_exact by (apply Z.div_pos; [lia|apply Z.pow_pos_nonneg; lia]).
      reflexivity.
Qed.

Lemma binary_round_aux_near (s : bool) (q : positive) (e k : Z) (l : location) :
  0 <= k ->
  Zpos (digits2_pos q) = prec + k ->
  emin prec emax <= e + k -> e + k + 1 <= emax - prec ->
  exists (m2 : Z) (m3 : positive) (e3 : Z),
    binary_round_aux prec emax s (Zpos q) e l = S754_finite s m3 e3 /\
    Zpos q / 2 ^ k <= m2 <= Zpos q / 2 ^ k + 1 /\
    (l = loc_Exact -> Zpos q mod 2 ^ k = 0 -> m2 = Zpos q / 2 ^ k) /\
    ((e3 = e + k /\ Zpos m3 = m2 /\ m2 < 2 ^ prec) \/
     (e3 = e + k + 1 /\ Zpos m3 = 2 ^ (prec - 1) /\ m2 = 2 ^ prec)).
Proof using prec_pos.
  intros Hk Hdig Hmin Hmax.
  destruct (digits_bounds q) as [Qlo Qhi]. rewrite Hdig in Qlo, Qhi.
  destruct (shr_fexp_near q e k l Hk Hdig Hmin) as (r1 & Hr1 & Hm1 & Hl1).
  remember (Zpos q / 2 ^ k) as m1 eqn:Em1.
  assert (Hpk : 0 < 2 ^ k) by (apply Z.pow_pos_nonneg; lia).
  assert (Hm1r : 2 ^ (prec - 1) <= m1 < 2 ^ prec).
  { subst m1.
    replace (prec + k - 1) with ((prec - 1) + k) in Qlo by lia.
    rewrite Z.pow_add_r in Qlo, Qhi by lia.
    split; [apply Z.div_le_lower_bound; lia|apply Z.div_lt_upper_bound; lia]. }
  destruct (round_nearest_even_range m1 (loc_of_shr_record r1)) as [Hm2 Hex].
  remember (round_nearest_even m1 (loc_of_shr_record r1)) as m2 eqn:Em2.
  assert (Hpp : 0 < 2 ^ (prec - 1)) by (apply Z.pow_pos_nonneg; lia).
  assert (Hpow : 2 ^ prec = 2 ^ (prec - 1) * 2).
  { replace prec with (Z.succ (prec - 1)) at 1 by lia. rewrite Z.pow_succ_r by lia. lia. }
  assert (Hexact : l = loc_Exact -> Zpos q mod 2 ^ k = 0 -> m2 = m1).
  { intros Hl Hz. apply Hex. now apply Hl1. }
  unfold binary_round_aux. rewrite Hr1, Hm1, <- Em2.
  destruct m2 as [|p2|p2]; try lia.
  destruct (Z.eq_dec (Zpos p2) (2 ^ prec)) as [Hcarry|Hnc].
  - exists (Zpos p2), (Z.to_pos (2 ^ (prec - 1))), (e + k + 1).
    assert (Hd2 : Zpos (digits2_pos p2) = prec + 1).
    { apply digits_unique. rewrite Hcarry.
      replace (prec + 1 - 1) with prec by lia.
      split; [lia|apply Z.pow_lt_mono_r; lia]. }
    unfold shr_fexp. cbn [Zdigits2]. rewrite Hd2, fexp_normal by lia.
    replace (prec + 1 + (e + k) - prec - (e + k)) with 1 by lia.
    cbn [shr SpecFloat.iter_pos shr_record_of_loc].
    rewrite Hcarry, Hpow, shr_1_even by lia. cbn [shr_m].
    destruct (2 ^ (prec - 1)) as [|pp|pp] eqn:Epp; try lia.
    rewrite (proj2 (Z.leb_le _ _)) by lia.
    split; [now rewrite Pos2Z.id|].
    split; [lia|]. split; [intros A B; specialize (Hexact A B); lia|].
    right. split; [lia|]. rewrite Pos2Z.id. split; lia.
  - exists (Zpos p2), p2, (e + k).
    assert (Hd2 : Zpos (digits2_pos p2) = prec).
    { apply digits_unique. lia. }
    unfold shr_fexp. cbn [Zdigits2]. rewrite Hd2, fexp_normal by lia.
    replace (prec + (e + k) - prec - (e + k)) with 0 by lia.
    cbn [shr shr_record_of_loc shr_m].
    rewrite (proj2 (Z.leb_le _ _)) by lia.
    split; [reflexivity|]. split; [lia|]. split; [exact Hexact|]. left.
    split; [reflexivity|]. split; [reflexivity|lia].
Qed.

End Near.

(** ** The quotient of two long doubles with full mantissas *)

Lemma div_normal (mx my : positive) (ex ey : Z) :
  Zpos (digits2_pos mx) = 64 -> Zpos (digits2_pos my) = 64 ->
  -16000 <= ex - ey <= 16000 ->
  exists (k m1 m2 : Z) (m3 : positive) (e3 : Z),
    LongDouble.div (S754_finite false mx ex) (S754_finite false my ey)
    = S754_finite false m3 e3 /\
    (k = 0 /\ Zpos mx < Zpos my \/ k = 1 /\ Zpos my <= Zpos mx) /\
    2 ^ 63 <= m1 < 2 ^ 64 /\
    m1 * (Zpos my * 2 ^ k) <= Zpos mx * 2 ^ 64 < (m1 + 1) * (Zpos my * 2 ^ k) /\
    m1 <= m2 <= m1 + 1 /\
    ((e3 = ex - ey - 64 + k /\ Zpos m3 = m2 /\ m2 < 2 ^ 64) \/
     (e3 = ex - ey - 64 + k + 1 /\ Zpos m3 = 2 ^ 63 /\ m2 = 2 ^ 64)).
Proof.
  intros Hdx Hdy Hrange.
  unfold LongDouble.div, SFdiv, SFdiv_core_binary. cbn [Zdigits2 xorb].
  rewrite Hdx, Hdy.
  replace (64 + ex - (64 + ey)) with (ex - ey) by lia.
  rewrite fexp_long_double by lia.
  replace (Z.min (ex - ey - 64) (ex - ey)) with (ex - ey - 64) by lia.
  replace (ex - ey - (ex - ey - 64)) with 64 by lia.
  rewrite Z.shiftl_mul_pow2 by lia.
  set (W := Zpos mx * 2 ^ 64).
  assert (Hxr : 2 ^ 63 <= Zpos mx < 2 ^ 64).
  { pose proof (digits_bounds mx) as H. now rewrite Hdx in H. }
  assert (Hyr : 2 ^ 63 <= Zpos my < 2 ^ 64).
  { pose proof (digits_bounds my) as H. now rewrite Hdy in H. }
  pose proof (Z.div_mod W (Zpos my) ltac:(lia)) as Hdm.
  pose proof (Z.mod_pos_bound W (Zpos my) ltac:(lia)) as Hrb.
  destruct (Z.div_eucl W (Zpos my)) as [q r] eqn:Hqr.
  assert (q = W / Zpos my) as Hq by (unfold Z.div; now rewrite Hqr).
  assert (r = W mod Zpos my) as Hr by (unfold Z.modulo; now rewrite Hqr).
  subst q r. clear Hqr. set (q := W / Zpos my) in *. set (r := W mod Zpos my) in *.
  assert (Hqlo : 2 ^ 63 <= q).
  { apply Z.div_le_lower_bound; [lia|]. unfold W.
    transitivity (2 ^ 64 * 2 ^ 63); [apply Z.mul_le_mono_nonneg_r; lia|].
    rewrite Z.mul_comm. apply Z.mul_le_mono_nonneg_r; lia. }
  assert (Hqhi : q < 2 ^ 65).
  { apply Z.div_lt_upper_bound; [lia|]. unfold W.
    apply Z.lt_le_trans with (2 ^ 64 * 2 ^ 64); [apply Z.mul_lt_mono_pos_r; lia|].
    change (2 ^ 64 * 2 ^ 64) with (2 ^ 63 * 2 ^ 65).
    apply Z.mul_le_mono_nonneg_r; lia. }
  assert (Hq64 : q < 2 ^ 64 <-> Zpos mx < Zpos my).
  { split; intros H.
    - destruct (Z_lt_le_dec (Zpos mx) (Zpos my)) as [|Hge]; [assumption|exfalso].
      assert (2 ^ 64 <= q); [|lia].
      apply Z.div_le_lower_bound; [lia|]. unfold W. nia.
    - apply Z.div_lt_upper_bound; [lia|]. unfold W. nia. }
  destruct q as [|q|q]; try lia.
  assert (Hk : exists k, (k = 0 /\ Zpos mx < Zpos my \/ k = 1 /\ Zpos my <= Zpos mx) /\
                         Zpos (digits2_pos q) = 64 + k).
  { destruct (Z_lt_le_dec (Zpos q) (2 ^ 64)).
    - exists 0. split; [left; split; [reflexivity|now apply Hq64]|].
      apply digits_unique. lia.
    - exists 1. split; [right; split; [reflexivity|]|apply digits_unique; lia].
      destruct (Z_lt_le_dec (Zpos mx) (Zpos my)) as [Hlt|]; [|assumption].
      apply Hq64 in Hlt. lia. }
  destruct Hk as (k & Hk & Hdq).
  assert (Hk01 : 0 <= k <= 1) by lia.
  destruct (binary_round_aux_near LongDouble.prec LongDouble.emax
              ltac:(unfold LongDouble.prec; lia) false q (ex - ey - 64) k
              (new_location (Zpos my) r) ltac:(lia) Hdq)
    as (m2 & m3 & e3 & Hres & Hm2 & _ & Hfin);
    [unfold emin, LongDouble.prec, LongDouble.emax; lia
    |unfold LongDouble.prec, LongDouble.emax; lia|].
  set (P := 2 ^ k) in *.
  assert (HP : P = 1 \/ P = 2) by (unfold P; destruct Hk as [[-> _]|[-> _]]; auto).
  pose proof (Z.div_mod (Zpos q) P ltac:(lia)) as Hdm1.
  pose proof (Z.mod_pos_bound (Zpos q) P ltac:(lia)) as Hrb1.
  destruct (quotient_bracket W (Zpos my) P (Zpos q) r (Zpos q / P) (Zpos q mod P))
    as [[Hlow Hhigh] _]; try assumption; try lia.
  exists k, (Zpos q / P), m2, m3, e3.
  split; [exact Hres|]. split; [exact Hk|].
  split.
  { destruct HP as [HP|HP]; rewrite HP in *.
    - rewrite Z.div_1_r. destruct Hk as [[-> Hlt]|[-> Hge]]; [|discriminate HP].
      apply Hq64 in Hlt. lia.
    - destruct Hk as [[-> Hlt]|[-> Hge]]; [discriminate HP|].
      assert (2 ^ 64 <= Zpos q).
      { destruct (Z_lt_le_dec (Zpos q) (2 ^ 64)) as [Hlt|]; [|assumption].
        apply Hq64 in Hlt. lia. }
      split; [apply Z.div_le_lower_bound; lia|apply Z.div_lt_upper_bound; lia]. }
  split; [exact (conj Hlow Hhigh)|]. split; [exact Hm2|].
  unfold LongDouble.prec in Hfin. change (64 - 1) with 63 in Hfin. exact Hfin.
Qed.

(** ** The conversion of a long double with a full mantissa to double *)

Lemma to_double_normal (m : positive) (e : Z) :
  Zpos (digits2_pos m) = 64 -> -900 <= e <= 900 ->
  exists (m4 : positive) (e4 : Z),
    Double.of_long_double (S754_finite false m e) = S754_finite false m4 e4 /\
    ((e4 = e + 11 /\ Zpos m / 2 ^ 11 <= Zpos m4 <= Zpos m / 2 ^ 11 + 1 /\
      Zpos m4 < 2 ^ 53 /\ (Zpos m mod 2 ^ 11 = 0 -> Zpos m4 = Zpos m / 2 ^ 11)) \/
     (e4 = e + 12 /\ Zpos m4 = 2 ^ 52 /\ 2 ^ 53 <= Zpos m / 2 ^ 11 + 1 /\
      Zpos m mod 2 ^ 11 <> 0)).
Proof.
  intros Hd He.
  unfold Double.of_long_double, binary_round.
  assert (Hf : fexp Double.prec Double.emax (Zpos (digits2_pos m) + e) = e + 11).
  { rewrite Hd. unfold fexp, emin, Double.prec, Double.emax. lia. }
  rewrite Hf, shl_align_ge by lia.
  destruct (binary_round_aux_near Double.prec Double.emax
              ltac:(unfold Double.prec; lia) false m e 11 loc_Exact ltac:(lia))
    as (m2 & m3 & e3 & Hres & Hm2 & Hex & Hfin);
    [rewrite Hd; reflexivity
    |unfold emin, Double.prec, Double.emax; lia
    |unfold Double.prec, Double.emax; lia|].
  exists m3, e3. split; [exact Hres|].
  unfold Double.prec in Hfin. change (53 - 1) with 52 in Hfin.
  destruct Hfin as [(-> & Hm3 & Hlt)|(-> & Hm3 & Hc)].
  - left. rewrite Hm3. split; [reflexivity|]. split; [exact Hm2|]. split; [exact Hlt|].
    intros Hmod. now apply Hex.
  - right. split; [lia|]. split; [exact Hm3|]. split; [lia|].
    intros Hmod. specialize (Hex eq_refl Hmod).
    assert (Zpos m / 2 ^ 11 < 2 ^ 53); [|lia].
    apply Z.div_lt_upper_bound; [lia|].
    pose proof (digits_bounds m) as Hb. rewrite Hd in Hb.
    change (2 ^ 11 * 2 ^ 53) with (2 ^ 64). lia.
Qed.

(** The comparison of a positive double with the literal 1.5, by
    exponent and mantissa. *)
Lemma gtb_threshold_finite (m : positive) (e : Z) :
  Double.gtb (S754_finite false m e) Policy.threshold
  = match Z.compare (-52) e with
    | Lt => true
    | Eq => 6755399441055744 <? Zpos m
    | Gt => false
    end.
Proof.
  rewrite threshold_repr. unfold Double.gtb, SFltb. cbn [SFcompare].
  destruct (Z.compare (-52) e); reflexivity.
Qed.

(** ** The conclusion away from the boundary *)

Lemma mean_access_faithful (access : list Z) :
  Forall U64.in_range access -> 0 < Stats.total access < 2 ^ 64 ->
  exists m e, Policy.mean_access access = S754_finite false m e /\
    -128 <= e <= 0 /\ Zpos (digits2_pos m) = 64 /\
    Policy.TEST_ITERATIONS * (Zpos m - 1) < Stats.total access * 2 ^ (- e)
      < Policy.TEST_ITERATIONS * (Zpos m + 1).
Proof.
  intros Hr Ht. rewrite mean_access_repr by (try assumption; lia).
  destruct (div_repr (Stats.total access) Policy.TEST_ITERATIONS Ht
              ltac:(unfold Policy.TEST_ITERATIONS; lia))
    as (m & e & Heq & He & _ & _ & Hf).
  exists m, e. split; [exact Heq|]. split; [exact He|]. split; [|exact Hf].
  apply (div_repr_canonical (Stats.total access) Policy.TEST_ITERATIONS m e);
    [exact Ht|unfold Policy.TEST_ITERATIONS; lia|exact Heq|lia].
Qed.

Lemma pow2_split (a b : Z) : a <= b -> b <= 0 -> 2 ^ (- a) = 2 ^ (- b) * 2 ^ (b - a).
Proof. intros Hab Hb. rewrite <- Z.pow_add_r by lia. f_equal. lia. Qed.

Lemma full_mantissa (m : positive) :
  Zpos (digits2_pos m) = 64 <-> 2 ^ 63 <= Zpos m < 2 ^ 64.
Proof.
  split.
  - intros H. pose proof (digits_bounds m) as Hb. now rewrite H in Hb.
  - intros H. apply digits_unique. exact H.
Qed.

(** A quotient of at least [2 - 2^-62], once converted, exceeds 1.5. *)
Lemma open_after_conversion (m3 : positive) (e3 : Z) :
  Zpos (digits2_pos m3) = 64 -> -900 <= e3 <= 900 ->
  -62 <= e3 \/ (e3 = -63 /\ 2 ^ 64 - 2 <= Zpos m3) ->
  Double.gtb (Double.of_long_double (S754_finite false m3 e3)) Policy.threshold = true.
Proof.
  intros Hd He Hbig.
  destruct (to_double_normal m3 e3 Hd He) as (m4 & e4 & -> & Hcase).
  rewrite gtb_threshold_finite.
  destruct Hcase as [(-> & Hm4 & _)|(-> & _)].
  - destruct Hbig as [Hbig|[-> Hbig]].
    + destruct (Z.compare_spec (-52) (e3 + 11)); first [reflexivity|lia].
    + replace (-63 + 11) with (-52) by lia. rewrite Z.compare_refl.
      apply Z.ltb_lt.
      assert (Hq : 2 ^ 53 - 1 <= Zpos m3 / 2 ^ 11) by (apply Z.div_le_lower_bound; lia).
      remember (Zpos m3 / 2 ^ 11) as Qd eqn:EQd. clear EQd.
      change (2 ^ 53 - 1) with 9007199254740991 in Hq.
      clear Hd Hbig. lia.
  - assert (-52 < e3 + 12) by lia.
    destruct (Z.compare_spec (-52) (e3 + 12)); first [reflexivity|lia].
Qed.

(** A quotient of at most [1 + 2^-62], once converted, does not. *)
Lemma closed_after_conversion (m3 : positive) (e3 : Z) :
  Zpos (digits2_pos m3) = 64 -> -900 <= e3 <= 900 ->
  e3 <= -64 \/ (e3 = -63 /\ Zpos m3 <= 2 ^ 63 + 2) ->
  Double.gtb (Double.of_long_double (S754_finite false m3 e3)) Policy.threshold = false.
Proof.
  intros Hd He Hsmall.
  destruct (to_double_normal m3 e3 Hd He) as (m4 & e4 & -> & Hcase).
  rewrite gtb_threshold_finite.
  destruct Hcase as [(-> & Hm4 & _)|(-> & Hm4 & Hc & _)].
  - destruct Hsmall as [Hsmall|[-> Hsmall]].
    + destruct (Z.compare_spec (-52) (e3 + 11)); first [reflexivity|lia].
    + replace (-63 + 11) with (-52) by lia. rewrite Z.compare_refl.
      apply Z.ltb_ge.
      assert (Hq : Zpos m3 / 2 ^ 11 <= 2 ^ 52)
        by (change (2 ^ 52) with ((2 ^ 63 + 2) / 2 ^ 11); apply Z.div_le_mono; lia).
      remember (Zpos m3 / 2 ^ 11) as Qd eqn:EQd. clear EQd.
      change (2 ^ 52) with 4503599627370496 in Hq.
      clear Hd Hsmall. lia.
  - destruct Hsmall as [Hsmall|[-> Hsmall]].
    + destruct (Z.compare_spec (-52) (e3 + 12)); [|lia|reflexivity].
      apply Z.ltb_ge. lia.
    + exfalso.
      assert (Hq : Zpos m3 / 2 ^ 11 <= 2 ^ 52)
        by (change (2 ^ 52) with ((2 ^ 63 + 2) / 2 ^ 11); apply Z.div_le_mono; lia).
      remember (Zpos m3 / 2 ^ 11) as Qd eqn:EQd. clear EQd. lia.
Qed.

(** The two means compared, after the errors of their own roundings. *)
Lemma cross_lower (n S1 S2 A B Ta Tb : Z) :
  0 < n -> 0 < Ta -> 0 < Tb ->
  S1 * Ta < n * A -> n * B < S2 * Tb -> 2 * S2 <= S1 ->
  2 * B * Ta < A * Tb.
Proof.
  intros Hn HTa HTb H1 H2 H12.
  apply (Z.mul_lt_mono_pos_l n); [exact Hn|].
  assert (E1 : n * B * (2 * Ta) < S2 * Tb * (2 * Ta))
    by (apply Z.mul_lt_mono_pos_r; lia).
  assert (E2 : 2 * S2 * (Ta * Tb) <= S1 * (Ta * Tb))
    by (apply Z.mul_le_mono_nonneg_r; [apply Z.mul_nonneg_nonneg; lia|exact H12]).
  assert (E3 : S1 * Ta * Tb < n * A * Tb)
    by (apply Z.mul_lt_mono_pos_r; lia).
  lia.
Qed.

Lemma cross_upper (n S1 S2 A B Ta Tb : Z) :
  0 < n -> 0 < Ta -> 0 < Tb ->
  n * A < S1 * Ta -> S2 * Tb < n * B -> S1 <= S2 ->
  A * Tb < B * Ta.
Proof.
  intros Hn HTa HTb H1 H2 H12.
  apply (Z.mul_lt_mono_pos_l n); [exact Hn|].
  assert (E1 : n * A * Tb < S1 * Ta * Tb)
    by (apply Z.mul_lt_mono_pos_r; lia).
  assert (E2 : S1 * (Ta * Tb) <= S2 * (Ta * Tb))
    by (apply Z.mul_le_mono_nonneg_r; [apply Z.mul_nonneg_nonneg; lia|exact H12]).
  assert (E3 : S2 * Tb * Ta < n * B * Ta)
    by (apply Z.mul_lt_mono_pos_r; lia).
  lia.
Qed.

(** The mantissa of a quotient just below 2. *)
Lemma quotient_near_two (m1 mb : Z) :
  2 ^ 63 <= mb -> (mb - 1) * 2 ^ 64 < (m1 + 1) * mb -> 2 ^ 64 - 2 <= m1.
Proof.
  intros Hmb H.
  destruct (Z_lt_le_dec m1 (2 ^ 64 - 2)) as [Hlt|]; [exfalso|assumption].
  assert ((m1 + 1) * mb <= (2 ^ 64 - 2) * mb)
    by (apply Z.mul_le_mono_nonneg_r; lia).
  lia.
Qed.

(** The mantissa of a quotient just above 1. *)
Lemma quotient_near_one (m1 mb X : Z) :
  2 ^ 63 <= mb -> m1 * mb <= X -> X < (2 ^ 63 + 2) * mb -> m1 <= 2 ^ 63 + 1.
Proof.
  intros Hmb H HX.
  destruct (Z_lt_le_dec (2 ^ 63 + 1) m1) as [Hlt|]; [exfalso|assumption].
  assert ((2 ^ 63 + 2) * mb <= m1 * mb)
    by (apply Z.mul_le_mono_nonneg_r; lia).
  lia.
Qed.

Lemma ratio_open (ma mb : positive) (ea eb : Z) :
  Zpos (digits2_pos ma) = 64 -> Zpos (digits2_pos mb) = 64 ->
  -128 <= ea <= 0 -> -128 <= eb <= 0 ->
  2 * (Zpos mb - 1) * 2 ^ (- ea) < (Zpos ma + 1) * 2 ^ (- eb) ->
  Double.gtb (Policy.speedup_ratio (S754_finite false ma ea) (S754_finite false mb eb))
    Policy.threshold = true.
Proof.
  intros Hda Hdb Hea Heb Hstar.
  pose proof (proj1 (full_mantissa ma) Hda) as Hma.
  pose proof (proj1 (full_mantissa mb) Hdb) as Hmb.
  destruct (div_normal ma mb ea eb Hda Hdb ltac:(lia))
    as (k & m1 & m2 & m3 & e3 & Hdiv & Hk & Hm1 & [Hlow Hhigh] & Hm2 & Hfin).
  unfold Policy.speedup_ratio. rewrite Hdiv.
  assert (Hd3 : Zpos (digits2_pos m3) = 64) by (apply full_mantissa; lia).
  apply open_after_conversion; [exact Hd3|lia|].
  assert (HTa : 0 < 2 ^ (- ea)) by (apply Z.pow_pos_nonneg; lia).
  assert (HTb : 0 < 2 ^ (- eb)) by (apply Z.pow_pos_nonneg; lia).
  destruct (Z_lt_le_dec (ea - eb) 0) as [Hneg|Hnn].
  { (* the first mean in a lower binade: impossible *)
    exfalso. rewrite (pow2_split ea eb) in Hstar by lia.
    assert (HD : 2 <= 2 ^ (eb - ea)).
    { change 2 with (2 ^ 1) at 1. apply Z.pow_le_mono_r; lia. }
    remember (2 ^ (eb - ea)) as D. remember (2 ^ (- eb)) as T.
    assert (2 * (Zpos mb - 1) * D < Zpos ma + 1).
    { apply (Z.mul_lt_mono_pos_l T); [exact HTb|]. lia. }
    assert (2 * (Zpos mb - 1) * 2 <= 2 * (Zpos mb - 1) * D)
      by (apply Z.mul_le_mono_nonneg_l; lia).
    lia. }
  destruct (Z_le_gt_dec 2 (ea - eb)) as [Hbig|Hsmall]; [left; lia|].
  (* the same binade, or the next one *)
  assert (Hcore : ((Zpos mb - 1) * 2 ^ 64 < (m1 + 1) * Zpos mb /\ 1 <= ea - eb + k)
                  \/ -62 <= e3).
  { rewrite (pow2_split eb ea) in Hstar by lia.
    remember (2 ^ (- ea)) as T.
    assert (Hs : 2 * (Zpos mb - 1) < (Zpos ma + 1) * 2 ^ (ea - eb)).
    { apply (Z.mul_lt_mono_pos_l T); [exact HTa|]. lia. }
    assert (ea - eb = 0 \/ ea - eb = 1) as [E|E] by lia; rewrite E in Hs.
    - (* equal exponents: the first mantissa is about twice the second *)
      change (2 ^ 0) with 1 in Hs.
      destruct Hk as [[-> Hlt]|[-> Hge]]; [lia|].
      left. change (2 ^ 1) with 2 in Hhigh.
      assert ((2 * Zpos mb - 2) * 2 ^ 64 <= Zpos ma * 2 ^ 64)
        by (apply Z.mul_le_mono_nonneg_r; lia).
      split; lia.
    - change (2 ^ 1) with 2 in Hs.
      destruct Hk as [[-> Hlt]|[-> Hge]]; [|right; lia].
      left. change (2 ^ 0) with 1 in Hhigh.
      assert (Zpos ma = Zpos mb - 1) as Ema by lia.
      rewrite Ema in Hhigh. split; lia. }
  destruct Hcore as [[Hcore Hdk]|He3]; [|left; exact He3].
  pose proof (quotient_near_two m1 (Zpos mb) ltac:(lia) Hcore) as Hm1big.
  destruct Hfin as [(-> & Hm3 & _)|(-> & _)]; [|left; lia].
  destruct (Z_le_gt_dec (-62) (ea - eb - 64 + k)) as [|Hlt]; [left; assumption|].
  right. split; lia.
Qed.

Lemma ratio_closed (ma mb : positive) (ea eb : Z) :
  Zpos (digits2_pos ma) = 64 -> Zpos (digits2_pos mb) = 64 ->
  -128 <= ea <= 0 -> -128 <= eb <= 0 ->
  (Zpos ma - 1) * 2 ^ (- eb) < (Zpos mb + 1) * 2 ^ (- ea) ->
  Double.gtb (Policy.speedup_ratio (S754_finite false ma ea) (S754_finite false mb eb))
    Policy.threshold = false.
Proof.
  intros Hda Hdb Hea Heb Hstar.
  pose proof (proj1 (full_mantissa ma) Hda) as Hma.
  pose proof (proj1 (full_mantissa mb) Hdb) as Hmb.
  destruct (div_normal ma mb ea eb Hda Hdb ltac:(lia))
    as (k & m1 & m2 & m3 & e3 & Hdiv & Hk & Hm1 & [Hlow Hhigh] & Hm2 & Hfin).
  unfold Policy.speedup_ratio. rewrite Hdiv.
  assert (Hd3 : Zpos (digits2_pos m3) = 64) by (apply full_mantissa; lia).
  apply closed_after_conversion; [exact Hd3|lia|].
  assert (HTa : 0 < 2 ^ (- ea)) by (apply Z.pow_pos_nonneg; lia).
  assert (HTb : 0 < 2 ^ (- eb)) by (apply Z.pow_pos_nonneg; lia).
  destruct (Z_lt_le_dec (ea - eb) 0) as [Hneg|Hnn].
  { (* the first mean in a lower binade *)
    destruct Hfin as [(-> & Hm3 & _)|(-> & Hm3 & _)]; [left; lia|].
    destruct (Z_le_gt_dec (ea - eb - 64 + k + 1) (-64)); [left; assumption|].
    right. split; lia. }
  rewrite (pow2_split eb ea) in Hstar by lia.
  remember (2 ^ (- ea)) as T.
  assert (Hs : (Zpos ma - 1) * 2 ^ (ea - eb) < Zpos mb + 1).
  { apply (Z.mul_lt_mono_pos_l T); [exact HTa|]. lia. }
  destruct (Z_le_gt_dec 2 (ea - eb)) as [Hbig|Hsmall].
  { exfalso.
    assert (HD : 4 <= 2 ^ (ea - eb)).
    { change 4 with (2 ^ 2). apply Z.pow_le_mono_r; lia. }
    assert ((Zpos ma - 1) * 4 <= (Zpos ma - 1) * 2 ^ (ea - eb))
      by (apply Z.mul_le_mono_nonneg_l; lia).
    lia. }
  assert (ea - eb = 0 \/ ea - eb = 1) as [E|E] by lia; rewrite E in Hs.
  - change (2 ^ 0) with 1 in Hs.
    destruct Hk as [[-> Hlt]|[-> Hge]].
    + destruct Hfin as [(-> & Hm3 & _)|(-> & Hm3 & _)]; [left; lia|right; split; lia].
    + change (2 ^ 1) with 2 in Hlow.
      assert (Hm1s : m1 <= 2 ^ 63 + 1).
      { apply (quotient_near_one m1 (Zpos mb) ((Zpos mb + 1) * 2 ^ 63)); [lia| |lia].
        assert (Zpos ma * 2 ^ 64 <= (Zpos mb + 1) * 2 ^ 64)
          by (apply Z.mul_le_mono_nonneg_r; lia).
        lia. }
      destruct Hfin as [(-> & Hm3 & _)|(-> & Hm3 & Hc)]; [right; split; lia|lia].
  - change (2 ^ 1) with 2 in Hs.
    destruct Hk as [[-> Hlt]|[-> Hge]]; [|lia].
    change (2 ^ 0) with 1 in Hlow.
    assert (Hm1s : m1 <= 2 ^ 63 + 1).
    { apply (quotient_near_one m1 (Zpos mb) (Zpos ma * 2 ^ 64)); [lia|lia|].
      assert (Zpos ma = 2 ^ 63) as -> by lia. lia. }
    destruct Hfin as [(-> & Hm3 & _)|(-> & Hm3 & Hc)]; [right; split; lia|lia].
Qed.

(** The conclusion from the two sums. *)
Lemma conclusion_by_totals (first_access second_access : list Z) :
  Forall U64.in_range first_access -> Forall U64.in_range second_access ->
  0 < Stats.total first_access < 2 ^ 64 ->
  0 < Stats.total second_access < 2 ^ 64 ->
  (2 * Stats.total second_access <= Stats.total first_access ->
   Policy.conclusion first_access second_access = Policy.OpenRow) /\
  (Stats.total first_access <= Stats.total second_access ->
   Policy.conclusion first_access second_access = Policy.ClosedRow).
Proof.
  intros Hr1 Hr2 Ht1 Ht2.
  destruct (mean_access_faithful first_access Hr1 Ht1)
    as (ma & ea & Ea & Hea & Hda & Hfa_lo & Hfa_hi).
  destruct (mean_access_faithful second_access Hr2 Ht2)
    as (mb & eb & Eb & Heb & Hdb & Hfb_lo & Hfb_hi).
  unfold Policy.conclusion, Policy.classify. rewrite Ea, Eb.
  assert (HTa : 0 < 2 ^ (- ea)) by (apply Z.pow_pos_nonneg; lia).
  assert (HTb : 0 < 2 ^ (- eb)) by (apply Z.pow_pos_nonneg; lia).
  assert (Hn : 0 < Policy.TEST_ITERATIONS) by reflexivity.
  split; intros Hcmp.
  - rewrite ratio_open; [reflexivity|assumption..|].
    apply (cross_lower Policy.TEST_ITERATIONS (Stats.total first_access)
             (Stats.total second_access)); assumption.
  - rewrite ratio_closed; [reflexivity|assumption..|].
    apply (cross_upper Policy.TEST_ITERATIONS (Stats.total first_access)
             (Stats.total second_access)); assumption.
Qed.

(** X20.  Away from the boundary the conclusion is the one exact
    arithmetic would reach, whatever the roundings of the two means, of
    their quotient and of its conversion to double: when the first
    accesses took in total at least twice the cycles of the second ones
    the experiment concludes OPEN-ROW, and when they took no more than
    the second ones it concludes CLOSED-ROW. *)
Theorem conclusion_away_from_threshold (first_access second_access : list Z) :
  Forall U64.in_range first_access -> Forall U64.in_range second_access ->
  0 < Stats.total first_access < 2 ^ 64 ->
  0 < Stats.total second_access < 2 ^ 64 ->
  (2 * Stats.total second_access <= Stats.total first_access ->
   Policy.conclusion first_access second_access = Policy.OpenRow) /\
  (Stats.total first_access <= Stats.total second_access ->
   Policy.conclusion first_access second_access = Policy.ClosedRow).
Proof. apply conclusion_by_totals. Qed.

Lemma conclusion_away_from_threshold_witness :
  (2 * Stats.total [100; 120; 110] <= Stats.total [300; 310; 290] ->
   Policy.conclusion [300; 310; 290] [100; 120; 110] = Policy.OpenRow) /\
  (Stats.total [300; 310; 290] <= Stats.total [100; 120; 110] ->
   Policy.conclusion [300; 310; 290] [100; 120; 110] = Policy.ClosedRow).
Proof.
  apply (conclusion_away_from_threshold [300; 310; 290] [100; 120; 110]).
  - repeat constructor; unfold U64.modulus; lia.
  - repeat constructor; unfold U64.modulus; lia.
  - cbn. lia.
  - cbn. lia.
Defined.

(** ** Rounding to nearest, exactly *)

Lemma fraction_halved (N D : Z) :
  0 < D -> 0 <= N ->
  N / (2 * D) = N / D / 2 /\
  N mod (2 * D) = N mod D + D * (N / D mod 2).
Proof.
  intros HD HN. split.
  - rewrite Z.div_div by lia. f_equal. lia.
  - rewrite (Z.mul_comm 2 D). apply Z.rem_mul_r; lia.
Qed.

Lemma shr_1_located (r : shr_record) (N D : Z) :
  0 < D -> 0 <= N -> located r N D -> located (shr_1 r) N (2 * D).
Proof.
  intros HD HN (Hm & Hr & Hs).
  destruct (fraction_halved N D HD HN) as [Hq Hrem].
  pose proof (Z.mod_pos_bound N D HD) as Hrho.
  pose proof (Z.mod_pos_bound (N / D) 2 ltac:(lia)) as Hbit.
  pose proof (Z.div_mod (N / D) 2 ltac:(lia)) as Hdm.
  assert (Hq0 : 0 <= N / D) by (apply Z.div_pos; lia).
  destruct r as [m rb sb]. cbn [shr_m shr_r shr_s] in Hm, Hr, Hs.
  unfold located. rewrite Hq, Hrem. rewrite <- Hm in *.
  remember (N mod D) as rho eqn:Erho. clear Erho.
  assert (Hsticky : rb || sb = negb (rho =? 0)).
  { rewrite Hr, Hs.
    destruct (Z.leb_spec D (2 * rho)); destruct (Z.eqb_spec rho 0);
      destruct (Z.eqb_spec (2 * rho) D); try reflexivity; lia. }
  assert (Hcases : forall (m' : Z) (b : bool),
             m = 2 * m' + (if b then 1 else 0) ->
             m' = m / 2 /\
             b = (2 * D <=? 2 * (rho + D * (m mod 2))) /\
             negb (rho =? 0)
             = negb (rho + D * (m mod 2) =? 0)
               && negb (2 * (rho + D * (m mod 2)) =? 2 * D)).
  { intros m' b Hb.
    assert (Hmod : m mod 2 = if b then 1 else 0) by (destruct b; lia).
    split; [destruct b; lia|]. rewrite Hmod.
    destruct b; split;
      repeat match goal with
             | |- context [Z.leb ?a ?b] => destruct (Z.leb_spec a b)
             | |- context [Z.eqb ?a ?b] => destruct (Z.eqb_spec a b)
             end; try reflexivity; try lia; nia. }
  destruct m as [|[p|p|]|p]; try lia; cbn [shr_1 shr_m shr_r shr_s];
    rewrite Hsticky.
  - apply (Hcases 0 false). lia.
  - apply (Hcases (Zpos p) true). lia.
  - apply (Hcases (Zpos p) false). lia.
  - apply (Hcases 0 true). lia.
Qed.

Lemma iter_shr_located (k : positive) (r : shr_record) (N D : Z) :
  0 < D -> 0 <= N -> located r N D ->
  located (SpecFloat.iter_pos shr_1 k r) N (D * 2 ^ Zpos k).
Proof.
  intros HD HN. revert r D HD.
  induction k as [k IH|k IH|]; intros r D HD Hr; cbn [SpecFloat.iter_pos].
  - assert (0 < 2 ^ Zpos k) by (apply Z.pow_pos_nonneg; lia).
    rewrite pow2_xI.
    replace (D * (2 ^ Zpos k * 2 ^ Zpos k * 2))
      with (2 * D * 2 ^ Zpos k * 2 ^ Zpos k) by lia.
    apply IH; [nia|]. apply IH; [lia|]. now apply shr_1_located.
  - assert (0 < 2 ^ Zpos k) by (apply Z.pow_pos_nonneg; lia).
    rewrite pow2_xO, Z.mul_assoc.
    apply IH; [nia|]. now apply IH.
  - rewrite Z.pow_1_r, Z.mul_comm. now apply shr_1_located.
Qed.

(** A mantissa with nothing beside it. *)
Lemma located_exact (m : Z) : located (shr_record_of_loc m loc_Exact) m 1.
Proof.
  unfold located. cbn [shr_record_of_loc shr_m shr_r shr_s].
  rewrite Z.div_1_r, Z.mod_1_r. repeat split.
Qed.

(** The quotient and the location left by a division. *)
Lemma located_quotient (W Y : Z) :
  0 < Y -> 0 <= W ->
  located (shr_record_of_loc (W / Y) (new_location Y (W mod Y))) W Y.
Proof.
  intros HY HW. pose proof (Z.mod_pos_bound W Y HY) as Hr.
  remember (W mod Y) as r eqn:Er.
  unfold located. rewrite <- Er.
  unfold new_location, new_location_even, new_location_odd.
  pose proof (Zeven_odd_dec Y) as Hpar.
  destruct (Z.even Y) eqn:Ey.
  - destruct (Z.eqb_spec r 0) as [->|Hnz];
      [cbn; repeat split; destruct (Z.leb_spec Y 0); try reflexivity; lia|].
    destruct (Z.compare_spec (2 * r) Y);
      cbn [shr_record_of_loc shr_m shr_r shr_s]; (split; [reflexivity|]);
      destruct (Z.leb_spec Y (2 * r)); destruct (Z.eqb_spec (2 * r) Y);
        try lia; split; reflexivity.
  - assert (Hodd : Z.odd Y = true) by (rewrite <- Z.negb_even, Ey; reflexivity).
    apply Z.odd_spec in Hodd. destruct Hodd as [h Hh].
    destruct (Z.eqb_spec r 0) as [->|Hnz];
      [cbn; repeat split; destruct (Z.leb_spec Y 0); try reflexivity; lia|].
    destruct (Z.compare_spec (2 * r + 1) Y);
      cbn [shr_record_of_loc shr_m shr_r shr_s]; (split; [reflexivity|]);
      destruct (Z.leb_spec Y (2 * r)); destruct (Z.eqb_spec (2 * r) Y);
        try lia; split; reflexivity.
Qed.

Lemma round_nearest_even_located (r : shr_record) (N D : Z) :
  0 < D -> located r N D ->
  round_nearest_even (shr_m r) (loc_of_shr_record r) = round_half_even N D.
Proof.
  intros HD (Hm & Hr & Hs). destruct r as [m rb sb].
  cbn [shr_m shr_r shr_s] in *. unfold round_half_even. rewrite <- Hm.
  pose proof (Z.mod_pos_bound N D HD) as Hrho.
  remember (N mod D) as rho eqn:Erho. clear Erho.
  subst rb sb.
  destruct (Z.leb_spec D (2 * rho)); destruct (Z.eqb_spec rho 0);
    destruct (Z.eqb_spec (2 * rho) D); destruct (Z.ltb_spec (2 * rho) D);
    cbn [negb andb loc_of_shr_record round_nearest_even]; try reflexivity; lia.
Qed.

(** What [round_half_even] is, in inequalities. *)
Lemma round_half_even_range (N D : Z) :
  0 < D -> 0 <= N ->
  N / D <= round_half_even N D <= N / D + 1 /\
  (N mod D = 0 -> round_half_even N D = N / D).
Proof.
  intros HD HN. pose proof (Z.mod_pos_bound N D HD) as Hr.
  unfold round_half_even.
  destruct (Z.ltb_spec (2 * (N mod D)) D); [split; [lia|reflexivity]|].
  destruct (Z.eqb_spec (2 * (N mod D)) D); [|split; lia].
  destruct (Z.even (N / D)); split; lia.
Qed.

Lemma round_half_even_above (N D c : Z) :
  0 < D -> 0 <= N -> Z.even c = true ->
  (c < round_half_even N D <-> (2 * c + 1) * D < 2 * N).
Proof.
  intros HD HN Hc. pose proof (Z.mod_pos_bound N D HD) as Hr.
  pose proof (Z.div_mod N D ltac:(lia)) as Hdm.
  remember (N / D) as q eqn:Eq. remember (N mod D) as r eqn:Er.
  unfold round_half_even. rewrite <- Eq, <- Er. clear Eq Er.
  apply Z.even_spec in Hc. destruct Hc as [c' ->].
  destruct (Z.ltb_spec (2 * r) D); [split; intros; nia|].
  destruct (Z.eqb_spec (2 * r) D).
  - destruct (Z.even q) eqn:Eq.
    + split; intros; nia.
    + assert (Hodd : Z.odd q = true) by (rewrite <- Z.negb_even, Eq; reflexivity).
      apply Z.odd_spec in Hodd. destruct Hodd as [q' ->]. split; intros; nia.
  - split; intros; nia.
Qed.

Section Nearest.

Variables prec emax : Z.
Hypothesis prec_pos : 0 < prec.

Lemma shr_fexp_located (q : positive) (e k : Z) (l : location) (N D : Z) :
  0 <= k -> Zpos (digits2_pos q) = prec + k -> emin prec emax <= e + k ->
  0 < D -> 0 <= N -> located (shr_record_of_loc (Zpos q) l) N D ->
  exists r1,
    shr_fexp prec emax (Zpos q) e l = (r1, e + k) /\
    located r1 N (D * 2 ^ k).
Proof using prec_pos.
  intros Hk Hdig Hmin HD HN Hloc.
  unfold shr_fexp. cbn [Zdigits2]. rewrite Hdig, fexp_normal by lia.
  replace (prec + k + e - prec - e) with k by lia.
  destruct k as [|p|p]; [| |lia].
  - eexists. split; [cbn [shr]; rewrite Z.add_0_r; reflexivity|].
    now rewrite Z.pow_0_r, Z.mul_1_r.
  - eexists. split; [reflexivity|]. now apply iter_shr_located.
Qed.

(** Rounding a mantissa with [k] bits too many, located in the fraction
    [N / D]: the result is the integer nearest [N / (D * 2^k)], ties to
    even, renormalised when it reaches [2^prec]. *)
Lemma binary_round_aux_nearest (s : bool) (q : positive) (e k : Z) (l : location)
    (N D : Z) :
  0 <= k ->
  Zpos (digits2_pos q) = prec + k ->
  emin prec emax <= e + k -> e + k + 1 <= emax - prec ->
  0 < D -> 0 <= N -> located (shr_record_of_loc (Zpos q) l) N D ->
  exists (m3 : positive) (e3 : Z),
    binary_round_aux prec emax s (Zpos q) e l = S754_finite s m3 e3 /\
    let m2 := round_half_even N (D * 2 ^ k) in
    ((e3 = e + k /\ Zpos m3 = m2 /\ m2 < 2 ^ prec) \/
     (e3 = e + k + 1 /\ Zpos m3 = 2 ^ (prec - 1) /\ m2 = 2 ^ prec)).
Proof using prec_pos.
  intros Hk Hdig Hmin Hmax HD HN Hloc.
  destruct (digits_bounds q) as [Qlo Qhi]. rewrite Hdig in Qlo, Qhi.
  destruct (shr_fexp_located q e k l N D Hk Hdig Hmin HD HN Hloc)
    as (r1 & Hr1 & Hl1).
  assert (Hpk : 0 < 2 ^ k) by (apply Z.pow_pos_nonneg; lia).
  assert (HDk : 0 < D * 2 ^ k) by nia.
  assert (Hq : N / D = Zpos q).
  { destruct Hloc as (Hm & _). rewrite <- Hm. now destruct l as [|[]]. }
  assert (Hm1 : shr_m r1 = Zpos q / 2 ^ k).
  { destruct Hl1 as (Hm & _). rewrite Hm, <- Z.div_div, Hq by lia. reflexivity. }
  pose proof (round_nearest_even_located r1 N (D * 2 ^ k) HDk Hl1) as Hrne.
  destruct (round_half_even_range N (D * 2 ^ k) HDk HN) as [Hm2 _].
  assert (Hm1' : N / (D * 2 ^ k) = Zpos q / 2 ^ k).
  { destruct Hl1 as (Hm & _). now rewrite <- Hm. }
  rewrite Hm1' in Hm2.
  remember (Zpos q / 2 ^ k) as m1 eqn:Em1.
  assert (Hm1r : 2 ^ (prec - 1) <= m1 < 2 ^ prec).
  { subst m1.
    replace (prec + k - 1) with ((prec - 1) + k) in Qlo by lia.
    rewrite Z.pow_add_r in Qlo, Qhi by lia.
    split; [apply Z.div_le_lower_bound; lia|apply Z.div_lt_upper_bound; lia]. }
  cbv zeta.
  remember (round_half_even N (D * 2 ^ k)) as m2 eqn:Em2.
  assert (Hpp : 0 < 2 ^ (prec - 1)) by (apply Z.pow_pos_nonneg; lia).
  assert (Hpow : 2 ^ prec = 2 ^ (prec - 1) * 2).
  { replace prec with (Z.succ (prec - 1)) at 1 by lia. rewrite Z.pow_succ_r by lia. lia. }
  unfold binary_round_aux. rewrite Hr1, Hrne.
  destruct m2 as [|p2|p2]; try lia.
  destruct (Z.eq_dec (Zpos p2) (2 ^ prec)) as [Hcarry|Hnc].
  - exists (Z.to_pos (2 ^ (prec - 1))), (e + k + 1).
    assert (Hd2 : Zpos (digits2_pos p2) = prec + 1).
    { apply digits_unique. rewrite Hcarry.
      replace (prec + 1 - 1) with prec by lia.
      split; [lia|apply Z.pow_lt_mono_r; lia]. }
    unfold shr_fexp. cbn [Zdigits2]. rewrite Hd2, fexp_normal by lia.
    replace (prec + 1 + (e + k) - prec - (e + k)) with 1 by lia.
    cbn [shr SpecFloat.iter_pos shr_record_of_loc].
    rewrite Hcarry, Hpow, shr_1_even by lia. cbn [shr_m].
    destruct (2 ^ (prec - 1)) as [|pp|pp] eqn:Epp; try lia.
    rewrite (proj2 (Z.leb_le _ _)) by lia.
    split; [now rewrite Pos2Z.id|].
    right. split; [lia|]. rewrite Pos2Z.id. split; lia.
  - exists p2, (e + k).
    assert (Hd2 : Zpos (digits2_pos p2) = prec).
    { apply digits_unique. lia. }
    unfold shr_fexp. cbn [Zdigits2]. rewrite Hd2, fexp_normal by lia.
    replace (prec + (e + k) - prec - (e + k)) with 0 by lia.
    cbn [shr shr_record_of_loc shr_m].
    rewrite (proj2 (Z.leb_le _ _)) by lia.
    split; [reflexivity|]. left.
    split; [reflexivity|]. split; [reflexivity|lia].
Qed.

End Nearest.

(** ** The two roundings of the ratio, exactly *)

Lemma div_nearest (mx my : positive) (ex ey : Z) :
  Zpos (digits2_pos mx) = 64 -> Zpos (digits2_pos my) = 64 ->
  -16000 <= ex - ey <= 16000 ->
  exists (k : Z) (m3 : positive) (e3 : Z),
    LongDouble.div (S754_finite false mx ex) (S754_finite false my ey)
    = S754_finite false m3 e3 /\
    (k = 0 /\ Zpos mx < Zpos my \/ k = 1 /\ Zpos my <= Zpos mx) /\
    let m2 := round_half_even (Zpos mx * 2 ^ 64) (Zpos my * 2 ^ k) in
    ((e3 = ex - ey - 64 + k /\ Zpos m3 = m2 /\ m2 < 2 ^ 64) \/
     (e3 = ex - ey - 64 + k + 1 /\ Zpos m3 = 2 ^ 63 /\ m2 = 2 ^ 64)).
Proof.
  intros Hdx Hdy Hrange.
  unfold LongDouble.div, SFdiv, SFdiv_core_binary. cbn [Zdigits2 xorb].
  rewrite Hdx, Hdy.
  replace (64 + ex - (64 + ey)) with (ex - ey) by lia.
  rewrite fexp_long_double by lia.
  replace (Z.min (ex - ey - 64) (ex - ey)) with (ex - ey - 64) by lia.
  replace (ex - ey - (ex - ey - 64)) with 64 by lia.
  rewrite Z.shiftl_mul_pow2 by lia.
  remember (Zpos mx * 2 ^ 64) as W eqn:EW.
  assert (Hxr : 2 ^ 63 <= Zpos mx < 2 ^ 64).
  { pose proof (digits_bounds mx) as H. now rewrite Hdx in H. }
  assert (Hyr : 2 ^ 63 <= Zpos my < 2 ^ 64).
  { pose proof (digits_bounds my) as H. now rewrite Hdy in H. }
  assert (HW : 0 <= W) by lia.
  pose proof (located_quotient W (Zpos my) ltac:(lia) HW) as Hloc.
  destruct (Z.div_eucl W (Zpos my)) as [q r] eqn:Hqr.
  assert (q = W / Zpos my) as Hq by (unfold Z.div; now rewrite Hqr).
  assert (r = W mod Zpos my) as Hr by (unfold Z.modulo; now rewrite Hqr).
  rewrite <- Hq, <- Hr in Hloc. clear Hqr.
  assert (Hqlo : 2 ^ 63 <= q).
  { rewrite Hq. apply Z.div_le_lower_bound; [lia|]. rewrite EW.
    transitivity (2 ^ 64 * 2 ^ 63); [apply Z.mul_le_mono_nonneg_r; lia|].
    rewrite Z.mul_comm. apply Z.mul_le_mono_nonneg_r; lia. }
  assert (Hqhi : q < 2 ^ 65).
  { rewrite Hq. apply Z.div_lt_upper_bound; [lia|]. rewrite EW.
    apply Z.lt_le_trans with (2 ^ 64 * 2 ^ 64); [apply Z.mul_lt_mono_pos_r; lia|].
    change (2 ^ 64 * 2 ^ 64) with (2 ^ 63 * 2 ^ 65).
    apply Z.mul_le_mono_nonneg_r; lia. }
  assert (Hq64 : q < 2 ^ 64 <-> Zpos mx < Zpos my).
  { rewrite Hq. split; intros H.
    - destruct (Z_lt_le_dec (Zpos mx) (Zpos my)) as [|Hge]; [assumption|exfalso].
      assert (2 ^ 64 <= W / Zpos my); [|lia].
      apply Z.div_le_lower_bound; [lia|]. rewrite EW. nia.
    - apply Z.div_lt_upper_bound; [lia|]. rewrite EW. nia. }
  clear Hq Hr.
  destruct q as [|q|q]; try lia.
  assert (Hk : exists k, (k = 0 /\ Zpos mx < Zpos my \/ k = 1 /\ Zpos my <= Zpos mx) /\
                         Zpos (digits2_pos q) = 64 + k).
  { destruct (Z_lt_le_dec (Zpos q) (2 ^ 64)).
    - exists 0. split; [left; split; [reflexivity|now apply Hq64]|].
      apply digits_unique. lia.
    - exists 1. split; [right; split; [reflexivity|]|apply digits_unique; lia].
      destruct (Z_lt_le_dec (Zpos mx) (Zpos my)) as [Hlt|]; [|assumption].
      apply Hq64 in Hlt. lia. }
  destruct Hk as (k & Hk & Hdq).
  destruct (binary_round_aux_nearest LongDouble.prec LongDouble.emax
              ltac:(unfold LongDouble.prec; lia) false q (ex - ey - 64) k
              (new_location (Zpos my) r) W (Zpos my))
    as (m3 & e3 & Hres & Hfin);
    [lia|exact Hdq
    |unfold emin, LongDouble.prec, LongDouble.emax; lia
    |unfold LongDouble.prec, LongDouble.emax; lia
    |lia|exact HW|exact Hloc|].
  exists k, m3, e3. split; [exact Hres|]. split; [exact Hk|].
  unfold LongDouble.prec in Hfin. change (64 - 1) with 63 in Hfin. exact Hfin.
Qed.

Lemma to_double_nearest (m : positive) (e : Z) :
  Zpos (digits2_pos m) = 64 -> -900 <= e <= 900 ->
  exists (m4 : positive) (e4 : Z),
    Double.of_long_double (S754_finite false m e) = S754_finite false m4 e4 /\
    let m2 := round_half_even (Zpos m) (2 ^ 11) in
    ((e4 = e + 11 /\ Zpos m4 = m2 /\ m2 < 2 ^ 53) \/
     (e4 = e + 12 /\ Zpos m4 = 2 ^ 52 /\ m2 = 2 ^ 53)).
Proof.
  intros Hd He.
  unfold Double.of_long_double, binary_round.
  assert (Hf : fexp Double.prec Double.emax (Zpos (digits2_pos m) + e) = e + 11).
  { rewrite Hd. unfold fexp, emin, Double.prec, Double.emax. lia. }
  rewrite Hf, shl_align_ge by lia.
  destruct (binary_round_aux_nearest Double.prec Double.emax
              ltac:(unfold Double.prec; lia) false m e 11 loc_Exact (Zpos m) 1)
    as (m3 & e3 & Hres & Hfin);
    [lia|rewrite Hd; reflexivity
    |unfold emin, Double.prec, Double.emax; lia
    |unfold Double.prec, Double.emax; lia
    |lia|lia|apply located_exact|].
  exists m3, e3. split; [exact Hres|].
  unfold Double.prec in Hfin. change (53 - 1) with 52 in Hfin.
  rewrite Z.mul_1_l in Hfin.
  replace (e + 11 + 1) with (e + 12) in Hfin by lia. exact Hfin.
Qed.

(** A long double with a full mantissa converts to a double above 1.5
    exactly when it exceeds [1.5 + 2^-53], the middle between 1.5 and the
    next double: the tie goes to 1.5, whose mantissa is even. *)
Lemma double_above_threshold (m3 : positive) (e3 : Z) :
  Zpos (digits2_pos m3) = 64 -> -900 <= e3 <= 900 ->
  Double.gtb (Double.of_long_double (S754_finite false m3 e3)) Policy.threshold = true
  <-> -62 <= e3 \/ (e3 = -63 /\ 3 * 2 ^ 62 + 2 ^ 10 < Zpos m3).
Proof.
  intros Hd He.
  pose proof (proj1 (full_mantissa m3) Hd) as Hm3.
  destruct (to_double_nearest m3 e3 Hd He) as (m4 & e4 & -> & Hcase).
  cbv zeta in Hcase.
  rewrite gtb_threshold_finite.
  pose proof (round_half_even_above (Zpos m3) (2 ^ 11) (3 * 2 ^ 51)
                ltac:(lia) ltac:(lia) eq_refl) as Habove.
  destruct (round_half_even_range (Zpos m3) (2 ^ 11) ltac:(lia) ltac:(lia)) as [Hrange _].
  remember (round_half_even (Zpos m3) (2 ^ 11)) as m2 eqn:Em2. clear Em2.
  assert (Hq : Zpos m3 / 2 ^ 11 < 2 ^ 53).
  { apply Z.div_lt_upper_bound; [lia|]. change (2 ^ 11 * 2 ^ 53) with (2 ^ 64). lia. }
  change (3 * 2 ^ 51) with 6755399441055744 in Habove.
  destruct Hcase as [(-> & Hm4 & Hlt)|(-> & Hm4 & Hc)].
  - destruct (Z.compare_spec (-52) (e3 + 11)) as [Heq|Hlt'|Hgt].
    + rewrite Hm4. split.
      * intros H. apply Z.ltb_lt in H. apply Habove in H. right. split; lia.
      * intros [H|[_ H]]; [lia|]. apply Z.ltb_lt, Habove. lia.
    + split; [intros _; left; lia|reflexivity].
    + split; [discriminate|]. intros [H|[H _]]; lia.
  - assert (Hbig : 2 ^ 64 - 2 ^ 11 <= Zpos m3).
    { pose proof (Z.div_mod (Zpos m3) (2 ^ 11) ltac:(lia)) as Hdm.
      pose proof (Z.mod_pos_bound (Zpos m3) (2 ^ 11) ltac:(lia)) as Hmb. lia. }
    destruct (Z.compare_spec (-52) (e3 + 12)) as [Heq|Hlt'|Hgt].
    + rewrite Hm4. split; [intros H; apply Z.ltb_lt in H; lia|].
      intros [H|[H _]]; lia.
    + split; [|reflexivity]. intros _.
      destruct (Z.eq_dec e3 (-63)) as [->|]; [right; split; lia|left; lia].
    + split; [discriminate|]. intros [H|[H _]]; lia.
Qed.

(** The long-double quotient of two full mantissas converts to a double
    above 1.5 exactly when the exact quotient exceeds
    [3/2 + 2^-53 + 2^-64]. *)
Lemma quotient_high_0 (B ma mb p P : Z) :
  0 < P -> B < 4 * P -> 0 < mb < 2 * P -> P <= ma -> 4 <= p ->
  B * mb < 2 * P * ma * p.
Proof.
  intros HP HB Hmb Hma Hp.
  assert (H1 : B * mb <= 4 * P * mb) by nia.
  assert (H2 : 4 * P * mb < 4 * P * (2 * P)) by nia.
  assert (H3 : 2 * P * P * 4 <= 2 * P * ma * 4) by nia.
  assert (H4 : 2 * P * ma * 4 <= 2 * P * ma * p) by nia.
  nia.
Qed.

Lemma quotient_high_1 (B ma mb p P : Z) :
  0 < P -> B < 4 * P -> 0 < mb -> mb <= ma -> 2 <= p ->
  B * mb < 2 * P * ma * p.
Proof.
  intros HP HB Hmb Hma Hp.
  assert (H1 : B * mb < 4 * P * mb) by nia.
  assert (H2 : 4 * P * mb <= 4 * P * ma) by nia.
  assert (H3 : 2 * P * ma * 2 <= 2 * P * ma * p) by nia.
  nia.
Qed.

Lemma quotient_low (B ma mb p P : Z) :
  0 < P -> 2 * P < B -> P <= mb -> 0 < ma < 2 * P -> 2 <= p ->
  ~ B * mb * p < 2 * P * ma.
Proof.
  intros HP HB Hmb Hma Hp H.
  assert (H1 : 2 * P * mb <= B * mb) by nia.
  assert (H2 : 2 * P * P <= 2 * P * mb) by nia.
  assert (H3 : B * mb * 2 <= B * mb * p) by nia.
  assert (H4 : 2 * P * ma < 2 * P * (2 * P)) by nia.
  nia.
Qed.

Lemma quotient_above_threshold (ma mb : positive) (ea eb : Z) :
  Zpos (digits2_pos ma) = 64 -> Zpos (digits2_pos mb) = 64 ->
  -800 <= ea - eb <= 800 ->
  exists (m3 : positive) (e3 : Z),
    LongDouble.div (S754_finite false ma ea) (S754_finite false mb eb)
    = S754_finite false m3 e3 /\
    Zpos (digits2_pos m3) = 64 /\ -900 <= e3 <= 900 /\
    (-62 <= e3 \/ (e3 = -63 /\ 3 * 2 ^ 62 + 2 ^ 10 < Zpos m3) <->
     if 0 <=? ea - eb
     then (3 * 2 ^ 63 + 2 ^ 11 + 1) * Zpos mb < 2 ^ 64 * Zpos ma * 2 ^ (ea - eb)
     else (3 * 2 ^ 63 + 2 ^ 11 + 1) * Zpos mb * 2 ^ (eb - ea) < 2 ^ 64 * Zpos ma).
Proof.
  intros Hda Hdb Hrange.
  pose proof (proj1 (full_mantissa ma) Hda) as Hma.
  pose proof (proj1 (full_mantissa mb) Hdb) as Hmb.
  destruct (div_nearest ma mb ea eb Hda Hdb ltac:(lia))
    as (k & m3 & e3 & Hdiv & Hk & Hfin).
  cbv zeta in Hfin.
  assert (HDk : 0 < Zpos mb * 2 ^ k) by (destruct Hk as [[-> _]|[-> _]]; lia).
  pose proof (round_half_even_above (Zpos ma * 2 ^ 64) (Zpos mb * 2 ^ k)
                (3 * 2 ^ 62 + 2 ^ 10) HDk ltac:(lia) eq_refl) as Habove.
  destruct (round_half_even_range (Zpos ma * 2 ^ 64) (Zpos mb * 2 ^ k) HDk ltac:(lia))
    as [Hrange2 _].
  remember (round_half_even (Zpos ma * 2 ^ 64) (Zpos mb * 2 ^ k)) as m2 eqn:Em2.
  clear Em2.
  assert (Hfloor : 2 ^ 63 <= Zpos ma * 2 ^ 64 / (Zpos mb * 2 ^ k)).
  { apply Z.div_le_lower_bound; [exact HDk|].
    destruct Hk as [[-> Hlt]|[-> Hge]]; rewrite ?Z.pow_0_r, ?Z.pow_1_r; nia. }
  exists m3, e3. split; [exact Hdiv|].
  assert (Hm3 : 2 ^ 63 <= Zpos m3 < 2 ^ 64) by (destruct Hfin as [H|H]; lia).
  split; [apply full_mantissa; exact Hm3|].
  split; [destruct Hk as [[-> _]|[-> _]]; destruct Hfin as [H|H]; lia|].
  remember (ea - eb) as delta eqn:Ed.
  replace (eb - ea) with (- delta) by lia.
  change (2 * (3 * 2 ^ 62 + 2 ^ 10) + 1) with (3 * 2 ^ 63 + 2 ^ 11 + 1) in Habove.
  remember (3 * 2 ^ 63 + 2 ^ 11 + 1) as B eqn:EB.
  assert (HB : 2 * 2 ^ 63 < B < 4 * 2 ^ 63) by (rewrite EB; lia).
  remember (3 * 2 ^ 62 + 2 ^ 10) as c eqn:Ec.
  assert (Hc : 2 ^ 63 < c < 2 ^ 64) by (rewrite Ec; lia).
  clear EB Ec Hdiv Hda Hdb.
  change (2 ^ 64) with (2 * 2 ^ 63) in *.
  remember (2 ^ 63) as P eqn:EP.
  assert (HP : 0 < P) by (rewrite EP; lia).
  clear EP.
  destruct (Z_le_gt_dec 2 (delta + k)) as [Hbig|Hsmall].
  { (* the quotient is at least 2 *)
    assert (He3 : -62 <= e3) by (destruct Hfin as [H|H]; lia).
    split; [intros _|intros _; now left].
    assert (Hd1 : 1 <= delta) by (destruct Hk as [[-> _]|[-> _]]; lia).
    destruct (Z.leb_spec 0 delta); [|lia].
    destruct Hk as [[-> Hlt]|[-> Hge]].
    - assert (4 <= 2 ^ delta).
      { change 4 with (2 ^ 2). apply Z.pow_le_mono_r; lia. }
      apply quotient_high_0; lia.
    - assert (2 <= 2 ^ delta).
      { change 2 with (2 ^ 1) at 1. apply Z.pow_le_mono_r; lia. }
      apply quotient_high_1; lia. }
  destruct (Z.eq_dec (delta + k) 1) as [Hone|Hnone].
  { (* the quotient lies between 1 and 2 *)
    assert (Hsame : c < m2 <->
              if 0 <=? delta then B * Zpos mb < 2 * P * Zpos ma * 2 ^ delta
              else B * Zpos mb * 2 ^ (- delta) < 2 * P * Zpos ma).
    { destruct Hk as [[-> Hlt]|[-> Hge]].
      - replace delta with 1 by lia. cbn [Z.leb Z.compare].
        rewrite Z.pow_0_r, Z.pow_1_r in *. rewrite Habove. split; intros; lia.
      - replace delta with 0 by lia. cbn [Z.leb Z.compare].
        rewrite Z.pow_0_r, Z.pow_1_r in *. rewrite Habove. split; intros; lia. }
    rewrite <- Hsame.
    destruct Hfin as [(He3 & Hm & Hlt)|(He3 & Hm & Hcarry)].
    - split; [intros [H|[_ H]]; lia|]. intros H. right. split; lia.
    - split; [intros _; lia|]. intros _. left. lia. }
  (* the quotient is below 1 *)
  assert (Hlow : delta + k <= 0) by lia.
  split.
  - intros [H|[H1 H2]]; exfalso; destruct Hfin as [Hf|Hf]; lia.
  - intros H. exfalso.
    destruct (Z.leb_spec 0 delta).
    + assert (delta = 0 /\ k = 0) as [-> ->] by (destruct Hk as [[-> _]|[-> _]]; lia).
      rewrite Z.pow_0_r in H. destruct Hk as [[_ Hlt]|[Hk _]]; [|lia]. nia.
    + assert (2 <= 2 ^ (- delta)).
      { change 2 with (2 ^ 1) at 1. apply Z.pow_le_mono_r; lia. }
      revert H. apply quotient_low; lia.
Qed.

(** The classifier, in terms of the two mantissas and exponents. *)
Lemma classify_exact (ma mb : positive) (ea eb : Z) :
  Zpos (digits2_pos ma) = 64 -> Zpos (digits2_pos mb) = 64 ->
  -800 <= ea - eb <= 800 ->
  Policy.classify (S754_finite false ma ea) (S754_finite false mb eb) = Policy.OpenRow
  <-> if 0 <=? ea - eb
      then (3 * 2 ^ 63 + 2 ^ 11 + 1) * Zpos mb < 2 ^ 64 * Zpos ma * 2 ^ (ea - eb)
      else (3 * 2 ^ 63 + 2 ^ 11 + 1) * Zpos mb * 2 ^ (eb - ea) < 2 ^ 64 * Zpos ma.
Proof.
  intros Hda Hdb Hrange.
  destruct (quotient_above_threshold ma mb ea eb Hda Hdb Hrange)
    as (m3 & e3 & Hdiv & Hd3 & He3 & Hiff).
  rewrite <- Hiff, <- (double_above_threshold m3 e3 Hd3 He3).
  unfold Policy.classify, Policy.speedup_ratio. rewrite Hdiv.
  destruct (Double.gtb _ _); split; intros H; try reflexivity; discriminate H.
Qed.

(** ** Rational values, to a common scale *)

Lemma Qpow2_pos (e : Z) : (0 < 2 ^ e)%Q.
Proof. apply Qpower_0_lt. reflexivity. Qed.

Lemma Qpow2_scale (e z : Z) :
  z <= e -> (2 ^ e == inject_Z (2 ^ (e - z)) * 2 ^ z)%Q.
Proof.
  intros H. rewrite (Zpower_Qpower 2) by lia.
  rewrite <- Qpower_plus by (intros H0; discriminate H0).
  now replace (e - z + z) with e by lia.
Qed.

Lemma SF2Q_scale (s : bool) (m : positive) (e z : Z) :
  z <= e ->
  (SF2Q (S754_finite s m e)
   == inject_Z (cond_Zopp s (Zpos m) * 2 ^ (e - z)) * 2 ^ z)%Q.
Proof.
  intros H. unfold SF2Q. rewrite (Qpow2_scale e z H), inject_Z_mult.
  apply Qmult_assoc.
Qed.

Lemma Qscale_lt (a b z : Z) :
  (inject_Z a * 2 ^ z < inject_Z b * 2 ^ z)%Q <-> a < b.
Proof. rewrite Qmult_lt_r by apply Qpow2_pos. now rewrite <- Zlt_Qlt. Qed.

Lemma Qscale_le (a b z : Z) :
  (inject_Z a * 2 ^ z <= inject_Z b * 2 ^ z)%Q <-> a <= b.
Proof. rewrite Qmult_le_r by apply Qpow2_pos. now rewrite <- Zle_Qle. Qed.

Lemma Qdiv_lt_cross (x y u v : Q) :
  (0 < y -> 0 < v -> (x / y < u / v <-> x * v < u * y))%Q.
Proof.
  intros Hy Hv.
  assert (Hyv : (0 < y * v)%Q) by now apply Qmult_lt_0_compat.
  assert (Hy0 : ~ (y == 0)%Q) by (intros E; rewrite E in Hy; discriminate Hy).
  assert (Hv0 : ~ (v == 0)%Q) by (intros E; rewrite E in Hv; discriminate Hv).
  rewrite <- (Qmult_lt_r (x / y) (u / v) (y * v) Hyv).
  assert (E1 : (x / y * (y * v) == x * v)%Q) by (field; exact Hy0).
  assert (E2 : (u / v * (y * v) == u * y)%Q) by (field; exact Hv0).
  now rewrite E1, E2.
Qed.

(** A fraction against the quotient of two positive floats. *)
Lemma ratio_above (ma mb : positive) (ea eb : Z) (c : Z) (d : positive) :
  (c # d < SF2Q (S754_finite false ma ea) / SF2Q (S754_finite false mb eb))%Q
  <-> if 0 <=? ea - eb
      then c * Zpos mb < Zpos d * Zpos ma * 2 ^ (ea - eb)
      else c * Zpos mb * 2 ^ (eb - ea) < Zpos d * Zpos ma.
Proof.
  set (z := Z.min ea eb).
  assert (Hza : z <= ea) by (unfold z; lia).
  assert (Hzb : z <= eb) by (unfold z; lia).
  rewrite (SF2Q_scale false ma ea z Hza), (SF2Q_scale false mb eb z Hzb).
  cbn [cond_Zopp]. rewrite Qmake_Qdiv.
  assert (Pa : 0 < Zpos ma * 2 ^ (ea - z))
    by (apply Z.mul_pos_pos; [lia|apply Z.pow_pos_nonneg; lia]).
  assert (Pb : 0 < Zpos mb * 2 ^ (eb - z))
    by (apply Z.mul_pos_pos; [lia|apply Z.pow_pos_nonneg; lia]).
  rewrite Qdiv_lt_cross.
  - rewrite Qmult_assoc, <- inject_Z_mult.
    rewrite (Qmult_comm (inject_Z (Zpos ma * 2 ^ (ea - z)) * 2 ^ z)), Qmult_assoc,
      <- inject_Z_mult.
    rewrite Qscale_lt.
    destruct (Z.leb_spec 0 (ea - eb)).
    + replace z with eb by (unfold z; lia).
      rewrite Z.sub_diag, Z.pow_0_r. split; intros; lia.
    + replace z with ea by (unfold z; lia).
      rewrite Z.sub_diag, Z.pow_0_r. split; intros; lia.
  - change 0%Q with (inject_Z 0). rewrite <- Zlt_Qlt. lia.
  - apply Qmult_lt_0_compat; [|apply Qpow2_pos].
    change 0%Q with (inject_Z 0). rewrite <- Zlt_Qlt. exact Pb.
Qed.

(** ** PolicyClassifier, from the two means *)

Lemma boundary_value :
  ((3 # 2) + (1 # 2 ^ 53) + (1 # 2 ^ 64)
   == 27670116110564329473 # 18446744073709551616)%Q.
Proof. reflexivity. Qed.

(** For two positive means with full mantissas the conclusion is decided
    by their exact quotient: the two roundings move the boundary from
    3/2 to [3/2 + 2^-53 + 2^-64]. *)
Lemma classify_quotient (ma mb : positive) (ea eb : Z) :
  2 ^ 63 <= Zpos ma < 2 ^ 64 -> 2 ^ 63 <= Zpos mb < 2 ^ 64 ->
  -800 <= ea - eb <= 800 ->
  Policy.classify (S754_finite false ma ea) (S754_finite false mb eb) = Policy.OpenRow
  <-> ((3 # 2) + (1 # 2 ^ 53) + (1 # 2 ^ 64)
       < SF2Q (S754_finite false ma ea) / SF2Q (S754_finite false mb eb))%Q.
Proof.
  intros Hma Hmb Hrange.
  rewrite boundary_value, ratio_above.
  apply classify_exact; [now apply full_mantissa|now apply full_mantissa|exact Hrange].
Qed.

(** C1 (as amended).  The classifier computes the ratio of the two means
    as a [double], the long-double quotient [mean_first / mean_second]
    rounded once more, and reports OpenRow exactly when that [double] is
    greater than 1.5, ClosedRow otherwise.  In terms of the means
    themselves (positive, with full mantissas, as the means of two
    series with positive sums are): OpenRow exactly when their exact
    quotient is greater than [3/2 + 2^-53 + 2^-64], the boundary moved by
    the two roundings.  The boundary 1.5 belongs to
    ClosedRow: [classify(3.0, 1.0)] is OpenRow, [classify(1.1, 1.0)] and
    [classify(1.5, 1.0)] are ClosedRow. *)
Theorem classify_by_quotient :
  (forall mean_first mean_second,
     let ratio := Policy.speedup_ratio mean_first mean_second in
     (Policy.classify mean_first mean_second = Policy.OpenRow <->
      Double.gtb ratio Policy.threshold = true) /\
     (Policy.classify mean_first mean_second = Policy.ClosedRow <->
      Double.gtb ratio Policy.threshold = false) /\
     (Double.gtb ratio Policy.threshold = true <->
      ratio = S754_infinity false \/
      exists m e, ratio = S754_finite false m e /\ (3 # 2 < SF2Q ratio)%Q)) /\
  (forall (ma mb : positive) (ea eb : Z),
     2 ^ 63 <= Zpos ma < 2 ^ 64 -> 2 ^ 63 <= Zpos mb < 2 ^ 64 ->
     -800 <= ea - eb <= 800 ->
     let mean_first := S754_finite false ma ea in
     let mean_second := S754_finite false mb eb in
     Policy.classify mean_first mean_second = Policy.OpenRow <->
     ((3 # 2) + (1 # 2 ^ 53) + (1 # 2 ^ 64) < SF2Q mean_first / SF2Q mean_second)%Q) /\
  (forall first_access second_access : list Z,
     Forall U64.in_range first_access -> Forall U64.in_range second_access ->
     0 < Stats.total first_access < 2 ^ 64 ->
     0 < Stats.total second_access < 2 ^ 64 ->
     Policy.conclusion first_access second_access = Policy.OpenRow <->
     ((3 # 2) + (1 # 2 ^ 53) + (1 # 2 ^ 64)
      < SF2Q (Policy.mean_access first_access)
        / SF2Q (Policy.mean_access second_access))%Q) /\
  SF2Q Policy.threshold == 3 # 2 /\
  map (fun c => Policy.classify (fst c) (snd c)) Policy.sample_calls
  = [Policy.OpenRow; Policy.ClosedRow; Policy.ClosedRow] /\
  Forall2 Qeq
    (map (fun c => SF2Q (Policy.speedup_ratio (fst c) (snd c))) Policy.sample_calls)
    [3 # 1; 4953959590107546 # 4503599627370496; 3 # 2].
Proof.
  destruct classify_threshold as (Hgen & Hthr & Hcalls & Hratios).
  split; [exact Hgen|].
  split; [|split; [|split; [exact Hthr|split; [exact Hcalls|exact Hratios]]]].
  - intros ma mb ea eb Hma Hmb Hrange. apply classify_quotient; assumption.
  - intros first_access second_access Hr1 Hr2 Ht1 Ht2.
    destruct (mean_access_faithful first_access Hr1 Ht1) as (ma & ea & Ea & Hea & Hda & _).
    destruct (mean_access_faithful second_access Hr2 Ht2) as (mb & eb & Eb & Heb & Hdb & _).
    unfold Policy.conclusion. rewrite Ea, Eb.
    apply classify_quotient; [now apply full_mantissa|now apply full_mantissa|lia].
Qed.

(** [classify(3.0, 2.0)]: the quotient is 1.5, not above the boundary. *)
Example classify_three_two :
  Policy.classify (LongDouble.lit 3 0) (LongDouble.lit 2 0) = Policy.ClosedRow /\
  ~ Policy.classify (LongDouble.lit 3 0) (LongDouble.lit 2 0) = Policy.OpenRow /\
  (SF2Q (LongDouble.lit 3 0) / SF2Q (LongDouble.lit 2 0) == 3 # 2)%Q.
Proof.
  split; [vm_compute; reflexivity|]. split; [|vm_compute; reflexivity].
  change (LongDouble.lit 3 0) with (S754_finite false 13835058055282163712 (-62)).
  change (LongDouble.lit 2 0) with (S754_finite false 9223372036854775808 (-62)).
  rewrite classify_quotient by lia.
  intros H. vm_compute in H. discriminate H.
Qed.

(** C1, the claim as stated, fails: with the means [(3 * 2^62 + 1) /
    2^63] and 1 the quotient [mean_first / mean_second] is greater than
    1.5, by 2^-63, and the classifier reports ClosedRow. *)
Lemma quotient_above_boundary_closed :
  let mean_first := LongDouble.lit (3 * 2 ^ 62 + 1) (-63) in
  let mean_second := LongDouble.lit 1 0 in
  (3 # 2 < SF2Q mean_first / SF2Q mean_second)%Q /\
  Policy.classify mean_first mean_second = Policy.ClosedRow.
Proof. split; vm_compute; reflexivity. Qed.

(** ** Rounding to [long double], with bounds *)

(** Rounding never crosses a number the format represents: dropping [k]
    bits of [m] moves it up by less than one unit of the result, and not
    beyond a bound [M * 2^E] with [M] below [2^64]. *)
Lemma round_monotone (m k m2 M e E z : Z) :
  0 < k -> 2 ^ (63 + k) <= m ->
  m / 2 ^ k <= m2 <= m / 2 ^ k + 1 -> (m mod 2 ^ k = 0 -> m2 = m / 2 ^ k) ->
  0 < M < 2 ^ 64 -> z <= e -> z <= E ->
  m * 2 ^ (e - z) <= M * 2 ^ (E - z) ->
  e + k <= E /\ m2 * 2 ^ (e + k - z) <= M * 2 ^ (E - z).
Proof.
  intros Hk Hm Hm2 Hex HM Hze HzE Hle.
  assert (Hpk : 0 < 2 ^ k) by (apply Z.pow_pos_nonneg; lia).
  assert (Hpe : 0 < 2 ^ (e - z)) by (apply Z.pow_pos_nonneg; lia).
  assert (HE : e + k <= E).
  { destruct (Z_le_gt_dec (e + k) E) as [|Hgt]; [assumption|exfalso].
    assert (H1 : 2 ^ (63 + k) * 2 ^ (e - z) <= m * 2 ^ (e - z))
      by (apply Z.mul_le_mono_nonneg_r; lia).
    rewrite <- Z.pow_add_r in H1 by lia.
    assert (H2 : M * 2 ^ (E - z) < 2 ^ 64 * 2 ^ (E - z)).
    { apply Z.mul_lt_mono_pos_r; [apply Z.pow_pos_nonneg; lia|lia]. }
    rewrite <- Z.pow_add_r in H2 by lia.
    assert (H3 : 2 ^ (63 + k + (e - z)) < 2 ^ (64 + (E - z))) by lia.
    apply Z.pow_lt_mono_r_iff in H3; lia. }
  split; [exact HE|].
  replace (E - z) with ((E - e - k) + k + (e - z)) in * by lia.
  replace (e + k - z) with (k + (e - z)) by lia.
  rewrite !Z.pow_add_r in * by lia.
  remember (2 ^ (E - e - k)) as T eqn:ET.
  assert (HT : 0 < T) by (rewrite ET; apply Z.pow_pos_nonneg; lia).
  remember (2 ^ k) as K eqn:EK. remember (2 ^ (e - z)) as Z0 eqn:EZ.
  clear ET EK EZ Hm.
  assert (Hmle : m <= M * T * K) by nia.
  pose proof (Z.div_mod m K ltac:(lia)) as Hdm.
  pose proof (Z.mod_pos_bound m K Hpk) as Hrb.
  assert (Hm2le : m2 <= M * T).
  { destruct (Z.eq_dec (m mod K) 0) as [Hz|Hnz].
    - rewrite (Hex Hz). apply Z.div_le_upper_bound; lia.
    - assert (m / K < M * T); [|lia].
      apply Z.div_lt_upper_bound; [lia|].
      assert (Hne : m <> M * T * K).
      { intros Heq. apply Hnz. rewrite Heq. apply Z.mod_mul. lia. }
      lia. }
  assert (m2 * K <= M * T * K) by nia.
  nia.
Qed.

Lemma Qscaled_le (a b e E z : Z) :
  z <= e -> z <= E ->
  (inject_Z a * 2 ^ e <= inject_Z b * 2 ^ E)%Q <->
  a * 2 ^ (e - z) <= b * 2 ^ (E - z).
Proof.
  intros He HE.
  rewrite (Qpow2_scale e z He), (Qpow2_scale E z HE), !Qmult_assoc, <- !inject_Z_mult.
  apply Qscale_le.
Qed.

Lemma Qscaled_eq (a b e E z : Z) :
  z <= e -> z <= E ->
  a * 2 ^ (e - z) = b * 2 ^ (E - z) ->
  (inject_Z a * 2 ^ e == inject_Z b * 2 ^ E)%Q.
Proof.
  intros He HE H.
  rewrite (Qpow2_scale e z He), (Qpow2_scale E z HE), !Qmult_assoc, <- !inject_Z_mult.
  now rewrite H.
Qed.

(** From integers to rationals: a relative error of [2^-63]. *)
Lemma rel_error_Q (m R : Z) (P : Q) :
  (0 < P)%Q ->
  m * (2 ^ 63 - 1) <= R * 2 ^ 63 <= m * (2 ^ 63 + 1) ->
  (inject_Z m * P * (1 - (1 # 2 ^ 63)) <= inject_Z R * P
     <= inject_Z m * P * (1 + (1 # 2 ^ 63)))%Q.
Proof.
  intros HP [Hlo Hhi].
  rewrite Zle_Qle, !inject_Z_mult in Hlo, Hhi.
  change (inject_Z (2 ^ 63 - 1)) with (9223372036854775807 # 1)%Q in Hlo.
  change (inject_Z (2 ^ 63)) with (9223372036854775808 # 1)%Q in Hlo, Hhi.
  change (inject_Z (2 ^ 63 + 1)) with (9223372036854775809 # 1)%Q in Hhi.
  change (1 # 2 ^ 63)%Q with (1 # 9223372036854775808)%Q.
  remember (inject_Z m) as a. remember (inject_Z R) as b.
  split; nra.
Qed.

Lemma round_error_Z (m k m2 : Z) :
  0 < k -> 2 ^ (63 + k) <= m ->
  m / 2 ^ k <= m2 <= m / 2 ^ k + 1 ->
  m * (2 ^ 63 - 1) <= m2 * 2 ^ k * 2 ^ 63 <= m * (2 ^ 63 + 1).
Proof.
  intros Hk Hm Hm2.
  assert (Hpk : 0 < 2 ^ k) by (apply Z.pow_pos_nonneg; lia).
  rewrite Z.pow_add_r in Hm by lia.
  pose proof (Z.div_mod m (2 ^ k) ltac:(lia)) as Hdm.
  pose proof (Z.mod_pos_bound m (2 ^ k) Hpk) as Hrb.
  remember (2 ^ k) as K. remember (2 ^ 63) as P. remember (m / K) as q.
  remember (m mod K) as r.
  assert (0 < P) by (subst P; lia).
  split; nia.
Qed.

(** [binary_round] to [long double], far from the limits of the format:
    a full mantissa, the exponent the digits fix, and a value that stays
    below every representable bound on what was rounded. *)
Lemma binary_round_long (s : bool) (m : positive) (e : Z) :
  -16000 <= e -> Zpos (digits2_pos m) + e <= 16000 ->
  exists (m3 : positive) (e3 : Z),
    binary_round LongDouble.prec LongDouble.emax s m e = S754_finite s m3 e3 /\
    2 ^ 63 <= Zpos m3 < 2 ^ 64 /\
    Zpos (digits2_pos m) + e - 64 <= e3 <= Zpos (digits2_pos m) + e - 63 /\
    (Zpos (digits2_pos m) <= 64 ->
     e3 = Zpos (digits2_pos m) + e - 64 /\ Zpos m3 = Zpos m * 2 ^ (e - e3)) /\
    (forall M E : Z, 0 < M < 2 ^ 64 ->
       (inject_Z (Zpos m) * 2 ^ e <= inject_Z M * 2 ^ E)%Q ->
       (inject_Z (Zpos m3) * 2 ^ e3 <= inject_Z M * 2 ^ E)%Q) /\
    (inject_Z (Zpos m) * 2 ^ e * (1 - (1 # 2 ^ 63))
       <= inject_Z (Zpos m3) * 2 ^ e3
       <= inject_Z (Zpos m) * 2 ^ e * (1 + (1 # 2 ^ 63)))%Q.
Proof.
  intros Hlo Hhi.
  destruct (digits_bounds m) as [Dlo Dhi].
  remember (Zpos (digits2_pos m)) as d eqn:Ed.
  assert (Hd : 1 <= d) by (rewrite Ed; lia).
  assert (Hfexp : fexp LongDouble.prec LongDouble.emax (d + e) = d + e - 64)
    by (apply fexp_long_double; lia).
  destruct (Z_le_gt_dec d 64) as [Hsmall|Hbig].
  - (* nothing to drop: the mantissa moves to the top *)
    pose proof (binary_round_shl LongDouble.prec LongDouble.emax s m e) as Hshl.
    cbv zeta in Hshl. rewrite <- Ed, Hfexp in Hshl.
    specialize (Hshl ltac:(lia) ltac:(unfold LongDouble.emax, LongDouble.prec; lia)).
    replace (e - (d + e - 64)) with (64 - d) in Hshl by lia.
    assert (Hpos : 0 < Zpos m * 2 ^ (64 - d))
      by (apply Z.mul_pos_pos; [lia|apply Z.pow_pos_nonneg; lia]).
    assert (Hfull : 2 ^ 63 <= Zpos m * 2 ^ (64 - d) < 2 ^ 64).
    { assert (E1 : 2 ^ 63 = 2 ^ (d - 1) * 2 ^ (64 - d))
        by (rewrite <- Z.pow_add_r by lia; f_equal; lia).
      assert (E2 : 2 ^ 64 = 2 ^ d * 2 ^ (64 - d))
        by (rewrite <- Z.pow_add_r by lia; f_equal; lia).
      assert (0 < 2 ^ (64 - d)) by (apply Z.pow_pos_nonneg; lia).
      rewrite E1, E2. split.
      - apply Z.mul_le_mono_nonneg_r; lia.
      - apply Z.mul_lt_mono_pos_r; lia. }
    exists (Z.to_pos (Zpos m * 2 ^ (64 - d))), (d + e - 64).
    rewrite Z2Pos.id by exact Hpos.
    split; [exact Hshl|]. split; [exact Hfull|]. split; [lia|].
    split; [intros _; split; [reflexivity|f_equal; f_equal; lia]|].
    assert (Heq : (inject_Z (Zpos m * 2 ^ (64 - d)) * 2 ^ (d + e - 64)
                   == inject_Z (Zpos m) * 2 ^ e)%Q).
    { apply (Qscaled_eq _ _ _ _ (d + e - 64)); [lia|lia|].
      rewrite Z.sub_diag, Z.pow_0_r.
      replace (e - (d + e - 64)) with (64 - d) by lia. lia. }
    split; [intros M E HM Hle; now rewrite Heq|].
    rewrite Heq.
    assert (Hv : (0 <= inject_Z (Zpos m) * 2 ^ e)%Q).
    { apply Qmult_le_0_compat; [|apply Qlt_le_weak, Qpow2_pos].
      change 0%Q with (inject_Z 0). rewrite <- Zle_Qle. lia. }
    change (1 # 2 ^ 63)%Q with (1 # 9223372036854775808)%Q.
    remember (inject_Z (Zpos m) * 2 ^ e)%Q as v. split; lra.
  - (* [d - 64] bits are rounded away *)
    remember (d - 64) as k eqn:Ek.
    assert (Hdk : d = 64 + k) by lia.
    unfold binary_round. rewrite <- Ed, Hfexp, shl_align_ge by lia.
    destruct (binary_round_aux_nearest LongDouble.prec LongDouble.emax
                ltac:(unfold LongDouble.prec; lia) s m e k loc_Exact (Zpos m) 1)
      as (m3 & e3 & Hres & Hfin);
      [lia|rewrite <- Ed; unfold LongDouble.prec; lia
      |unfold emin, LongDouble.prec, LongDouble.emax; lia
      |unfold LongDouble.prec, LongDouble.emax; lia
      |lia|lia|apply located_exact|].
    cbv zeta in Hfin. rewrite Z.mul_1_l in Hfin.
    unfold LongDouble.prec in Hfin. change (64 - 1) with 63 in Hfin.
    assert (Hpk : 0 < 2 ^ k) by (apply Z.pow_pos_nonneg; lia).
    destruct (round_half_even_range (Zpos m) (2 ^ k) Hpk ltac:(lia)) as [Hr Hex].
    remember (round_half_even (Zpos m) (2 ^ k)) as m2 eqn:Em2. clear Em2.
    assert (Hq : 2 ^ 63 <= Zpos m / 2 ^ k).
    { apply Z.div_le_lower_bound; [lia|]. rewrite <- Z.pow_add_r by lia.
      replace (k + 63) with (d - 1) by lia. exact Dlo. }
    exists m3, e3. split; [exact Hres|].
    split; [destruct Hfin as [H|H]; lia|].
    split; [destruct Hfin as [H|H]; lia|].
    split; [intros; lia|].
    assert (Hm63 : 2 ^ (63 + k) <= Zpos m)
      by (replace (63 + k) with (d - 1) by lia; exact Dlo).
    split.
    + intros M E HM Hle.
      apply (Qscaled_le _ _ _ _ (Z.min e E)) in Hle; [|lia|lia].
      destruct (round_monotone (Zpos m) k m2 M e E (Z.min e E)
                  ltac:(lia) Hm63 Hr Hex HM ltac:(lia) ltac:(lia) Hle) as [HE Hb].
      apply (Qscaled_le _ _ _ _ (Z.min e E)); [destruct Hfin as [H|H]; lia|lia|].
      destruct Hfin as [(-> & -> & _)|(-> & -> & Hc)]; [exact Hb|].
      replace (e + k + 1 - Z.min e E) with (1 + (e + k - Z.min e E)) by lia.
      rewrite Z.pow_add_r by lia. rewrite Hc in Hb. lia.
    + pose proof (round_error_Z (Zpos m) k m2 ltac:(lia) Hm63 Hr) as Herr.
      assert (Hres3 : (inject_Z (Zpos m3) * 2 ^ e3 == inject_Z (m2 * 2 ^ k) * 2 ^ e)%Q).
      { apply (Qscaled_eq _ _ _ _ e); [destruct Hfin as [H|H]; lia|lia|].
        rewrite Z.sub_diag, Z.pow_0_r, Z.mul_1_r.
        destruct Hfin as [(-> & -> & _)|(-> & -> & Hc)].
        - f_equal. f_equal. lia.
        - replace (e + k + 1 - e) with (1 + k) by lia.
          rewrite Z.pow_add_r, Hc by lia. lia. }
      rewrite Hres3. apply rel_error_Q; [apply Qpow2_pos|exact Herr].
Qed.

(** ** The operations of the statistics, with bounds *)

Lemma digits_at_most (p : positive) (n : Z) :
  Zpos p < 2 ^ n -> Zpos (digits2_pos p) <= n.
Proof.
  intros H. destruct (digits_bounds p) as [Hlo _].
  destruct (Z_le_gt_dec (Zpos (digits2_pos p)) n) as [|Hgt]; [assumption|exfalso].
  assert (2 ^ n <= 2 ^ (Zpos (digits2_pos p) - 1)); [|lia].
  destruct (Z_lt_le_dec n 0) as [Hneg|Hnn].
  - rewrite Z.pow_neg_r in H by lia. lia.
  - apply Z.pow_le_mono_r; lia.
Qed.

Lemma digits_at_least (p : positive) (n : Z) :
  0 <= n -> 2 ^ n <= Zpos p -> n + 1 <= Zpos (digits2_pos p).
Proof.
  intros Hn H. destruct (digits_bounds p) as [_ Hhi].
  assert (2 ^ n < 2 ^ Zpos (digits2_pos p)) as Hlt by lia.
  apply Z.pow_lt_mono_r_iff in Hlt; lia.
Qed.

Lemma magnitude_finite (s : bool) (m : positive) (e : Z) :
  (SF2Q (SFabs (S754_finite s m e)) == inject_Z (Zpos m) * 2 ^ e)%Q.
Proof. reflexivity. Qed.

Lemma value_unsigned (m : positive) (e : Z) :
  (SF2Q (S754_finite false m e) == inject_Z (Zpos m) * 2 ^ e)%Q.
Proof. reflexivity. Qed.

Lemma Qbound_nonneg (M E : Z) : 0 < M -> (0 <= inject_Z M * 2 ^ E)%Q.
Proof.
  intros HM. apply Qmult_le_0_compat.
  - change 0%Q with (inject_Z 0). rewrite <- Zle_Qle. lia.
  - apply Qlt_le_weak, Qpow2_pos.
Qed.

(** A full mantissa under a bound: the exponent is under it too. *)
Lemma exponent_under (m : positive) (e M E : Z) :
  2 ^ 63 <= Zpos m -> 0 < M < 2 ^ 64 ->
  (inject_Z (Zpos m) * 2 ^ e <= inject_Z M * 2 ^ E)%Q -> e <= E.
Proof.
  intros Hm HM Hle.
  apply (Qscaled_le _ _ _ _ (Z.min e E)) in Hle; [|lia|lia].
  destruct (Z_le_gt_dec e E) as [|Hgt]; [assumption|exfalso].
  replace (Z.min e E) with E in Hle by lia.
  rewrite Z.sub_diag, Z.pow_0_r, Z.mul_1_r in Hle.
  assert (2 <= 2 ^ (e - E)).
  { change 2 with (2 ^ 1) at 1. apply Z.pow_le_mono_r; lia. }
  nia.
Qed.

(** The aligned mantissa of an operand of an addition. *)
Lemma aligned (m : positive) (e ez : Z) :
  ez <= e ->
  Zpos (fst (shl_align m e ez)) = Zpos m * 2 ^ (e - ez) /\
  (inject_Z (Zpos m * 2 ^ (e - ez)) * 2 ^ ez == inject_Z (Zpos m) * 2 ^ e)%Q.
Proof.
  intros H. rewrite shl_align_le by exact H. cbn [fst].
  assert (0 < Zpos m * 2 ^ (e - ez))
    by (apply Z.mul_pos_pos; [lia|apply Z.pow_pos_nonneg; lia]).
  split; [now rewrite Z2Pos.id|].
  apply (Qscaled_eq _ _ _ _ ez); [lia|lia|].
  now rewrite Z.sub_diag, Z.pow_0_r, Z.mul_1_r.
Qed.

(** The difference of two numbers that are not negative. *)
Lemma sub_bounded (x y : spec_float) (lo M E : Z) :
  unsigned_SF x -> unsigned_SF y ->
  full_or_zero lo x -> full_or_zero lo y ->
  -15000 <= lo -> E <= 15000 -> 0 < M < 2 ^ 64 ->
  (SF2Q x <= inject_Z M * 2 ^ E)%Q -> (SF2Q y <= inject_Z M * 2 ^ E)%Q ->
  full_or_zero (lo - 63) (LongDouble.sub x y) /\
  (SF2Q (SFabs (LongDouble.sub x y)) <= inject_Z M * 2 ^ E)%Q /\
  (let exact := SF2Q x - SF2Q y in
   let d := SF2Q (LongDouble.sub x y) in
   (1 - (1 # 2 ^ 63)) * (1 - (1 # 2 ^ 63)) * (exact * exact) <= d * d
     <= (1 + (1 # 2 ^ 63)) * (1 + (1 # 2 ^ 63)) * (exact * exact))%Q.
Proof.
  intros Ux Uy Fx Fy Hlo HE HM Bx By.
  pose proof (Qbound_nonneg M E ltac:(lia)) as H0.
  assert (Hsame : forall a b : Q,
            (a == - b \/ a == b ->
             (1 - (1 # 2 ^ 63)) * (1 - (1 # 2 ^ 63)) * (b * b) <= a * a
               <= (1 + (1 # 2 ^ 63)) * (1 + (1 # 2 ^ 63)) * (b * b))%Q).
  { intros a b Hab.
    assert (Hsq : (a * a == b * b)%Q) by (destruct Hab as [-> | ->]; ring).
    rewrite Hsq. change (1 # 2 ^ 63)%Q with (1 # 9223372036854775808)%Q.
    assert (0 <= b * b)%Q by nra. split; lra. }
  assert (Hnear : forall v r : Q,
            (0 <= v -> v * (1 - (1 # 2 ^ 63)) <= r <= v * (1 + (1 # 2 ^ 63)) ->
             (1 - (1 # 2 ^ 63)) * (1 - (1 # 2 ^ 63)) * (v * v) <= r * r
               <= (1 + (1 # 2 ^ 63)) * (1 + (1 # 2 ^ 63)) * (v * v))%Q).
  { intros v r Hv. change (1 # 2 ^ 63)%Q with (1 # 9223372036854775808)%Q.
    intros [Hl Hu]. split; nra. }
  destruct x as [sx|sx| |sx mx ex]; try contradiction;
    destruct y as [sy|sy| |sy my ey]; try contradiction;
    cbn [unsigned_SF] in Ux, Uy; subst sx sy; cbn [full_or_zero] in Fx, Fy.
  - cbn [LongDouble.sub SFsub]. split; [exact I|]. split; [exact H0|].
    cbv zeta. apply Hsame. right. reflexivity.
  - cbn [LongDouble.sub SFsub negb full_or_zero]. split; [split; lia|].
    split; [rewrite magnitude_finite; now rewrite value_unsigned in By|].
    cbv zeta. apply Hsame. right. unfold SF2Q. cbn [cond_Zopp].
    rewrite inject_Z_opp. ring.
  - cbn [LongDouble.sub SFsub negb full_or_zero]. split; [split; lia|].
    split; [rewrite magnitude_finite; now rewrite value_unsigned in Bx|].
    cbv zeta. apply Hsame. right. unfold SF2Q. cbn [cond_Zopp]. ring.
  - rewrite value_unsigned in Bx, By.
    pose proof (exponent_under mx ex M E ltac:(lia) HM Bx) as Hex.
    pose proof (exponent_under my ey M E ltac:(lia) HM By) as Hey.
    unfold LongDouble.sub, SFsub. cbn [cond_Zopp].
    set (ez := Z.min ex ey).
    destruct (aligned mx ex ez ltac:(unfold ez; lia)) as [-> Qa].
    destruct (aligned my ey ez ltac:(unfold ez; lia)) as [-> Qb].
    remember (Zpos mx * 2 ^ (ex - ez)) as A eqn:EA.
    remember (Zpos my * 2 ^ (ey - ez)) as B eqn:EB.
    assert (HA : 0 < A < 2 ^ (64 + ex - ez)).
    { rewrite EA. replace (64 + ex - ez) with (64 + (ex - ez)) by lia.
      rewrite Z.pow_add_r by (unfold ez; lia).
      assert (0 < 2 ^ (ex - ez)) by (apply Z.pow_pos_nonneg; unfold ez; lia).
      split; nia. }
    assert (HB : 0 < B < 2 ^ (64 + ey - ez)).
    { rewrite EB. replace (64 + ey - ez) with (64 + (ey - ez)) by lia.
      rewrite Z.pow_add_r by (unfold ez; lia).
      assert (0 < 2 ^ (ey - ez)) by (apply Z.pow_pos_nonneg; unfold ez; lia).
      split; nia. }
    assert (Hmax : forall p, Zpos p < A \/ Zpos p < B ->
                     Zpos (digits2_pos p) + ez <= 64 + E).
    { intros p [Hp|Hp].
      - pose proof (digits_at_most p (64 + ex - ez) ltac:(lia)). lia.
      - pose proof (digits_at_most p (64 + ey - ez) ltac:(lia)). lia. }
    assert (Hez : lo <= ez) by (unfold ez; lia).
    assert (Hdiff : (SF2Q (S754_finite false mx ex) - SF2Q (S754_finite false my ey)
                     == inject_Z (A - B) * 2 ^ ez)%Q).
    { rewrite !value_unsigned, <- Qa, <- Qb.
      unfold Z.sub. rewrite inject_Z_plus, inject_Z_opp. ring. }
    destruct (A - B) as [|p|p] eqn:ED; unfold binary_normalize.
    + split; [exact I|]. split; [exact H0|].
      cbv zeta. rewrite Hdiff. apply Hsame. right. cbn. ring.
    + destruct (binary_round_long false p ez ltac:(lia)
                  ltac:(pose proof (Hmax p ltac:(lia)); lia))
        as (m3 & e3 & -> & Hm3 & He3 & _ & Hb & Herr).
      cbn [full_or_zero]. split; [split; [exact Hm3|lia]|].
      split.
      * rewrite magnitude_finite. apply Hb; [exact HM|].
        apply Qle_trans with (inject_Z A * 2 ^ ez)%Q; [|now rewrite Qa].
        apply Qscale_le. lia.
      * cbv zeta. rewrite Hdiff, value_unsigned. apply Hnear; [|exact Herr].
        apply Qbound_nonneg. lia.
    + destruct (binary_round_long true p ez ltac:(lia)
                  ltac:(pose proof (Hmax p ltac:(lia)); lia))
        as (m3 & e3 & -> & Hm3 & He3 & _ & Hb & Herr).
      cbn [full_or_zero]. split; [split; [exact Hm3|lia]|].
      split.
      * rewrite magnitude_finite. apply Hb; [exact HM|].
        apply Qle_trans with (inject_Z B * 2 ^ ez)%Q; [|now rewrite Qb].
        apply Qscale_le. lia.
      * cbv zeta. rewrite Hdiff.
        assert (Hv : (inject_Z (Zneg p) * 2 ^ ez == - (inject_Z (Zpos p) * 2 ^ ez))%Q).
        { change (Zneg p) with (- Zpos p). rewrite inject_Z_opp. ring. }
        assert (Hr : (SF2Q (S754_finite true m3 e3) == - (inject_Z (Zpos m3) * 2 ^ e3))%Q).
        { unfold SF2Q. cbn [cond_Zopp]. rewrite inject_Z_opp. ring. }
        rewrite Hv, Hr.
        assert (Hn := Hnear (inject_Z (Zpos p) * 2 ^ ez)%Q
                        (inject_Z (Zpos m3) * 2 ^ e3)%Q
                        ltac:(apply Qbound_nonneg; lia) Herr).
        assert (E1 : (- (inject_Z (Zpos m3) * 2 ^ e3) * - (inject_Z (Zpos m3) * 2 ^ e3)
                      == inject_Z (Zpos m3) * 2 ^ e3 * (inject_Z (Zpos m3) * 2 ^ e3))%Q)
          by ring.
        assert (E2 : (- (inject_Z (Zpos p) * 2 ^ ez) * - (inject_Z (Zpos p) * 2 ^ ez)
                      == inject_Z (Zpos p) * 2 ^ ez * (inject_Z (Zpos p) * 2 ^ ez))%Q)
          by ring.
        rewrite E1, E2. exact Hn.
Qed.

(** The square of a deviation. *)
Lemma square_bounded (d : spec_float) (lo : Z) (B M : Z) :
  full_or_zero lo d -> -7000 <= lo ->
  0 < B -> 0 < M < 2 ^ 64 -> B * B <= M ->
  (SF2Q (SFabs d) <= inject_Z B)%Q ->
  unsigned_SF (LongDouble.mul d d) /\
  full_or_zero (2 * lo + 63) (LongDouble.mul d d) /\
  (SF2Q (LongDouble.mul d d) <= inject_Z M)%Q /\
  (SF2Q d * SF2Q d * (1 - (1 # 2 ^ 63)) <= SF2Q (LongDouble.mul d d)
     <= SF2Q d * SF2Q d * (1 + (1 # 2 ^ 63)))%Q.
Proof.
  intros Fd Hlo HB HM HBM Bd.
  assert (H0 : (0 <= inject_Z M)%Q)
    by (change 0%Q with (inject_Z 0); rewrite <- Zle_Qle; lia).
  destruct d as [s|s| |s m e]; try contradiction; cbn [full_or_zero] in Fd.
  - cbn [LongDouble.mul SFmul]. rewrite Bool.xorb_nilpotent.
    split; [reflexivity|]. split; [exact I|]. split; [exact H0|].
    cbn. split; discriminate.
  - rewrite magnitude_finite in Bd.
    assert (Bd' : (inject_Z (Zpos m) * 2 ^ e <= inject_Z B * 2 ^ 0)%Q)
      by (now rewrite Qmult_1_r).
    assert (HB64 : B < 2 ^ 64) by nia.
    pose proof (exponent_under m e B 0 ltac:(lia) ltac:(lia) Bd') as He.
    unfold LongDouble.mul, SFmul. rewrite Bool.xorb_nilpotent.
    assert (Hprod : 2 ^ 126 <= Zpos (m * m) < 2 ^ 128).
    { rewrite Pos2Z.inj_mul. change (2 ^ 126) with (2 ^ 63 * 2 ^ 63).
      change (2 ^ 128) with (2 ^ 64 * 2 ^ 64). split; nia. }
    pose proof (digits_at_least (m * m) 126 ltac:(lia) ltac:(lia)) as Hd1.
    pose proof (digits_at_most (m * m) 128 ltac:(lia)) as Hd2.
    assert (Hround : binary_round_aux LongDouble.prec LongDouble.emax false
                       (Zpos (m * m)) (e + e) loc_Exact
                     = binary_round LongDouble.prec LongDouble.emax false (m * m) (e + e)).
    { unfold binary_round. rewrite fexp_long_double by lia.
      now rewrite shl_align_ge by lia. }
    rewrite Hround.
    destruct (binary_round_long false (m * m) (e + e) ltac:(lia) ltac:(lia))
      as (m3 & e3 & -> & Hm3 & He3 & _ & Hb & Herr).
    assert (Hsq : (inject_Z (Zpos (m * m)) * 2 ^ (e + e)
                   == (inject_Z (Zpos m) * 2 ^ e) * (inject_Z (Zpos m) * 2 ^ e))%Q).
    { rewrite Pos2Z.inj_mul, inject_Z_mult.
      rewrite Qpower_plus by (intros H; discriminate H). ring. }
    split; [reflexivity|]. cbn [full_or_zero]. split; [split; [exact Hm3|lia]|].
    split.
    + rewrite value_unsigned.
      rewrite <- (Qmult_1_r (inject_Z M)). change 1%Q with (2 ^ 0)%Q.
      apply Hb; [exact HM|]. rewrite Hsq.
      apply Qle_trans with (inject_Z B * inject_Z B)%Q.
      * assert (Hnn : (0 <= inject_Z (Zpos m) * 2 ^ e)%Q) by (apply Qbound_nonneg; lia).
        apply Qmult_le_compat_nonneg; split; assumption.
      * rewrite Qmult_1_r, <- inject_Z_mult, <- Zle_Qle. exact HBM.
    + rewrite value_unsigned. rewrite Hsq in Herr.
      assert (Hd : (SF2Q (S754_finite s m e) * SF2Q (S754_finite s m e)
                    == (inject_Z (Zpos m) * 2 ^ e) * (inject_Z (Zpos m) * 2 ^ e))%Q).
      { unfold SF2Q. destruct s; cbn [cond_Zopp]; [|reflexivity].
        rewrite inject_Z_opp. ring. }
      rewrite Hd. exact Herr.
Qed.

(** The sum of two numbers that are not negative. *)
Lemma add_bounded (x y : spec_float) (lo M E : Z) :
  unsigned_SF x -> unsigned_SF y ->
  full_or_zero lo x -> full_or_zero lo y ->
  -15000 <= lo -> E <= 15000 -> 0 < M < 2 ^ 64 ->
  (SF2Q x + SF2Q y <= inject_Z M * 2 ^ E)%Q ->
  unsigned_SF (LongDouble.add x y) /\
  full_or_zero lo (LongDouble.add x y) /\
  (SF2Q (LongDouble.add x y) <= inject_Z M * 2 ^ E)%Q /\
  ((SF2Q x + SF2Q y) * (1 - (1 # 2 ^ 63)) <= SF2Q (LongDouble.add x y)
     <= (SF2Q x + SF2Q y) * (1 + (1 # 2 ^ 63)))%Q.
Proof.
  intros Ux Uy Fx Fy Hlo HE HM Bxy.
  assert (Hexact : forall v : Q,
            (0 <= v -> v * (1 - (1 # 2 ^ 63)) <= v <= v * (1 + (1 # 2 ^ 63)))%Q).
  { intros v Hv. change (1 # 2 ^ 63)%Q with (1 # 9223372036854775808)%Q.
    split; lra. }
  destruct x as [sx|sx| |sx mx ex]; try contradiction;
    destruct y as [sy|sy| |sy my ey]; try contradiction;
    cbn [unsigned_SF] in Ux, Uy; subst sx sy; cbn [full_or_zero] in Fx, Fy.
  - cbn [LongDouble.add SFadd]. split; [reflexivity|]. split; [exact I|].
    split; [apply Qbound_nonneg; lia|]. cbn. split; discriminate.
  - cbn [LongDouble.add SFadd]. split; [reflexivity|]. split; [exact Fy|].
    change (SF2Q (S754_zero false)) with 0%Q in *. rewrite Qplus_0_l in *.
    split; [exact Bxy|]. apply Hexact. rewrite value_unsigned.
    apply Qbound_nonneg. lia.
  - cbn [LongDouble.add SFadd]. split; [reflexivity|]. split; [exact Fx|].
    change (SF2Q (S754_zero false)) with 0%Q in *. rewrite Qplus_0_r in *.
    split; [exact Bxy|]. apply Hexact. rewrite value_unsigned.
    apply Qbound_nonneg. lia.
  - rewrite !value_unsigned in Bxy.
    assert (Px : (0 <= inject_Z (Zpos mx) * 2 ^ ex)%Q) by (apply Qbound_nonneg; lia).
    assert (Py : (0 <= inject_Z (Zpos my) * 2 ^ ey)%Q) by (apply Qbound_nonneg; lia).
    assert (Bx : (inject_Z (Zpos mx) * 2 ^ ex <= inject_Z M * 2 ^ E)%Q).
    { apply Qle_trans with (inject_Z (Zpos mx) * 2 ^ ex + inject_Z (Zpos my) * 2 ^ ey)%Q;
        [|exact Bxy].
      rewrite <- (Qplus_0_r (inject_Z (Zpos mx) * 2 ^ ex)) at 1.
      apply Qplus_le_compat; [apply Qle_refl|exact Py]. }
    assert (By : (inject_Z (Zpos my) * 2 ^ ey <= inject_Z M * 2 ^ E)%Q).
    { apply Qle_trans with (inject_Z (Zpos mx) * 2 ^ ex + inject_Z (Zpos my) * 2 ^ ey)%Q;
        [|exact Bxy].
      rewrite <- (Qplus_0_l (inject_Z (Zpos my) * 2 ^ ey)) at 1.
      apply Qplus_le_compat; [exact Px|apply Qle_refl]. }
    pose proof (exponent_under mx ex M E ltac:(lia) HM Bx) as Hex.
    pose proof (exponent_under my ey M E ltac:(lia) HM By) as Hey.
    unfold LongDouble.add, SFadd. cbn [cond_Zopp].
    set (ez := Z.min ex ey).
    destruct (aligned mx ex ez ltac:(unfold ez; lia)) as [-> Qa].
    destruct (aligned my ey ez ltac:(unfold ez; lia)) as [-> Qb].
    remember (Zpos mx * 2 ^ (ex - ez)) as A eqn:EA.
    remember (Zpos my * 2 ^ (ey - ez)) as B eqn:EB.
    assert (HA : 2 ^ (63 + ex - ez) <= A < 2 ^ (64 + ex - ez)).
    { rewrite EA. replace (64 + ex - ez) with (64 + (ex - ez)) by lia.
      replace (63 + ex - ez) with (63 + (ex - ez)) by lia.
      rewrite !Z.pow_add_r by (unfold ez; lia).
      assert (0 < 2 ^ (ex - ez)) by (apply Z.pow_pos_nonneg; unfold ez; lia).
      split; nia. }
    assert (HB : 2 ^ (63 + ey - ez) <= B < 2 ^ (64 + ey - ez)).
    { rewrite EB. replace (64 + ey - ez) with (64 + (ey - ez)) by lia.
      replace (63 + ey - ez) with (63 + (ey - ez)) by lia.
      rewrite !Z.pow_add_r by (unfold ez; lia).
      assert (0 < 2 ^ (ey - ez)) by (apply Z.pow_pos_nonneg; unfold ez; lia).
      split; nia. }
    assert (HA0 : 0 < 2 ^ (63 + ex - ez)) by (apply Z.pow_pos_nonneg; unfold ez; lia).
    assert (HB0 : 0 < 2 ^ (63 + ey - ez)) by (apply Z.pow_pos_nonneg; unfold ez; lia).
    set (ew := Z.max ex ey).
    assert (Hsum : 2 ^ (63 + ew - ez) <= A + B < 2 ^ (65 + ew - ez)).
    { assert (Hup : forall a, a <= ew ->
                2 ^ (64 + a - ez) <= 2 ^ (64 + ew - ez))
        by (intros; apply Z.pow_le_mono_r; lia).
      pose proof (Hup ex ltac:(unfold ew; lia)).
      pose proof (Hup ey ltac:(unfold ew; lia)).
      replace (65 + ew - ez) with (Z.succ (64 + ew - ez)) by lia.
      rewrite Z.pow_succ_r by (unfold ew, ez; lia).
      split; [|lia].
      destruct (Z_le_gt_dec ey ex).
      - replace ew with ex by (unfold ew; lia). lia.
      - replace ew with ey by (unfold ew; lia). lia. }
    destruct (A + B) as [|p|p] eqn:ES; try lia.
    unfold binary_normalize.
    pose proof (digits_at_most p (65 + ew - ez) ltac:(lia)) as Hd1.
    pose proof (digits_at_least p (63 + ew - ez) ltac:(unfold ew, ez; lia) ltac:(lia)) as Hd2.
    destruct (binary_round_long false p ez ltac:(unfold ez; lia)
                ltac:(unfold ew, ez in *; lia))
      as (m3 & e3 & -> & Hm3 & He3 & _ & Hb & Herr).
    assert (Hsumq : (inject_Z (Zpos p) * 2 ^ ez
                     == inject_Z (Zpos mx) * 2 ^ ex + inject_Z (Zpos my) * 2 ^ ey)%Q).
    { rewrite <- ES, inject_Z_plus, Qmult_plus_distr_l, Qa, Qb. reflexivity. }
    split; [reflexivity|]. cbn [full_or_zero].
    split; [split; [exact Hm3|unfold ew, ez in *; lia]|].
    rewrite !value_unsigned. rewrite Hsumq in Herr.
    split; [|exact Herr].
    apply Hb; [exact HM|]. rewrite Hsumq. exact Bxy.
Qed.

Lemma full_or_zero_weaken (lo lo' : Z) (x : spec_float) :
  lo' <= lo -> full_or_zero lo x -> full_or_zero lo' x.
Proof. intros H. destruct x; cbn; try tauto. intros [? ?]. split; lia. Qed.

Lemma Qpow2_zero (M : Z) : (inject_Z M * 2 ^ 0 == inject_Z M)%Q.
Proof. apply Qmult_1_r. Qed.

(** A sample, converted. *)
Lemma of_Z_sample (v : Z) :
  0 <= v <= 1000000000 ->
  unsigned_SF (LongDouble.of_Z v) /\ full_or_zero (-63) (LongDouble.of_Z v) /\
  (SF2Q (LongDouble.of_Z v) == inject_Z v)%Q.
Proof.
  intros Hv. rewrite of_Z_repr by lia.
  destruct (Z.eq_dec v 0) as [->|Hnz]; [repeat split|].
  destruct (repr_value v ltac:(lia)) as (m & e & -> & _ & He & Hm & Hd).
  split; [reflexivity|]. split; [split; [now apply full_mantissa|lia]|].
  destruct (SF2Q_bounds m e v v); [lia|lia|]. now apply Qle_antisym.
Qed.

(** The mean of samples in range. *)
Lemma mean_in_range (REPEAT total : Z) :
  1 <= REPEAT <= 200000 -> 0 <= total <= REPEAT * 1000000000 ->
  let mean := LongDouble.div (LongDouble.repr total) (LongDouble.of_Z REPEAT) in
  unsigned_SF mean /\ full_or_zero (-128) mean /\
  (SF2Q mean <= inject_Z 1000000000)%Q.
Proof.
  intros HR Ht mean. unfold mean. rewrite of_Z_repr by lia.
  destruct (Z.eq_dec total 0) as [->|Hnz].
  - destruct (repr_value REPEAT ltac:(lia)) as (m & e & -> & _).
    cbn. repeat split. discriminate.
  - destruct (div_repr total REPEAT ltac:(lia) ltac:(lia))
      as (m & e & Heq & He & Hlo & Hhi & _).
    pose proof (div_repr_canonical total REPEAT m e ltac:(lia) ltac:(lia) Heq ltac:(lia))
      as Hd.
    rewrite Heq. split; [reflexivity|].
    split; [split; [now apply full_mantissa|lia]|].
    apply (SF2Q_bounds m e 0 1000000000); [lia|].
    split; [lia|apply Hhi; lia].
Qed.

Lemma squares_about_cons (c : Q) (v : Z) (l : list Z) :
  squares_about c (v :: l)
  = ((inject_Z v - c) * (inject_Z v - c) + squares_about c l)%Q.
Proof. reflexivity. Qed.

Lemma Qsquare_nonneg (x : Q) : (0 <= x * x)%Q.
Proof. unfold Qle, Qmult. cbn. nia. Qed.

Lemma squares_about_nonneg (c : Q) (l : list Z) : (0 <= squares_about c l)%Q.
Proof.
  induction l as [|v l IH]; [apply Qle_refl|].
  rewrite squares_about_cons.
  pose proof (Qsquare_nonneg (inject_Z v - c)). lra.
Qed.

(** One step of the accumulation: the subtraction, the product and the
    addition each round, and the relative error of the sum grows by at
    most [2^-62]. *)
Lemma accumulate_error (J A D acc d2 t acc' : Q) :
  (0 <= J <= 200000 -> 0 <= A -> 0 <= D ->
   (1 - (J + 3) * (1 # 2 ^ 62)) * A <= acc <= (1 + (J + 3) * (1 # 2 ^ 62)) * A ->
   (1 - (1 # 2 ^ 63)) * (1 - (1 # 2 ^ 63)) * D <= d2
     <= (1 + (1 # 2 ^ 63)) * (1 + (1 # 2 ^ 63)) * D ->
   d2 * (1 - (1 # 2 ^ 63)) <= t <= d2 * (1 + (1 # 2 ^ 63)) ->
   (acc + t) * (1 - (1 # 2 ^ 63)) <= acc' <= (acc + t) * (1 + (1 # 2 ^ 63)) ->
   (1 - (J + 1 + 3) * (1 # 2 ^ 62)) * (A + D) <= acc'
     <= (1 + (J + 1 + 3) * (1 # 2 ^ 62)) * (A + D))%Q.
Proof.
  change (1 # 2 ^ 62)%Q with (1 # 4611686018427387904)%Q.
  change (1 # 2 ^ 63)%Q with (1 # 9223372036854775808)%Q.
  intros [HJ0 HJ1] HA HD [Hacc1 Hacc2] [Hd1 Hd2] [Ht1 Ht2] [Hs1 Hs2].
  assert (F0 : (0 <= J * A)%Q) by (apply Qmult_le_0_compat; assumption).
  assert (F2 : (0 <= J * D)%Q) by (apply Qmult_le_0_compat; assumption).
  assert (F1 : (0 <= A * (1 - 3 * (1 # 4611686018427387904)
                          - (1 # 4611686018427387904) * J))%Q).
  { apply Qmult_le_0_compat; [assumption|lra]. }
  split; lra.
Qed.

(** The accumulation of the squared deviations, step by step: after [j]
    steps the sum is a number, not negative, at most [j * 10^18], and
    within a relative error of [(j + 3) * 2^-62] of the exact sum of
    the squares of the deviations from the mean held. *)
Lemma ssum_from (mean : spec_float) (l : list Z) (acc : spec_float) (j : Z) (A : Q) :
  unsigned_SF mean -> full_or_zero (-128) mean ->
  (SF2Q mean <= inject_Z 1000000000)%Q ->
  Forall (fun v => 0 <= v <= 1000000000) l ->
  0 <= j -> j + Z.of_nat (length l) <= 200000 ->
  unsigned_SF acc -> full_or_zero (-500) acc ->
  (SF2Q acc <= inject_Z (j * 1000000000000000000))%Q ->
  (0 <= A)%Q ->
  ((1 - (inject_Z j + 3) * (1 # 2 ^ 62)) * A <= SF2Q acc
     <= (1 + (inject_Z j + 3) * (1 # 2 ^ 62)) * A)%Q ->
  let r := fold_left
             (fun ssum r =>
                let d := LongDouble.sub (LongDouble.of_Z r) mean in
                LongDouble.add ssum (LongDouble.mul d d))
             l acc in
  let n := j + Z.of_nat (length l) in
  let exact := (A + squares_about (SF2Q mean) l)%Q in
  unsigned_SF r /\ full_or_zero (-500) r /\
  (SF2Q r <= inject_Z (n * 1000000000000000000))%Q /\
  ((1 - (inject_Z n + 3) * (1 # 2 ^ 62)) * exact <= SF2Q r
     <= (1 + (inject_Z n + 3) * (1 # 2 ^ 62)) * exact)%Q.
Proof.
  intros Um Fm Bm Hl. revert acc j A.
  induction Hl as [|v l Hv Hl IH]; intros acc j A Hj Hlen Ua Fa Ba HA Hacc.
  - cbn [fold_left length squares_about fold_right]. cbv zeta.
    rewrite Z.add_0_r, Qplus_0_r. auto.
  - cbn [fold_left]. cbn [length] in Hlen. rewrite Nat2Z.inj_succ in Hlen.
    destruct (of_Z_sample v Hv) as (Ux & Fx & Vx).
    destruct (sub_bounded (LongDouble.of_Z v) mean (-128) 1000000000 0)
      as (Fd & Bd & Ed); try assumption; try lia.
    { eapply full_or_zero_weaken; [|exact Fx]. lia. }
    { rewrite Vx, Qpow2_zero, <- Zle_Qle. lia. }
    rewrite Qpow2_zero in Bd. cbv zeta in Ed. rewrite Vx in Ed.
    destruct (square_bounded (LongDouble.sub (LongDouble.of_Z v) mean) (-128 - 63)
                1000000000 1000000000000000000)
      as (Ut & Ft & Bt & Et); try assumption; try lia.
    remember (LongDouble.sub (LongDouble.of_Z v) mean) as d eqn:Edd.
    remember (LongDouble.mul d d) as t eqn:Et'.
    assert (Hb : (inject_Z ((j + 1) * 1000000000000000000)
                  == inject_Z ((j + 1) * 3814697265625) * 2 ^ 18)%Q).
    { change (2 ^ 18)%Q with (inject_Z 262144). rewrite <- inject_Z_mult.
      apply inject_Z_injective. lia. }
    destruct (add_bounded acc t (-500) ((j + 1) * 3814697265625) 18)
      as (Us & Fs & Bs & Es); try assumption; try lia.
    { eapply full_or_zero_weaken; [|exact Ft]. lia. }
    { rewrite <- Hb.
      replace ((j + 1) * 1000000000000000000)
        with (j * 1000000000000000000 + 1000000000000000000) by lia.
      rewrite inject_Z_plus. now apply Qplus_le_compat. }
    rewrite <- Hb in Bs.
    pose proof (Qsquare_nonneg (inject_Z v - SF2Q mean)) as HD.
    assert (HJ : (0 <= inject_Z j <= 200000)%Q).
    { change 0%Q with (inject_Z 0). change 200000%Q with (inject_Z 200000).
      rewrite <- !Zle_Qle. lia. }
    pose proof (accumulate_error (inject_Z j) A
                  ((inject_Z v - SF2Q mean) * (inject_Z v - SF2Q mean))
                  (SF2Q acc) (SF2Q d * SF2Q d) (SF2Q t) (SF2Q (LongDouble.add acc t))
                  HJ HA HD Hacc Ed Et Es) as Hstep.
    assert (Hj1 : (inject_Z (j + 1) == inject_Z j + 1)%Q)
      by (rewrite inject_Z_plus; reflexivity).
    rewrite <- Hj1 in Hstep.
    cbn [length]. rewrite Nat2Z.inj_succ, squares_about_cons. cbv zeta.
    replace (j + Z.succ (Z.of_nat (length l))) with ((j + 1) + Z.of_nat (length l)) by lia.
    assert (Hassoc : (A + ((inject_Z v - SF2Q mean) * (inject_Z v - SF2Q mean)
                           + squares_about (SF2Q mean) l)
                      == (A + (inject_Z v - SF2Q mean) * (inject_Z v - SF2Q mean))
                         + squares_about (SF2Q mean) l)%Q) by ring.
    rewrite Hassoc.
    apply (IH (LongDouble.add acc t) (j + 1)
              (A + (inject_Z v - SF2Q mean) * (inject_Z v - SF2Q mean))%Q);
      try assumption; try lia.
    lra.
Qed.

Lemma ssum_in_range (mean : spec_float) (results : list Z) :
  unsigned_SF mean -> full_or_zero (-128) mean ->
  (SF2Q mean <= inject_Z 1000000000)%Q ->
  Forall (fun v => 0 <= v <= 1000000000) results ->
  Z.of_nat (length results) <= 200000 ->
  let n := Z.of_nat (length results) in
  let exact := squares_about (SF2Q mean) results in
  unsigned_SF (Stats.ssum_loop mean results) /\
  full_or_zero (-500) (Stats.ssum_loop mean results) /\
  (SF2Q (Stats.ssum_loop mean results) <= inject_Z (n * 1000000000000000000))%Q /\
  ((1 - (inject_Z n + 3) * (1 # 2 ^ 62)) * exact
     <= SF2Q (Stats.ssum_loop mean results)
     <= (1 + (inject_Z n + 3) * (1 # 2 ^ 62)) * exact)%Q.
Proof.
  intros Um Fm Bm Hl Hlen n exact.
  destruct (ssum_from mean results LongDouble.zero 0 0%Q Um Fm Bm Hl)
    as (U & F & B & E); try lia.
  - reflexivity.
  - exact I.
  - cbn. discriminate.
  - apply Qle_refl.
  - cbn. split; discriminate.
  - cbv zeta in B, E. rewrite Z.add_0_l in B, E. rewrite Qplus_0_l in E.
    unfold n, exact. auto.
Qed.

(** ** The square root, in [double] *)

Lemma sqrt_range (q r m P : Z) :
  m = q * q + r -> 0 <= r <= 2 * q -> 0 < P -> P * P <= m < 4 * (P * P) ->
  P <= q < 2 * P.
Proof. intros Hm Hr HP Hb. split; nia. Qed.

Lemma Qsquare_le (u v : Q) : (0 <= u <= v -> u * u <= v * v)%Q.
Proof. intros [H0 H1]. apply Qmult_le_compat_nonneg; split; assumption. Qed.

(** An integer root rounded to a neighbour [R >= 2^52]: the square of
    [R] is within two units in the last place of the radicand. *)
Lemma root_error_Q (R q r m : Z) (P : Q) :
  m = q * q + r -> 0 <= r <= 2 * q -> q <= R <= q + 1 -> 2 ^ 52 <= R ->
  (0 < P)%Q ->
  (inject_Z R * P * (inject_Z R * P) * ((1 - (1 # 2 ^ 52)) * (1 - (1 # 2 ^ 52)))
   <= inject_Z m * (P * P)
   <= inject_Z R * P * (inject_Z R * P) * ((1 + (1 # 2 ^ 52)) * (1 + (1 # 2 ^ 52))))%Q.
Proof.
  intros Hm Hr HR Hbig HP.
  assert (Hlo : (R - 1) * (R - 1) <= m) by nia.
  assert (Hhi : m <= (R + 1) * (R + 1)) by nia.
  rewrite Zle_Qle, !inject_Z_mult in Hlo, Hhi.
  unfold Z.sub in Hlo. rewrite !inject_Z_plus in Hlo, Hhi.
  change (inject_Z (- (1))) with (- (1))%Q in Hlo. change (inject_Z 1) with 1%Q in Hhi.
  rewrite Zle_Qle in Hbig. change (inject_Z (2 ^ 52)) with (4503599627370496 # 1)%Q in Hbig.
  change (1 # 2 ^ 52)%Q with (1 # 4503599627370496)%Q.
  remember (inject_Z R) as a. remember (inject_Z m) as x.
  assert (H1 : (a * (1 - (1 # 4503599627370496)) * (a * (1 - (1 # 4503599627370496)))
                <= (a + - (1)) * (a + - (1)))%Q) by (apply Qsquare_le; split; lra).
  assert (H2 : ((a + 1) * (a + 1)
                <= a * (1 + (1 # 4503599627370496)) * (a * (1 + (1 # 4503599627370496))))%Q)
    by (apply Qsquare_le; split; lra).
  assert (HPP : (0 < P * P)%Q) by (apply Qmult_lt_0_compat; assumption).
  assert (E1 : (a * P * (a * P) * ((1 - (1 # 4503599627370496)) * (1 - (1 # 4503599627370496)))
                == a * (1 - (1 # 4503599627370496)) * (a * (1 - (1 # 4503599627370496)))
                   * (P * P))%Q) by ring.
  assert (E2 : (a * P * (a * P) * ((1 + (1 # 4503599627370496)) * (1 + (1 # 4503599627370496)))
                == a * (1 + (1 # 4503599627370496)) * (a * (1 + (1 # 4503599627370496)))
                   * (P * P))%Q) by ring.
  rewrite E1, E2. split; apply Qmult_le_compat_r; lra.
Qed.

(** The root of a [double] with a full mantissa is one again, at half
    the exponent, and its square is within two units in the last place
    of the argument. *)
Lemma sqrt_normal (m : positive) (e : Z) :
  2 ^ 52 <= Zpos m < 2 ^ 53 -> -1000 <= e <= 1000 ->
  exists (m5 : positive) (e5 : Z),
    Double.sqrt (S754_finite false m e) = S754_finite false m5 e5 /\
    2 ^ 52 <= Zpos m5 < 2 ^ 53 /\ e / 2 - 26 <= e5 <= e / 2 - 25 /\
    let x := SF2Q (S754_finite false m e) in
    let r := SF2Q (S754_finite false m5 e5) in
    (r * r * ((1 - (1 # 2 ^ 52)) * (1 - (1 # 2 ^ 52))) <= x
     <= r * r * ((1 + (1 # 2 ^ 52)) * (1 + (1 # 2 ^ 52))))%Q.
Proof.
  intros Hm He.
  assert (Hd : Zpos (digits2_pos m) = 53) by (apply digits_unique; lia).
  unfold Double.sqrt, SFsqrt, SFsqrt_core_binary. cbn [Zdigits2].
  rewrite Hd, !Z.div2_div.
  replace (53 + e + 1) with (e + 27 * 2) by lia.
  rewrite Z.div_add by lia.
  pose proof (Z.div_mod e 2 ltac:(lia)) as Hdm.
  pose proof (Z.mod_pos_bound e 2 ltac:(lia)) as Hmb.
  assert (Hfexp : fexp Double.prec Double.emax (e / 2 + 27) = e / 2 - 26).
  { unfold fexp, emin, Double.prec, Double.emax. lia. }
  rewrite Hfexp.
  replace (Z.min (e / 2 - 26) (e / 2)) with (e / 2 - 26) by lia.
  remember (e - 2 * (e / 2 - 26)) as s eqn:Es.
  assert (Hs : s = 52 \/ s = 53) by lia.
  assert (Hshift : match s with
                   | 0 => Zpos m
                   | Zpos _ => Z.shiftl (Zpos m) s
                   | Zneg _ => 0
                   end = Zpos m * 2 ^ s).
  { destruct s as [|p|p]; try lia. apply Z.shiftl_mul_pow2. lia. }
  rewrite Hshift.
  assert (Hrange : 2 ^ 52 * 2 ^ 52 <= Zpos m * 2 ^ s < 4 * (2 ^ 52 * 2 ^ 52)).
  { destruct Hs as [-> | ->]; lia. }
  pose proof (Z.sqrtrem_spec (Zpos m * 2 ^ s) ltac:(lia)) as Hspec.
  destruct (Z.sqrtrem (Zpos m * 2 ^ s)) as [q r].
  destruct Hspec as [Hq Hr].
  pose proof (sqrt_range q r (Zpos m * 2 ^ s) (2 ^ 52) Hq Hr ltac:(lia) Hrange) as Hqr.
  destruct q as [|q|q]; try lia.
  destruct (binary_round_aux_near Double.prec Double.emax
              ltac:(unfold Double.prec; lia) false q (e / 2 - 26) 0
              (if r =? 0 then loc_Exact
               else loc_Inexact (if r <=? Zpos q then Lt else Gt)))
    as (m2 & m3 & e3 & Hres & Hm2 & _ & Hfin);
    [lia|unfold Double.prec; rewrite Z.add_0_r; apply digits_unique; lia
    |unfold emin, Double.prec, Double.emax; lia
    |unfold Double.prec, Double.emax; lia|].
  exists m3, e3. split; [exact Hres|].
  rewrite Z.pow_0_r, Z.div_1_r in Hm2.
  unfold Double.prec in Hfin. change (53 - 1) with 52 in Hfin.
  assert (Hr3 : (SF2Q (S754_finite false m3 e3) == inject_Z m2 * 2 ^ (e / 2 - 26))%Q).
  { rewrite value_unsigned.
    destruct Hfin as [(-> & -> & _)|(-> & Hm3 & Hc)]; [now rewrite Z.add_0_r|].
    apply (Qscaled_eq _ _ _ _ (e / 2 - 26)); [lia|lia|].
    rewrite Z.sub_diag, Z.pow_0_r, Hm3, Hc.
    replace (e / 2 - 26 + 0 + 1 - (e / 2 - 26)) with 1 by lia. reflexivity. }
  assert (Hx : (SF2Q (S754_finite false m e)
                == inject_Z (Zpos m * 2 ^ s) * (2 ^ (e / 2 - 26) * 2 ^ (e / 2 - 26)))%Q).
  { rewrite value_unsigned, <- Qpower_plus by (intros H; discriminate H).
    apply (Qscaled_eq _ _ _ _ (e / 2 - 26 + (e / 2 - 26))); [lia|lia|].
    rewrite Z.sub_diag, Z.pow_0_r.
    replace (e - (e / 2 - 26 + (e / 2 - 26))) with s by lia. lia. }
  split; [destruct Hfin as [(-> & Hm3 & Hlt)|(-> & Hm3 & Hc)]; lia|].
  split; [destruct Hfin as [(-> & Hm3 & Hlt)|(-> & Hm3 & Hc)]; lia|].
  cbv zeta. rewrite Hr3, Hx.
  apply (root_error_Q m2 (Zpos q) r); [exact Hq|exact Hr|lia|lia|apply Qpow2_pos].
Qed.

(** A [double] with a full mantissa converts back exactly. *)
Lemma to_long_double_normal (m : positive) (e : Z) :
  2 ^ 52 <= Zpos m < 2 ^ 53 -> -1000 <= e <= 1000 ->
  exists (m3 : positive),
    Double.to_long_double (S754_finite false m e) = S754_finite false m3 (e - 11) /\
    Zpos m3 = Zpos m * 2 ^ 11.
Proof.
  intros Hm He.
  assert (Hd : Zpos (digits2_pos m) = 53) by (apply digits_unique; lia).
  unfold Double.to_long_double.
  destruct (binary_round_long false m e ltac:(lia) ltac:(lia))
    as (m3 & e3 & Hres & _ & _ & Hexact & _ & _).
  destruct (Hexact ltac:(lia)) as [He3 Hm3].
  exists m3. rewrite Hres, He3, Hd. split; [f_equal; lia|].
  rewrite Hm3, He3, Hd. f_equal. f_equal. lia.
Qed.

(** The deviation computed from a sum of squares in range: a number,
    not negative. *)
Lemma stddev_in_range (ssum : spec_float) (REPEAT : Z) :
  1 <= REPEAT <= 200000 ->
  unsigned_SF ssum -> full_or_zero (-500) ssum ->
  (SF2Q ssum <= inject_Z (REPEAT * 1000000000000000000))%Q ->
  unsigned_SF (Stats.stddev_of ssum REPEAT) /\
  full_or_zero (-400) (Stats.stddev_of ssum REPEAT).
Proof.
  intros HR Us Fs Bs. unfold Stats.stddev_of.
  rewrite of_Z_repr by lia.
  destruct (repr_value REPEAT ltac:(lia)) as (my & ey & -> & _ & Hey & _ & Hdy).
  destruct ssum as [s|s| |s mx ex]; try contradiction;
    cbn [unsigned_SF] in Us; subst s; cbn [full_or_zero] in Fs.
  - cbn. split; [reflexivity|exact I].
  - assert (Hb : (inject_Z (REPEAT * 1000000000000000000)
                  == inject_Z (REPEAT * 3814697265625) * 2 ^ 18)%Q).
    { change (2 ^ 18)%Q with (inject_Z 262144). rewrite <- inject_Z_mult.
      apply inject_Z_injective. lia. }
    rewrite value_unsigned, Hb in Bs.
    pose proof (exponent_under mx ex (REPEAT * 3814697265625) 18
                  ltac:(lia) ltac:(lia) Bs) as Hex.
    destruct (div_normal mx my ex ey ltac:(now apply full_mantissa) Hdy ltac:(lia))
      as (k & m1 & m2 & m3 & e3 & -> & Hk & Hm1 & _ & Hm2 & Hfin).
    assert (Hm3 : 2 ^ 63 <= Zpos m3 < 2 ^ 64) by (destruct Hfin as [H|H]; lia).
    assert (He3 : ex - ey - 64 <= e3 <= ex - ey - 62) by (destruct Hfin as [H|H]; lia).
    destruct (to_double_normal m3 e3 ltac:(now apply full_mantissa) ltac:(lia))
      as (m4 & e4 & -> & Hcase).
    assert (Hq : 2 ^ 52 <= Zpos m3 / 2 ^ 11).
    { apply Z.div_le_lower_bound; [lia|]. change (2 ^ 11 * 2 ^ 52) with (2 ^ 63). lia. }
    assert (Hm4 : 2 ^ 52 <= Zpos m4 < 2 ^ 53) by (destruct Hcase as [H|H]; lia).
    assert (He4 : e3 + 11 <= e4 <= e3 + 12) by (destruct Hcase as [H|H]; lia).
    destruct (sqrt_normal m4 e4 Hm4 ltac:(lia)) as (m5 & e5 & -> & Hm5 & He5 & _).
    pose proof (Z.div_mod e4 2 ltac:(lia)) as Hdm.
    pose proof (Z.mod_pos_bound e4 2 ltac:(lia)) as Hmb.
    destruct (to_long_double_normal m5 e5 Hm5 ltac:(lia)) as (m6 & -> & Hm6).
    split; [reflexivity|]. cbn [full_or_zero].
    split; [|lia]. rewrite Hm6. change (2 ^ 63) with (2 ^ 52 * 2 ^ 11).
    change (2 ^ 64) with (2 ^ 53 * 2 ^ 11). lia.
Qed.

(** ** The quotient, the conversion and the root, with their errors *)

Lemma quotient_error_Z (W D m1 m2 : Z) :
  0 < D -> 2 ^ 63 <= m1 ->
  m1 * D <= W < (m1 + 1) * D -> m1 <= m2 <= m1 + 1 ->
  W * (2 ^ 63 - 1) <= m2 * D * 2 ^ 63 <= W * (2 ^ 63 + 1).
Proof.
  intros HD Hm1 HW Hm2. remember (2 ^ 63) as P.
  assert (0 < P) by (subst P; lia). split; nia.
Qed.

Lemma rel_error_ratio (W D R : Z) (P : Q) :
  (0 < P)%Q -> 0 < D ->
  W * (2 ^ 63 - 1) <= R * D * 2 ^ 63 <= W * (2 ^ 63 + 1) ->
  (inject_Z W / inject_Z D * P * (1 - (1 # 2 ^ 63)) <= inject_Z R * P
     <= inject_Z W / inject_Z D * P * (1 + (1 # 2 ^ 63)))%Q.
Proof.
  intros HP HD [Hlo Hhi].
  rewrite Zle_Qle, !inject_Z_mult in Hlo, Hhi.
  change (inject_Z (2 ^ 63 - 1)) with (9223372036854775807 # 1)%Q in Hlo.
  change (inject_Z (2 ^ 63)) with (9223372036854775808 # 1)%Q in Hlo, Hhi.
  change (inject_Z (2 ^ 63 + 1)) with (9223372036854775809 # 1)%Q in Hhi.
  change (1 # 2 ^ 63)%Q with (1 # 9223372036854775808)%Q.
  assert (HDq : (0 < inject_Z D)%Q)
    by (change 0%Q with (inject_Z 0); rewrite <- Zlt_Qlt; exact HD).
  assert (HW : (inject_Z W == inject_Z W / inject_Z D * inject_Z D)%Q).
  { field. intros E. rewrite E in HDq. discriminate HDq. }
  remember (inject_Z W / inject_Z D)%Q as rho. remember (inject_Z R) as r.
  remember (inject_Z D) as d. rewrite HW in Hlo, Hhi. clear HW.
  assert (H1 : (rho * (9223372036854775807 # 1) <= r * (9223372036854775808 # 1))%Q).
  { apply (Qmult_le_r _ _ d HDq). lra. }
  assert (H2 : (r * (9223372036854775808 # 1) <= rho * (9223372036854775809 # 1))%Q).
  { apply (Qmult_le_r _ _ d HDq). lra. }
  split; nra.
Qed.

(** The quotient of two long doubles with full mantissas, within [2^-63]
    of the exact quotient. *)
Lemma div_error (mx my : positive) (ex ey : Z) :
  Zpos (digits2_pos mx) = 64 -> Zpos (digits2_pos my) = 64 ->
  -16000 <= ex - ey <= 16000 ->
  let x := S754_finite false mx ex in
  let y := S754_finite false my ey in
  (SF2Q x / SF2Q y * (1 - (1 # 2 ^ 63)) <= SF2Q (LongDouble.div x y)
     <= SF2Q x / SF2Q y * (1 + (1 # 2 ^ 63)))%Q.
Proof.
  intros Hdx Hdy Hrange x y. unfold x, y.
  destruct (div_normal mx my ex ey Hdx Hdy Hrange)
    as (k & m1 & m2 & m3 & e3 & -> & Hk & Hm1 & HW & Hm2 & Hfin).
  assert (Hk01 : k = 0 \/ k = 1) by lia.
  assert (HD : 0 < Zpos my * 2 ^ k) by (destruct Hk01 as [-> | ->]; lia).
  pose proof (quotient_error_Z (Zpos mx * 2 ^ 64) (Zpos my * 2 ^ k) m1 m2
                HD ltac:(lia) HW Hm2) as Herr.
  set (E' := ex - ey - 64 + k) in *.
  assert (Hr : (SF2Q (S754_finite false m3 e3) == inject_Z m2 * 2 ^ E')%Q).
  { rewrite value_unsigned.
    destruct Hfin as [(-> & -> & _)|(-> & Hm3 & Hc)]; [reflexivity|].
    apply (Qscaled_eq _ _ _ _ E'); [lia|lia|].
    rewrite Z.sub_diag, Z.pow_0_r, Hm3, Hc.
    replace (E' + 1 - E') with 1 by lia. reflexivity. }
  assert (Hq : (SF2Q (S754_finite false mx ex) / SF2Q (S754_finite false my ey)
                == inject_Z (Zpos mx * 2 ^ 64) / inject_Z (Zpos my * 2 ^ k) * 2 ^ E')%Q).
  { rewrite !value_unsigned.
    assert (Hex : (2 ^ ex == inject_Z (2 ^ (64 - k)) * (2 ^ E' * 2 ^ ey))%Q).
    { rewrite <- Qpower_plus by (intros H; discriminate H).
      rewrite (Qpow2_scale ex (E' + ey)) by (unfold E'; lia).
      replace (ex - (E' + ey)) with (64 - k) by (unfold E'; lia). reflexivity. }
    rewrite Hex, !inject_Z_mult. clear Hex.
    assert (Hy0 : ~ (inject_Z (Zpos my) == 0)%Q) by (intros H; discriminate H).
    assert (Hp0 : ~ (2 ^ ey == 0)%Q).
    { intros H. pose proof (Qpow2_pos ey) as Hp. rewrite H in Hp. discriminate Hp. }
    generalize dependent (2 ^ ey)%Q. generalize (2 ^ E')%Q.
    generalize dependent (inject_Z (Zpos my)). generalize (inject_Z (Zpos mx)).
    intros a b Hb p q Hq.
    destruct Hk01 as [-> | ->].
    - change (inject_Z (2 ^ (64 - 0))) with (18446744073709551616 # 1)%Q.
      change (inject_Z (2 ^ 64)) with (18446744073709551616 # 1)%Q.
      change (inject_Z (2 ^ 0)) with 1%Q. field. split; assumption.
    - change (inject_Z (2 ^ (64 - 1))) with (9223372036854775808 # 1)%Q.
      change (inject_Z (2 ^ 64)) with (18446744073709551616 # 1)%Q.
      change (inject_Z (2 ^ 1)) with 2%Q. field. split; assumption. }
  rewrite Hr, Hq. apply rel_error_ratio; [apply Qpow2_pos|exact HD|exact Herr].
Qed.

(** ** The deviation against the accumulated sum *)

Lemma narrow_error_Z (m R : Z) :
  2 ^ 63 <= m -> m / 2 ^ 11 <= R <= m / 2 ^ 11 + 1 ->
  m * (2 ^ 52 - 1) <= R * 2 ^ 11 * 2 ^ 52 <= m * (2 ^ 52 + 1).
Proof.
  intros Hm HR.
  pose proof (Z.div_mod m (2 ^ 11) ltac:(lia)) as Hdm.
  pose proof (Z.mod_pos_bound m (2 ^ 11) ltac:(lia)) as Hrb.
  lia.
Qed.

Lemma rel_error_double (m R : Z) (P : Q) :
  (0 < P)%Q ->
  m * (2 ^ 52 - 1) <= R * 2 ^ 52 <= m * (2 ^ 52 + 1) ->
  (inject_Z m * P * (1 - (1 # 2 ^ 52)) <= inject_Z R * P
     <= inject_Z m * P * (1 + (1 # 2 ^ 52)))%Q.
Proof.
  intros HP [Hlo Hhi].
  rewrite Zle_Qle, !inject_Z_mult in Hlo, Hhi.
  change (inject_Z (2 ^ 52 - 1)) with (4503599627370495 # 1)%Q in Hlo.
  change (inject_Z (2 ^ 52)) with (4503599627370496 # 1)%Q in Hlo, Hhi.
  change (inject_Z (2 ^ 52 + 1)) with (4503599627370497 # 1)%Q in Hhi.
  change (1 # 2 ^ 52)%Q with (1 # 4503599627370496)%Q.
  remember (inject_Z m) as a. remember (inject_Z R) as b.
  split; nra.
Qed.

(** A long double with a full mantissa, converted to [double]: within
    [2^-52] of its value. *)
Lemma to_double_error (m : positive) (e : Z) :
  Zpos (digits2_pos m) = 64 -> -900 <= e <= 900 ->
  let x := S754_finite false m e in
  (SF2Q x * (1 - (1 # 2 ^ 52)) <= SF2Q (Double.of_long_double x)
     <= SF2Q x * (1 + (1 # 2 ^ 52)))%Q.
Proof.
  intros Hd He x. unfold x.
  destruct (digits_bounds m) as [Mlo _]. rewrite Hd in Mlo.
  change (2 ^ (64 - 1)) with (2 ^ 63) in Mlo.
  destruct (to_double_normal m e Hd He) as (m4 & e4 & -> & Hcase).
  assert (HR : exists R, Zpos m / 2 ^ 11 <= R <= Zpos m / 2 ^ 11 + 1 /\
                 (SF2Q (S754_finite false m4 e4) == inject_Z (R * 2 ^ 11) * 2 ^ e)%Q).
  { destruct Hcase as [(-> & Hm4 & _)|(-> & Hm4 & Hc & _)].
    - exists (Zpos m4). split; [exact Hm4|]. rewrite value_unsigned.
      apply (Qscaled_eq _ _ _ _ e); [lia|lia|].
      rewrite Z.sub_diag, Z.pow_0_r. replace (e + 11 - e) with 11 by lia. lia.
    - exists (2 ^ 53).
      assert (Zpos m / 2 ^ 11 < 2 ^ 53).
      { apply Z.div_lt_upper_bound; [lia|]. destruct (digits_bounds m) as [_ Mhi].
        rewrite Hd in Mhi. exact Mhi. }
      split; [lia|]. rewrite value_unsigned.
      apply (Qscaled_eq _ _ _ _ e); [lia|lia|].
      rewrite Z.sub_diag, Z.pow_0_r, Hm4. replace (e + 12 - e) with 12 by lia.
      reflexivity. }
  destruct HR as (R & HR & ->). rewrite value_unsigned.
  apply rel_error_double; [apply Qpow2_pos|].
  pose proof (narrow_error_Z (Zpos m) R Mlo HR). lia.
Qed.

(** The deviation computed from a sum of squares in range: its square is
    within [2^-50] of the sum divided by the count. *)
Lemma stddev_error (ssum : spec_float) (REPEAT : Z) :
  1 <= REPEAT <= 200000 ->
  unsigned_SF ssum -> full_or_zero (-500) ssum ->
  (SF2Q ssum <= inject_Z (REPEAT * 1000000000000000000))%Q ->
  let d := SF2Q (Stats.stddev_of ssum REPEAT) in
  let v := (SF2Q ssum / inject_Z REPEAT)%Q in
  ((1 - (1 # 2 ^ 50)) * v <= d * d <= (1 + (1 # 2 ^ 50)) * v)%Q.
Proof.
  intros HR Us Fs Bs. cbv zeta. unfold Stats.stddev_of.
  rewrite of_Z_repr by lia.
  destruct (repr_value REPEAT ltac:(lia)) as (my & ey & -> & _ & Hey & Hmy & Hdy).
  assert (Hy : (SF2Q (S754_finite false my ey) == inject_Z REPEAT)%Q).
  { destruct (SF2Q_bounds my ey REPEAT REPEAT); [lia|lia|]. now apply Qle_antisym. }
  destruct ssum as [s|s| |s mx ex]; try contradiction;
    cbn [unsigned_SF] in Us; subst s; cbn [full_or_zero] in Fs.
  - cbn. unfold Qdiv. rewrite !Qmult_0_l. lra.
  - assert (Hb : (inject_Z (REPEAT * 1000000000000000000)
                  == inject_Z (REPEAT * 3814697265625) * 2 ^ 18)%Q).
    { change (2 ^ 18)%Q with (inject_Z 262144). rewrite <- inject_Z_mult.
      apply inject_Z_injective. lia. }
    rewrite value_unsigned, Hb in Bs.
    pose proof (exponent_under mx ex (REPEAT * 3814697265625) 18
                  ltac:(lia) ltac:(lia) Bs) as Hex.
    pose proof (div_error mx my ex ey ltac:(now apply full_mantissa) Hdy ltac:(lia))
      as Hdiv. cbv zeta in Hdiv.
    destruct (div_normal mx my ex ey ltac:(now apply full_mantissa) Hdy ltac:(lia))
      as (k & m1 & m2 & m3 & e3 & Hq & Hk & Hm1 & _ & Hm2 & Hfin).
    rewrite Hq in Hdiv |- *.
    assert (Hm3 : 2 ^ 63 <= Zpos m3 < 2 ^ 64) by (destruct Hfin as [H|H]; lia).
    assert (He3 : ex - ey - 64 <= e3 <= ex - ey - 62) by (destruct Hfin as [H|H]; lia).
    pose proof (to_double_error m3 e3 ltac:(now apply full_mantissa) ltac:(lia))
      as Hnarrow. cbv zeta in Hnarrow.
    destruct (to_double_normal m3 e3 ltac:(now apply full_mantissa) ltac:(lia))
      as (m4 & e4 & Hw & Hcase).
    rewrite Hw in Hnarrow |- *.
    assert (Hq52 : 2 ^ 52 <= Zpos m3 / 2 ^ 11).
    { apply Z.div_le_lower_bound; [lia|]. change (2 ^ 11 * 2 ^ 52) with (2 ^ 63). lia. }
    assert (Hm4 : 2 ^ 52 <= Zpos m4 < 2 ^ 53) by (destruct Hcase as [H|H]; lia).
    assert (He4 : e3 + 11 <= e4 <= e3 + 12) by (destruct Hcase as [H|H]; lia).
    destruct (sqrt_normal m4 e4 Hm4 ltac:(lia)) as (m5 & e5 & -> & Hm5 & He5 & Hroot).
    cbv zeta in Hroot.
    pose proof (Z.div_mod e4 2 ltac:(lia)) as Hdm.
    pose proof (Z.mod_pos_bound e4 2 ltac:(lia)) as Hmb.
    destruct (to_long_double_normal m5 e5 Hm5 ltac:(lia)) as (m6 & -> & Hm6).
    assert (Hback : (SF2Q (S754_finite false m6 (e5 - 11))
                     == SF2Q (S754_finite false m5 e5))%Q).
    { rewrite !value_unsigned. apply (Qscaled_eq _ _ _ _ (e5 - 11)); [lia|lia|].
      rewrite Z.sub_diag, Z.pow_0_r, Hm6. replace (e5 - (e5 - 11)) with 11 by lia. lia. }
    rewrite Hback. rewrite Hy in Hdiv.
    assert (Hv : (0 <= SF2Q (S754_finite false mx ex) / inject_Z REPEAT)%Q).
    { apply Qle_shift_div_l.
      - change 0%Q with (inject_Z 0). rewrite <- Zlt_Qlt. lia.
      - rewrite Qmult_0_l, value_unsigned. apply Qbound_nonneg. lia. }
    change (1 # 2 ^ 63)%Q with (1 # 9223372036854775808)%Q in Hdiv.
    change (1 # 2 ^ 52)%Q with (1 # 4503599627370496)%Q in Hnarrow, Hroot.
    change (1 # 2 ^ 50)%Q with (1 # 1125899906842624)%Q.
    remember (SF2Q (S754_finite false mx ex) / inject_Z REPEAT)%Q as v.
    remember (SF2Q (S754_finite false m3 e3)) as q.
    remember (SF2Q (S754_finite false m4 e4)) as w.
    remember (SF2Q (S754_finite false m5 e5) * SF2Q (S754_finite false m5 e5))%Q as rr.
    split; lra.
Qed.

(** ** The deviation against the exact variance *)

(** The sum of the squared distances to [c], from the one to [d]. *)
Lemma squares_about_shift (c d : Q) (l : list Z) :
  (squares_about c l
   == squares_about d l
      + 2 * (d - c) * (inject_Z (Stats.total l) - inject_Z (Z.of_nat (length l)) * d)
      + inject_Z (Z.of_nat (length l)) * ((d - c) * (d - c)))%Q.
Proof.
  induction l as [|v l IH].
  - cbn. ring.
  - rewrite !squares_about_cons, IH, total_cons. cbn [length].
    rewrite Nat2Z.inj_succ. unfold Z.succ. rewrite !inject_Z_plus.
    change (inject_Z 1) with 1%Q. ring.
Qed.

(** About the exact average the middle term vanishes. *)
Lemma squares_about_mean (c : Q) (l : list Z) :
  0 < Z.of_nat (length l) ->
  let n := inject_Z (Z.of_nat (length l)) in
  let mu := (inject_Z (Stats.total l) / n)%Q in
  (squares_about c l == squares_about mu l + n * ((c - mu) * (c - mu)))%Q.
Proof.
  intros Hn n mu. rewrite (squares_about_shift c mu l). fold n.
  assert (Hn0 : ~ (n == 0)%Q).
  { unfold n. intros H. unfold Qeq in H. cbn in H. lia. }
  assert (Hmu : (inject_Z (Stats.total l) - n * mu == 0)%Q) by (unfold mu; field; exact Hn0).
  rewrite Hmu. ring.
Qed.

(** The mean in range, within [2^-63] of the exact average. *)
Lemma mean_error (REPEAT total : Z) :
  1 <= REPEAT <= 200000 -> 0 <= total <= REPEAT * 1000000000 ->
  let mean := LongDouble.div (LongDouble.repr total) (LongDouble.of_Z REPEAT) in
  let mu := (inject_Z total / inject_Z REPEAT)%Q in
  (mu * (1 - (1 # 2 ^ 63)) <= SF2Q mean <= mu * (1 + (1 # 2 ^ 63)))%Q.
Proof.
  intros HR Ht mean mu. unfold mean, mu. rewrite of_Z_repr by lia.
  destruct (repr_value REPEAT ltac:(lia)) as (my & ey & -> & _ & Hey & Hmy & Hdy).
  assert (Hy : (SF2Q (S754_finite false my ey) == inject_Z REPEAT)%Q).
  { destruct (SF2Q_bounds my ey REPEAT REPEAT); [lia|lia|]. now apply Qle_antisym. }
  destruct (Z.eq_dec total 0) as [->|Hnz].
  - cbn. unfold Qdiv. rewrite !Qmult_0_l. split; discriminate.
  - destruct (repr_value total ltac:(lia)) as (mx & ex & -> & _ & Hex & Hmx & Hdx).
    assert (Hx : (SF2Q (S754_finite false mx ex) == inject_Z total)%Q).
    { destruct (SF2Q_bounds mx ex total total); [lia|lia|]. now apply Qle_antisym. }
    pose proof (div_error mx my ex ey Hdx Hdy ltac:(lia)) as H. cbv zeta in H.
    rewrite Hx, Hy in H. exact H.
Qed.

Lemma Qsquare_small (x a : Q) : (- a <= x <= a -> x * x <= a * a)%Q.
Proof.
  intros [H1 H2].
  assert (H : (0 <= (a - x) * (a + x))%Q) by (apply Qmult_le_0_compat; lra).
  assert (E : ((a - x) * (a + x) == a * a - x * x)%Q) by ring.
  rewrite E in H. lra.
Qed.

(** The errors of the accumulation, the division, the conversion and
    the root, together. *)
Lemma combine_errors (n : Z) (E S dd : Q) :
  1 <= n <= 200000 -> (0 <= E)%Q ->
  ((1 - (inject_Z n + 3) * (1 # 2 ^ 62)) * E <= S
     <= (1 + (inject_Z n + 3) * (1 # 2 ^ 62)) * E)%Q ->
  ((1 - (1 # 2 ^ 50)) * (S / inject_Z n) <= dd
     <= (1 + (1 # 2 ^ 50)) * (S / inject_Z n))%Q ->
  ((1 - (1 # 2 ^ 44)) * (E / inject_Z n) <= dd
     <= (1 + (1 # 2 ^ 44)) * (E / inject_Z n))%Q.
Proof.
  intros Hn HE HS Hd.
  assert (Hlo : (1 <= inject_Z n)%Q) by (change 1%Q with (inject_Z 1); rewrite <- Zle_Qle; lia).
  assert (Hhi : (inject_Z n <= 200000)%Q)
    by (change 200000%Q with (inject_Z 200000); rewrite <- Zle_Qle; lia).
  change (1 # 2 ^ 62)%Q with (1 # 4611686018427387904)%Q in HS.
  change (1 # 2 ^ 50)%Q with (1 # 1125899906842624)%Q in Hd.
  change (1 # 2 ^ 44)%Q with (1 # 17592186044416)%Q.
  remember (inject_Z n) as k.
  assert (Hk : (0 <= (200000 - k) * E)%Q) by (apply Qmult_le_0_compat; lra).
  assert (HS' : ((1 - (200003 # 4611686018427387904)) * E <= S
                 <= (1 + (200003 # 4611686018427387904)) * E)%Q) by (split; nra).
  assert (Hinv : (0 < / k)%Q) by (apply Qinv_lt_0_compat; lra).
  unfold Qdiv in *.
  assert (H1 : ((1 - (200003 # 4611686018427387904)) * (E * / k) <= S * / k)%Q).
  { rewrite Qmult_assoc. apply Qmult_le_compat_r; [tauto|lra]. }
  assert (H2 : (S * / k <= (1 + (200003 # 4611686018427387904)) * (E * / k))%Q).
  { rewrite Qmult_assoc. apply Qmult_le_compat_r; [tauto|lra]. }
  assert (H0 : (0 <= E * / k)%Q) by (apply Qmult_le_0_compat; lra).
  remember (E * / k)%Q as En. remember (S * / k)%Q as Sn.
  split; lra.
Qed.

(** ** The statistics of a series in range *)

Lemma full_finite (lo : Z) (x : spec_float) :
  full_or_zero lo x -> is_finite_SF x = true.
Proof. destruct x; cbn; tauto. Qed.

Lemma unsigned_nonneg (x : spec_float) : unsigned_SF x -> (0 <= SF2Q x)%Q.
Proof.
  destruct x as [s|s| |s m e]; cbn [unsigned_SF]; try contradiction; intros ->.
  - apply Qle_refl.
  - rewrite value_unsigned. apply Qbound_nonneg. lia.
Qed.

(** C9 (as amended).  For every series of at most 2*10^5 trials with
    every sample at most 10^9 cycles, nothing overflows.  The sum of the
    samples, at most 2*10^14, is accumulated exactly, and the mean is a
    number between 0 and 10^9 within one unit in the last place, and
    within the relative error [2^-63], of the exact average.  The sum of
    the squared deviations is a number, not negative and at most
    [REPEAT * 10^18]; each of its subtractions, products and additions
    is rounded to the 64 bits of the format, and it is within the
    relative error [(REPEAT + 3) * 2^-62] of the exact sum of the
    squared distances to the computed mean.  The deviation is a number,
    not negative, obtained from that sum through the division by
    [REPEAT], the conversion to [double], the [double] square root and
    the conversion back; its square is within the relative error [2^-44]
    of the exact variance increased by the square of the mean's error,
    which is at most [2^-66]. *)
Theorem statistics_in_range (REPEAT : Z) (results : list Z) :
  1 <= REPEAT <= 200000 -> Z.of_nat (length results) = REPEAT ->
  Forall (fun v => 0 <= v <= 1000000000) results ->
  exists s,
    Stats.stats REPEAT results = Some s /\
    Stats.total results <= 200000000000000 /\
    Stats.sum_loop results = LongDouble.repr (Stats.total results) /\
    (SF2Q (Stats.sum_loop results) == inject_Z (Stats.total results))%Q /\
    is_finite_SF (Stats.mean s) = true /\
    (0 <= SF2Q (Stats.mean s) <= inject_Z 1000000000)%Q /\
    (0 < Stats.total results ->
     exists (m : positive) (e : Z),
       Stats.mean s = S754_finite false m e /\
       2 ^ 63 <= Zpos m < 2 ^ 64 /\ e <= 0 /\
       REPEAT * (Zpos m - 1) < Stats.total results * 2 ^ (- e)
         < REPEAT * (Zpos m + 1)) /\
    is_finite_SF (Stats.ssum_loop (Stats.mean s) results) = true /\
    (0 <= SF2Q (Stats.ssum_loop (Stats.mean s) results)
       <= inject_Z (REPEAT * 1000000000000000000))%Q /\
    Stats.stddev s
    = Double.to_long_double
        (Double.sqrt
           (Double.of_long_double
              (LongDouble.div (Stats.ssum_loop (Stats.mean s) results)
                 (LongDouble.of_Z REPEAT)))) /\
    is_finite_SF (Stats.stddev s) = true /\
    (0 <= SF2Q (Stats.stddev s))%Q /\
    let mu := (inject_Z (Stats.total results) / inject_Z REPEAT)%Q in
    let variance := (squares_about mu results / inject_Z REPEAT)%Q in
    let m := SF2Q (Stats.mean s) in
    let d := SF2Q (Stats.stddev s) in
    (mu * (1 - (1 # 2 ^ 63)) <= m <= mu * (1 + (1 # 2 ^ 63)) /\
     (m - mu) * (m - mu) <= 1 # 2 ^ 66 /\
     (1 - (inject_Z REPEAT + 3) * (1 # 2 ^ 62)) * squares_about m results
       <= SF2Q (Stats.ssum_loop (Stats.mean s) results)
       <= (1 + (inject_Z REPEAT + 3) * (1 # 2 ^ 62)) * squares_about m results /\
     (1 - (1 # 2 ^ 44)) * (variance + (m - mu) * (m - mu)) <= d * d
       <= (1 + (1 # 2 ^ 44)) * (variance + (m - mu) * (m - mu)))%Q.
Proof.
  intros HR Hlen Hall.
  destruct (stats_defined REPEAT results ltac:(lia)
              ltac:(unfold U64.modulus; lia) Hlen)
    as (s & Hs & _ & _ & _ & Hmean & Hstd).
  destruct (sum_exact_in_range results ltac:(lia) Hall) as (Htot & Hsum & Hval).
  assert (Hb : Z.of_nat (length results) * 0 <= Stats.total results
               <= Z.of_nat (length results) * 1000000000).
  { apply total_bounds. intros x Hx. rewrite List.Forall_forall in Hall. now apply Hall. }
  rewrite Hlen in Hb.
  rewrite Hsum in Hmean.
  destruct (mean_in_range REPEAT (Stats.total results) HR ltac:(lia)) as (Um & Fm & Bm).
  rewrite <- Hmean in Um, Fm, Bm.
  destruct (ssum_in_range (Stats.mean s) results Um Fm Bm Hall ltac:(lia))
    as (Us & Fs & Bs & Es).
  rewrite Hlen in Bs, Es.
  destruct (stddev_in_range (Stats.ssum_loop (Stats.mean s) results) REPEAT HR Us Fs Bs)
    as (Ud & Fd).
  pose proof (stddev_error (Stats.ssum_loop (Stats.mean s) results) REPEAT HR Us Fs Bs)
    as Ed.
  cbv zeta in Ed.
  rewrite <- Hstd in Ud, Fd, Ed.
  pose proof (mean_error REPEAT (Stats.total results) HR ltac:(lia)) as Em.
  cbv zeta in Em. rewrite <- Hmean in Em.
  exists s. split; [exact Hs|]. split; [exact Htot|]. split; [exact Hsum|].
  split; [now rewrite Hsum|].
  split; [exact (full_finite _ _ Fm)|].
  split; [split; [now apply unsigned_nonneg|exact Bm]|].
  split.
  { intros Hpos. rewrite Hmean, of_Z_repr by lia.
    destruct (div_repr (Stats.total results) REPEAT ltac:(lia) ltac:(lia))
      as (m & e & Heq & He & _ & _ & Hf).
    pose proof (div_repr_canonical (Stats.total results) REPEAT m e
                  ltac:(lia) ltac:(lia) Heq ltac:(lia)) as Hd.
    exists m, e. split; [exact Heq|]. split; [now apply full_mantissa|].
    split; [lia|exact Hf]. }
  split; [exact (full_finite _ _ Fs)|].
  split; [split; [now apply unsigned_nonneg|exact Bs]|].
  split; [exact Hstd|].
  split; [exact (full_finite _ _ Fd)|].
  split; [now apply unsigned_nonneg|].
  cbv zeta.
  pose proof (squares_about_mean (SF2Q (Stats.mean s)) results ltac:(lia)) as Hshift.
  cbv zeta in Hshift. rewrite Hlen in Hshift.
  pose proof (unsigned_nonneg _ Um) as Hm0.
  assert (Hmu : (0 <= inject_Z (Stats.total results) / inject_Z REPEAT
                   <= 1000000000)%Q).
  { split.
    - apply Qle_shift_div_l.
      + change 0%Q with (inject_Z 0). rewrite <- Zlt_Qlt. lia.
      + rewrite Qmult_0_l. change 0%Q with (inject_Z 0). rewrite <- Zle_Qle. lia.
    - apply Qle_shift_div_r.
      + change 0%Q with (inject_Z 0). rewrite <- Zlt_Qlt. lia.
      + change 1000000000%Q with (inject_Z 1000000000).
        rewrite <- inject_Z_mult, <- Zle_Qle. lia. }
  assert (Hdelta : ((SF2Q (Stats.mean s)
                     - inject_Z (Stats.total results) / inject_Z REPEAT)
                    * (SF2Q (Stats.mean s)
                       - inject_Z (Stats.total results) / inject_Z REPEAT)
                    <= 1 # 2 ^ 66)%Q).
  { apply Qle_trans with ((1000000000 # 2 ^ 63) * (1000000000 # 2 ^ 63))%Q;
      [|vm_compute; discriminate].
    apply Qsquare_small.
    change (1 # 2 ^ 63)%Q with (1 # 9223372036854775808)%Q in Em.
    change (1000000000 # 2 ^ 63)%Q with (1000000000 # 9223372036854775808)%Q.
    remember (inject_Z (Stats.total results) / inject_Z REPEAT)%Q as mu.
    remember (SF2Q (Stats.mean s)) as m. split; lra. }
  split; [exact Em|]. split; [exact Hdelta|]. split; [exact Es|].
  assert (Hn0 : ~ (inject_Z REPEAT == 0)%Q).
  { intros H. unfold Qeq in H. cbn in H. lia. }
  assert (HE : (squares_about (SF2Q (Stats.mean s)) results / inject_Z REPEAT
                == squares_about (inject_Z (Stats.total results) / inject_Z REPEAT)
                     results / inject_Z REPEAT
                   + (SF2Q (Stats.mean s)
                      - inject_Z (Stats.total results) / inject_Z REPEAT)
                     * (SF2Q (Stats.mean s)
                        - inject_Z (Stats.total results) / inject_Z REPEAT))%Q).
  { rewrite Hshift. field. exact Hn0. }
  rewrite <- HE.
  apply (combine_errors REPEAT _ (SF2Q (Stats.ssum_loop (Stats.mean s) results)));
    [exact HR|apply squares_about_nonneg|exact Es|exact Ed].
Qed.

Lemma statistics_in_range_witness :
  let results := [310; 295; 1204; 301] in
  exists s,
    Stats.stats 4 results = Some s /\
    Stats.total results <= 200000000000000 /\
    Stats.sum_loop results = LongDouble.repr (Stats.total results) /\
    (SF2Q (Stats.sum_loop results) == inject_Z (Stats.total results))%Q /\
    is_finite_SF (Stats.mean s) = true /\
    (0 <= SF2Q (Stats.mean s) <= inject_Z 1000000000)%Q /\
    (0 < Stats.total results ->
     exists (m : positive) (e : Z),
       Stats.mean s = S754_finite false m e /\
       2 ^ 63 <= Zpos m < 2 ^ 64 /\ e <= 0 /\
       4 * (Zpos m - 1) < Stats.total results * 2 ^ (- e) < 4 * (Zpos m + 1)) /\
    is_finite_SF (Stats.ssum_loop (Stats.mean s) results) = true /\
    (0 <= SF2Q (Stats.ssum_loop (Stats.mean s) results)
       <= inject_Z (4 * 1000000000000000000))%Q /\
    Stats.stddev s
    = Double.to_long_double
        (Double.sqrt
           (Double.of_long_double
              (LongDouble.div (Stats.ssum_loop (Stats.mean s) results)
                 (LongDouble.of_Z 4)))) /\
    is_finite_SF (Stats.stddev s) = true /\
    (0 <= SF2Q (Stats.stddev s))%Q /\
    let mu := (inject_Z (Stats.total results) / inject_Z 4)%Q in
    let variance := (squares_about mu results / inject_Z 4)%Q in
    let m := SF2Q (Stats.mean s) in
    let d := SF2Q (Stats.stddev s) in
    (mu * (1 - (1 # 2 ^ 63)) <= m <= mu * (1 + (1 # 2 ^ 63)) /\
     (m - mu) * (m - mu) <= 1 # 2 ^ 66 /\
     (1 - (inject_Z 4 + 3) * (1 # 2 ^ 62)) * squares_about m results
       <= SF2Q (Stats.ssum_loop (Stats.mean s) results)
       <= (1 + (inject_Z 4 + 3) * (1 # 2 ^ 62)) * squares_about m results /\
     (1 - (1 # 2 ^ 44)) * (variance + (m - mu) * (m - mu)) <= d * d
       <= (1 + (1 # 2 ^ 44)) * (variance + (m - mu) * (m - mu)))%Q.
Proof.
  intros results. apply (statistics_in_range 4 results).
  - lia.
  - reflexivity.
  - repeat constructor; lia.
Defined.

(** C9, the claim as stated, fails.  2000 samples in range, five hundred
    times the cycle counts 3, 10^9, 10^9, 10^9: the mean, 750000000.75,
    is exact; the squared deviations sum to 374999997750000003375
    exactly, and the accumulation, which rounds once the partial sums
    need more than 64 bits, ends 2063 below that; the deviation reported
    lies 853 units in the last place of [long double] below the root of
    the exact variance, and with [sqrtl] in place of [sqrt] it would
    still lie 41 units below. *)
Lemma deviation_inexact_in_range :
  let results := concat (repeat [3; 1000000000; 1000000000; 1000000000] 500%nat) in
  Z.of_nat (length results) = 2000 /\
  forallb (fun v => (0 <=? v) && (v <=? 1000000000)) results = true /\
  exists s,
    Stats.stats 2000 results = Some s /\
    (SF2Q (Stats.mean s) == 3000000003 # 4)%Q /\
    Stats.total (map (fun v => (4 * v - 3000000003) ^ 2) results)
    = 16 * 374999997750000003375 /\
    (SF2Q (Stats.ssum_loop (Stats.mean s) results)
     == inject_Z (374999997750000003375 - 2063))%Q /\
    let ulp := (1 # 2 ^ 35)%Q in
    let variance := (374999997750000003375 # 2000)%Q in
    let with_sqrtl :=
      SF2Q (LongDouble.sqrtl
              (LongDouble.div (Stats.ssum_loop (Stats.mean s) results)
                 (LongDouble.of_Z 2000))) in
    ((SF2Q (Stats.stddev s) + 853 * ulp) * (SF2Q (Stats.stddev s) + 853 * ulp)
       <= variance /\
     variance
       < (SF2Q (Stats.stddev s) + 854 * ulp) * (SF2Q (Stats.stddev s) + 854 * ulp) /\
     (with_sqrtl + 41 * ulp) * (with_sqrtl + 41 * ulp) <= variance /\
     variance < (with_sqrtl + 42 * ulp) * (with_sqrtl + 42 * ulp))%Q.
Proof.
  split; [reflexivity|]. split; [vm_compute; reflexivity|].
  eexists. split; [vm_compute; reflexivity|].
  split; [vm_compute; reflexivity|].
  split; [vm_compute; reflexivity|].
  split; [vm_compute; reflexivity|].
  cbv zeta. split; [vm_compute; discriminate|].
  split; [vm_compute; reflexivity|].
  split; [vm_compute; discriminate|].
  vm_compute; reflexivity.
Qed.

(** ** The accumulation of the samples *)

(** X21.  The long double accumulation of the samples commits no
    rounding error while their sum stays below 2^64, the width of the
    long double mantissa: after the loop the accumulator holds the exact
    integer sum.  The same loop serves the three series of the
    row-policy experiment. *)
Theorem accumulation_exact (results : list Z) :
  Forall U64.in_range results -> Stats.total results < 2 ^ 64 ->
  Stats.sum_loop results = LongDouble.of_Z (Stats.total results) /\
  Policy.sum_access results = LongDouble.of_Z (Stats.total results) /\
  is_finite_SF (Stats.sum_loop results) = true /\
  (SF2Q (Stats.sum_loop results) == inject_Z (Stats.total results))%Q.
Proof.
  intros Hr Ht. pose proof (total_nonneg results Hr) as H0.
  change (Policy.sum_access results) with (Stats.sum_loop results).
  rewrite (sum_loop_repr results Hr Ht), of_Z_repr by lia.
  split; [reflexivity|]. split; [reflexivity|].
  destruct (Z.eq_dec (Stats.total results) 0) as [->|Hnz]; [split; reflexivity|].
  destruct (repr_value (Stats.total results) ltac:(lia)) as (m & e & -> & _ & He & Hm & _).
  split; [reflexivity|].
  destruct (SF2Q_bounds m e (Stats.total results) (Stats.total results));
    [lia|lia|]. now apply Qle_antisym.
Qed.

Lemma accumulation_exact_witness :
  Stats.sum_loop [2 ^ 63; 2 ^ 63 - 1; 0] = LongDouble.of_Z (Stats.total [2 ^ 63; 2 ^ 63 - 1; 0]) /\
  Policy.sum_access [2 ^ 63; 2 ^ 63 - 1; 0]
  = LongDouble.of_Z (Stats.total [2 ^ 63; 2 ^ 63 - 1; 0]) /\
  is_finite_SF (Stats.sum_loop [2 ^ 63; 2 ^ 63 - 1; 0]) = true /\
  Qeq (SF2Q (Stats.sum_loop [2 ^ 63; 2 ^ 63 - 1; 0]))
      (inject_Z (Stats.total [2 ^ 63; 2 ^ 63 - 1; 0])).
Proof.
  apply (accumulation_exact [2 ^ 63; 2 ^ 63 - 1; 0]).
  - repeat constructor; unfold U64.modulus; lia.
  - cbn. lia.
Defined.

(** ** The selector, as a text *)


Lemma digits_val_stop (acc : Z) (tail : string) :
  match tail with
  | EmptyString => True
  | String c _ => Sweep.digit_of c = None
  end ->
  Sweep.digits_val acc tail = acc.
Proof. destruct tail as [|c r]; [reflexivity|]. cbn. now intros ->. Qed.

Lemma digits_val_acc (d : Decimal.uint) (acc : positive) (tail : string) :
  Sweep.digits_val (Zpos acc) (NilEmpty.string_of_uint d +:+ tail)
  = Sweep.digits_val (Zpos (Pos.of_uint_acc d acc)) tail.
Proof.
  revert acc. induction d; intros acc; cbn [NilEmpty.string_of_uint Pos.of_uint_acc];
    rewrite ?sapp_nil_l, ?sapp_cons; try reflexivity;
    cbn [Sweep.digits_val]; (rewrite <- IHd; f_equal; cbn; lia).
Qed.

Lemma digits_val_uint (d : Decimal.uint) (tail : string) :
  Sweep.digits_val 0 (NilEmpty.string_of_uint d +:+ tail)
  = Sweep.digits_val (Z.of_N (Pos.of_uint d)) tail.
Proof.
  induction d; cbn [NilEmpty.string_of_uint Pos.of_uint Z.of_N];
    rewrite ?sapp_nil_l, ?sapp_cons; try reflexivity; try exact IHd;
    rewrite <- digits_val_acc; reflexivity.
Qed.





(** ** The selector argument, character by character *)

Lemma skip_spaces_app (ws rest : string) :
  Forall (fun c => In (N_of_ascii c) [32; 9; 10; 11; 12; 13]%N)
    (list_ascii_of_string ws) ->
  Sweep.skip_spaces (ws +:+ rest) = Sweep.skip_spaces rest.
Proof.
  induction ws as [|c ws IH]; intros H; [now rewrite sapp_nil_l|].
  cbn [list_ascii_of_string] in H. inversion H as [|? ? Hc Hws]; subst.
  rewrite sapp_cons. cbn [Sweep.skip_spaces].
  assert (Hsp : Sweep.is_space c = true).
  { unfold Sweep.is_space.
    destruct Hc as [E|[E|[E|[E|[E|[E|[]]]]]]]; rewrite <- E; reflexivity. }
  rewrite Hsp. now apply IH.
Qed.

Lemma digit_of_none (c : ascii) :
  ~ (48 <= N_of_ascii c <= 57)%N -> Sweep.digit_of c = None.
Proof.
  intros H. unfold Sweep.digit_of.
  destruct (Z.leb_spec 48 (Z.of_N (N_of_ascii c)));
    destruct (Z.leb_spec (Z.of_N (N_of_ascii c)) 57); try reflexivity.
  exfalso. apply H. lia.
Qed.

Lemma is_space_false (c : ascii) :
  ~ In (N_of_ascii c) [32; 9; 10; 11; 12; 13; 43; 45]%N ->
  Sweep.is_space c = false /\ c <> "+"%char /\ c <> "-"%char.
Proof.
  intros H. split; [|split].
  - unfold Sweep.is_space.
    destruct (N_of_ascii c) as [|p] eqn:E; [reflexivity|].
    do 6 (destruct p as [p|p|]; try reflexivity;
          try (exfalso; apply H; cbn; tauto)).
  - intros ->. apply H. cbn. tauto.
  - intros ->. apply H. cbn. tauto.
Qed.

Lemma digits_val_number (d : Decimal.uint) (tail : string) :
  match tail with
  | EmptyString => True
  | String c _ => Sweep.digit_of c = None
  end ->
  Sweep.digits_val 0 (NilEmpty.string_of_uint d +:+ tail) = Z.of_N (N.of_uint d).
Proof.
  intros Htail. rewrite digits_val_uint. now apply digits_val_stop.
Qed.

Lemma uint_head (d : Decimal.uint) :
  d <> Decimal.Nil ->
  exists c r, NilEmpty.string_of_uint d = String c r /\ Csv.is_digit c = true.
Proof.
  destruct d; intros H; try contradiction; cbn [NilEmpty.string_of_uint];
    do 2 eexists; (split; [reflexivity|reflexivity]).
Qed.

(** The branch of [strtol] taken by a text that opens with neither white
    space nor a sign. *)
Lemma strtol_unsigned (c : ascii) (r : string) :
  Sweep.is_space c = false -> c <> "+"%char -> c <> "-"%char ->
  Sweep.strtol (String c r) = Sweep.clamp_long (Sweep.digits_val 0 (String c r)).
Proof.
  intros Hsp Hplus Hminus. unfold Sweep.strtol. cbn [Sweep.skip_spaces].
  rewrite Hsp.
  destruct c as [[] [] [] [] [] [] [] []]; try reflexivity;
    first [now contradict Hminus | now contradict Hplus].
Qed.

(** [strtol] on any text: white space, an optional sign, digits, and a
    rest that does not continue the number. *)
Lemma strtol_text (ws sign tail : string) (d : Decimal.uint) :
  Forall (fun c => In (N_of_ascii c) [32; 9; 10; 11; 12; 13]%N)
    (list_ascii_of_string ws) ->
  sign = "" \/ sign = "+" \/ sign = "-" ->
  match tail with
  | EmptyString => True
  | String c _ =>
      ~ (48 <= N_of_ascii c <= 57)%N /\
      (sign = "" -> d = Decimal.Nil ->
       ~ In (N_of_ascii c) [32; 9; 10; 11; 12; 13; 43; 45]%N)
  end ->
  Sweep.strtol (ws +:+ sign +:+ NilEmpty.string_of_uint d +:+ tail)
  = Z.max (- 2 ^ 63)
      (Z.min (2 ^ 63 - 1)
         (if String.eqb sign "-" then - Z.of_N (N.of_uint d)
          else Z.of_N (N.of_uint d))).
Proof.
  intros Hws Hsign Htail.
  assert (Hdig : match tail with
                 | EmptyString => True
                 | String c _ => Sweep.digit_of c = None
                 end).
  { destruct tail as [|c r]; [exact I|]. apply digit_of_none, Htail. }
  pose proof (digits_val_number d tail Hdig) as Hval.
  assert (Hskip : forall rest,
             Sweep.strtol (ws +:+ rest) = Sweep.strtol rest).
  { intros rest. unfold Sweep.strtol. now rewrite skip_spaces_app. }
  rewrite Hskip. fold (Sweep.clamp_long
    (if String.eqb sign "-" then - Z.of_N (N.of_uint d) else Z.of_N (N.of_uint d))).
  destruct Hsign as [->|[->| ->]].
  - rewrite sapp_nil_l. change (String.eqb "" "-") with false. cbv iota.
    rewrite <- Hval.
    destruct (NilEmpty.string_of_uint d +:+ tail) as [|c r] eqn:E; [reflexivity|].
    assert (Hc : Sweep.is_space c = false /\ c <> "+"%char /\ c <> "-"%char).
    { destruct d eqn:Ed;
        try (cbn [NilEmpty.string_of_uint] in E; rewrite sapp_cons in E;
             injection E as <- _; repeat split; discriminate).
      cbn [NilEmpty.string_of_uint] in E. rewrite sapp_nil_l in E. subst tail.
      apply is_space_false. now apply Htail. }
    destruct Hc as (Hsp & Hplus & Hminus).
    now apply strtol_unsigned.
  - rewrite sapp_cons, sapp_nil_l. change (String.eqb "+" "-") with false. cbv iota.
    rewrite <- Hval. reflexivity.
  - rewrite sapp_cons, sapp_nil_l. change (String.eqb "-" "-") with true. cbv iota.
    rewrite <- Hval. reflexivity.
Qed.

(** C6 (as amended).  The argument is read as [atoi] reads it: after any
    leading white space and an optional sign, the decimal digits up to
    the first other character make the number (0 when there is no
    digit), which is clamped to [long] and reduced modulo 2^32 to an
    [int]; what follows the digits is ignored.  When that [int] is a
    member [x] of the exponent set the run measures the single size
    [2^x] and writes the single CSV file named for it; otherwise the run
    measures all thirteen sizes.  In both cases the process returns 0 and
    prints no diagnostic of its own. *)
Theorem selector_reads_argument (prog ws sign tail : string) (d : Decimal.uint)
    (rest : list string) (o : Sweep.oracle) :
  (forall si, Sweep.all_ok o si) ->
  Forall (fun c => In (N_of_ascii c) [32; 9; 10; 11; 12; 13]%N)
    (list_ascii_of_string ws) ->
  sign = "" \/ sign = "+" \/ sign = "-" ->
  match tail with
  | EmptyString => True
  | String c _ =>
      ~ (48 <= N_of_ascii c <= 57)%N /\
      (sign = "" -> d = Decimal.Nil ->
       ~ In (N_of_ascii c) [32; 9; 10; 11; 12; 13; 43; 45]%N)
  end ->
  let arg := ws +:+ sign +:+ NilEmpty.string_of_uint d +:+ tail in
  let number := if String.eqb sign "-" then - Z.of_N (N.of_uint d)
                else Z.of_N (N.of_uint d) in
  let as_long := Z.max (- 2 ^ 63) (Z.min (2 ^ 63 - 1) number) in
  let x := (as_long + 2 ^ 31) mod 2 ^ 32 - 2 ^ 31 in
  exists w,
    Sweep.main (prog :: arg :: rest) o Sweep.initial = Sweep.Exit 0 w /\
    (Sweep.mlockall_ok o = true -> Sweep.stderr w = []) /\
    (In x Sweep.exponents ->
       Sweep.measured w = [2 ^ x] /\
       Sweep.written w = [Csv.fname x (2 ^ x)] /\
       dom (Sweep.files w) = {[Csv.fname x (2 ^ x)]}) /\
    (~ In x Sweep.exponents ->
       Sweep.measured w = map (fun e => 2 ^ e) Sweep.exponents /\
       length (Sweep.measured w) = 13%nat /\
       Sweep.written w = map (fun e => Csv.fname e (2 ^ e)) Sweep.exponents).
Proof.
  intros Hok Hws Hsign Htail arg number as_long x.
  assert (Hx : Sweep.atoi (nth 1 (prog :: arg :: rest) EmptyString) = x).
  { cbn [nth]. unfold Sweep.atoi, arg. rewrite strtol_text by assumption.
    reflexivity. }
  destruct (selector_one_or_all (prog :: arg :: rest) o)
    as (w & Hmain & Herr & Hone & Hall); [cbn [length]; lia|exact Hok|].
  rewrite Hx in Hone, Hall.
  exists w. split; [exact Hmain|]. split; [exact Herr|]. split; assumption.
Qed.

(** The argument [12] selects the 4096-byte configuration alone and
    leaves one file, named for size 4096. *)
Lemma selector_reads_argument_witness :
  exists w,
    Sweep.main ["./memtest_allsizes"; "12"] (Sweep.example_oracle []) Sweep.initial
    = Sweep.Exit 0 w /\
    Sweep.stderr w = [] /\
    Sweep.measured w = [4096] /\
    Sweep.written w = ["memcpy_2pow12_4096b.csv"] /\
    dom (Sweep.files w) = {["memcpy_2pow12_4096b.csv"]}.
Proof.
  destruct (selector_reads_argument "./memtest_allsizes" "" "" ""
              (Decimal.D1 (Decimal.D2 Decimal.Nil)) [] (Sweep.example_oracle []))
    as (w & Hmain & Herr & Hone & _).
  - intros si. repeat split.
  - constructor.
  - now left.
  - exact I.
  - exists w. split; [exact Hmain|]. split; [now apply Herr|].
    apply Hone. cbn. tauto.
Defined.

(** C6, the claim as stated, fails.  The argument [4294967308] is the
    number 2^32 + 12, which is not a member of the exponent set, and the
    argument [12abc] is not a number at all; with either the run
    measures the 4096-byte configuration alone, not the thirteen sizes. *)
Lemma selector_value_outside_set :
  ~ In 4294967308 Sweep.exponents /\
  Sweep.digits_val 0 "4294967308" = 4294967308 /\
  forall arg, arg = "4294967308" \/ arg = "12abc" ->
    exists w,
      Sweep.main ["./memtest_allsizes"; arg] (Sweep.example_oracle []) Sweep.initial
      = Sweep.Exit 0 w /\
      Sweep.measured w = [4096] /\
      Sweep.written w = ["memcpy_2pow12_4096b.csv"] /\
      Sweep.measured w <> map (fun e => 2 ^ e) Sweep.exponents.
Proof.
  split; [cbn; intuition discriminate|]. split; [reflexivity|].
  assert (Hok : forall si, Sweep.all_ok (Sweep.example_oracle []) si)
    by (intros si; repeat split).
  assert (Hrun : forall arg, Sweep.atoi arg = 12 ->
            exists w,
              Sweep.main ["./memtest_allsizes"; arg] (Sweep.example_oracle [])
                Sweep.initial = Sweep.Exit 0 w /\
              Sweep.measured w = [4096] /\
              Sweep.written w = ["memcpy_2pow12_4096b.csv"] /\
              Sweep.measured w <> map (fun e => 2 ^ e) Sweep.exponents).
  { intros arg Ha.
    destruct (selector_one_or_all ["./memtest_allsizes"; arg] (Sweep.example_oracle []))
      as (w & Hmain & _ & Hone & _); [cbn [length]; lia|exact Hok|].
    cbn [nth] in Hone. rewrite Ha in Hone.
    destruct Hone as (Hm & Hw & _); [cbn; tauto|].
    exists w. split; [exact Hmain|]. split; [exact Hm|]. split; [exact Hw|].
    rewrite Hm. discriminate. }
  intros arg [-> | ->]; apply Hrun; reflexivity.
Qed.

(** ** The row-policy experiment, from the counter to the conclusion *)

Lemma total_map_le (f g : Z -> Z) (l : list Z) :
  (forall i, In i l -> f i <= g i) ->
  Stats.total (map f l) <= Stats.total (map g l).
Proof.
  induction l as [|x l IH]; intros H; [reflexivity|].
  cbn [map]. rewrite !total_cons.
  pose proof (H x ltac:(now left)).
  assert (Stats.total (map f l) <= Stats.total (map g l))
    by (apply IH; intros; apply H; now right).
  lia.
Qed.

Lemma total_map_double (f : Z -> Z) (l : list Z) :
  Stats.total (map (fun i => 2 * f i) l) = 2 * Stats.total (map f l).
Proof.
  induction l as [|x l IH]; [reflexivity|].
  cbn [map]. rewrite !total_cons, IH. lia.
Qed.

Lemma total_map_bounds (f : Z -> Z) (n lo hi : Z) :
  0 <= n ->
  (forall i, 0 <= i < n -> lo <= f i <= hi) ->
  n * lo <= Stats.total (map f (seqZ 0 n)) <= n * hi.
Proof.
  intros Hn H.
  pose proof (total_bounds (map f (seqZ 0 n)) lo hi) as Hb.
  rewrite length_map, length_seqZ, Z2Nat.id in Hb by lia.
  apply Hb. intros x Hx. apply in_map_iff in Hx as (i & <- & Hi).
  apply list_elem_of_In, elem_of_seqZ in Hi. apply H. lia.
Qed.

Lemma main_announces (o : RowPolicy.oracle) :
  RowPolicy.memalign_row1_ok o = true -> RowPolicy.memalign_row2_ok o = true ->
  fst (RowPolicy.main o RowPolicy.initial) = 0 /\
  RowPolicy.announced (snd (RowPolicy.main o RowPolicy.initial))
  = [Policy.conclusion (RowPolicy.first_access o) (RowPolicy.second_access o)].
Proof.
  intros H1 H2. unfold RowPolicy.main. rewrite H1, H2. cbn [negb orb fst snd].
  split; [reflexivity|].
  rewrite announced_prints.
  unfold Policy.conclusion, Policy.classify, RowPolicy.conclusion_lines.
  generalize (Policy.speedup_ratio (Policy.mean_access (RowPolicy.first_access o))
                (Policy.mean_access (RowPolicy.second_access o))).
  generalize (LongDouble.div (Policy.mean_access (RowPolicy.first_access o))
                (Policy.mean_access (RowPolicy.second_access o))).
  generalize (Policy.mean_access (RowPolicy.first_access o)).
  generalize (Policy.mean_access (RowPolicy.second_access o)).
  generalize (Policy.mean_access (RowPolicy.different_row_access o)).
  intros m3 m2 m1 q r.
  destruct (RowPolicy.mlockall_ok o), (Double.gtb r Policy.threshold); reflexivity.
Qed.

(** X28.  From the counter readings to the printed conclusion: when both
    rows are allocated, every access takes between 1 and 2^40 cycles,
    and in each of the 100000 iterations the first access takes at least
    twice as long as the second one, the program announces OPEN-ROW;
    when in each iteration it takes no longer than the second one, the
    program announces CLOSED-ROW.  In both cases it returns 0. *)
Theorem row_policy_end_to_end (o : RowPolicy.oracle) :
  RowPolicy.memalign_row1_ok o = true -> RowPolicy.memalign_row2_ok o = true ->
  (forall i, 0 <= i < Policy.TEST_ITERATIONS ->
     1 <= Tsc.elapsed (RowPolicy.start1 o i) (RowPolicy.end1 o i) <= 2 ^ 40 /\
     1 <= Tsc.elapsed (RowPolicy.start2 o i) (RowPolicy.end2 o i) <= 2 ^ 40) ->
  fst (RowPolicy.main o RowPolicy.initial) = 0 /\
  ((forall i, 0 <= i < Policy.TEST_ITERATIONS ->
      2 * Tsc.elapsed (RowPolicy.start2 o i) (RowPolicy.end2 o i)
      <= Tsc.elapsed (RowPolicy.start1 o i) (RowPolicy.end1 o i)) ->
   RowPolicy.announced (snd (RowPolicy.main o RowPolicy.initial)) = [Policy.OpenRow]) /\
  ((forall i, 0 <= i < Policy.TEST_ITERATIONS ->
      Tsc.elapsed (RowPolicy.start1 o i) (RowPolicy.end1 o i)
      <= Tsc.elapsed (RowPolicy.start2 o i) (RowPolicy.end2 o i)) ->
   RowPolicy.announced (snd (RowPolicy.main o RowPolicy.initial)) = [Policy.ClosedRow]).
Proof.
  intros H1 H2 Hb.
  destruct (main_announces o H1 H2) as [Hret Hann].
  split; [exact Hret|]. rewrite Hann.
  set (f1 := fun i => Tsc.elapsed (RowPolicy.start1 o i) (RowPolicy.end1 o i)) in *.
  set (f2 := fun i => Tsc.elapsed (RowPolicy.start2 o i) (RowPolicy.end2 o i)) in *.
  assert (Hn : 0 <= Policy.TEST_ITERATIONS) by (unfold Policy.TEST_ITERATIONS; lia).
  assert (Ht1 : 0 < Stats.total (RowPolicy.first_access o) < 2 ^ 64).
  { pose proof (total_map_bounds f1 Policy.TEST_ITERATIONS 1 (2 ^ 40) Hn
                  ltac:(intros i Hi; apply (Hb i Hi))) as Ht.
    change (map f1 (seqZ 0 Policy.TEST_ITERATIONS)) with (RowPolicy.first_access o) in Ht.
    unfold Policy.TEST_ITERATIONS in Ht. lia. }
  assert (Ht2 : 0 < Stats.total (RowPolicy.second_access o) < 2 ^ 64).
  { pose proof (total_map_bounds f2 Policy.TEST_ITERATIONS 1 (2 ^ 40) Hn
                  ltac:(intros i Hi; apply (Hb i Hi))) as Ht.
    change (map f2 (seqZ 0 Policy.TEST_ITERATIONS)) with (RowPolicy.second_access o) in Ht.
    unfold Policy.TEST_ITERATIONS in Ht. lia. }
  destruct (conclusion_by_totals (RowPolicy.first_access o) (RowPolicy.second_access o))
    as [Hopen Hclosed];
    [apply access_range|apply access_range|exact Ht1|exact Ht2|].
  split; intros Hcmp; f_equal.
  - apply Hopen.
    change (RowPolicy.first_access o) with (map f1 (seqZ 0 Policy.TEST_ITERATIONS)).
    change (RowPolicy.second_access o) with (map f2 (seqZ 0 Policy.TEST_ITERATIONS)).
    rewrite <- total_map_double. apply total_map_le.
    intros i Hi. apply list_elem_of_In, elem_of_seqZ in Hi. apply Hcmp. lia.
  - apply Hclosed.
    change (RowPolicy.first_access o) with (map f1 (seqZ 0 Policy.TEST_ITERATIONS)).
    change (RowPolicy.second_access o) with (map f2 (seqZ 0 Policy.TEST_ITERATIONS)).
    apply total_map_le.
    intros i Hi. apply list_elem_of_In, elem_of_seqZ in Hi. apply Hcmp. lia.
Qed.

Lemma example_elapsed (a d : Z) : 0 <= d < U64.modulus -> Tsc.elapsed a (a + d) = d.
Proof.
  intros Hd. unfold Tsc.elapsed, U64.sub, U64.wrap.
  replace (a + d - a) with d by lia. now apply Z.mod_small.
Qed.

Lemma row_policy_end_to_end_witness :
  fst (RowPolicy.main (RowPolicy.example_oracle 100) RowPolicy.initial) = 0 /\
  ((forall i, 0 <= i < Policy.TEST_ITERATIONS ->
      2 * Tsc.elapsed (RowPolicy.start2 (RowPolicy.example_oracle 100) i)
            (RowPolicy.end2 (RowPolicy.example_oracle 100) i)
      <= Tsc.elapsed (RowPolicy.start1 (RowPolicy.example_oracle 100) i)
           (RowPolicy.end1 (RowPolicy.example_oracle 100) i)) ->
   RowPolicy.announced (snd (RowPolicy.main (RowPolicy.example_oracle 100) RowPolicy.initial))
   = [Policy.OpenRow]) /\
  ((forall i, 0 <= i < Policy.TEST_ITERATIONS ->
      Tsc.elapsed (RowPolicy.start1 (RowPolicy.example_oracle 100) i)
        (RowPolicy.end1 (RowPolicy.example_oracle 100) i)
      <= Tsc.elapsed (RowPolicy.start2 (RowPolicy.example_oracle 100) i)
           (RowPolicy.end2 (RowPolicy.example_oracle 100) i)) ->
   RowPolicy.announced (snd (RowPolicy.main (RowPolicy.example_oracle 100) RowPolicy.initial))
   = [Policy.ClosedRow]).
Proof.
  apply (row_policy_end_to_end (RowPolicy.example_oracle 100)).
  - reflexivity.
  - reflexivity.
  - intros i Hi.
    cbn [RowPolicy.example_oracle RowPolicy.start1 RowPolicy.end1
         RowPolicy.start2 RowPolicy.end2].
    rewrite !example_elapsed by (unfold U64.modulus; lia). lia.
Defined.

(** ** The linked list *)

Import LinkedList.

Lemma chain_length (h : gmap Z node) (p : Z) (addrs vals : list Z) :
  chain h p addrs vals -> length addrs = length vals.
Proof.
  revert p vals. induction addrs as [|a addrs IH]; intros p vals H.
  - destruct vals; [reflexivity|cbn in H; contradiction].
  - destruct vals as [|v vals]; [cbn in H; contradiction|].
    cbn in H. destruct H as (_ & _ & q & _ & H). cbn. f_equal. eapply IH, H.
Qed.

Lemma chain_in_heap (h : gmap Z node) (p : Z) (addrs vals : list Z) (a : Z) :
  chain h p addrs vals -> In a addrs -> a <> NULL /\ is_Some (h !! a).
Proof.
  revert p vals. induction addrs as [|b addrs IH]; intros p vals H Hin.
  - destruct Hin.
  - destruct vals as [|v vals]; [cbn in H; contradiction|].
    cbn in H. destruct H as (-> & Hb & q & Hq & H).
    destruct Hin as [<-|Hin]; [split; [exact Hb|eauto]|]. eapply IH; eauto.
Qed.

(** A chain only depends on the nodes it goes through. *)
Lemma chain_agree (h h' : gmap Z node) (p : Z) (addrs vals : list Z) :
  (forall a, In a addrs -> h' !! a = h !! a) ->
  chain h p addrs vals -> chain h' p addrs vals.
Proof.
  revert p vals. induction addrs as [|b addrs IH]; intros p vals Hag H.
  - exact H.
  - destruct vals as [|v vals]; [cbn in H; contradiction|].
    cbn in H |- *. destruct H as (-> & Hb & q & Hq & H).
    split; [reflexivity|]. split; [exact Hb|]. exists q. split.
    + rewrite Hag by now left. exact Hq.
    + apply IH; [|exact H]. intros a Ha. apply Hag. now right.
Qed.

Lemma load_nodes (st : state) (p : Z) (n : node) :
  nodes st !! p = Some n -> load st p = Done n.
Proof. unfold load. now intros ->. Qed.

Lemma bind_done {A B} (a : A) (f : A -> outcome B) : (Done a ≫= f) = f a.
Proof. reflexivity. Qed.

Lemma store_next_done (st : state) (p q : Z) (n : node) :
  nodes st !! p = Some n ->
  store_next st p q
  = Done (with_nodes (<[p := {| data := data n; next := q |}]> (nodes st)) st).
Proof. intros H. unfold store_next. now rewrite (load_nodes _ _ _ H). Qed.

Lemma store_data_done (st : state) (p d : Z) (n : node) :
  nodes st !! p = Some n ->
  store_data st p d
  = Done (with_nodes (<[p := {| data := d; next := next n |}]> (nodes st)) st).
Proof. intros H. unfold store_data. now rewrite (load_nodes _ _ _ H). Qed.

(** *** [insert] *)

(** The walk to the last node, and what the list becomes once that node
    points to a new last node. *)
Lemma walk_to_last_chain (st : state) (x a : Z) (fuel : nat) (addrs vals : list Z)
    (p v : Z) :
  chain (nodes st) p (p :: addrs) (v :: vals) ->
  (length addrs < fuel)%nat ->
  exists z vz,
    walk_to_last fuel st p = Done z /\
    nodes st !! z = Some {| data := vz; next := NULL |} /\
    In z (p :: addrs) /\
    (forall hf,
       hf !! z = Some {| data := vz; next := a |} ->
       hf !! a = Some {| data := x; next := NULL |} ->
       a <> NULL ->
       (forall b, In b (p :: addrs) -> b <> z -> hf !! b = nodes st !! b) ->
       NoDup (p :: addrs) ->
       chain hf p (p :: addrs ++ [a]) (v :: vals ++ [x])).
Proof.
  revert fuel vals p v. induction addrs as [|a1 addrs IH]; intros fuel vals p v H Hfuel.
  - destruct vals as [|v1 vals]; cbn in H; [|destruct H as (_ & _ & q & _ & [])].
    destruct H as (_ & Hp & q & Hq & ->).
    destruct fuel as [|fuel]; [cbn in Hfuel; lia|].
    exists p, v. cbn [walk_to_last]. rewrite (load_nodes _ _ _ Hq), bind_done.
    cbn [next]. rewrite Z.eqb_refl.
    split; [reflexivity|]. split; [exact Hq|]. split; [now left|].
    intros hf Hz Ha Hna _ _. cbn.
    split; [reflexivity|]. split; [exact Hp|]. exists a. split; [exact Hz|].
    split; [reflexivity|]. split; [exact Hna|]. exists NULL. split; [exact Ha|reflexivity].
  - destruct vals as [|v1 vals]; [cbn in H; destruct H as (_ & _ & q & _ & [])|].
    cbn [chain] in H. destruct H as (_ & Hp & q & Hq & H).
    assert (Hq1 : q = a1) by (cbn in H; tauto). subst q.
    assert (Ha1 : a1 <> NULL) by (cbn in H; tauto).
    destruct fuel as [|fuel]; [cbn in Hfuel; lia|].
    destruct (IH fuel vals a1 v1 H ltac:(cbn in Hfuel; lia)) as (z & vz & Hw & Hz & Hin & Hk).
    exists z, vz. cbn [walk_to_last]. rewrite (load_nodes _ _ _ Hq), bind_done.
    cbn [next]. rewrite (proj2 (Z.eqb_neq a1 NULL) Ha1).
    split; [exact Hw|]. split; [exact Hz|]. split; [now right|].
    intros hf Hfz Hfa Hna Hag Hnd.
    apply NoDup_cons in Hnd as [Hpn Hnd].
    assert (Hpz : p <> z) by (intros ->; apply Hpn, list_elem_of_In, Hin).
    cbn [app chain]. split; [reflexivity|]. split; [exact Hp|].
    exists a1. split; [rewrite Hag by (auto; now left); exact Hq|].
    apply Hk; auto. intros b Hb Hbz. apply Hag; [now right|exact Hbz].
Qed.

Lemma all_in_heap (st : state) (start : Z) (addrs vals : list Z) (a : Z) :
  is_list st start addrs vals -> In a (start :: addrs) ->
  a <> NULL /\ is_Some (nodes st !! a).
Proof. intros [[g H] _] Hin. eapply chain_in_heap; eauto. Qed.

Lemma insert_appends_at (fuel : nat) (e : env) (st : state) (start x : Z)
    (addrs vals : list Z) :
  is_list st start addrs vals ->
  (length addrs < fuel)%nat ->
  malloc e (allocated st) <> NULL ->
  malloc e (allocated st) ∉ allocated st ->
  exists st',
    insert fuel e st start x = Done st' /\
    is_list st' start (addrs ++ [malloc e (allocated st)]) (vals ++ [x]) /\
    blocks st' = blocks st /\ out st' = out st /\
    dom (nodes st') = {[malloc e (allocated st)]} ∪ dom (nodes st) /\
    (forall b, ~ In b (start :: addrs) -> b <> malloc e (allocated st) ->
               nodes st' !! b = nodes st !! b).
Proof.
  intros Hl Hfuel Hnn Hfresh.
  set (a := malloc e (allocated st)) in *.
  destruct Hl as ([g Hc] & Hnd & Hnull).
  destruct (walk_to_last_chain st x a fuel addrs vals start g Hc Hfuel)
    as (z & vz & Hw & Hz & Hin & Hk).
  assert (Hah : nodes st !! a = None).
  { apply not_elem_of_dom. intros Hin'. apply Hfresh, elem_of_union. now left. }
  assert (Haz : a <> z) by (intros E; rewrite E in Hah; congruence).
  unfold insert. rewrite Hw, bind_done. unfold malloc_node. fold a.
  rewrite (proj2 (Z.eqb_neq a NULL) Hnn).
  set (st1 := with_nodes (<[a:=junk e a]> (nodes st)) st).
  assert (H1 : nodes st1 !! z = Some {| data := vz; next := NULL |})
    by (cbn; rewrite lookup_insert_ne by exact Haz; exact Hz).
  rewrite (store_next_done st1 z a _ H1), bind_done. cbn [data].
  set (st2 := with_nodes _ st1).
  assert (H2 : nodes st2 !! z = Some {| data := vz; next := a |})
    by (cbn; apply lookup_insert_eq).
  rewrite (load_nodes st2 z _ H2), bind_done. cbn [next].
  assert (H3 : nodes st2 !! a = Some (junk e a)).
  { cbn. rewrite lookup_insert_ne by congruence. apply lookup_insert_eq. }
  rewrite (store_data_done st2 a x _ H3), bind_done.
  set (st3 := with_nodes _ st2).
  assert (H4 : nodes st3 !! a = Some {| data := x; next := next (junk e a) |})
    by (cbn; apply lookup_insert_eq).
  rewrite (store_next_done st3 a NULL _ H4). cbn [data].
  clear H1 H2 H3 H4. subst st3 st2 st1. cbn [with_nodes nodes blocks out].
  eexists. split; [reflexivity|]. unfold is_list. cbn [nodes blocks out with_nodes].
  split; [|split; [reflexivity|split; [reflexivity|split]]].
  - split; [|split].
    + exists g. apply Hk; [| |exact Hnn| |exact Hnd].
      * rewrite !lookup_insert_ne by exact Haz. apply lookup_insert_eq.
      * apply lookup_insert_eq.
      * intros b Hb Hbz.
        assert (b <> a).
        { intros ->. destruct (chain_in_heap _ _ _ _ a Hc Hb) as [_ [n Hn]]. congruence. }
        rewrite !lookup_insert_ne by congruence. reflexivity.
    + rewrite app_comm_cons. apply NoDup_app. split; [exact Hnd|]. split.
      * intros b Hb Hba. apply list_elem_of_singleton in Hba. subst b.
        apply list_elem_of_In in Hb.
        destruct (chain_in_heap _ _ _ _ a Hc Hb) as [_ [n Hn]]. congruence.
      * apply NoDup_singleton.
    + assert (z <> NULL) by (intros E; rewrite E in Hz; congruence).
      rewrite !lookup_insert_ne by congruence. exact Hnull.
  - rewrite !dom_insert_L.
    assert (Hzd : {[z]} ∪ dom (nodes st) = dom (nodes st)).
    { apply subseteq_union_1_L, singleton_subseteq_l, elem_of_dom. eauto. }
    rewrite (assoc_L (∪) {[a]} {[a]}), (idemp_L (∪) {[a]}).
    rewrite (assoc_L (∪) {[z]} {[a]}), (comm_L (∪) {[z]} {[a]}), <- (assoc_L (∪) {[a]} {[z]}).
    rewrite (assoc_L (∪) {[a]} {[a]}), (idemp_L (∪) {[a]}).
    now rewrite Hzd.
  - intros b Hb Hba.
    assert (b <> z) by (intros ->; contradiction).
    rewrite !lookup_insert_ne by congruence. reflexivity.
Qed.

Lemma insert_without_memory (fuel : nat) (e : env) (st : state) (start x : Z)
    (addrs vals : list Z) :
  is_list st start addrs vals ->
  (length addrs < fuel)%nat ->
  malloc e (allocated st) = NULL ->
  insert fuel e st start x = Fault.
Proof.
  intros ([g Hc] & Hnd & Hnull) Hfuel Hm.
  destruct (walk_to_last_chain st x NULL fuel addrs vals start g Hc Hfuel)
    as (z & vz & Hw & Hz & Hin & _).
  assert (Hzn : z <> NULL) by (intros E; rewrite E in Hz; congruence).
  unfold insert. rewrite Hw, bind_done. unfold malloc_node. rewrite Hm, Z.eqb_refl.
  rewrite (store_next_done st z NULL _ Hz), bind_done. cbn [data].
  set (st1 := with_nodes _ st).
  assert (H1 : nodes st1 !! z = Some {| data := vz; next := NULL |})
    by (cbn; apply lookup_insert_eq).
  rewrite (load_nodes st1 z _ H1), bind_done. cbn [next].
  unfold store_data, load. cbn [nodes st1 with_nodes].
  rewrite lookup_insert_ne by exact Hzn. rewrite Hnull. reflexivity.
Qed.

(** *** [find] *)

Lemma find_loop_chain (st : state) (key : Z) (fuel : nat) (addrs vals : list Z) (q : Z) :
  chain (nodes st) q addrs vals ->
  (length addrs < fuel)%nat ->
  find_loop fuel st q key = Done (if bool_decide (key ∈ vals) then 1 else 0).
Proof.
  revert fuel vals q. induction addrs as [|a addrs IH]; intros fuel vals q H Hfuel.
  - destruct vals; [|cbn in H; contradiction]. cbn in H. subst q.
    destruct fuel; [cbn in Hfuel; lia|]. reflexivity.
  - destruct vals as [|v vals]; [cbn in H; contradiction|].
    cbn in H. destruct H as (-> & Ha & q' & Hq & H).
    destruct fuel as [|fuel]; [cbn in Hfuel; lia|].
    cbn [find_loop]. rewrite (proj2 (Z.eqb_neq a NULL) Ha).
    rewrite (load_nodes _ _ _ Hq), bind_done. cbn [data next].
    destruct (Z.eqb_spec v key) as [->|Hne].
    + rewrite bool_decide_eq_true_2 by apply list_elem_of_here. reflexivity.
    + rewrite (IH fuel vals q' H) by (cbn in Hfuel; lia).
      f_equal. apply (f_equal (fun b : bool => if b then 1 else 0)).
      apply bool_decide_ext. rewrite elem_of_cons. intuition congruence.
Qed.

(** *** [delete] *)

Lemma delete_loop_absent (st : state) (x : Z) (fuel : nat) (addrs vals : list Z)
    (p v : Z) :
  chain (nodes st) p (p :: addrs) (v :: vals) ->
  ~ In x vals ->
  (length addrs < fuel)%nat ->
  exists z vz,
    delete_loop fuel st p x = Done z /\
    nodes st !! z = Some {| data := vz; next := NULL |}.
Proof.
  revert fuel vals p v. induction addrs as [|a1 addrs IH]; intros fuel vals p v H Hx Hfuel.
  - destruct vals as [|v1 vals]; cbn in H; [|destruct H as (_ & _ & q & _ & [])].
    destruct H as (_ & Hp & q & Hq & ->).
    destruct fuel as [|fuel]; [cbn in Hfuel; lia|].
    exists p, v. cbn [delete_loop]. rewrite (load_nodes _ _ _ Hq), bind_done.
    cbn [next]. rewrite Z.eqb_refl. split; [reflexivity|exact Hq].
  - destruct vals as [|v1 vals]; [cbn in H; destruct H as (_ & _ & q & _ & [])|].
    cbn [chain] in H. destruct H as (_ & Hp & q & Hq & H).
    pose proof H as H'. cbn in H'. destruct H' as (-> & Ha1 & q1 & Hq1 & _).
    destruct fuel as [|fuel]; [cbn in Hfuel; lia|].
    destruct (IH fuel vals a1 v1 H ltac:(intros Hin; apply Hx; now right)
                ltac:(cbn in Hfuel; lia)) as (z & vz & Hd & Hz).
    exists z, vz. cbn [delete_loop]. rewrite (load_nodes _ _ _ Hq), bind_done.
    cbn [next]. rewrite (proj2 (Z.eqb_neq a1 NULL) Ha1).
    rewrite (load_nodes _ _ _ Hq1), bind_done. cbn [data].
    rewrite (proj2 (Z.eqb_neq v1 x)) by (intros ->; apply Hx; now left).
    split; [exact Hd|exact Hz].
Qed.

Lemma delete_loop_present (st : state) (x a : Z) (fuel : nat)
    (apre apost pre post : list Z) (p v : Z) :
  chain (nodes st) p (p :: apre ++ a :: apost) (v :: pre ++ x :: post) ->
  length apre = length pre ->
  ~ In x pre ->
  (length apre < fuel)%nat ->
  exists z vz t,
    delete_loop fuel st p x = Done z /\
    nodes st !! z = Some {| data := vz; next := a |} /\
    nodes st !! a = Some {| data := x; next := t |} /\
    a <> NULL /\
    In z (p :: apre) /\
    (forall hf,
       hf !! z = Some {| data := vz; next := t |} ->
       (forall b, In b (p :: apre ++ apost) -> b <> z -> hf !! b = nodes st !! b) ->
       NoDup (p :: apre ++ a :: apost) ->
       chain hf p (p :: apre ++ apost) (v :: pre ++ post)).
Proof.
  revert fuel pre p v. induction apre as [|a1 apre IH]; intros fuel pre p v H Hlen Hx Hfuel.
  - destruct pre; [|discriminate Hlen]. cbn [app] in *.
    cbn [chain] in H. destruct H as (_ & Hp & q & Hq & -> & Ha & t & Ht & H).
    destruct fuel as [|fuel]; [cbn in Hfuel; lia|].
    exists p, v, t. cbn [delete_loop]. rewrite (load_nodes _ _ _ Hq), bind_done.
    cbn [next]. rewrite (proj2 (Z.eqb_neq a NULL) Ha).
    rewrite (load_nodes _ _ _ Ht), bind_done. cbn [data]. rewrite Z.eqb_refl.
    split; [reflexivity|]. split; [exact Hq|]. split; [exact Ht|]. split; [exact Ha|].
    split; [now left|].
    intros hf Hz Hag Hnd. cbn [chain].
    split; [reflexivity|]. split; [exact Hp|]. exists t. split; [exact Hz|].
    apply (chain_agree (nodes st)); [|exact H].
    intros b Hb. apply Hag; [now right|].
    intros ->. apply NoDup_cons in Hnd as [Hnd _]. apply Hnd.
    apply list_elem_of_In. right. exact Hb.
  - destruct pre as [|v1 pre]; [discriminate Hlen|]. cbn [app] in *.
    cbn [chain] in H. destruct H as (_ & Hp & q & Hq & H).
    pose proof H as H'. cbn [chain] in H'. destruct H' as (-> & Ha1 & q1 & Hq1 & _).
    destruct fuel as [|fuel]; [cbn in Hfuel; lia|].
    destruct (IH fuel pre a1 v1 H ltac:(cbn in Hlen; lia)
                ltac:(intros Hin; apply Hx; now right)
                ltac:(cbn in Hfuel; lia))
      as (z & vz & t & Hd & Hz & Ht & Ha & Hin & Hk).
    exists z, vz, t. cbn [delete_loop]. rewrite (load_nodes _ _ _ Hq), bind_done.
    cbn [next]. rewrite (proj2 (Z.eqb_neq a1 NULL) Ha1).
    rewrite (load_nodes _ _ _ Hq1), bind_done. cbn [data].
    rewrite (proj2 (Z.eqb_neq v1 x)) by (intros ->; apply Hx; now left).
    split; [exact Hd|]. split; [exact Hz|]. split; [exact Ht|]. split; [exact Ha|].
    split; [now right|].
    intros hf Hfz Hag Hnd.
    apply NoDup_cons in Hnd as [Hpn Hnd].
    assert (Hpz : p <> z).
    { intros ->. apply Hpn. apply list_elem_of_In.
      change (In z ((a1 :: apre) ++ a :: apost)). apply in_app_iff. left. exact Hin. }
    cbn [chain]. split; [reflexivity|]. split; [exact Hp|].
    exists a1. split; [rewrite Hag by (auto; now left); exact Hq|].
    apply Hk; auto. intros b Hb Hbz. apply Hag; [now right|exact Hbz].
Qed.

(** *** [print] *)

Lemma print_chain (fuel : nat) (addrs vals : list Z) (st : state) (q : Z) :
  chain (nodes st) q addrs vals ->
  (length addrs < fuel)%nat ->
  print fuel st q
  = Done {| nodes := nodes st; blocks := blocks st; out := out st ++ map Item vals |}.
Proof.
  revert fuel vals st q. induction addrs as [|a addrs IH]; intros fuel vals st q H Hfuel.
  - destruct vals; [|cbn in H; contradiction]. cbn in H. subst q.
    destruct fuel; [cbn in Hfuel; lia|]. cbn. rewrite app_nil_r. now destruct st.
  - destruct vals as [|v vals]; [cbn in H; contradiction|].
    cbn in H. destruct H as (-> & Ha & q' & Hq & H).
    destruct fuel as [|fuel]; [cbn in Hfuel; lia|].
    cbn [print]. rewrite (proj2 (Z.eqb_neq a NULL) Ha).
    rewrite (load_nodes _ _ _ Hq), bind_done. cbn [data next].
    rewrite (IH fuel vals (emit (Item v) st) q') by (cbn; auto; cbn in Hfuel; lia).
    cbn [emit nodes blocks out map]. now rewrite <- app_assoc.
Qed.

(** *** The operations on a well-formed list *)

Lemma find_decides (fuel : nat) (st : state) (start key : Z) (addrs vals : list Z) :
  is_list st start addrs vals ->
  (length addrs < fuel)%nat ->
  find fuel st start key = Done (if bool_decide (key ∈ vals) then 1 else 0).
Proof.
  intros ([g Hc] & _ & _) Hfuel. cbn [chain] in Hc.
  destruct Hc as (_ & _ & q & Hq & Hc).
  unfold find. rewrite (load_nodes _ _ _ Hq), bind_done. cbn [next].
  now apply (find_loop_chain st key fuel addrs vals q).
Qed.

Lemma delete_absent (fuel : nat) (st : state) (start x : Z) (addrs vals : list Z) :
  is_list st start addrs vals ->
  (length addrs < fuel)%nat ->
  x ∉ vals ->
  delete fuel st start x = Done (emit (NotPresent x) st).
Proof.
  intros ([g Hc] & _ & _) Hfuel Hx.
  destruct (delete_loop_absent st x fuel addrs vals start g Hc
              ltac:(intros Hin; apply Hx, list_elem_of_In, Hin) Hfuel)
    as (z & vz & Hd & Hz).
  unfold delete. rewrite Hd, bind_done, (load_nodes _ _ _ Hz), bind_done.
  cbn [next]. now rewrite Z.eqb_refl.
Qed.

Lemma delete_present (fuel : nat) (st : state) (start x : Z)
    (addrs pre post : list Z) :
  is_list st start addrs (pre ++ x :: post) ->
  (length addrs < fuel)%nat ->
  x ∉ pre ->
  exists st' apre a apost,
    delete fuel st start x = Done st' /\
    addrs = apre ++ a :: apost /\ length apre = length pre /\
    is_list st' start (apre ++ apost) (pre ++ post) /\
    nodes st' !! a = None /\
    dom (nodes st') = dom (nodes st) ∖ {[a]} /\
    blocks st' = blocks st /\ out st' = out st.
Proof.
  intros ([g Hc] & Hnd & Hnull) Hfuel Hx.
  (* the addresses split as the values do *)
  pose proof (chain_length _ _ _ _ Hc) as Hlen. cbn [length] in Hlen.
  apply Nat.succ_inj in Hlen. rewrite length_app in Hlen. cbn [length] in Hlen.
  assert (Hsplit : exists apre a apost, addrs = apre ++ a :: apost /\
                                        length apre = length pre).
  { exists (take (length pre) addrs).
    destruct (drop (length pre) addrs) as [|a apost] eqn:Ed.
    - exfalso. apply (f_equal length) in Ed. rewrite length_drop in Ed. cbn in Ed. lia.
    - exists a, apost. split; [now rewrite <- Ed, take_drop|].
      rewrite length_take. lia. }
  destruct Hsplit as (apre & a & apost & -> & Hlp).
  destruct (delete_loop_present st x a fuel apre apost pre post start g Hc Hlp
              ltac:(intros Hin; apply Hx, list_elem_of_In, Hin)
              ltac:(rewrite length_app in Hfuel; lia))
    as (z & vz & t & Hd & Hz & Ht & Ha & Hin & Hk).
  assert (Hza : z <> a).
  { intros ->. apply NoDup_ListNoDup in Hnd.
    change (start :: apre ++ a :: apost) with ((start :: apre) ++ a :: apost) in Hnd.
    apply NoDup_remove_2 in Hnd. apply Hnd, in_app_iff. now left. }
  assert (Hzn : z <> NULL) by (intros E; rewrite E in Hz; congruence).
  exists (with_nodes (base.delete a (<[z := {| data := vz; next := t |}]> (nodes st))) st),
    apre, a, apost.
  split.
  { unfold delete. rewrite Hd, bind_done, (load_nodes _ _ _ Hz), bind_done.
    cbn [next]. rewrite (proj2 (Z.eqb_neq a NULL) Ha).
    rewrite (load_nodes _ _ _ Ht), bind_done.
    rewrite (store_next_done st z (next {| data := x; next := t |}) _ Hz), bind_done.
    cbn [data next]. unfold free_node. rewrite (proj2 (Z.eqb_neq a NULL) Ha).
    cbn [nodes with_nodes]. rewrite lookup_insert_ne by exact Hza. rewrite Ht.
    reflexivity. }
  split; [reflexivity|]. split; [exact Hlp|].
  unfold is_list. cbn [nodes blocks out with_nodes].
  split; [|split; [|split; [|split; reflexivity]]].
  - split; [|split].
    + exists g. apply Hk; [| |exact Hnd].
      * rewrite lookup_delete_ne by congruence. apply lookup_insert_eq.
      * intros b Hb Hbz.
        assert (b <> a).
        { intros ->. apply NoDup_ListNoDup in Hnd.
          change (start :: apre ++ a :: apost) with ((start :: apre) ++ a :: apost) in Hnd.
          apply NoDup_remove_2 in Hnd. apply Hnd.
          change (start :: apre ++ apost) with ((start :: apre) ++ apost) in Hb.
          exact Hb. }
        rewrite lookup_delete_ne, lookup_insert_ne by congruence. reflexivity.
    + apply NoDup_ListNoDup. apply NoDup_ListNoDup in Hnd.
      change (start :: apre ++ a :: apost) with ((start :: apre) ++ a :: apost) in Hnd.
      apply NoDup_remove_1 in Hnd. exact Hnd.
    + rewrite lookup_delete_ne, lookup_insert_ne by congruence. exact Hnull.
  - apply lookup_delete_eq.
  - rewrite dom_delete_L, dom_insert_L.
    assert (Hzd : {[z]} ∪ dom (nodes st) = dom (nodes st)).
    { apply subseteq_union_1_L, singleton_subseteq_l, elem_of_dom. eauto. }
    now rewrite Hzd.
Qed.

Lemma insert_sound (fuel : nat) (e : env) (st : state) (start x : Z)
    (addrs vals : list Z) :
  sound e ->
  is_list st start addrs vals ->
  (length addrs < fuel)%nat ->
  exists a st',
    insert fuel e st start x = Done st' /\
    is_list st' start (addrs ++ [a]) (vals ++ [x]) /\
    (a ∉ allocated st) /\
    blocks st' = blocks st /\ out st' = out st /\
    dom (nodes st') = {[a]} ∪ dom (nodes st).
Proof.
  intros He Hl Hfuel. destruct (He (allocated st)) as [Hnn Hfresh].
  destruct (insert_appends_at fuel e st start x addrs vals Hl Hfuel Hnn Hfresh)
    as (st' & Hi & Hl' & Hb & Ho & Hdom & _).
  exists (malloc e (allocated st)), st'. auto 10.
Qed.

Lemma is_list_blocks (st : state) (start : Z) (addrs vals : list Z)
    (b : gset Z) (o : list event) :
  is_list st start addrs vals ->
  is_list {| nodes := nodes st; blocks := b; out := o |} start addrs vals.
Proof. intros H. exact H. Qed.

(** X23.  [insert] appends: on a well-formed list, with an allocator
    that returns a fresh block, it ends within [length + 1] steps of its
    loop and leaves the former list followed by the new value, in a node
    that was not in use before; [find] of that value then answers 1.
    Nothing is printed and no other block is touched. *)
Theorem insert_then_find (fuel : nat) (e : env) (st : state) (start x : Z)
    (addrs vals : list Z) :
  sound e ->
  is_list st start addrs vals ->
  (length addrs < fuel)%nat ->
  exists a st',
    insert fuel e st start x = Done st' /\
    is_list st' start (addrs ++ [a]) (vals ++ [x]) /\
    (a ∉ allocated st) /\
    blocks st' = blocks st /\ out st' = out st /\
    find (S fuel) st' start x = Done 1.
Proof.
  intros He Hl Hfuel.
  destruct (insert_sound fuel e st start x addrs vals He Hl Hfuel)
    as (a & st' & Hi & Hl' & Ha & Hb & Ho & _).
  exists a, st'. split; [exact Hi|]. split; [exact Hl'|]. split; [exact Ha|].
  split; [exact Hb|]. split; [exact Ho|].
  rewrite (find_decides (S fuel) st' start x _ _ Hl')
    by (rewrite length_app; cbn [length]; lia).
  rewrite bool_decide_eq_true_2; [reflexivity|].
  apply elem_of_app. right. apply list_elem_of_here.
Qed.

(** *** Step by step through [main] *)

Lemma holds_length (st : state) (start : Z) (addrs vals : list Z) :
  is_list st start addrs vals -> length addrs = length vals.
Proof.
  intros ([g Hc] & _). apply chain_length in Hc. cbn [length] in Hc. lia.
Qed.

Lemma insert_step (fuel : nat) (e : env) (st : state) (start x : Z) (vals : list Z) :
  sound e -> holds st start vals -> (length vals < fuel)%nat ->
  exists st',
    insert fuel e st start x = Done st' /\
    holds st' start (vals ++ [x]) /\
    blocks st' = blocks st /\ out st' = out st.
Proof.
  intros He [addrs Hl] Hfuel.
  destruct (insert_sound fuel e st start x addrs vals He Hl
              ltac:(rewrite (holds_length _ _ _ _ Hl); exact Hfuel))
    as (a & st' & Hi & Hl' & _ & Hb & Ho & _).
  exists st'. split; [exact Hi|]. split; [eexists; exact Hl'|]. auto.
Qed.

Lemma delete_step (fuel : nat) (st : state) (start x : Z) (pre post : list Z) :
  holds st start (pre ++ x :: post) -> (length (pre ++ x :: post) < fuel)%nat ->
  x ∉ pre ->
  exists st',
    delete fuel st start x = Done st' /\
    holds st' start (pre ++ post) /\
    blocks st' = blocks st /\ out st' = out st.
Proof.
  intros [addrs Hl] Hfuel Hx.
  destruct (delete_present fuel st start x addrs pre post Hl
              ltac:(rewrite (holds_length _ _ _ _ Hl); exact Hfuel) Hx)
    as (st' & apre & a & apost & Hd & _ & _ & Hl' & _ & _ & Hb & Ho).
  exists st'. split; [exact Hd|]. split; [eexists; exact Hl'|]. auto.
Qed.

Lemma find_step (fuel : nat) (st : state) (start key : Z) (vals : list Z) :
  holds st start vals -> (length vals < fuel)%nat ->
  find fuel st start key = Done (if bool_decide (key ∈ vals) then 1 else 0).
Proof.
  intros [addrs Hl] Hfuel. apply (find_decides fuel st start key addrs vals Hl).
  now rewrite (holds_length _ _ _ _ Hl).
Qed.

Lemma print_step (fuel : nat) (st : state) (start : Z) (vals : list Z) :
  holds st start vals -> (length vals < fuel)%nat ->
  exists n,
    load st start = Done n /\
    print fuel st (next n)
    = Done {| nodes := nodes st; blocks := blocks st; out := out st ++ map Item vals |}.
Proof.
  intros [addrs Hl] Hfuel. pose proof (holds_length _ _ _ _ Hl) as Hlen.
  destruct Hl as ([g Hc] & _ & _). cbn [chain] in Hc.
  destruct Hc as (_ & _ & q & Hq & Hc).
  eexists. split; [apply load_nodes; exact Hq|]. cbn [next].
  apply (print_chain fuel addrs vals st q Hc). lia.
Qed.

Lemma holds_same_nodes (st st' : state) (start : Z) (vals : list Z) :
  nodes st' = nodes st -> holds st start vals -> holds st' start vals.
Proof.
  intros E [addrs (Hc & Hnd & Hnull)]. exists addrs. unfold is_list. now rewrite E.
Qed.

Lemma malloc_block_step (e : env) (st : state) (start : Z) (vals : list Z) :
  sound e -> holds st start vals ->
  exists p st',
    malloc_block e st = (p, st') /\
    p <> NULL /\ (p ∉ blocks st) /\
    blocks st' = {[p]} ∪ blocks st /\
    holds st' start vals /\ out st' = out st.
Proof.
  intros He Hl. destruct (He (allocated st)) as [Hnn Hfresh].
  unfold malloc_block. rewrite (proj2 (Z.eqb_neq _ NULL) Hnn).
  eexists _, _. split; [reflexivity|]. split; [exact Hnn|].
  split; [intros Hin; apply Hfresh, elem_of_union; now right|].
  split; [reflexivity|]. split; [|reflexivity].
  now apply (holds_same_nodes st).
Qed.

Lemma free_block_step (p : Z) (st : state) (start : Z) (vals : list Z) :
  p <> NULL -> p ∈ blocks st -> holds st start vals ->
  exists st',
    free_block p st = Done st' /\
    blocks st' = blocks st ∖ {[p]} /\
    holds st' start vals /\ out st' = out st.
Proof.
  intros Hnn Hin Hl. unfold free_block.
  rewrite (proj2 (Z.eqb_neq _ NULL) Hnn). rewrite decide_True by exact Hin.
  eexists. split; [reflexivity|]. split; [reflexivity|]. split; [|reflexivity].
  now apply (holds_same_nodes st).
Qed.

Lemma first_node (e : env) :
  sound e ->
  exists start st,
    malloc_node e empty = (start, st) /\
    exists st0, store_next st start NULL = Done st0 /\
      holds st0 start [] /\ blocks st0 = ∅ /\ out st0 = [].
Proof.
  intros He. destruct (He (allocated empty)) as [Hnn _].
  unfold malloc_node. rewrite (proj2 (Z.eqb_neq _ NULL) Hnn).
  set (start := malloc e (allocated empty)) in *.
  eexists _, _. split; [reflexivity|].
  rewrite (store_next_done _ start NULL (junk e start))
    by (cbn; apply lookup_insert_eq).
  eexists. split; [reflexivity|]. split; [|split; reflexivity].
  exists []. unfold is_list. cbn [nodes with_nodes empty]. split; [|split].
  - exists (data (junk e start)). cbn [chain].
    split; [reflexivity|]. split; [exact Hnn|]. exists NULL.
    split; [apply lookup_insert_eq|reflexivity].
  - apply NoDup_singleton.
  - rewrite !lookup_insert_ne by congruence. apply lookup_empty.
Qed.

Ltac insert_next He st L B O st' L' B' O' :=
  let E := fresh "E" in
  match goal with
  | |- context [insert ?fuel ?e st ?start ?x] =>
      destruct (insert_step fuel e st start x _ He L ltac:(cbn [length app]; lia))
        as (st' & E & L' & B' & O');
      rewrite E, bind_done; cbv beta;
      rewrite B in B'; rewrite O in O'; cbn [app] in L';
      clear E L B O
  end.

Ltac block_next He st L B O p Hp Hf st' L' B' O' :=
  let E := fresh "E" in
  match goal with
  | |- context [malloc_block ?e st] =>
      destruct (malloc_block_step e st _ _ He L) as (p & st' & E & Hp & Hf & B' & L' & O');
      rewrite E; cbv beta iota;
      rewrite B in B', Hf; rewrite O in O';
      clear E L B O
  end.

Ltac free_next st L B O p Hp st' L' B' O' :=
  let E := fresh "E" in
  let Hin := fresh "Hin" in
  assert (Hin : p ∈ blocks st)
    by (rewrite B, ?elem_of_difference, ?elem_of_union, ?elem_of_singleton; auto 8);
  destruct (free_block_step p st _ _ Hp Hin L) as (st' & E & B' & L' & O');
  rewrite E, bind_done; cbv beta;
  rewrite B in B'; rewrite O in O';
  clear E Hin L B O.

(** X27.  With an allocator that never fails and never returns a block
    in use, and 16 steps or more for each loop, [main] of
    [linkedlist.c] returns 0 having printed, in this order: that 2 is
    not found (it was inserted, then deleted), that 5 is found, and the
    list 5 10 22 7 9 2 11 11 77 62 29; at the end the four auxiliary
    blocks are freed and the list, 5 deleted, holds the ten other
    values.  With an allocator that has no memory left, the first store
    through the unchecked result of [malloc] faults. *)
Theorem linkedlist_main_output (fuel : nat) (e : env) :
  sound e -> (16 <= fuel)%nat ->
  (exists start st,
     main fuel e = Done (0, start, st) /\
     out st = [ElementNotFound; ElementFound; TheListIs;
               Item 5; Item 10; Item 22; Item 7; Item 9; Item 2; Item 11; Item 11;
               Item 77; Item 62; Item 29; Newline] /\
     holds st start [10; 22; 7; 9; 2; 11; 11; 77; 62; 29] /\
     blocks st = ∅) /\
  main fuel exhausted = Fault.
Proof.
  intros He Hfuel. split; [|reflexivity].
  unfold main.
  destruct (first_node e He) as (start & stm & Em & s0 & Es & L0 & B0 & O0).
  rewrite Em. cbv beta iota. rewrite Es, bind_done. cbv beta.
  insert_next He s0 L0 B0 O0 s1 L1 B1 O1.
  (* delete(start, 2) *)
  destruct (delete_step fuel s1 start 2 [] [] L1 ltac:(cbn; lia)
              ltac:(apply not_elem_of_nil)) as (s2 & E & L2 & B2 & O2).
  rewrite E, bind_done. cbv beta. rewrite B1 in B2. rewrite O1 in O2.
  cbn [app] in L2. clear E L1 B1 O1.
  (* find(start, 2) *)
  rewrite (find_step fuel s2 start 2 [] L2) by (cbn; lia).
  rewrite bind_done. cbv beta.
  change (bool_decide (2 ∈ [])) with false. cbv iota.
  change (report 0 s2) with (emit ElementNotFound s2).
  set (s3 := emit ElementNotFound s2).
  assert (L3 : holds s3 start []) by (now apply (holds_same_nodes s2)).
  assert (B3 : blocks s3 = ∅) by exact B2.
  assert (O3 : out s3 = [ElementNotFound]) by (cbn [s3 emit out]; now rewrite O2).
  clearbody s3. clear L2 B2 O2.
  insert_next He s3 L3 B3 O3 s4 L4 B4 O4.
  insert_next He s4 L4 B4 O4 s5 L5 B5 O5.
  block_next He s5 L5 B5 O5 p1 Hp1 Hf1 s6 L6 B6 O6.
  insert_next He s6 L6 B6 O6 s7 L7 B7 O7.
  block_next He s7 L7 B7 O7 p2 Hp2 Hf2 s8 L8 B8 O8.
  insert_next He s8 L8 B8 O8 s9 L9 B9 O9.
  insert_next He s9 L9 B9 O9 s10 L10 B10 O10.
  insert_next He s10 L10 B10 O10 s11 L11 B11 O11.
  block_next He s11 L11 B11 O11 p3 Hp3 Hf3 s12 L12 B12 O12.
  insert_next He s12 L12 B12 O12 s13 L13 B13 O13.
  insert_next He s13 L13 B13 O13 s14 L14 B14 O14.
  insert_next He s14 L14 B14 O14 s15 L15 B15 O15.
  block_next He s15 L15 B15 O15 p4 Hp4 Hf4 s16 L16 B16 O16.
  insert_next He s16 L16 B16 O16 s17 L17 B17 O17.
  insert_next He s17 L17 B17 O17 s18 L18 B18 O18.
  (* the four blocks are distinct *)
  assert (D21 : p2 <> p1).
  { intros ->. apply Hf2. rewrite !elem_of_union, !elem_of_singleton. auto. }
  assert (D3 : p3 <> p1 /\ p3 <> p2).
  { split; intros ->; apply Hf3; rewrite !elem_of_union, !elem_of_singleton; auto. }
  assert (D4 : p4 <> p1 /\ p4 <> p2 /\ p4 <> p3).
  { repeat split; intros ->; apply Hf4; rewrite !elem_of_union, !elem_of_singleton; auto. }
  destruct D3 as [D31 D32]. destruct D4 as (D41 & D42 & D43).
  free_next s18 L18 B18 O18 p1 Hp1 s19 L19 B19 O19.
  free_next s19 L19 B19 O19 p2 Hp2 s20 L20 B20 O20.
  free_next s20 L20 B20 O20 p3 Hp3 s21 L21 B21 O21.
  free_next s21 L21 B21 O21 p4 Hp4 s22 L22 B22 O22.
  assert (B23 : blocks s22 = ∅).
  { rewrite B22. apply set_eq. intros p.
    rewrite !elem_of_difference, !elem_of_union, !elem_of_singleton, elem_of_empty.
    tauto. }
  clear B22.
  (* find(start, 5) *)
  rewrite (find_step fuel s22 start 5 _ L22) by (cbn; lia).
  rewrite bind_done. cbv beta.
  rewrite bool_decide_eq_true_2 by apply list_elem_of_here. cbv iota.
  change (report 1 s22) with (emit ElementFound s22).
  set (s23 := emit TheListIs (emit ElementFound s22)).
  assert (L23 : holds s23 start [5; 10; 22; 7; 9; 2; 11; 11; 77; 62; 29])
    by (now apply (holds_same_nodes s22)).
  assert (O23 : out s23 = [ElementNotFound; ElementFound; TheListIs])
    by (cbn [s23 emit out]; now rewrite O22).
  assert (B24 : blocks s23 = ∅) by exact B23.
  clearbody s23. clear L22 O22 B23.
  destruct (print_step fuel s23 start _ L23 ltac:(cbn; lia)) as (n & En & Ep).
  rewrite En, bind_done. cbv beta. rewrite Ep, bind_done. cbv beta.
  set (s24 := emit Newline _).
  assert (L24 : holds s24 start [5; 10; 22; 7; 9; 2; 11; 11; 77; 62; 29])
    by (now apply (holds_same_nodes s23)).
  assert (O24 : out s24
                = [ElementNotFound; ElementFound; TheListIs;
                   Item 5; Item 10; Item 22; Item 7; Item 9; Item 2; Item 11; Item 11;
                   Item 77; Item 62; Item 29; Newline])
    by (cbn [s24 emit out map]; now rewrite O23).
  assert (B25 : blocks s24 = ∅) by exact B24.
  clearbody s24. clear En Ep L23 O23 B24.
  destruct (delete_step fuel s24 start 5 [] _ L24 ltac:(cbn; lia)
              ltac:(apply not_elem_of_nil)) as (s25 & E & L25 & B26 & O25).
  rewrite E, bind_done. cbv beta. cbn [app] in L25.
  exists start, s25. split; [reflexivity|].
  split; [now rewrite O25|]. split; [exact L25|]. now rewrite B26.
Qed.

(** *** The example allocator and the example list *)

Lemma bump_sound : sound bump.
Proof.
  intros used. cbn [bump malloc]. unfold set_fold. cbn [compose].
  assert (H : forall l : list Z,
            4080 <= foldr Z.max 4080 l /\ forall x, x ∈ l -> x <= foldr Z.max 4080 l).
  { induction l as [|y l [IH1 IH2]]; cbn [foldr].
    - split; [lia|]. intros x Hx. now apply not_elem_of_nil in Hx.
    - split; [lia|]. intros x Hx. apply elem_of_cons in Hx as [->|Hx]; [lia|].
      specialize (IH2 x Hx). lia. }
  destruct (H (elements used)) as [H1 H2].
  split; [unfold NULL; lia|].
  intros Hin. apply elem_of_elements, H2 in Hin. lia.
Qed.

Lemma example_list_holds : is_list example_list 100 [200; 300; 400] [7; 9; 7].
Proof.
  unfold is_list, example_list. cbn [nodes chain]. split; [|split].
  - exists 0. unfold NULL.
    repeat (split; [reflexivity|]; split; [lia|]; eexists; split; [reflexivity|]).
    reflexivity.
  - apply NoDup_ListNoDup. repeat constructor; cbn; intuition lia.
  - reflexivity.
Qed.

Lemma insert_then_find_witness :
  exists a st',
    insert 4 bump example_list 100 5 = Done st' /\
    is_list st' 100 ([200; 300; 400] ++ [a]) ([7; 9; 7] ++ [5]) /\
    (a ∉ allocated example_list) /\
    blocks st' = blocks example_list /\ out st' = out example_list /\
    find 5 st' 100 5 = Done 1.
Proof.
  apply (insert_then_find 4 bump example_list 100 5 [200; 300; 400] [7; 9; 7]).
  - exact bump_sound.
  - exact example_list_holds.
  - cbn. lia.
Defined.

(** X24.  [insert] does not check the result of [malloc]: when the
    allocation fails, [NULL] is linked as the next node and the store of
    the value through it faults. *)
Theorem insert_faults_without_memory (fuel : nat) (e : env) (st : state) (start x : Z)
    (addrs vals : list Z) :
  is_list st start addrs vals ->
  (length addrs < fuel)%nat ->
  malloc e (allocated st) = NULL ->
  insert fuel e st start x = Fault.
Proof. apply insert_without_memory. Qed.

Lemma insert_faults_without_memory_witness :
  insert 4 exhausted example_list 100 5 = Fault.
Proof.
  apply (insert_faults_without_memory 4 exhausted example_list 100 5
           [200; 300; 400] [7; 9; 7]).
  - exact example_list_holds.
  - cbn. lia.
  - reflexivity.
Defined.

(** X25.  On a well-formed list [find] ends within [length + 1] steps
    and answers 1 exactly when the key is among the values of the list,
    0 otherwise; the sentinel's own field is never looked at. *)
Theorem find_answers_membership (fuel : nat) (st : state) (start key : Z)
    (addrs vals : list Z) :
  is_list st start addrs vals ->
  (length addrs < fuel)%nat ->
  (find fuel st start key = Done 1 <-> key ∈ vals) /\
  (find fuel st start key = Done 0 <-> key ∉ vals) /\
  (forall g', find fuel
                (with_nodes (<[start := {| data := g';
                                           next := match nodes st !! start with
                                                   | Some n => next n
                                                   | None => NULL
                                                   end |}]> (nodes st)) st)
                start key
              = find fuel st start key).
Proof.
  intros Hl Hfuel.
  rewrite (find_decides fuel st start key addrs vals Hl Hfuel).
  split; [|split].
  - destruct (bool_decide_reflect (key ∈ vals)); split; auto; try discriminate.
    intros; contradiction.
  - destruct (bool_decide_reflect (key ∈ vals)); split; auto; try discriminate.
    intros; contradiction.
  - intros g'. destruct Hl as ([g Hc] & Hnd & Hnull). cbn [chain] in Hc.
    destruct Hc as (_ & Hs & q & Hq & Hc). rewrite Hq. cbn [next].
    unfold find at 1. unfold load. cbn [nodes with_nodes].
    rewrite lookup_insert_eq, bind_done. cbn [next].
    rewrite (find_loop_chain _ key fuel addrs vals q); [reflexivity| |exact Hfuel].
    cbn [nodes with_nodes]. apply (chain_agree (nodes st)); [|exact Hc].
    intros a Ha. apply lookup_insert_ne. intros ->.
    apply NoDup_cons in Hnd as [Hnd _]. apply Hnd, list_elem_of_In, Ha.
Qed.

Lemma find_answers_membership_witness :
  (find 4 example_list 100 9 = Done 1 <-> 9 ∈ [7; 9; 7]) /\
  (find 4 example_list 100 9 = Done 0 <-> 9 ∉ [7; 9; 7]) /\
  (forall g', find 4
                (with_nodes (<[100 := {| data := g';
                                         next := match nodes example_list !! 100 with
                                                 | Some n => next n
                                                 | None => NULL
                                                 end |}]> (nodes example_list))
                   example_list)
                100 9
              = find 4 example_list 100 9).
Proof.
  apply (find_answers_membership 4 example_list 100 9 [200; 300; 400] [7; 9; 7]).
  - exact example_list_holds.
  - cbn. lia.
Defined.

(** X26.  [delete] removes the first node that holds the value and
    frees it, leaving the values before and after it in order (a later
    duplicate stays in the list) and printing nothing; when the value is
    not in the list it prints that the element is not present and leaves
    the memory as it was. *)
Theorem delete_removes_first (fuel : nat) (st : state) (start x : Z)
    (addrs vals : list Z) :
  is_list st start addrs vals ->
  (length addrs < fuel)%nat ->
  (x ∉ vals -> delete fuel st start x = Done (emit (NotPresent x) st)) /\
  (forall pre post, vals = pre ++ x :: post -> x ∉ pre ->
     exists st' apre a apost,
       delete fuel st start x = Done st' /\
       addrs = apre ++ a :: apost /\ length apre = length pre /\
       is_list st' start (apre ++ apost) (pre ++ post) /\
       nodes st' !! a = None /\
       dom (nodes st') = dom (nodes st) ∖ {[a]} /\
       blocks st' = blocks st /\ out st' = out st).
Proof.
  intros Hl Hfuel. split.
  - intros Hx. now apply (delete_absent fuel st start x addrs vals).
  - intros pre post -> Hx. now apply delete_present.
Qed.

Lemma delete_removes_first_witness :
  (7 ∉ [7; 9; 7] -> delete 4 example_list 100 7 = Done (emit (NotPresent 7) example_list)) /\
  (forall pre post, [7; 9; 7] = pre ++ 7 :: post -> 7 ∉ pre ->
     exists st' apre a apost,
       delete 4 example_list 100 7 = Done st' /\
       [200; 300; 400] = apre ++ a :: apost /\ length apre = length pre /\
       is_list st' 100 (apre ++ apost) (pre ++ post) /\
       nodes st' !! a = None /\
       dom (nodes st') = dom (nodes example_list) ∖ {[a]} /\
       blocks st' = blocks example_list /\ out st' = out example_list).
Proof.
  apply (delete_removes_first 4 example_list 100 7 [200; 300; 400] [7; 9; 7]).
  - exact example_list_holds.
  - cbn. lia.
Defined.

Lemma linkedlist_main_output_witness :
  (exists start st,
     main 16 bump = Done (0, start, st) /\
     out st = [ElementNotFound; ElementFound; TheListIs;
               Item 5; Item 10; Item 22; Item 7; Item 9; Item 2; Item 11; Item 11;
               Item 77; Item 62; Item 29; Newline] /\
     holds st start [10; 22; 7; 9; 2; 11; 11; 77; 62; 29] /\
     blocks st = ∅) /\
  main 16 exhausted = Fault.
Proof.
  apply (linkedlist_main_output 16 bump).
  - exact bump_sound.
  - lia.
Defined.

(** X29.  [print] writes the values of the list, from the node it is
    given to the end, in order, one item each; it ends within
    [length + 1] calls and changes nothing in memory. *)
Theorem print_lists_values (fuel : nat) (st : state) (start : Z) (addrs vals : list Z) :
  is_list st start addrs vals ->
  (length addrs < fuel)%nat ->
  exists n st',
    load st start = Done n /\
    print fuel st (next n) = Done st' /\
    out st' = out st ++ map Item vals /\
    nodes st' = nodes st /\ blocks st' = blocks st /\
    print fuel st NULL = Done st.
Proof.
  intros Hl Hfuel.
  destruct (print_step fuel st start vals ltac:(eexists; exact Hl)
              ltac:(rewrite <- (holds_length _ _ _ _ Hl); exact Hfuel)) as (n & En & Ep).
  exists n. eexists. split; [exact En|]. split; [exact Ep|].
  cbn [out nodes blocks]. repeat split.
  destruct fuel; [lia|]. reflexivity.
Qed.

Lemma print_lists_values_witness :
  exists n st',
    load example_list 100 = Done n /\
    print 4 example_list (next n) = Done st' /\
    out st' = out example_list ++ map Item [7; 9; 7] /\
    nodes st' = nodes example_list /\ blocks st' = blocks example_list /\
    print 4 example_list NULL = Done example_list.
Proof.
  apply (print_lists_values 4 example_list 100 [200; 300; 400] [7; 9; 7]).
  - exact example_list_holds.
  - cbn. lia.
Defined.

(** X30.  Inserting a value that the list does not hold and deleting
    it again gives the list back: the same values in the same nodes,
    the node allocated in between freed, so that the set of allocated
    addresses is what it was, and nothing printed. *)
Theorem insert_then_delete_restores (fuel : nat) (e : env) (st : state) (start x : Z)
    (addrs vals : list Z) :
  sound e ->
  is_list st start addrs vals ->
  x ∉ vals ->
  (S (length addrs) < fuel)%nat ->
  exists st1 st2,
    insert fuel e st start x = Done st1 /\
    delete fuel st1 start x = Done st2 /\
    is_list st2 start addrs vals /\
    dom (nodes st2) = dom (nodes st) /\
    blocks st2 = blocks st /\ out st2 = out st.
Proof.
  intros He Hl Hx Hfuel.
  destruct (insert_sound fuel e st start x addrs vals He Hl ltac:(lia))
    as (a & st1 & Hi & Hl1 & Ha & Hb1 & Ho1 & Hd1).
  destruct (delete_present fuel st1 start x (addrs ++ [a]) vals [] Hl1
              ltac:(rewrite length_app; cbn [length]; lia) Hx)
    as (st2 & apre & a' & apost & Hdel & Hsplit & Hlen & Hl2 & _ & Hd2 & Hb2 & Ho2).
  pose proof (holds_length _ _ _ _ Hl) as Hlv. rewrite <- Hlv in Hlen.
  assert (Hparts : apre = addrs /\ a' :: apost = [a]).
  { apply app_inj_1; [exact Hlen|]. symmetry. exact Hsplit. }
  destruct Hparts as [-> Hlast]. injection Hlast as -> ->.
  rewrite !app_nil_r in Hl2.
  exists st1, st2. split; [exact Hi|]. split; [exact Hdel|]. split; [exact Hl2|].
  split; [|split; congruence].
  rewrite Hd2, Hd1.
  assert (Hnot : a ∉ dom (nodes st)).
  { intros Hin. apply Ha, elem_of_union. now left. }
  apply set_eq. intros b.
  rewrite elem_of_difference, elem_of_union, elem_of_singleton.
  split; [tauto|]. intros Hb. split; [now right|]. intros ->. contradiction.
Qed.

Lemma insert_then_delete_restores_witness :
  exists st1 st2,
    insert 5 bump example_list 100 5 = Done st1 /\
    delete 5 st1 100 5 = Done st2 /\
    is_list st2 100 [200; 300; 400] [7; 9; 7] /\
    dom (nodes st2) = dom (nodes example_list) /\
    blocks st2 = blocks example_list /\ out st2 = out example_list.
Proof.
  apply (insert_then_delete_restores 5 bump example_list 100 5 [200; 300; 400] [7; 9; 7]).
  - exact bump_sound.
  - exact example_list_holds.
  - intros Hin. apply list_elem_of_In in Hin. cbn in Hin. intuition lia.
  - cbn. lia.
Defined.
